(** * BambooTracker: the instrument manager and the OPNA controller

    A shallow embedding of [InstrumentsManager] (instruments_manager.cpp),
    of [EnvelopeFM] (envelope_fm.cpp) and of the tick, direct-register and
    ADPCM-storage paths of [OPNAController] (opna_controller.cpp), with the
    properties the specification states about them.

    Conventions.
    - A C++ [int] is a [Z]; no computation modelled here leaves the range of
      a 32-bit integer, so wrap-around is only written out where the source
      narrows a value ([uint8_t], [uint16_t], [size_t]).
    - [std::array<_, 128>] is a [list] read with [at_] (the checked [at()])
      or [idx] (the unchecked [operator[]]).
    - A call that throws or that has undefined behaviour yields [Fail]; the
      state it leaves behind is not observed. *)

From Stdlib Require Import ZArith Lia.
From stdpp Require Import base list strings numbers sets sorting.
Local Open Scope Z_scope.
Local Set Warnings "-clear-no-such-hyp".
#[local] Set Default Proof Using "Type*".

(** ** Results of fallible calls and the state-and-error monad *)

Inductive Fault :=
| OutOfRange   (* std::out_of_range, thrown by at() *)
| Undefined.   (* null dereference, unchecked index beyond an array *)

Inductive Result (A : Type) :=
| Ok (a : A)
| Fail (e : Fault).
Arguments Ok {A} a.
Arguments Fail {A} e.

Definition isOk {A} (r : Result A) : bool :=
  match r with Ok _ => true | Fail _ => false end.

Definition StateErr (S A : Type) : Type := S → Result (A * S).

#[global] Instance StateErr_ret {S} : MRet (StateErr S) :=
  λ A a s, Ok (a, s).
#[global] Instance StateErr_bind {S} : MBind (StateErr S) :=
  λ A B f c s, match c s with Ok (a, s') => f a s' | Fail e => Fail e end.

Definition raise {S A} (e : Fault) : StateErr S A := λ _, Fail e.
Definition gets {S A} (f : S → A) : StateErr S A := λ s, Ok (f s, s).
Definition modify {S} (f : S → S) : StateErr S unit := λ s, Ok (tt, f s).
Definition lift {S A} (r : Result A) : StateErr S A :=
  λ s, match r with Ok a => Ok (a, s) | Fail e => Fail e end.

(** [for (auto x : xs) body(x)] over a container that the body leaves alone. *)
Fixpoint forM_ {S A} (xs : list A) (body : A → StateErr S unit) : StateErr S unit :=
  match xs with
  | [] => mret tt
  | x :: xs' => body x ;; forM_ xs' body
  end.

(** The same loop threading a local object through the iterations. *)
Fixpoint foldM {S A B} (body : B → A → StateErr S B) (b : B) (xs : list A)
  : StateErr S B :=
  match xs with
  | [] => mret b
  | x :: xs' => b' ← body b x; foldM body b' xs'
  end.

(** Checked and unchecked indexing with an [int] cast to [size_t]: a
    negative index becomes a huge one and is out of range as well. *)
Definition lookupZ {A} (l : list A) (i : Z) : option A :=
  if 0 <=? i then l !! Z.to_nat i else None.

Definition at_ {A} (l : list A) (i : Z) : Result A :=
  match lookupZ l i with Some a => Ok a | None => Fail OutOfRange end.

Definition idx {A} (l : list A) (i : Z) : Result A :=
  match lookupZ l i with Some a => Ok a | None => Fail Undefined end.

Definition size {A} (l : list A) : Z := Z.of_nat (length l).

(** ** Enumerations *)

Inductive SoundSource := FM | SSG | DRUM | ADPCM.

Inductive FMOperatorType := All | Op1 | Op2 | Op3 | Op4.

Inductive FMEnvelopeParameter :=
| AL | FB
| AR1 | DR1 | SR1 | RR1 | SL1 | TL1 | KS1 | ML1 | DT1 | SSGEG1
| AR2 | DR2 | SR2 | RR2 | SL2 | TL2 | KS2 | ML2 | DT2 | SSGEG2
| AR3 | DR3 | SR3 | RR3 | SL3 | TL3 | KS3 | ML3 | DT3 | SSGEG3
| AR4 | DR4 | SR4 | RR4 | SL4 | TL4 | KS4 | ML4 | DT4 | SSGEG4.

Inductive FMLFOParameter := FREQ | PMS | AMS | AM1 | AM2 | AM3 | AM4 | Count.

Inductive SequenceType :=
| NO_SEQUENCE_TYPE | FIXED_SEQUENCE | ABSOLUTE_SEQUENCE | RELATIVE_SEQUENCE.

#[global] Instance SoundSource_eq_dec : EqDecision SoundSource.
Proof. solve_decision. Defined.
#[global] Instance FMOperatorType_eq_dec : EqDecision FMOperatorType.
Proof. solve_decision. Defined.
#[global] Instance FMEnvelopeParameter_eq_dec : EqDecision FMEnvelopeParameter.
Proof. solve_decision. Defined.
#[global] Instance SequenceType_eq_dec : EqDecision SequenceType.
Proof. solve_decision. Defined.

(** ** envelope_fm.cpp *)

(** [EnvelopeFM::FMOperator], a plain struct of the header; its fields are
    the ones [initParamMap] and [isEdited] name. *)
Record FMOperator := mkFMOperator {
  enabled_ : bool;
  ar_ : Z; dr_ : Z; sr_ : Z; rr_ : Z; sl_ : Z;
  tl_ : Z; ks_ : Z; ml_ : Z; dt_ : Z; ssgeg_ : Z
}.

#[global] Instance FMOperator_eq_dec : EqDecision FMOperator.
Proof. solve_decision. Defined.

(** Modelled from the spec: the comparison of two [FMOperator] structs,
    declared in envelope_fm.hpp, which is not among the sources; operators
    are value-equal when they have the same parameter values. *)
Definition FMOperator_neq (a b : FMOperator) : bool := negb (bool_decide (a = b)).

Record EnvelopeFM := mkEnvelopeFM {
  al_ : Z;
  fb_ : Z;
  op0_ : FMOperator; op1_ : FMOperator; op2_ : FMOperator; op3_ : FMOperator
}.

#[global] Instance EnvelopeFM_eq_dec : EqDecision EnvelopeFM.
Proof. solve_decision. Defined.

(** [op_[i]] for [i] in 0..3. *)
Definition op_ (e : EnvelopeFM) (i : nat) : FMOperator :=
  match i with
  | O => op0_ e | 1%nat => op1_ e | 2%nat => op2_ e | _ => op3_ e
  end.

Definition set_op (e : EnvelopeFM) (i : nat) (o : FMOperator) : EnvelopeFM :=
  match i with
  | O => mkEnvelopeFM (al_ e) (fb_ e) o (op1_ e) (op2_ e) (op3_ e)
  | 1%nat => mkEnvelopeFM (al_ e) (fb_ e) (op0_ e) o (op2_ e) (op3_ e)
  | 2%nat => mkEnvelopeFM (al_ e) (fb_ e) (op0_ e) (op1_ e) o (op3_ e)
  | _ => mkEnvelopeFM (al_ e) (fb_ e) (op0_ e) (op1_ e) (op2_ e) o
  end.

(** The fields of one operator that [paramMap_] refers to. *)
Inductive OpField := F_ar | F_dr | F_sr | F_rr | F_sl | F_tl | F_ks | F_ml | F_dt | F_ssgeg.

Definition op_get (f : OpField) (o : FMOperator) : Z :=
  match f with
  | F_ar => ar_ o | F_dr => dr_ o | F_sr => sr_ o | F_rr => rr_ o
  | F_sl => sl_ o | F_tl => tl_ o | F_ks => ks_ o | F_ml => ml_ o
  | F_dt => dt_ o | F_ssgeg => ssgeg_ o
  end.

Definition op_set (f : OpField) (v : Z) (o : FMOperator) : FMOperator :=
  let '(mkFMOperator en ar dr sr rr sl tl ks ml dt eg) := o in
  match f with
  | F_ar => mkFMOperator en v dr sr rr sl tl ks ml dt eg
  | F_dr => mkFMOperator en ar v sr rr sl tl ks ml dt eg
  | F_sr => mkFMOperator en ar dr v rr sl tl ks ml dt eg
  | F_rr => mkFMOperator en ar dr sr v sl tl ks ml dt eg
  | F_sl => mkFMOperator en ar dr sr rr v tl ks ml dt eg
  | F_tl => mkFMOperator en ar dr sr rr sl v ks ml dt eg
  | F_ks => mkFMOperator en ar dr sr rr sl tl v ml dt eg
  | F_ml => mkFMOperator en ar dr sr rr sl tl ks v dt eg
  | F_dt => mkFMOperator en ar dr sr rr sl tl ks ml v eg
  | F_ssgeg => mkFMOperator en ar dr sr rr sl tl ks ml dt v
  end.

(** [EnvelopeFM::initParamMap]: which member each parameter is bound to;
    [None] stands for [al_] and [fb_], handled by the accessors below. *)
Definition paramMap_ (p : FMEnvelopeParameter) : option (nat * OpField) :=
  match p with
  | AL => None | FB => None
  | AR1 => Some (0%nat, F_ar) | DR1 => Some (0%nat, F_dr) | SR1 => Some (0%nat, F_sr)
  | RR1 => Some (0%nat, F_rr) | SL1 => Some (0%nat, F_sl) | TL1 => Some (0%nat, F_tl)
  | KS1 => Some (0%nat, F_ks) | ML1 => Some (0%nat, F_ml) | DT1 => Some (0%nat, F_dt)
  | SSGEG1 => Some (0%nat, F_ssgeg)
  | AR2 => Some (1%nat, F_ar) | DR2 => Some (1%nat, F_dr) | SR2 => Some (1%nat, F_sr)
  | RR2 => Some (1%nat, F_rr) | SL2 => Some (1%nat, F_sl) | TL2 => Some (1%nat, F_tl)
  | KS2 => Some (1%nat, F_ks) | ML2 => Some (1%nat, F_ml) | DT2 => Some (1%nat, F_dt)
  | SSGEG2 => Some (1%nat, F_ssgeg)
  | AR3 => Some (2%nat, F_ar) | DR3 => Some (2%nat, F_dr) | SR3 => Some (2%nat, F_sr)
  | RR3 => Some (2%nat, F_rr) | SL3 => Some (2%nat, F_sl) | TL3 => Some (2%nat, F_tl)
  | KS3 => Some (2%nat, F_ks) | ML3 => Some (2%nat, F_ml) | DT3 => Some (2%nat, F_dt)
  | SSGEG3 => Some (2%nat, F_ssgeg)
  | AR4 => Some (3%nat, F_ar) | DR4 => Some (3%nat, F_dr) | SR4 => Some (3%nat, F_sr)
  | RR4 => Some (3%nat, F_rr) | SL4 => Some (3%nat, F_sl) | TL4 => Some (3%nat, F_tl)
  | KS4 => Some (3%nat, F_ks) | ML4 => Some (3%nat, F_ml) | DT4 => Some (3%nat, F_dt)
  | SSGEG4 => Some (3%nat, F_ssgeg)
  end.

(** [EnvelopeFM::getParameterValue]: [paramMap_.at(param)]. *)
Definition getParameterValue (e : EnvelopeFM) (p : FMEnvelopeParameter) : Z :=
  match p with
  | AL => al_ e
  | FB => fb_ e
  | _ => match paramMap_ p with
         | Some (i, f) => op_get f (op_ e i)
         | None => 0
         end
  end.

(** [EnvelopeFM::setParameterValue]: [paramMap_.at(param) = value]. *)
Definition setParameterValue (e : EnvelopeFM) (p : FMEnvelopeParameter) (v : Z)
  : EnvelopeFM :=
  match p with
  | AL => mkEnvelopeFM v (fb_ e) (op0_ e) (op1_ e) (op2_ e) (op3_ e)
  | FB => mkEnvelopeFM (al_ e) v (op0_ e) (op1_ e) (op2_ e) (op3_ e)
  | _ => match paramMap_ p with
         | Some (i, f) => set_op e i (op_set f v (op_ e i))
         | None => e
         end
  end.

(** [operator==(const EnvelopeFM&, const EnvelopeFM&)].  The loop runs over
    [i] in 0..3 and its body reads [op_[0]] at every turn, as the source
    has it. *)
Definition EnvelopeFM_eqb (a b : EnvelopeFM) : bool :=
  if negb (bool_decide (al_ a = al_ b)) || negb (bool_decide (fb_ a = fb_ b))
  then false
  else forallb (λ _ : nat, negb (FMOperator_neq (op_ a 0) (op_ b 0))) (seq 0 4).

(** [EnvelopeFM::getOperatorEnabled] and [setOperatorEnabled]. *)
Definition getOperatorEnabled (e : EnvelopeFM) (num : nat) : bool :=
  enabled_ (op_ e num).

Definition setOperatorEnabled (e : EnvelopeFM) (num : nat) (en : bool) : EnvelopeFM :=
  let '(mkFMOperator _ ar dr sr rr sl tl ks ml dt eg) := op_ e num in
  set_op e num (mkFMOperator en ar dr sr rr sl tl ks ml dt eg).

(** ** The property classes that are not among the sources

    lfo_fm.cpp, command_sequence.cpp and waveform_adpcm.cpp are absent, and
    so are the default constants of envelope_fm.hpp.  The manager only uses
    their constructors, [isEdited], [clearParameters] and [operator==]; they
    are taken as parameters. *)

Class PropertyClasses := {
  DEF_AL : Z;
  DEF_FB : Z;
  DEF_OP : nat → FMOperator;
  LFOFM : Type;
  LFOFM_new : LFOFM;
  LFOFM_isEdited : LFOFM → bool;
  LFOFM_clearParameters : LFOFM → LFOFM;
  LFOFM_eqb : LFOFM → LFOFM → bool;
  CommandSequence : Type;
  (* CommandSequence(num) and CommandSequence(num, seqType, defaultCommandType) *)
  CommandSequence_new1 : CommandSequence;
  CommandSequence_new3 : SequenceType → Z → CommandSequence;
  CommandSequence_isEdited : CommandSequence → bool;
  CommandSequence_clearParameters : CommandSequence → CommandSequence;
  CommandSequence_eqb : CommandSequence → CommandSequence → bool;
  WaveformADPCM : Type;
  WaveformADPCM_new : WaveformADPCM;
  WaveformADPCM_isEdited : WaveformADPCM → bool;
  WaveformADPCM_clearParameters : WaveformADPCM → WaveformADPCM;
  WaveformADPCM_eqb : WaveformADPCM → WaveformADPCM → bool
}.

(** What [operator==] of the absent classes must satisfy for a grouping by
    equality to make sense. *)
Class PropertyEqLaws `{PropertyClasses} := {
  LFOFM_eqb_equiv : Equivalence (λ a b, LFOFM_eqb a b = true);
  CommandSequence_eqb_equiv : Equivalence (λ a b, CommandSequence_eqb a b = true);
  WaveformADPCM_eqb_equiv : Equivalence (λ a b, WaveformADPCM_eqb a b = true)
}.

Section EnvelopeFM_defaults.
Context `{PropertyClasses}.

(** [EnvelopeFM::clearParameters]. *)
Definition EnvelopeFM_clearParameters (e : EnvelopeFM) : EnvelopeFM :=
  mkEnvelopeFM DEF_AL DEF_FB (DEF_OP 0) (DEF_OP 1) (DEF_OP 2) (DEF_OP 3).

(** [EnvelopeFM::EnvelopeFM(int num)]: [clearParameters(); initParamMap();]. *)
Definition EnvelopeFM_new : EnvelopeFM :=
  mkEnvelopeFM DEF_AL DEF_FB (DEF_OP 0) (DEF_OP 1) (DEF_OP 2) (DEF_OP 3).

(** [EnvelopeFM::isEdited]; [ssgeg_] is not compared. *)
Definition EnvelopeFM_isEdited (e : EnvelopeFM) : bool :=
  if negb (bool_decide (al_ e = DEF_AL)) || negb (bool_decide (fb_ e = DEF_FB))
  then true
  else existsb (λ i : nat,
         negb (bool_decide (enabled_ (op_ e i) = enabled_ (DEF_OP i)))
         || negb (bool_decide (ar_ (op_ e i) = ar_ (DEF_OP i)))
         || negb (bool_decide (dr_ (op_ e i) = dr_ (DEF_OP i)))
         || negb (bool_decide (sr_ (op_ e i) = sr_ (DEF_OP i)))
         || negb (bool_decide (rr_ (op_ e i) = rr_ (DEF_OP i)))
         || negb (bool_decide (sl_ (op_ e i) = sl_ (DEF_OP i)))
         || negb (bool_decide (tl_ (op_ e i) = tl_ (DEF_OP i)))
         || negb (bool_decide (ks_ (op_ e i) = ks_ (DEF_OP i)))
         || negb (bool_decide (ml_ (op_ e i) = ml_ (DEF_OP i)))
         || negb (bool_decide (dt_ (op_ e i) = dt_ (DEF_OP i))))
       (seq 0 4).
End EnvelopeFM_defaults.

(** ** Slots of the pools: [AbstractInstrumentProperty] and its payload *)

Section Properties.
Context `{PropertyClasses}.

Inductive Payload :=
| PEnvelopeFM (e : EnvelopeFM)
| PLFOFM (l : LFOFM)
| PCommandSequence (c : CommandSequence)
| PWaveformADPCM (w : WaveformADPCM).

(** One slot: the number the object was given, the instruments that use
    it, and the payload of the derived class. *)
Record Property := mkProperty {
  number_ : Z;
  users_ : list Z;
  payload_ : Payload
}.

(** Modelled from the spec: [AbstractInstrumentProperty], whose source
    file is absent.  "Each slot object carries a reference set of
    instrument numbers currently using it"; the manager registers a number
    once for every enabled reference (once per operator type in
    [deepCloneInstrument]) and deregisters it once for each in
    [removeInstrument], "decrementing each slot's reference set", so the
    set is kept with multiplicity, in ascending order, and one
    deregistration takes one entry away. *)
Fixpoint insert_sorted (n : Z) (l : list Z) : list Z :=
  match l with
  | [] => [n]
  | x :: l' => if n <=? x then n :: l else x :: insert_sorted n l'
  end.

Fixpoint remove_one (n : Z) (l : list Z) : list Z :=
  match l with
  | [] => []
  | x :: l' => if bool_decide (x = n) then l' else x :: remove_one n l'
  end.

Definition registerUserInstrument (instNum : Z) (p : Property) : Property :=
  mkProperty (number_ p) (insert_sorted instNum (users_ p)) (payload_ p).

Definition deregisterUserInstrument (instNum : Z) (p : Property) : Property :=
  mkProperty (number_ p) (remove_one instNum (users_ p)) (payload_ p).

Definition isUserInstrument (p : Property) : bool :=
  match users_ p with [] => false | _ => true end.

Definition getUserInstruments (p : Property) : list Z := users_ p.

Definition clearUserInstruments (p : Property) : Property :=
  mkProperty (number_ p) [] (payload_ p).

Definition setNumber (n : Z) (p : Property) : Property :=
  mkProperty n (users_ p) (payload_ p).

(** The virtual calls on a slot, dispatched on the payload. *)
Definition isEdited (p : Property) : bool :=
  match payload_ p with
  | PEnvelopeFM e => EnvelopeFM_isEdited e
  | PLFOFM l => LFOFM_isEdited l
  | PCommandSequence c => CommandSequence_isEdited c
  | PWaveformADPCM w => WaveformADPCM_isEdited w
  end.

Definition clearParameters (p : Property) : Property :=
  mkProperty (number_ p) (users_ p)
    match payload_ p with
    | PEnvelopeFM e => PEnvelopeFM (EnvelopeFM_clearParameters e)
    | PLFOFM l => PLFOFM (LFOFM_clearParameters l)
    | PCommandSequence c => PCommandSequence (CommandSequence_clearParameters c)
    | PWaveformADPCM w => PWaveformADPCM (WaveformADPCM_clearParameters w)
    end.

(** [EnvelopeFM::clone]: a copy whose user list is cleared.  The [clone]
    of the other classes is modelled from the spec: deep clone
    "duplicates each referenced slot's payload into a freshly allocated
    slot". *)
Definition clone (p : Property) : Property := clearUserInstruments p.

(** [operator!=] between two slots of one pool; slots of different
    classes never meet. *)
Definition Property_neq (a b : Property) : bool :=
  match payload_ a, payload_ b with
  | PEnvelopeFM x, PEnvelopeFM y => negb (EnvelopeFM_eqb x y)
  | PLFOFM x, PLFOFM y => negb (LFOFM_eqb x y)
  | PCommandSequence x, PCommandSequence y => negb (CommandSequence_eqb x y)
  | PWaveformADPCM x, PWaveformADPCM y => negb (WaveformADPCM_eqb x y)
  | _, _ => true
  end.
End Properties.

(** ** Instruments

    instrument.cpp is not among the sources.  The records below hold what
    the manager reads and writes through the getters and setters of
    [InstrumentFM], [InstrumentSSG] and [InstrumentADPCM]: per modulation
    kind a slot number and an enable flag. *)

Record InstrumentFM := mkInstrumentFM {
  fm_number : Z;
  fm_name : string;
  fm_envNum : Z;
  fm_lfoEnabled : bool;
  fm_lfoNum : Z;
  fm_opSeqEnabled : FMEnvelopeParameter → bool;
  fm_opSeqNum : FMEnvelopeParameter → Z;
  fm_arpEnabled : FMOperatorType → bool;
  fm_arpNum : FMOperatorType → Z;
  fm_ptEnabled : FMOperatorType → bool;
  fm_ptNum : FMOperatorType → Z;
  fm_envResetEnabled : FMOperatorType → bool
}.

Record InstrumentSSG := mkInstrumentSSG {
  ssg_number : Z;
  ssg_name : string;
  ssg_wfEnabled : bool;  ssg_wfNum : Z;
  ssg_tnEnabled : bool;  ssg_tnNum : Z;
  ssg_envEnabled : bool; ssg_envNum : Z;
  ssg_arpEnabled : bool; ssg_arpNum : Z;
  ssg_ptEnabled : bool;  ssg_ptNum : Z
}.

Record InstrumentADPCM := mkInstrumentADPCM {
  adpcm_number : Z;
  adpcm_name : string;
  adpcm_wfNum : Z;
  adpcm_envEnabled : bool; adpcm_envNum : Z;
  adpcm_arpEnabled : bool; adpcm_arpNum : Z;
  adpcm_ptEnabled : bool;  adpcm_ptNum : Z
}.

Inductive AbstractInstrument :=
| InstFM (fm : InstrumentFM)
| InstSSG (ssg : InstrumentSSG)
| InstADPCM (adpcm : InstrumentADPCM).

Definition getSoundSource (i : AbstractInstrument) : SoundSource :=
  match i with InstFM _ => FM | InstSSG _ => SSG | InstADPCM _ => ADPCM end.

Definition getName (i : AbstractInstrument) : string :=
  match i with
  | InstFM fm => fm_name fm | InstSSG s => ssg_name s | InstADPCM a => adpcm_name a
  end.

Definition getNumber (i : AbstractInstrument) : Z :=
  match i with
  | InstFM fm => fm_number fm | InstSSG s => ssg_number s | InstADPCM a => adpcm_number a
  end.

(** Modelled from the spec: the state of a freshly constructed instrument,
    [InstrumentFM(instNum, name, this)] and its siblings.  [addInstrument]
    overwrites every slot number and enable flag; what the constructors
    leave in the envelope-reset flags is taken to be [false]. *)
Definition InstrumentFM_new (instNum : Z) (name : string) : InstrumentFM :=
  mkInstrumentFM instNum name 0 false 0 (λ _, false) (λ _, 0)
    (λ _, false) (λ _, 0) (λ _, false) (λ _, 0) (λ _, false).

Definition InstrumentSSG_new (instNum : Z) (name : string) : InstrumentSSG :=
  mkInstrumentSSG instNum name false 0 false 0 false 0 false 0 false 0.

Definition InstrumentADPCM_new (instNum : Z) (name : string) : InstrumentADPCM :=
  mkInstrumentADPCM instNum name 0 false 0 false 0 false 0.

(** Update of one entry of a map held by an instrument. *)
Definition upd {K V} `{EqDecision K} (f : K → V) (k : K) (v : V) : K → V :=
  λ x, if decide (x = k) then v else f x.

(** *** References from an instrument into the pools

    Every getter/setter pair of an instrument is a reference ("link") into
    one pool.  The manager treats all of them by the same two templates, so
    they are named here once. *)

Inductive PropKind :=
| EnvFM | LfoFM | OpSeqFM (p : FMEnvelopeParameter) | ArpFM | PtFM
| WfSSG | TnSSG | EnvSSG | ArpSSG | PtSSG
| WfADPCM | EnvADPCM | ArpADPCM | PtADPCM.

#[global] Instance PropKind_eq_dec : EqDecision PropKind.
Proof. solve_decision. Defined.

Inductive Link :=
| LEnvFM | LLfoFM | LOpSeqFM (p : FMEnvelopeParameter)
| LArpFM (t : FMOperatorType) | LPtFM (t : FMOperatorType)
| LWfSSG | LTnSSG | LEnvSSG | LArpSSG | LPtSSG
| LWfADPCM | LEnvADPCM | LArpADPCM | LPtADPCM.

#[global] Instance Link_eq_dec : EqDecision Link.
Proof. solve_decision. Defined.

Definition link_kind (l : Link) : PropKind :=
  match l with
  | LEnvFM => EnvFM | LLfoFM => LfoFM | LOpSeqFM p => OpSeqFM p
  | LArpFM _ => ArpFM | LPtFM _ => PtFM
  | LWfSSG => WfSSG | LTnSSG => TnSSG | LEnvSSG => EnvSSG
  | LArpSSG => ArpSSG | LPtSSG => PtSSG
  | LWfADPCM => WfADPCM | LEnvADPCM => EnvADPCM
  | LArpADPCM => ArpADPCM | LPtADPCM => PtADPCM
  end.

Definition link_source (l : Link) : SoundSource :=
  match l with
  | LEnvFM | LLfoFM | LOpSeqFM _ | LArpFM _ | LPtFM _ => FM
  | LWfSSG | LTnSSG | LEnvSSG | LArpSSG | LPtSSG => SSG
  | LWfADPCM | LEnvADPCM | LArpADPCM | LPtADPCM => ADPCM
  end.

(** [get{X}Number]. *)
Definition getLinkNumber (l : Link) (i : AbstractInstrument) : Z :=
  match l, i with
  | LEnvFM, InstFM fm => fm_envNum fm
  | LLfoFM, InstFM fm => fm_lfoNum fm
  | LOpSeqFM p, InstFM fm => fm_opSeqNum fm p
  | LArpFM t, InstFM fm => fm_arpNum fm t
  | LPtFM t, InstFM fm => fm_ptNum fm t
  | LWfSSG, InstSSG s => ssg_wfNum s
  | LTnSSG, InstSSG s => ssg_tnNum s
  | LEnvSSG, InstSSG s => ssg_envNum s
  | LArpSSG, InstSSG s => ssg_arpNum s
  | LPtSSG, InstSSG s => ssg_ptNum s
  | LWfADPCM, InstADPCM a => adpcm_wfNum a
  | LEnvADPCM, InstADPCM a => adpcm_envNum a
  | LArpADPCM, InstADPCM a => adpcm_arpNum a
  | LPtADPCM, InstADPCM a => adpcm_ptNum a
  | _, _ => 0
  end.

(** [get{X}Enabled]; the FM envelope and the ADPCM waveform have no flag
    and are always in use. *)
Definition getLinkEnabled (l : Link) (i : AbstractInstrument) : bool :=
  match l, i with
  | LEnvFM, InstFM fm => true
  | LLfoFM, InstFM fm => fm_lfoEnabled fm
  | LOpSeqFM p, InstFM fm => fm_opSeqEnabled fm p
  | LArpFM t, InstFM fm => fm_arpEnabled fm t
  | LPtFM t, InstFM fm => fm_ptEnabled fm t
  | LWfSSG, InstSSG s => ssg_wfEnabled s
  | LTnSSG, InstSSG s => ssg_tnEnabled s
  | LEnvSSG, InstSSG s => ssg_envEnabled s
  | LArpSSG, InstSSG s => ssg_arpEnabled s
  | LPtSSG, InstSSG s => ssg_ptEnabled s
  | LWfADPCM, InstADPCM a => true
  | LEnvADPCM, InstADPCM a => adpcm_envEnabled a
  | LArpADPCM, InstADPCM a => adpcm_arpEnabled a
  | LPtADPCM, InstADPCM a => adpcm_ptEnabled a
  | _, _ => false
  end.

(** [set{X}Number]. *)
Definition setLinkNumber (l : Link) (n : Z) (i : AbstractInstrument)
  : AbstractInstrument :=
  match l, i with
  | LEnvFM, InstFM (mkInstrumentFM a b _ d e f g h i j k r) =>
      InstFM (mkInstrumentFM a b n d e f g h i j k r)
  | LLfoFM, InstFM (mkInstrumentFM a b c d _ f g h i j k r) =>
      InstFM (mkInstrumentFM a b c d n f g h i j k r)
  | LOpSeqFM p, InstFM (mkInstrumentFM a b c d e f g h i j k r) =>
      InstFM (mkInstrumentFM a b c d e f (upd g p n) h i j k r)
  | LArpFM t, InstFM (mkInstrumentFM a b c d e f g h i j k r) =>
      InstFM (mkInstrumentFM a b c d e f g h (upd i t n) j k r)
  | LPtFM t, InstFM (mkInstrumentFM a b c d e f g h i j k r) =>
      InstFM (mkInstrumentFM a b c d e f g h i j (upd k t n) r)
  | LWfSSG, InstSSG (mkInstrumentSSG a b c _ e f g h i j k r) =>
      InstSSG (mkInstrumentSSG a b c n e f g h i j k r)
  | LTnSSG, InstSSG (mkInstrumentSSG a b c d e _ g h i j k r) =>
      InstSSG (mkInstrumentSSG a b c d e n g h i j k r)
  | LEnvSSG, InstSSG (mkInstrumentSSG a b c d e f g _ i j k r) =>
      InstSSG (mkInstrumentSSG a b c d e f g n i j k r)
  | LArpSSG, InstSSG (mkInstrumentSSG a b c d e f g h i _ k r) =>
      InstSSG (mkInstrumentSSG a b c d e f g h i n k r)
  | LPtSSG, InstSSG (mkInstrumentSSG a b c d e f g h i j k _) =>
      InstSSG (mkInstrumentSSG a b c d e f g h i j k n)
  | LWfADPCM, InstADPCM (mkInstrumentADPCM a b _ d e f g h i) =>
      InstADPCM (mkInstrumentADPCM a b n d e f g h i)
  | LEnvADPCM, InstADPCM (mkInstrumentADPCM a b c d _ f g h i) =>
      InstADPCM (mkInstrumentADPCM a b c d n f g h i)
  | LArpADPCM, InstADPCM (mkInstrumentADPCM a b c d e f _ h i) =>
      InstADPCM (mkInstrumentADPCM a b c d e f n h i)
  | LPtADPCM, InstADPCM (mkInstrumentADPCM a b c d e f g h _) =>
      InstADPCM (mkInstrumentADPCM a b c d e f g h n)
  | _, _ => i
  end.

(** [set{X}Enabled]. *)
Definition setLinkEnabled (l : Link) (en : bool) (i : AbstractInstrument)
  : AbstractInstrument :=
  match l, i with
  | LLfoFM, InstFM (mkInstrumentFM a b c _ e f g h i j k r) =>
      InstFM (mkInstrumentFM a b c en e f g h i j k r)
  | LOpSeqFM p, InstFM (mkInstrumentFM a b c d e f g h i j k r) =>
      InstFM (mkInstrumentFM a b c d e (upd f p en) g h i j k r)
  | LArpFM t, InstFM (mkInstrumentFM a b c d e f g h i j k r) =>
      InstFM (mkInstrumentFM a b c d e f g (upd h t en) i j k r)
  | LPtFM t, InstFM (mkInstrumentFM a b c d e f g h i j k r) =>
      InstFM (mkInstrumentFM a b c d e f g h i (upd j t en) k r)
  | LWfSSG, InstSSG (mkInstrumentSSG a b _ d e f g h i j k r) =>
      InstSSG (mkInstrumentSSG a b en d e f g h i j k r)
  | LTnSSG, InstSSG (mkInstrumentSSG a b c d _ f g h i j k r) =>
      InstSSG (mkInstrumentSSG a b c d en f g h i j k r)
  | LEnvSSG, InstSSG (mkInstrumentSSG a b c d e f _ h i j k r) =>
      InstSSG (mkInstrumentSSG a b c d e f en h i j k r)
  | LArpSSG, InstSSG (mkInstrumentSSG a b c d e f g h _ j k r) =>
      InstSSG (mkInstrumentSSG a b c d e f g h en j k r)
  | LPtSSG, InstSSG (mkInstrumentSSG a b c d e f g h i j _ r) =>
      InstSSG (mkInstrumentSSG a b c d e f g h i j en r)
  | LEnvADPCM, InstADPCM (mkInstrumentADPCM a b c _ e f g h i) =>
      InstADPCM (mkInstrumentADPCM a b c en e f g h i)
  | LArpADPCM, InstADPCM (mkInstrumentADPCM a b c d e _ g h i) =>
      InstADPCM (mkInstrumentADPCM a b c d e en g h i)
  | LPtADPCM, InstADPCM (mkInstrumentADPCM a b c d e f g _ i) =>
      InstADPCM (mkInstrumentADPCM a b c d e f g en i)
  | _, _ => i
  end.

(** [InstrumentFM::setEnvelopeResetEnabled] and its getter. *)
Definition setEnvelopeResetEnabled (t : FMOperatorType) (en : bool)
    (i : AbstractInstrument) : AbstractInstrument :=
  match i with
  | InstFM (mkInstrumentFM a b c d e f g h i j k r) =>
      InstFM (mkInstrumentFM a b c d e f g h i j k (upd r t en))
  | _ => i
  end.

Definition getEnvelopeResetEnabled (t : FMOperatorType) (i : AbstractInstrument)
  : bool :=
  match i with InstFM fm => fm_envResetEnabled fm t | _ => false end.

(** The two member lists the constructor of the manager fills in. *)
Definition envFMParams_ : list FMEnvelopeParameter :=
  [ AL; FB;
    AR1; DR1; SR1; RR1; SL1; TL1; KS1; ML1; DT1;
    AR2; DR2; SR2; RR2; SL2; TL2; KS2; ML2; DT2;
    AR3; DR3; SR3; RR3; SL3; TL3; KS3; ML3; DT3;
    AR4; DR4; SR4; RR4; SL4; TL4; KS4; ML4; DT4 ].

Definition fmOpTypes_ : list FMOperatorType := [ All; Op1; Op2; Op3; Op4 ].

(** The references of an instrument of each class, in the order in which
    [addInstrument(unique_ptr)] and [removeInstrument] visit them. *)
Definition linksFM : list Link :=
  LEnvFM :: LLfoFM :: map LOpSeqFM envFMParams_
  ++ flat_map (λ t, [LArpFM t; LPtFM t]) fmOpTypes_.

Definition linksSSG : list Link := [ LWfSSG; LTnSSG; LEnvSSG; LArpSSG; LPtSSG ].

Definition linksADPCM : list Link := [ LWfADPCM; LEnvADPCM; LArpADPCM; LPtADPCM ].

Definition linksOf (src : SoundSource) : list Link :=
  match src with
  | FM => linksFM | SSG => linksSSG | ADPCM => linksADPCM | DRUM => []
  end.

(** ** instruments_manager.cpp *)

Section Manager.
Context `{PropertyClasses}.

(** The members of [InstrumentsManager].  The thirteen member arrays and
    the map [opSeqFM_] are one family indexed by the kind of property;
    [opSeqFM_] has a key for each parameter of [envFMParams_] only. *)
Record InstrumentsManager := mkManager {
  insts_ : list (option AbstractInstrument);
  regardingUnedited_ : bool;
  pools_ : PropKind → list Property
}.

Abbreviation M := (StateErr InstrumentsManager).

Definition validKind (k : PropKind) : bool :=
  match k with
  | OpSeqFM p => bool_decide (p ∈ envFMParams_)
  | _ => true
  end.

(** A member array, or [opSeqFM_.at(param)], which throws for a
    parameter that is no key. *)
Definition pool (k : PropKind) : M (list Property) :=
  λ m, if validKind k then Ok (pools_ m k, m) else Fail OutOfRange.

Definition setPool (k : PropKind) (l : list Property) (m : InstrumentsManager)
  : InstrumentsManager :=
  mkManager (insts_ m) (regardingUnedited_ m) (upd (pools_ m) k l).

Definition setInsts (l : list (option AbstractInstrument)) (m : InstrumentsManager)
  : InstrumentsManager :=
  mkManager l (regardingUnedited_ m) (pools_ m).

(** [pool.at(n)->f(..)] for a mutator [f] of the slot object. *)
Definition updateAt (k : PropKind) (n : Z) (f : Property → Property) : M unit :=
  l ← pool k;
  p ← lift (at_ l n);
  modify (setPool k (<[Z.to_nat n := f p]> l)).

(** [pool[n]->f(..)], unchecked. *)
Definition updateIdx (k : PropKind) (n : Z) (f : Property → Property) : M unit :=
  l ← pool k;
  p ← lift (idx l n);
  modify (setPool k (<[Z.to_nat n := f p]> l)).

(** [std::find_if_not]: the position of the first element for which
    [cond] does not hold. *)
Fixpoint find_if_not {A} (cond : A → bool) (l : list A) : option nat :=
  match l with
  | [] => None
  | x :: l' => if cond x then S <$> find_if_not cond l' else Some O
  end.

(** [findFirstAssignable{X}], the same body for every kind. *)
Definition findFirstAssignable (k : PropKind) : M Z :=
  gets regardingUnedited_ ≫= λ unedited : bool,
  let cond := if unedited
              then (λ p : Property, isUserInstrument p || isEdited p)
              else (λ p : Property, isUserInstrument p) in
  l ← pool k;
  match find_if_not cond l with
  | None => mret (-1)
  | Some i =>
      (if negb unedited
       then modify (setPool k (alter clearParameters i l))
       else mret tt : M unit) ;;
      mret (Z.of_nat i)
  end.

(** [int n = findFirstAssignable{X}(); if (n == -1) n = static_cast<int>(pool.size()) - 1;] *)
Definition firstAssignableOrLast (k : PropKind) : M Z :=
  n ← findFirstAssignable k;
  l ← pool k;
  mret (if n =? -1 then size l - 1 else n).

(** [insts_.at(n) = std::move(inst)]. *)
Definition storeInst (n : Z) (i : AbstractInstrument) : M unit :=
  l ← gets insts_;
  _ ← lift (at_ l n);
  modify (setInsts (<[Z.to_nat n := Some i]> l)).

(** Writing through the pointer obtained from [insts_]: the object the
    entry points to is replaced by its updated value. *)
Definition putInst (n : Z) (i : AbstractInstrument) : M unit :=
  modify (λ m, setInsts (<[Z.to_nat n := Some i]> (insts_ m)) m).

(** [void addInstrument(int instNum, SoundSource source, std::string name)] *)
Definition addInstrument (instNum : Z) (source : SoundSource) (name : string)
  : M unit :=
  sz ← gets (λ m, size (insts_ m));
  if (instNum <? 0) || (sz <=? instNum) then mret tt
  else match source with
  | FM =>
      let fm := InstFM (InstrumentFM_new instNum name) in
      envNum ← firstAssignableOrLast EnvFM;
      let fm := setLinkNumber LEnvFM envNum fm in
      updateAt EnvFM envNum (registerUserInstrument instNum) ;;
      lfoNum ← firstAssignableOrLast LfoFM;
      let fm := setLinkNumber LLfoFM lfoNum fm in
      let fm := setLinkEnabled LLfoFM false fm in
      fm ← foldM (λ fm param,
              opSeqNum ← firstAssignableOrLast (OpSeqFM param);
              mret (setLinkEnabled (LOpSeqFM param) false
                      (setLinkNumber (LOpSeqFM param) opSeqNum fm)))
            fm envFMParams_;
      arpNum ← firstAssignableOrLast ArpFM;
      ptNum ← firstAssignableOrLast PtFM;
      let fm := fold_left (λ fm type,
                  setLinkEnabled (LPtFM type) false
                    (setLinkNumber (LPtFM type) ptNum
                      (setLinkEnabled (LArpFM type) false
                        (setLinkNumber (LArpFM type) arpNum fm))))
                fmOpTypes_ fm in
      storeInst instNum fm
  | SSG =>
      let ssg := InstSSG (InstrumentSSG_new instNum name) in
      wfNum ← firstAssignableOrLast WfSSG;
      let ssg := setLinkEnabled LWfSSG false (setLinkNumber LWfSSG wfNum ssg) in
      tnNum ← firstAssignableOrLast TnSSG;
      let ssg := setLinkEnabled LTnSSG false (setLinkNumber LTnSSG tnNum ssg) in
      envNum ← firstAssignableOrLast EnvSSG;
      let ssg := setLinkEnabled LEnvSSG false (setLinkNumber LEnvSSG envNum ssg) in
      arpNum ← firstAssignableOrLast ArpSSG;
      let ssg := setLinkEnabled LArpSSG false (setLinkNumber LArpSSG arpNum ssg) in
      ptNum ← firstAssignableOrLast PtSSG;
      let ssg := setLinkEnabled LPtSSG false (setLinkNumber LPtSSG ptNum ssg) in
      storeInst instNum ssg
  | ADPCM =>
      let adpcm := InstADPCM (InstrumentADPCM_new instNum name) in
      wfNum ← firstAssignableOrLast WfADPCM;
      let adpcm := setLinkNumber LWfADPCM wfNum adpcm in
      updateAt WfADPCM wfNum (registerUserInstrument instNum) ;;
      envNum ← firstAssignableOrLast EnvADPCM;
      let adpcm := setLinkEnabled LEnvADPCM false (setLinkNumber LEnvADPCM envNum adpcm) in
      arpNum ← firstAssignableOrLast ArpADPCM;
      let adpcm := setLinkEnabled LArpADPCM false (setLinkNumber LArpADPCM arpNum adpcm) in
      ptNum ← firstAssignableOrLast PtADPCM;
      let adpcm := setLinkEnabled LPtADPCM false (setLinkNumber LPtADPCM ptNum adpcm) in
      storeInst instNum adpcm
  | DRUM => mret tt
  end.

(** The body shared by the three cases of [addInstrument(unique_ptr)]:
    [if (inst->get{X}Enabled()) pool.at(inst->get{X}Number())->registerUserInstrument(num)]
    for each reference in turn. *)
Definition registerLinks (num : Z) (i : AbstractInstrument) : M unit :=
  forM_ (linksOf (getSoundSource i)) (λ l,
    if getLinkEnabled l i
    then updateAt (link_kind l) (getLinkNumber l i) (registerUserInstrument num)
    else mret tt).

(** [void addInstrument(std::unique_ptr<AbstractInstrument> inst)] *)
Definition addInstrument_ptr (inst : AbstractInstrument) : M unit :=
  let num := getNumber inst in
  storeInst num inst ;;
  registerLinks num inst.

(** [insts_.at(n)] cast to the class of sound source [src] and
    dereferenced: an empty entry and an instrument of another class both
    give a null pointer. *)
Definition derefAs (src : SoundSource) (o : option AbstractInstrument)
  : Result AbstractInstrument :=
  match o with
  | Some i => if bool_decide (getSoundSource i = src) then Ok i else Fail Undefined
  | None => Fail Undefined
  end.

Definition instAt (src : SoundSource) (n : Z) : M AbstractInstrument :=
  l ← gets insts_;
  o ← lift (at_ l n);
  lift (derefAs src o).

(** Modelled from the spec: an FM instrument holds a slot number and a
    flag "for each of 38 envelope parameters"; asking it for another
    parameter is taken to throw, as [opSeqFM_.at] does. *)
Definition checkLink (l : Link) : M unit :=
  if validKind (link_kind l) then mret tt else raise OutOfRange.

(** [setInstrument{X}Enabled(instNum, .., enabled)]. *)
Definition setInstrumentPropertyEnabled (l : Link) (instNum : Z) (enabled : bool)
  : M unit :=
  inst ← instAt (link_source l) instNum;
  checkLink l ;;
  let inst := setLinkEnabled l enabled inst in
  putInst instNum inst ;;
  if enabled
  then updateAt (link_kind l) (getLinkNumber l inst) (registerUserInstrument instNum)
  else updateAt (link_kind l) (getLinkNumber l inst) (deregisterUserInstrument instNum).

(** [setInstrument{X}(instNum, .., num)].  For the FM envelope and the
    ADPCM waveform the source has no test of a flag; [getLinkEnabled] is
    [true] for them. *)
Definition setInstrumentProperty (l : Link) (instNum num : Z) : M unit :=
  inst ← instAt (link_source l) instNum;
  checkLink l ;;
  (if getLinkEnabled l inst
   then updateAt (link_kind l) (getLinkNumber l inst) (deregisterUserInstrument instNum) ;;
        updateAt (link_kind l) num (registerUserInstrument instNum)
   else mret tt) ;;
  putInst instNum (setLinkNumber l num inst).

Definition setInstrumentFMEnvelope := setInstrumentProperty LEnvFM.
Definition setInstrumentFMLFOEnabled := setInstrumentPropertyEnabled LLfoFM.
Definition setInstrumentFMLFO := setInstrumentProperty LLfoFM.
Definition setInstrumentFMOperatorSequenceEnabled instNum param :=
  setInstrumentPropertyEnabled (LOpSeqFM param) instNum.
Definition setInstrumentFMOperatorSequence instNum param :=
  setInstrumentProperty (LOpSeqFM param) instNum.
Definition setInstrumentFMArpeggioEnabled instNum op :=
  setInstrumentPropertyEnabled (LArpFM op) instNum.
Definition setInstrumentFMArpeggio instNum op :=
  setInstrumentProperty (LArpFM op) instNum.
Definition setInstrumentFMPitchEnabled instNum op :=
  setInstrumentPropertyEnabled (LPtFM op) instNum.
Definition setInstrumentFMPitch instNum op :=
  setInstrumentProperty (LPtFM op) instNum.
Definition setInstrumentSSGWaveformEnabled := setInstrumentPropertyEnabled LWfSSG.
Definition setInstrumentSSGWaveform := setInstrumentProperty LWfSSG.
Definition setInstrumentSSGToneNoiseEnabled := setInstrumentPropertyEnabled LTnSSG.
Definition setInstrumentSSGToneNoise := setInstrumentProperty LTnSSG.
Definition setInstrumentSSGEnvelopeEnabled := setInstrumentPropertyEnabled LEnvSSG.
Definition setInstrumentSSGEnvelope := setInstrumentProperty LEnvSSG.
Definition setInstrumentSSGArpeggioEnabled := setInstrumentPropertyEnabled LArpSSG.
Definition setInstrumentSSGArpeggio := setInstrumentProperty LArpSSG.
Definition setInstrumentSSGPitchEnabled := setInstrumentPropertyEnabled LPtSSG.
Definition setInstrumentSSGPitch := setInstrumentProperty LPtSSG.
Definition setInstrumentADPCMWaveform := setInstrumentProperty LWfADPCM.
Definition setInstrumentADPCMEnvelopeEnabled := setInstrumentPropertyEnabled LEnvADPCM.
Definition setInstrumentADPCMEnvelope := setInstrumentProperty LEnvADPCM.
Definition setInstrumentADPCMArpeggioEnabled := setInstrumentPropertyEnabled LArpADPCM.
Definition setInstrumentADPCMArpeggio := setInstrumentProperty LArpADPCM.
Definition setInstrumentADPCMPitchEnabled := setInstrumentPropertyEnabled LPtADPCM.
Definition setInstrumentADPCMPitch := setInstrumentProperty LPtADPCM.

(** [setInstrumentFMEnvelopeResetEnabled]: [insts_[instNum]], unchecked. *)
Definition setInstrumentFMEnvelopeResetEnabled (instNum : Z) (op : FMOperatorType)
    (enabled : bool) : M unit :=
  l ← gets insts_;
  o ← lift (idx l instNum);
  inst ← lift (derefAs FM o);
  putInst instNum (setEnvelopeResetEnabled op enabled inst).

(** [clone{X}(srcNum)], the same body for every kind: the first slot
    that no instrument uses receives a clone of slot [srcNum]; when every
    slot is in use the loop runs to the end and the size of the pool is
    returned. *)
Definition cloneProperty (k : PropKind) (srcNum : Z) : M Z :=
  l ← pool k;
  match find_if_not isUserInstrument l with
  | Some cloneNum =>
      src ← lift (at_ l srcNum);
      modify (setPool k (<[cloneNum := setNumber (Z.of_nat cloneNum) (clone src)]> l)) ;;
      mret (Z.of_nat cloneNum)
  | None => mret (size l)
  end.

Definition cloneFMEnvelope := cloneProperty EnvFM.
Definition cloneFMLFO := cloneProperty LfoFM.
Definition cloneFMOperatorSequence param := cloneProperty (OpSeqFM param).
Definition cloneFMArpeggio := cloneProperty ArpFM.
Definition cloneFMPitch := cloneProperty PtFM.
Definition cloneSSGWaveform := cloneProperty WfSSG.
Definition cloneSSGToneNoise := cloneProperty TnSSG.
Definition cloneSSGEnvelope := cloneProperty EnvSSG.
Definition cloneSSGArpeggio := cloneProperty ArpSSG.
Definition cloneSSGPitch := cloneProperty PtSSG.
Definition cloneADPCMWaveform := cloneProperty WfADPCM.
Definition cloneADPCMEnvelope := cloneProperty EnvADPCM.
Definition cloneADPCMArpeggio := cloneProperty ArpADPCM.
Definition cloneADPCMPitch := cloneProperty PtADPCM.

(** Dereference of a shared pointer of the base class. *)
Definition deref (o : option AbstractInstrument) : Result AbstractInstrument :=
  match o with Some i => Ok i | None => Fail Undefined end.

(** In [cloneInstrument]:
    [setInstrument{X}(cloneInstNum, ref->get{X}Number());
     if (ref->get{X}Enabled()) setInstrument{X}Enabled(cloneInstNum, true);] *)
Definition copyLink (cloneInstNum : Z) (refInst : AbstractInstrument) (l : Link)
  : M unit :=
  setInstrumentProperty l cloneInstNum (getLinkNumber l refInst) ;;
  if getLinkEnabled l refInst
  then setInstrumentPropertyEnabled l cloneInstNum true
  else mret tt.

(** [void cloneInstrument(int cloneInstNum, int refInstNum)] *)
Definition cloneInstrument (cloneInstNum refInstNum : Z) : M unit :=
  l ← gets insts_;
  o ← lift (at_ l refInstNum);
  refInst ← lift (deref o);
  addInstrument cloneInstNum (getSoundSource refInst) (getName refInst) ;;
  l ← gets insts_;
  _ ← lift (at_ l cloneInstNum);
  match refInst with
  | InstFM _ =>
      setInstrumentFMEnvelope cloneInstNum (getLinkNumber LEnvFM refInst) ;;
      copyLink cloneInstNum refInst LLfoFM ;;
      forM_ envFMParams_ (λ p, copyLink cloneInstNum refInst (LOpSeqFM p)) ;;
      forM_ fmOpTypes_ (λ t,
        copyLink cloneInstNum refInst (LArpFM t) ;;
        copyLink cloneInstNum refInst (LPtFM t) ;;
        setInstrumentFMEnvelopeResetEnabled cloneInstNum t
          (getEnvelopeResetEnabled t refInst))
  | InstSSG _ =>
      copyLink cloneInstNum refInst LWfSSG ;;
      copyLink cloneInstNum refInst LTnSSG ;;
      copyLink cloneInstNum refInst LEnvSSG ;;
      copyLink cloneInstNum refInst LArpSSG ;;
      copyLink cloneInstNum refInst LPtSSG
  | InstADPCM _ =>
      setInstrumentADPCMWaveform cloneInstNum (getLinkNumber LWfADPCM refInst) ;;
      copyLink cloneInstNum refInst LEnvADPCM ;;
      copyLink cloneInstNum refInst LArpADPCM ;;
      copyLink cloneInstNum refInst LPtADPCM
  end.

(** A call through the pointer [cloneFm] (and its siblings) that
    [deepCloneInstrument] took from [insts_]. *)
Definition modifyInst (n : Z) (f : AbstractInstrument → AbstractInstrument)
  : M unit :=
  l ← gets insts_;
  o ← lift (idx l n);
  i ← lift (deref o);
  putInst n (f i).

(** In [deepCloneInstrument]:
    [if (ref->get{X}Enabled()) {
       clone->set{X}Enabled(true);
       int n = clone{X}(ref->get{X}Number());
       clone->set{X}Number(n);
       pool[n]->registerUserInstrument(cloneInstNum); }] *)
Definition deepCopyLink (cloneInstNum : Z) (refInst : AbstractInstrument) (l : Link)
  : M unit :=
  if getLinkEnabled l refInst
  then modifyInst cloneInstNum (setLinkEnabled l true) ;;
       n ← cloneProperty (link_kind l) (getLinkNumber l refInst);
       modifyInst cloneInstNum (setLinkNumber l n) ;;
       updateIdx (link_kind l) n (registerUserInstrument cloneInstNum)
  else mret tt.

(** [std::unordered_map<int, int>]: [emplace] keeps an existing entry,
    [at] throws for a missing key.  The entries are kept in the order of
    their insertion; the order in which the container is traversed is
    unspecified in C++ and decides only which payload the shared clone
    slot is left with. *)
Definition emplace (key v : Z) (mp : list (Z * Z)) : list (Z * Z) :=
  if existsb (λ kv, fst kv =? key) mp then mp else mp ++ [(key, v)].

Definition map_at (mp : list (Z * Z)) (key : Z) : Result Z :=
  match find (λ kv, fst kv =? key) mp with
  | Some kv => Ok (snd kv)
  | None => Fail OutOfRange
  end.

(** The three loops over [fmOpTypes_] by which [deepCloneInstrument]
    clones the arpeggios, and then the pitches, of an FM instrument. *)
Definition deepCopyPerOperator (cloneInstNum : Z) (refInst : AbstractInstrument)
    (L : FMOperatorType → Link) (k : PropKind) : M unit :=
  nums ← foldM (λ nums t,
            if getLinkEnabled (L t) refInst
            then modifyInst cloneInstNum (setLinkEnabled (L t) true) ;;
                 mret (emplace (getLinkNumber (L t) refInst) (-1) nums)
            else mret nums) [] fmOpTypes_;
  nums ← foldM (λ acc pair,
            second ← cloneProperty k (fst pair);
            mret (acc ++ [(fst pair, second)])) [] nums;
  forM_ fmOpTypes_ (λ t,
    if getLinkEnabled (L t) refInst
    then n ← lift (map_at nums (getLinkNumber (L t) refInst));
         modifyInst cloneInstNum (setLinkNumber (L t) n) ;;
         updateIdx k n (registerUserInstrument cloneInstNum)
    else mret tt).

(** [void deepCloneInstrument(int cloneInstNum, int refInstNum)] *)
Definition deepCloneInstrument (cloneInstNum refInstNum : Z) : M unit :=
  l ← gets insts_;
  o ← lift (at_ l refInstNum);
  refInst ← lift (deref o);
  addInstrument cloneInstNum (getSoundSource refInst) (getName refInst) ;;
  l ← gets insts_;
  o ← lift (at_ l cloneInstNum);
  match refInst with
  | InstFM _ =>
      cloneFm ← lift (derefAs FM o);
      (* Remove temporary number *)
      updateIdx EnvFM (getLinkNumber LEnvFM cloneFm)
        (deregisterUserInstrument cloneInstNum) ;;
      envNum ← cloneFMEnvelope (getLinkNumber LEnvFM refInst);
      modifyInst cloneInstNum (setLinkNumber LEnvFM envNum) ;;
      updateIdx EnvFM envNum (registerUserInstrument cloneInstNum) ;;
      deepCopyLink cloneInstNum refInst LLfoFM ;;
      forM_ envFMParams_ (λ p, deepCopyLink cloneInstNum refInst (LOpSeqFM p)) ;;
      deepCopyPerOperator cloneInstNum refInst LArpFM ArpFM ;;
      deepCopyPerOperator cloneInstNum refInst LPtFM PtFM ;;
      forM_ fmOpTypes_ (λ t,
        setInstrumentFMEnvelopeResetEnabled cloneInstNum t
          (getEnvelopeResetEnabled t refInst))
  | InstSSG _ =>
      deepCopyLink cloneInstNum refInst LWfSSG ;;
      deepCopyLink cloneInstNum refInst LTnSSG ;;
      deepCopyLink cloneInstNum refInst LEnvSSG ;;
      deepCopyLink cloneInstNum refInst LArpSSG ;;
      deepCopyLink cloneInstNum refInst LPtSSG
  | InstADPCM _ =>
      cloneAdpcm ← lift (derefAs ADPCM o);
      (* Remove temporary number *)
      updateIdx WfADPCM (getLinkNumber LWfADPCM cloneAdpcm)
        (deregisterUserInstrument cloneInstNum) ;;
      wfNum ← cloneADPCMWaveform (getLinkNumber LWfADPCM refInst);
      modifyInst cloneInstNum (setLinkNumber LWfADPCM wfNum) ;;
      updateIdx WfADPCM wfNum (registerUserInstrument cloneInstNum) ;;
      deepCopyLink cloneInstNum refInst LEnvADPCM ;;
      deepCopyLink cloneInstNum refInst LArpADPCM ;;
      deepCopyLink cloneInstNum refInst LPtADPCM
  end.

(** [std::unique_ptr<AbstractInstrument> removeInstrument(int instNum)] *)
Definition removeInstrument (instNum : Z) : M AbstractInstrument :=
  l ← gets insts_;
  o ← lift (at_ l instNum);
  inst ← lift (deref o);
  forM_ (linksOf (getSoundSource inst)) (λ l,
    if getLinkEnabled l inst
    then updateAt (link_kind l) (getLinkNumber l inst)
           (deregisterUserInstrument instNum)
    else mret tt) ;;
  modify (λ m, setInsts (<[Z.to_nat instNum := None]> (insts_ m)) m) ;;
  mret inst.

(** [std::shared_ptr<AbstractInstrument> getInstrumentSharedPtr(int instNum)];
    the null pointer is [None]. *)
Definition getInstrumentSharedPtr (instNum : Z) : M (option AbstractInstrument) :=
  l ← gets insts_;
  if (0 <=? instNum) && (instNum <? size l)
  then o ← lift (at_ l instNum);
       match o with
       | Some i => o' ← lift (idx l instNum); mret o'
       | None => mret None
       end
  else mret None.

(** [std::string getInstrumentName(int instNum) const] *)
Definition getInstrumentName (instNum : Z) : M string :=
  l ← gets insts_;
  o ← lift (at_ l instNum);
  i ← lift (deref o);
  mret (getName i).

(** [void setInstrumentName(int instNum, std::string name)] is not
    needed below.  [std::vector<int> getEnvelopeFMUsers(int envNum) const]
    and its siblings: *)
Definition getPropertyUsers (k : PropKind) (n : Z) : M (list Z) :=
  l ← pool k;
  p ← lift (at_ l n);
  mret (getUserInstruments p).

(** The slot a fresh manager holds at index [i] of each pool, as
    [clearAll] builds it. *)
Definition newProperty (k : PropKind) (i : Z) : Property :=
  mkProperty i []
    match k with
    | EnvFM => PEnvelopeFM EnvelopeFM_new
    | LfoFM => PLFOFM LFOFM_new
    | OpSeqFM _ => PCommandSequence CommandSequence_new1
    | ArpFM => PCommandSequence (CommandSequence_new3 ABSOLUTE_SEQUENCE 48)
    | PtFM => PCommandSequence (CommandSequence_new3 ABSOLUTE_SEQUENCE 127)
    | WfSSG => PCommandSequence CommandSequence_new1
    | TnSSG => PCommandSequence CommandSequence_new1
    | EnvSSG => PCommandSequence (CommandSequence_new3 NO_SEQUENCE_TYPE 15)
    | ArpSSG => PCommandSequence (CommandSequence_new3 ABSOLUTE_SEQUENCE 48)
    | PtSSG => PCommandSequence (CommandSequence_new3 ABSOLUTE_SEQUENCE 127)
    | WfADPCM => PWaveformADPCM WaveformADPCM_new
    | EnvADPCM => PCommandSequence (CommandSequence_new3 NO_SEQUENCE_TYPE 255)
    | ArpADPCM => PCommandSequence (CommandSequence_new3 ABSOLUTE_SEQUENCE 48)
    | PtADPCM => PCommandSequence (CommandSequence_new3 ABSOLUTE_SEQUENCE 127)
    end.

(** [void clearAll()] *)
Definition clearAll (m : InstrumentsManager) : InstrumentsManager :=
  mkManager (replicate 128 None) (regardingUnedited_ m)
    (λ k, if validKind k
          then map (λ i : nat, newProperty k (Z.of_nat i)) (seq 0 128)
          else []).

(** [explicit InstrumentsManager(bool unedited)] *)
Definition InstrumentsManager_new (unedited : bool) : InstrumentsManager :=
  clearAll (mkManager [] unedited (λ _, [])).

(** [void setPropertyFindMode(bool unedited)] *)
Definition setPropertyFindMode (unedited : bool) (m : InstrumentsManager)
  : InstrumentsManager :=
  mkManager (insts_ m) unedited (pools_ m).

(** [void setEnvelopeFMParameter(int envNum, FMEnvelopeParameter param, int value)] *)
Definition setEnvelopeFMParameter (envNum : Z) (param : FMEnvelopeParameter)
    (value : Z) : M unit :=
  updateAt EnvFM envNum (λ p,
    mkProperty (number_ p) (users_ p)
      match payload_ p with
      | PEnvelopeFM e => PEnvelopeFM (setParameterValue e param value)
      | other => other
      end).

(** Any other call of the form [pool.at(n)->mutator(..)] of the manager
    ([add{X}SequenceCommand], [set{X}Loops], [setLFOFMParameter], ...):
    the mutator changes the payload and nothing else. *)
Definition mutateProperty (k : PropKind) (n : Z) (f : Payload → Payload) : M unit :=
  updateAt k n (λ p, mkProperty (number_ p) (users_ p) (f (payload_ p))).

(** [std::vector<int> getEntriedInstrumentIndices() const] *)
Definition getEntriedInstrumentIndices (m : InstrumentsManager) : list Z :=
  flat_map (λ ni : nat * option AbstractInstrument,
              match snd ni with Some _ => [Z.of_nat (fst ni)] | None => [] end)
           (imap (λ n inst, (n, inst)) (insts_ m)).

(** In [equalProperties{FM,SSG,ADPCM}]:
    [if (a->get{X}Enabled() != b->get{X}Enabled()) return false;
     if (a->get{X}Enabled() && *pool[a->get{X}Number()] != *pool[b->get{X}Number()]) return false;]
    The result is [true] when the function goes on to the next test. *)
Definition equalLink (m : InstrumentsManager) (a b : AbstractInstrument) (l : Link)
  : Result bool :=
  if negb (bool_decide (getLinkEnabled l a = getLinkEnabled l b)) then Ok false
  else if getLinkEnabled l a
  then match idx (pools_ m (link_kind l)) (getLinkNumber l a),
             idx (pools_ m (link_kind l)) (getLinkNumber l b) with
       | Ok pa, Ok pb => Ok (negb (Property_neq pa pb))
       | Fail e, _ => Fail e
       | _, Fail e => Fail e
       end
  else Ok true.

(** A chain of tests, each of which may [return false]. *)
Fixpoint allTests (tests : list (Result bool)) : Result bool :=
  match tests with
  | [] => Ok true
  | t :: ts => match t with
               | Ok true => allTests ts
               | Ok false => Ok false
               | Fail e => Fail e
               end
  end.

(** [bool equalPropertiesFM(a, b) const]; the loop over [opSeqFM_] visits
    its 38 keys, here in the order of [envFMParams_]. *)
Definition equalPropertiesFM (m : InstrumentsManager) (a b : AbstractInstrument)
  : Result bool :=
  allTests (
    equalLink m a b LEnvFM
    :: equalLink m a b LLfoFM
    :: map (λ p, equalLink m a b (LOpSeqFM p)) envFMParams_
    ++ flat_map (λ t,
         [ equalLink m a b (LArpFM t);
           equalLink m a b (LPtFM t);
           Ok (bool_decide (getEnvelopeResetEnabled t a = getEnvelopeResetEnabled t b)) ])
       fmOpTypes_).

(** [bool equalPropertiesSSG(a, b) const] *)
Definition equalPropertiesSSG (m : InstrumentsManager) (a b : AbstractInstrument)
  : Result bool :=
  allTests (map (equalLink m a b) linksSSG).

(** [bool equalPropertiesADPCM(a, b) const] *)
Definition equalPropertiesADPCM (m : InstrumentsManager) (a b : AbstractInstrument)
  : Result bool :=
  allTests (map (equalLink m a b) linksADPCM).

(** The test in the inner loop of [checkDuplicateInstruments]: whether
    [tgt] joins the group of [base]. *)
Definition sameGroup (m : InstrumentsManager) (baseIdx tgtIdx : Z) : Result bool :=
  match idx (insts_ m) baseIdx, idx (insts_ m) tgtIdx with
  | Ok (Some base), Ok (Some tgt) =>
      if bool_decide (getSoundSource base = getSoundSource tgt)
      then match getSoundSource base with
           | FM => equalPropertiesFM m base tgt
           | SSG => equalPropertiesSSG m base tgt
           | DRUM => Ok false
           | ADPCM => equalPropertiesADPCM m base tgt
           end
      else Ok false
  | Fail e, _ => Fail e
  | _, Fail e => Fail e
  | _, _ => Fail Undefined
  end.

(** The inner loop: [j] runs over the indices after the base; an index
    that joins the group is erased from [idcs], the others stay.  The
    result is the tail of the group and what is left of [idcs]. *)
Fixpoint collectGroup (m : InstrumentsManager) (baseIdx : Z) (rest : list Z)
  : Result (list Z * list Z) :=
  match rest with
  | [] => Ok ([], [])
  | tgtIdx :: rest' =>
      match sameGroup m baseIdx tgtIdx with
      | Fail e => Fail e
      | Ok joins =>
          match collectGroup m baseIdx rest' with
          | Fail e => Fail e
          | Ok (group, remaining) =>
              if joins then Ok (tgtIdx :: group, remaining)
              else Ok (group, tgtIdx :: remaining)
          end
      end
  end.

(** The outer loop; [fuel] bounds its turns, and [idcs.size()] turns are
    enough because every turn takes the base index away. *)
Fixpoint groupsFrom (fuel : nat) (m : InstrumentsManager) (idcs : list Z)
  : Result (list (list Z)) :=
  match fuel, idcs with
  | _, [] => Ok []
  | O, _ :: _ => Ok []
  | S fuel', baseIdx :: rest =>
      match collectGroup m baseIdx rest with
      | Fail e => Fail e
      | Ok (group, remaining) =>
          match groupsFrom fuel' m remaining with
          | Fail e => Fail e
          | Ok dupList =>
              if (1 <? size (baseIdx :: group))
              then Ok ((baseIdx :: group) :: dupList)
              else Ok dupList
          end
      end
  end.

(** [std::vector<std::vector<int>> checkDuplicateInstruments() const] *)
Definition checkDuplicateInstruments (m : InstrumentsManager)
  : Result (list (list Z)) :=
  let idcs := getEntriedInstrumentIndices m in
  groupsFrom (length idcs) m idcs.
End Manager.

(** ** opna_controller.cpp

    opna_controller.hpp, the iterator classes, pitch_converter and misc.hpp
    are not among the sources.  What the tick path calls in them is taken
    as a parameter: the iterator interface ([SequenceIteratorInterface]),
    the inline helpers of the header and the pitch table. *)

Inductive SongType := Standard | FM3chExpanded.

#[global] Instance SongType_eq_dec : EqDecision SongType.
Proof. solve_decision. Defined.

(** [struct ToneDetail { int octave; Note note; int pitch; }]; an
    enumerator of [Note] is kept as its integer value. *)
Record ToneDetail := mkTone { octave : Z; note : Z; pitch : Z }.

(** An entry of [registerSetBuf_]. *)
Record RegisterUnit := mkUnit { address : Z; value : Z; hasCompleted : bool }.

(** What the controller reads through the pointer [refInstFM_[inch]]. *)
Record RefInstrumentFM := mkRefFM {
  getLFOEnabled : bool;
  getLFOParameter : FMLFOParameter → Z
}.

Class ControllerParts := {
  (* SequenceIteratorInterface: next(isReleaseBegin) and front() return a
     position and move the iterator *)
  Iter : Type;
  it_next : bool → Iter → Z * Iter;
  it_front : Iter → Z * Iter;
  it_getPosition : Iter → Z;
  it_getSequenceType : Iter → SequenceType;
  it_getCommandType : Iter → Z;
  (* inline helpers of opna_controller.hpp *)
  toInternalFMChannel : SongType → Z → Result Z;
  isCarrier : Z → Z → bool;
  judgeSSEGRegisterValue : Z → Z;
  (* misc.hpp and pitch_converter.hpp *)
  noteNumberToOctaveAndNote : Z → Z * Z;
  octaveAndNoteToNoteNumber : Z → Z → Z;
  SEMINOTE_PITCH : Z;
  getPitchFM : Z → Z → Z → Z
}.

(** Narrowing conversions. *)
Definition u8 (x : Z) : Z := x mod 256.
Definition u16 (x : Z) : Z := x mod 65536.
Definition u32 (x : Z) : Z := x mod 4294967296.
(** [size_t] is taken to be 64 bits wide. *)
Definition usize (x : Z) : Z := x mod 18446744073709551616.

(** [clamp] of misc.hpp, in its usual meaning. *)
Definition clamp (v lo hi : Z) : Z :=
  if v <? lo then lo else if hi <? v then hi else v.

Section Controller.
Context `{ControllerParts}.

(** The members of [OPNAController] that the modelled functions use.  An
    array indexed by a channel is a function of the index; [writes_] is the
    sequence of calls [opna_->setRegister(address, value)] made so far. *)
Record OPNAController := mkController {
  mode_ : SongType;
  writes_ : list (Z * Z);
  registerSetBuf_ : list RegisterUnit;
  keyOnFlagDrum_ : Z;
  keyOffFlagDrum_ : Z;
  dramSize_ : Z;
  storePointADPCM_ : Z;
  lfoFreq_ : Z;
  envFM_ : Z → EnvelopeFM;
  refInstFM_ : Z → option RefInstrumentFM;
  panFM_ : Z → Z;
  lfoStartCntFM_ : Z → Z;
  opSeqItFM_ : Z → FMEnvelopeParameter → option Iter;
  isMuteFM_ : Z → bool;
  hasPreSetTickEventFM_ : Z → bool;
  baseVolFM_ : Z → Z;
  tmpVolFM_ : Z → Z;
  baseToneFM_ : Z → list ToneDetail;
  keyToneFM_ : Z → ToneDetail;
  needToneSetFM_ : Z → bool;
  hasKeyOnBeforeFM_ : Z → bool;
  arpItFM_ : Z → option Iter;
  ptItFM_ : Z → option Iter;
  vibItFM_ : Z → option Iter;
  treItFM_ : Z → option Iter;
  nsItFM_ : Z → option Iter;
  prtmFM_ : Z → Z;
  isTonePrtmFM_ : Z → bool;
  sumPitchFM_ : Z → Z;
  volSldFM_ : Z → Z;
  sumVolSldFM_ : Z → Z;
  detuneFM_ : Z → Z;
  sumNoteSldFM_ : Z → Z;
  transposeFM_ : Z → Z
}.

(** Assignment to one member, the others kept. *)
Definition set_writes_ (v : list (Z * Z)) (c : OPNAController) : OPNAController :=
  mkController (mode_ c) v (registerSetBuf_ c) (keyOnFlagDrum_ c)
    (keyOffFlagDrum_ c) (dramSize_ c) (storePointADPCM_ c) (lfoFreq_ c)
    (envFM_ c) (refInstFM_ c) (panFM_ c) (lfoStartCntFM_ c) (opSeqItFM_ c)
    (isMuteFM_ c) (hasPreSetTickEventFM_ c) (baseVolFM_ c) (tmpVolFM_ c)
    (baseToneFM_ c) (keyToneFM_ c) (needToneSetFM_ c) (hasKeyOnBeforeFM_ c)
    (arpItFM_ c) (ptItFM_ c) (vibItFM_ c) (treItFM_ c) (nsItFM_ c) (prtmFM_ c)
    (isTonePrtmFM_ c) (sumPitchFM_ c) (volSldFM_ c) (sumVolSldFM_ c)
    (detuneFM_ c) (sumNoteSldFM_ c) (transposeFM_ c).

Definition set_registerSetBuf_ (v : list RegisterUnit) (c : OPNAController) : OPNAController :=
  mkController (mode_ c) (writes_ c) v (keyOnFlagDrum_ c) (keyOffFlagDrum_ c)
    (dramSize_ c) (storePointADPCM_ c) (lfoFreq_ c) (envFM_ c) (refInstFM_ c)
    (panFM_ c) (lfoStartCntFM_ c) (opSeqItFM_ c) (isMuteFM_ c)
    (hasPreSetTickEventFM_ c) (baseVolFM_ c) (tmpVolFM_ c) (baseToneFM_ c)
    (keyToneFM_ c) (needToneSetFM_ c) (hasKeyOnBeforeFM_ c) (arpItFM_ c)
    (ptItFM_ c) (vibItFM_ c) (treItFM_ c) (nsItFM_ c) (prtmFM_ c)
    (isTonePrtmFM_ c) (sumPitchFM_ c) (volSldFM_ c) (sumVolSldFM_ c)
    (detuneFM_ c) (sumNoteSldFM_ c) (transposeFM_ c).

Definition set_keyOnFlagDrum_ (v : Z) (c : OPNAController) : OPNAController :=
  mkController (mode_ c) (writes_ c) (registerSetBuf_ c) v (keyOffFlagDrum_ c)
    (dramSize_ c) (storePointADPCM_ c) (lfoFreq_ c) (envFM_ c) (refInstFM_ c)
    (panFM_ c) (lfoStartCntFM_ c) (opSeqItFM_ c) (isMuteFM_ c)
    (hasPreSetTickEventFM_ c) (baseVolFM_ c) (tmpVolFM_ c) (baseToneFM_ c)
    (keyToneFM_ c) (needToneSetFM_ c) (hasKeyOnBeforeFM_ c) (arpItFM_ c)
    (ptItFM_ c) (vibItFM_ c) (treItFM_ c) (nsItFM_ c) (prtmFM_ c)
    (isTonePrtmFM_ c) (sumPitchFM_ c) (volSldFM_ c) (sumVolSldFM_ c)
    (detuneFM_ c) (sumNoteSldFM_ c) (transposeFM_ c).

Definition set_keyOffFlagDrum_ (v : Z) (c : OPNAController) : OPNAController :=
  mkController (mode_ c) (writes_ c) (registerSetBuf_ c) (keyOnFlagDrum_ c) v
    (dramSize_ c) (storePointADPCM_ c) (lfoFreq_ c) (envFM_ c) (refInstFM_ c)
    (panFM_ c) (lfoStartCntFM_ c) (opSeqItFM_ c) (isMuteFM_ c)
    (hasPreSetTickEventFM_ c) (baseVolFM_ c) (tmpVolFM_ c) (baseToneFM_ c)
    (keyToneFM_ c) (needToneSetFM_ c) (hasKeyOnBeforeFM_ c) (arpItFM_ c)
    (ptItFM_ c) (vibItFM_ c) (treItFM_ c) (nsItFM_ c) (prtmFM_ c)
    (isTonePrtmFM_ c) (sumPitchFM_ c) (volSldFM_ c) (sumVolSldFM_ c)
    (detuneFM_ c) (sumNoteSldFM_ c) (transposeFM_ c).

Definition set_storePointADPCM_ (v : Z) (c : OPNAController) : OPNAController :=
  mkController (mode_ c) (writes_ c) (registerSetBuf_ c) (keyOnFlagDrum_ c)
    (keyOffFlagDrum_ c) (dramSize_ c) v (lfoFreq_ c) (envFM_ c) (refInstFM_ c)
    (panFM_ c) (lfoStartCntFM_ c) (opSeqItFM_ c) (isMuteFM_ c)
    (hasPreSetTickEventFM_ c) (baseVolFM_ c) (tmpVolFM_ c) (baseToneFM_ c)
    (keyToneFM_ c) (needToneSetFM_ c) (hasKeyOnBeforeFM_ c) (arpItFM_ c)
    (ptItFM_ c) (vibItFM_ c) (treItFM_ c) (nsItFM_ c) (prtmFM_ c)
    (isTonePrtmFM_ c) (sumPitchFM_ c) (volSldFM_ c) (sumVolSldFM_ c)
    (detuneFM_ c) (sumNoteSldFM_ c) (transposeFM_ c).

Definition set_lfoFreq_ (v : Z) (c : OPNAController) : OPNAController :=
  mkController (mode_ c) (writes_ c) (registerSetBuf_ c) (keyOnFlagDrum_ c)
    (keyOffFlagDrum_ c) (dramSize_ c) (storePointADPCM_ c) v (envFM_ c)
    (refInstFM_ c) (panFM_ c) (lfoStartCntFM_ c) (opSeqItFM_ c) (isMuteFM_ c)
    (hasPreSetTickEventFM_ c) (baseVolFM_ c) (tmpVolFM_ c) (baseToneFM_ c)
    (keyToneFM_ c) (needToneSetFM_ c) (hasKeyOnBeforeFM_ c) (arpItFM_ c)
    (ptItFM_ c) (vibItFM_ c) (treItFM_ c) (nsItFM_ c) (prtmFM_ c)
    (isTonePrtmFM_ c) (sumPitchFM_ c) (volSldFM_ c) (sumVolSldFM_ c)
    (detuneFM_ c) (sumNoteSldFM_ c) (transposeFM_ c).

Definition set_envFM_ (v : Z → EnvelopeFM) (c : OPNAController) : OPNAController :=
  mkController (mode_ c) (writes_ c) (registerSetBuf_ c) (keyOnFlagDrum_ c)
    (keyOffFlagDrum_ c) (dramSize_ c) (storePointADPCM_ c) (lfoFreq_ c) v
    (refInstFM_ c) (panFM_ c) (lfoStartCntFM_ c) (opSeqItFM_ c) (isMuteFM_ c)
    (hasPreSetTickEventFM_ c) (baseVolFM_ c) (tmpVolFM_ c) (baseToneFM_ c)
    (keyToneFM_ c) (needToneSetFM_ c) (hasKeyOnBeforeFM_ c) (arpItFM_ c)
    (ptItFM_ c) (vibItFM_ c) (treItFM_ c) (nsItFM_ c) (prtmFM_ c)
    (isTonePrtmFM_ c) (sumPitchFM_ c) (volSldFM_ c) (sumVolSldFM_ c)
    (detuneFM_ c) (sumNoteSldFM_ c) (transposeFM_ c).

Definition set_lfoStartCntFM_ (v : Z → Z) (c : OPNAController) : OPNAController :=
  mkController (mode_ c) (writes_ c) (registerSetBuf_ c) (keyOnFlagDrum_ c)
    (keyOffFlagDrum_ c) (dramSize_ c) (storePointADPCM_ c) (lfoFreq_ c)
    (envFM_ c) (refInstFM_ c) (panFM_ c) v (opSeqItFM_ c) (isMuteFM_ c)
    (hasPreSetTickEventFM_ c) (baseVolFM_ c) (tmpVolFM_ c) (baseToneFM_ c)
    (keyToneFM_ c) (needToneSetFM_ c) (hasKeyOnBeforeFM_ c) (arpItFM_ c)
    (ptItFM_ c) (vibItFM_ c) (treItFM_ c) (nsItFM_ c) (prtmFM_ c)
    (isTonePrtmFM_ c) (sumPitchFM_ c) (volSldFM_ c) (sumVolSldFM_ c)
    (detuneFM_ c) (sumNoteSldFM_ c) (transposeFM_ c).

Definition set_opSeqItFM_ (v : Z → FMEnvelopeParameter → option Iter) (c : OPNAController) : OPNAController :=
  mkController (mode_ c) (writes_ c) (registerSetBuf_ c) (keyOnFlagDrum_ c)
    (keyOffFlagDrum_ c) (dramSize_ c) (storePointADPCM_ c) (lfoFreq_ c)
    (envFM_ c) (refInstFM_ c) (panFM_ c) (lfoStartCntFM_ c) v (isMuteFM_ c)
    (hasPreSetTickEventFM_ c) (baseVolFM_ c) (tmpVolFM_ c) (baseToneFM_ c)
    (keyToneFM_ c) (needToneSetFM_ c) (hasKeyOnBeforeFM_ c) (arpItFM_ c)
    (ptItFM_ c) (vibItFM_ c) (treItFM_ c) (nsItFM_ c) (prtmFM_ c)
    (isTonePrtmFM_ c) (sumPitchFM_ c) (volSldFM_ c) (sumVolSldFM_ c)
    (detuneFM_ c) (sumNoteSldFM_ c) (transposeFM_ c).

Definition set_hasPreSetTickEventFM_ (v : Z → bool) (c : OPNAController) : OPNAController :=
  mkController (mode_ c) (writes_ c) (registerSetBuf_ c) (keyOnFlagDrum_ c)
    (keyOffFlagDrum_ c) (dramSize_ c) (storePointADPCM_ c) (lfoFreq_ c)
    (envFM_ c) (refInstFM_ c) (panFM_ c) (lfoStartCntFM_ c) (opSeqItFM_ c)
    (isMuteFM_ c) v (baseVolFM_ c) (tmpVolFM_ c) (baseToneFM_ c)
    (keyToneFM_ c) (needToneSetFM_ c) (hasKeyOnBeforeFM_ c) (arpItFM_ c)
    (ptItFM_ c) (vibItFM_ c) (treItFM_ c) (nsItFM_ c) (prtmFM_ c)
    (isTonePrtmFM_ c) (sumPitchFM_ c) (volSldFM_ c) (sumVolSldFM_ c)
    (detuneFM_ c) (sumNoteSldFM_ c) (transposeFM_ c).

Definition set_keyToneFM_ (v : Z → ToneDetail) (c : OPNAController) : OPNAController :=
  mkController (mode_ c) (writes_ c) (registerSetBuf_ c) (keyOnFlagDrum_ c)
    (keyOffFlagDrum_ c) (dramSize_ c) (storePointADPCM_ c) (lfoFreq_ c)
    (envFM_ c) (refInstFM_ c) (panFM_ c) (lfoStartCntFM_ c) (opSeqItFM_ c)
    (isMuteFM_ c) (hasPreSetTickEventFM_ c) (baseVolFM_ c) (tmpVolFM_ c)
    (baseToneFM_ c) v (needToneSetFM_ c) (hasKeyOnBeforeFM_ c) (arpItFM_ c)
    (ptItFM_ c) (vibItFM_ c) (treItFM_ c) (nsItFM_ c) (prtmFM_ c)
    (isTonePrtmFM_ c) (sumPitchFM_ c) (volSldFM_ c) (sumVolSldFM_ c)
    (detuneFM_ c) (sumNoteSldFM_ c) (transposeFM_ c).

Definition set_needToneSetFM_ (v : Z → bool) (c : OPNAController) : OPNAController :=
  mkController (mode_ c) (writes_ c) (registerSetBuf_ c) (keyOnFlagDrum_ c)
    (keyOffFlagDrum_ c) (dramSize_ c) (storePointADPCM_ c) (lfoFreq_ c)
    (envFM_ c) (refInstFM_ c) (panFM_ c) (lfoStartCntFM_ c) (opSeqItFM_ c)
    (isMuteFM_ c) (hasPreSetTickEventFM_ c) (baseVolFM_ c) (tmpVolFM_ c)
    (baseToneFM_ c) (keyToneFM_ c) v (hasKeyOnBeforeFM_ c) (arpItFM_ c)
    (ptItFM_ c) (vibItFM_ c) (treItFM_ c) (nsItFM_ c) (prtmFM_ c)
    (isTonePrtmFM_ c) (sumPitchFM_ c) (volSldFM_ c) (sumVolSldFM_ c)
    (detuneFM_ c) (sumNoteSldFM_ c) (transposeFM_ c).

Definition set_arpItFM_ (v : Z → option Iter) (c : OPNAController) : OPNAController :=
  mkController (mode_ c) (writes_ c) (registerSetBuf_ c) (keyOnFlagDrum_ c)
    (keyOffFlagDrum_ c) (dramSize_ c) (storePointADPCM_ c) (lfoFreq_ c)
    (envFM_ c) (refInstFM_ c) (panFM_ c) (lfoStartCntFM_ c) (opSeqItFM_ c)
    (isMuteFM_ c) (hasPreSetTickEventFM_ c) (baseVolFM_ c) (tmpVolFM_ c)
    (baseToneFM_ c) (keyToneFM_ c) (needToneSetFM_ c) (hasKeyOnBeforeFM_ c) v
    (ptItFM_ c) (vibItFM_ c) (treItFM_ c) (nsItFM_ c) (prtmFM_ c)
    (isTonePrtmFM_ c) (sumPitchFM_ c) (volSldFM_ c) (sumVolSldFM_ c)
    (detuneFM_ c) (sumNoteSldFM_ c) (transposeFM_ c).

Definition set_ptItFM_ (v : Z → option Iter) (c : OPNAController) : OPNAController :=
  mkController (mode_ c) (writes_ c) (registerSetBuf_ c) (keyOnFlagDrum_ c)
    (keyOffFlagDrum_ c) (dramSize_ c) (storePointADPCM_ c) (lfoFreq_ c)
    (envFM_ c) (refInstFM_ c) (panFM_ c) (lfoStartCntFM_ c) (opSeqItFM_ c)
    (isMuteFM_ c) (hasPreSetTickEventFM_ c) (baseVolFM_ c) (tmpVolFM_ c)
    (baseToneFM_ c) (keyToneFM_ c) (needToneSetFM_ c) (hasKeyOnBeforeFM_ c)
    (arpItFM_ c) v (vibItFM_ c) (treItFM_ c) (nsItFM_ c) (prtmFM_ c)
    (isTonePrtmFM_ c) (sumPitchFM_ c) (volSldFM_ c) (sumVolSldFM_ c)
    (detuneFM_ c) (sumNoteSldFM_ c) (transposeFM_ c).

Definition set_vibItFM_ (v : Z → option Iter) (c : OPNAController) : OPNAController :=
  mkController (mode_ c) (writes_ c) (registerSetBuf_ c) (keyOnFlagDrum_ c)
    (keyOffFlagDrum_ c) (dramSize_ c) (storePointADPCM_ c) (lfoFreq_ c)
    (envFM_ c) (refInstFM_ c) (panFM_ c) (lfoStartCntFM_ c) (opSeqItFM_ c)
    (isMuteFM_ c) (hasPreSetTickEventFM_ c) (baseVolFM_ c) (tmpVolFM_ c)
    (baseToneFM_ c) (keyToneFM_ c) (needToneSetFM_ c) (hasKeyOnBeforeFM_ c)
    (arpItFM_ c) (ptItFM_ c) v (treItFM_ c) (nsItFM_ c) (prtmFM_ c)
    (isTonePrtmFM_ c) (sumPitchFM_ c) (volSldFM_ c) (sumVolSldFM_ c)
    (detuneFM_ c) (sumNoteSldFM_ c) (transposeFM_ c).

Definition set_treItFM_ (v : Z → option Iter) (c : OPNAController) : OPNAController :=
  mkController (mode_ c) (writes_ c) (registerSetBuf_ c) (keyOnFlagDrum_ c)
    (keyOffFlagDrum_ c) (dramSize_ c) (storePointADPCM_ c) (lfoFreq_ c)
    (envFM_ c) (refInstFM_ c) (panFM_ c) (lfoStartCntFM_ c) (opSeqItFM_ c)
    (isMuteFM_ c) (hasPreSetTickEventFM_ c) (baseVolFM_ c) (tmpVolFM_ c)
    (baseToneFM_ c) (keyToneFM_ c) (needToneSetFM_ c) (hasKeyOnBeforeFM_ c)
    (arpItFM_ c) (ptItFM_ c) (vibItFM_ c) v (nsItFM_ c) (prtmFM_ c)
    (isTonePrtmFM_ c) (sumPitchFM_ c) (volSldFM_ c) (sumVolSldFM_ c)
    (detuneFM_ c) (sumNoteSldFM_ c) (transposeFM_ c).

Definition set_nsItFM_ (v : Z → option Iter) (c : OPNAController) : OPNAController :=
  mkController (mode_ c) (writes_ c) (registerSetBuf_ c) (keyOnFlagDrum_ c)
    (keyOffFlagDrum_ c) (dramSize_ c) (storePointADPCM_ c) (lfoFreq_ c)
    (envFM_ c) (refInstFM_ c) (panFM_ c) (lfoStartCntFM_ c) (opSeqItFM_ c)
    (isMuteFM_ c) (hasPreSetTickEventFM_ c) (baseVolFM_ c) (tmpVolFM_ c)
    (baseToneFM_ c) (keyToneFM_ c) (needToneSetFM_ c) (hasKeyOnBeforeFM_ c)
    (arpItFM_ c) (ptItFM_ c) (vibItFM_ c) (treItFM_ c) v (prtmFM_ c)
    (isTonePrtmFM_ c) (sumPitchFM_ c) (volSldFM_ c) (sumVolSldFM_ c)
    (detuneFM_ c) (sumNoteSldFM_ c) (transposeFM_ c).

Definition set_sumPitchFM_ (v : Z → Z) (c : OPNAController) : OPNAController :=
  mkController (mode_ c) (writes_ c) (registerSetBuf_ c) (keyOnFlagDrum_ c)
    (keyOffFlagDrum_ c) (dramSize_ c) (storePointADPCM_ c) (lfoFreq_ c)
    (envFM_ c) (refInstFM_ c) (panFM_ c) (lfoStartCntFM_ c) (opSeqItFM_ c)
    (isMuteFM_ c) (hasPreSetTickEventFM_ c) (baseVolFM_ c) (tmpVolFM_ c)
    (baseToneFM_ c) (keyToneFM_ c) (needToneSetFM_ c) (hasKeyOnBeforeFM_ c)
    (arpItFM_ c) (ptItFM_ c) (vibItFM_ c) (treItFM_ c) (nsItFM_ c) (prtmFM_ c)
    (isTonePrtmFM_ c) v (volSldFM_ c) (sumVolSldFM_ c) (detuneFM_ c)
    (sumNoteSldFM_ c) (transposeFM_ c).

Definition set_sumVolSldFM_ (v : Z → Z) (c : OPNAController) : OPNAController :=
  mkController (mode_ c) (writes_ c) (registerSetBuf_ c) (keyOnFlagDrum_ c)
    (keyOffFlagDrum_ c) (dramSize_ c) (storePointADPCM_ c) (lfoFreq_ c)
    (envFM_ c) (refInstFM_ c) (panFM_ c) (lfoStartCntFM_ c) (opSeqItFM_ c)
    (isMuteFM_ c) (hasPreSetTickEventFM_ c) (baseVolFM_ c) (tmpVolFM_ c)
    (baseToneFM_ c) (keyToneFM_ c) (needToneSetFM_ c) (hasKeyOnBeforeFM_ c)
    (arpItFM_ c) (ptItFM_ c) (vibItFM_ c) (treItFM_ c) (nsItFM_ c) (prtmFM_ c)
    (isTonePrtmFM_ c) (sumPitchFM_ c) (volSldFM_ c) v (detuneFM_ c)
    (sumNoteSldFM_ c) (transposeFM_ c).

Definition set_sumNoteSldFM_ (v : Z → Z) (c : OPNAController) : OPNAController :=
  mkController (mode_ c) (writes_ c) (registerSetBuf_ c) (keyOnFlagDrum_ c)
    (keyOffFlagDrum_ c) (dramSize_ c) (storePointADPCM_ c) (lfoFreq_ c)
    (envFM_ c) (refInstFM_ c) (panFM_ c) (lfoStartCntFM_ c) (opSeqItFM_ c)
    (isMuteFM_ c) (hasPreSetTickEventFM_ c) (baseVolFM_ c) (tmpVolFM_ c)
    (baseToneFM_ c) (keyToneFM_ c) (needToneSetFM_ c) (hasKeyOnBeforeFM_ c)
    (arpItFM_ c) (ptItFM_ c) (vibItFM_ c) (treItFM_ c) (nsItFM_ c) (prtmFM_ c)
    (isTonePrtmFM_ c) (sumPitchFM_ c) (volSldFM_ c) (sumVolSldFM_ c)
    (detuneFM_ c) v (transposeFM_ c).


Abbreviation C := (StateErr OPNAController).

(** [uint8_t calculateTL(int ch, uint8_t data) const], an inline member of
    the absent header. *)
Class ControllerMembers := {
  calculateTL : OPNAController → Z → Z → Z
}.
Context `{ControllerMembers}.

(** [opna_->setRegister(uint32_t offset, uint8_t value)] *)
Definition setRegister (offset val : Z) : C unit :=
  modify (λ c, set_writes_ (writes_ c ++ [(u32 offset, u8 val)]) c).

(** *** Direct register set *)

(** [std::vector::back] and [pop_back]. *)
Fixpoint back {A} (l : list A) : option A :=
  match l with
  | [] => None
  | [x] => Some x
  | _ :: l' => back l'
  end.

Fixpoint pop_back {A} (l : list A) : list A :=
  match l with
  | [] => []
  | [x] => []
  | x :: l' => x :: pop_back l'
  end.

(** [void sendRegisterAddress(int bank, int address)] *)
Definition sendRegisterAddress (bank addr : Z) : C unit :=
  let addr := Z.lor (Z.shiftl bank 8) addr in
  modify (λ c,
    match back (registerSetBuf_ c) with
    | Some unit =>
        if hasCompleted unit
        then set_registerSetBuf_ (registerSetBuf_ c ++ [mkUnit addr 0 false]) c
        else set_registerSetBuf_
               (pop_back (registerSetBuf_ c)
                ++ [mkUnit addr (value unit) (hasCompleted unit)]) c
    | None => set_registerSetBuf_ (registerSetBuf_ c ++ [mkUnit addr 0 false]) c
    end).

(** [void sendRegisterValue(int value)] *)
Definition sendRegisterValue (val : Z) : C unit :=
  modify (λ c,
    match back (registerSetBuf_ c) with
    | Some unit =>
        set_registerSetBuf_
          (pop_back (registerSetBuf_ c) ++ [mkUnit (address unit) val true]) c
    | None => c
    end).

(** [void updateKeyOnOffStatusDrum()] *)
Definition updateKeyOnOffStatusDrum : C unit :=
  on ← gets keyOnFlagDrum_;
  (if bool_decide (on ≠ 0)
   then setRegister 0x10 on ;; modify (set_keyOnFlagDrum_ 0)
   else mret tt) ;;
  off ← gets keyOffFlagDrum_;
  if bool_decide (off ≠ 0)
  then setRegister 0x10 (Z.lor 0x80 off) ;; modify (set_keyOffFlagDrum_ 0)
  else mret tt.

(** [void updateRegisterStates()] *)
Definition updateRegisterStates : C unit :=
  updateKeyOnOffStatusDrum ;;
  buf ← gets registerSetBuf_;
  match back buf with
  | None => mret tt
  | Some unit =>
      let buf := if negb (hasCompleted unit) then pop_back buf else buf in
      forM_ buf (λ unit, setRegister (address unit) (value unit)) ;;
      modify (set_registerSetBuf_ [])
  end.

(** *** ADPCM sample storage *)

(** [void clearSamplesADPCM()] *)
Definition clearSamplesADPCM : C unit := modify (set_storePointADPCM_ 0).

(** [std::vector<size_t> storeSampleADPCM(std::vector<uint8_t> sample)];
    the two addresses are returned as a pair. *)
Definition storeSampleADPCM (sample : list Z) : C (Z * Z) :=
  setRegister 0x110 0x80 ;;
  setRegister 0x100 0x61 ;;
  setRegister 0x100 0x60 ;;
  setRegister 0x101 0x02 ;;
  dramSize ← gets dramSize_;
  let dramLim := Z.shiftr (usize (dramSize - 1)) 5 in   (* By 32 bytes *)
  setRegister 0x10c (Z.land dramLim 0xff) ;;
  setRegister 0x10d (Z.land (Z.shiftr dramLim 8) 0xff) ;;
  storePoint ← gets storePointADPCM_;
  addrs ← (if storePoint <? dramLim
           then
             let startAddress := storePoint in
             setRegister 0x102 (Z.land startAddress 0xff) ;;
             setRegister 0x103 (Z.land (Z.shiftr startAddress 8) 0xff) ;;
             let stopAddress :=
               usize (startAddress + Z.shiftr (usize (size sample - 1)) 5) in
             let stopAddress := Z.min stopAddress dramLim in
             setRegister 0x104 (Z.land stopAddress 0xff) ;;
             setRegister 0x105 (Z.land (Z.shiftr stopAddress 8) 0xff) ;;
             modify (set_storePointADPCM_ (usize (stopAddress + 1))) ;;
             forM_ sample (λ byte, setRegister 0x108 byte) ;;
             mret (startAddress, stopAddress)
           else mret (0, 0));
  setRegister 0x100 0x00 ;;
  setRegister 0x110 0x80 ;;
  mret addrs.

(** *** The FM tick path *)

(** [uint32_t getFMChannelOffset(int ch, bool forPitch = false) const] *)
Definition getFMChannelOffset (ch : Z) (forPitch : bool) : C Z :=
  mode ← gets mode_;
  if bool_decide (mode = FM3chExpanded) && forPitch
  then mret (if bool_decide (ch = 0 ∨ ch = 1) then u32 ch
             else if bool_decide (ch = 3 ∨ ch = 4 ∨ ch = 5)
                  then u32 (0x100 + Z.rem ch 3)
             else if bool_decide (ch = 2) then 9    (* FM3-OP1 *)
             else if bool_decide (ch = 6) then 10   (* FM3-OP2 *)
             else if bool_decide (ch = 7) then 8    (* FM3-OP3 *)
             else if bool_decide (ch = 8) then 2    (* FM3-OP4 *)
             else 0)
  else inch ← lift (toInternalFMChannel mode ch);
       mret (if bool_decide (inch = 0 ∨ inch = 1 ∨ inch = 2) then u32 ch
             else if bool_decide (inch = 3 ∨ inch = 4 ∨ inch = 5)
                  then u32 (0x100 + Z.rem ch 3)
             else 0).

(** [FMOperatorType toChannelOperatorType(int ch) const] *)
Definition toChannelOperatorType (ch : Z) : C FMOperatorType :=
  mode ← gets mode_;
  if bool_decide (mode = FM3chExpanded)
  then inch ← lift (toInternalFMChannel mode ch);
       if bool_decide (inch = 2)
       then if bool_decide (ch = 2) then mret Op1
            else if bool_decide (ch = 6) then mret Op2
            else if bool_decide (ch = 7) then mret Op3
            else if bool_decide (ch = 8) then mret Op4
            else raise OutOfRange
       else mret All
  else mret All.

(** [std::vector<FMEnvelopeParameter> getFMEnvelopeParametersForOperator(FMOperatorType op) const] *)
Definition getFMEnvelopeParametersForOperator (op : FMOperatorType)
  : list FMEnvelopeParameter :=
  match op with
  | All => [ AL; FB;
             AR1; DR1; SR1; RR1; SL1; TL1; KS1; ML1; DT1;
             AR2; DR2; SR2; RR2; SL2; TL2; KS2; ML2; DT2;
             AR3; DR3; SR3; RR3; SL3; TL3; KS3; ML3; DT3;
             AR4; DR4; SR4; RR4; SL4; TL4; KS4; ML4; DT4 ]
  | Op1 => [ AL; FB; AR1; DR1; SR1; RR1; SL1; TL1; KS1; ML1; DT1 ]
  | Op2 => [ AR2; DR2; SR2; RR2; SL2; TL2; KS2; ML2; DT2 ]
  | Op3 => [ AR3; DR3; SR3; RR3; SL3; TL3; KS3; ML3; DT3 ]
  | Op4 => [ AR4; DR4; SR4; RR4; SL4; TL4; KS4; ML4; DT4 ]
  end.

(** [envFM_[inch]->getParameterValue(p)] and [->setParameterValue(p, v)]. *)
Definition envParam (inch : Z) (p : FMEnvelopeParameter) : C Z :=
  gets (λ c, getParameterValue (envFM_ c inch) p).

Definition setEnvParam (inch : Z) (p : FMEnvelopeParameter) (v : Z) : C unit :=
  modify (λ c, set_envFM_ (upd (envFM_ c) inch
                             (setParameterValue (envFM_ c inch) p v)) c).

(** [refInstFM_[inch]->..]: the pointer is dereferenced. *)
Definition refInst (inch : Z) : C RefInstrumentFM :=
  o ← gets (λ c, refInstFM_ c inch);
  match o with Some r => mret r | None => raise Undefined end.

(** The cases of [writeFMEnveropeParameterToRegister], operator by
    operator; [off] is the offset of the operator's registers (0, 8, 4, 12)
    and [p1], [p2] the two parameters that share a register. *)
Definition writeShifted (inch bch reg off : Z) (p1 : FMEnvelopeParameter)
    (shift : Z) (p2 : FMEnvelopeParameter) : C unit :=
  v1 ← envParam inch p1;
  v2 ← envParam inch p2;
  setRegister (reg + bch + off) (u8 (Z.lor (u8 (Z.shiftl v1 shift)) v2)).

(** [case TL{n}]: [fm3ch] is the channel passed to [calculateTL] in the
    expanded mode; [carrier] is the operator tested by [isCarrier], absent
    for TL4, whose second branch has no test. *)
Definition writeTL (inch bch off : Z) (tl : FMEnvelopeParameter) (fm3ch : Z)
    (carrier : option Z) : C unit :=
  data ← envParam inch tl;
  let data := u8 data in
  mode ← gets mode_;
  al ← envParam inch AL;
  data ← (if bool_decide (mode = FM3chExpanded) && bool_decide (inch = 2)
          then c ← gets id;
               let data := u8 (calculateTL c fm3ch data) in
               setEnvParam inch tl data ;; mret data   (* Update *)
          else if match carrier with Some op => isCarrier op al | None => true end
          then c ← gets id;
               let data := u8 (calculateTL c inch data) in
               setEnvParam inch tl data ;; mret data   (* Update *)
          else mret data);
  setRegister (0x40 + bch + off) data.

(** [case DR{n}] *)
Definition writeDR (inch bch off : Z) (dr : FMEnvelopeParameter)
    (am : FMLFOParameter) : C unit :=
  r ← refInst inch;
  let data := if getLFOEnabled r then u8 (getLFOParameter r am) else 0 in
  let data := u8 (Z.shiftl data 7) in
  v ← envParam inch dr;
  setRegister (0x60 + bch + off) (u8 (Z.lor data v)).

(** [case SR{n}] *)
Definition writeSR (inch bch off : Z) (sr : FMEnvelopeParameter) : C unit :=
  v ← envParam inch sr;
  setRegister (0x70 + bch + off) (u8 v).

(** [case SSGEG{n}]; the fourth operator goes through
    [judgeSSEGRegisterValue]. *)
Definition writeSSGEG (inch bch off : Z) (eg : FMEnvelopeParameter)
    (judged : bool) : C unit :=
  tmp ← envParam inch eg;
  let data := if judged then u8 (judgeSSEGRegisterValue tmp)
              else if bool_decide (tmp = -1) then 0 else u8 (0x08 + tmp) in
  setRegister (0x90 + bch + off) data.

(** [void writeFMEnveropeParameterToRegister(int inch, FMEnvelopeParameter param, int value)] *)
Definition writeFMEnveropeParameterToRegister (inch : Z)
    (param : FMEnvelopeParameter) (val : Z) : C unit :=
  bch ← getFMChannelOffset inch false;   (* Bank and channel offset *)
  setEnvParam inch param val ;;
  match param with
  | AL | FB =>
      fb ← envParam inch FB;
      al ← envParam inch AL;
      setRegister (0xb0 + bch) (u8 (u8 (Z.shiftl fb 3) + al))
  | DT1 | ML1 => writeShifted inch bch 0x30 0 DT1 4 ML1
  | TL1 => writeTL inch bch 0 TL1 2 (Some 0)
  | KS1 | AR1 => writeShifted inch bch 0x50 0 KS1 6 AR1
  | DR1 => writeDR inch bch 0 DR1 AM1
  | SR1 => writeSR inch bch 0 SR1
  | SL1 | RR1 => writeShifted inch bch 0x80 0 SL1 4 RR1
  | SSGEG1 => writeSSGEG inch bch 0 SSGEG1 false
  | DT2 | ML2 => writeShifted inch bch 0x30 8 DT2 4 ML2
  | TL2 => writeTL inch bch 8 TL2 6 (Some 1)
  | KS2 | AR2 => writeShifted inch bch 0x50 8 KS2 6 AR2
  | DR2 => writeDR inch bch 8 DR2 AM2
  | SR2 => writeSR inch bch 8 SR2
  | SL2 | RR2 => writeShifted inch bch 0x80 8 SL2 4 RR2
  | SSGEG2 => writeSSGEG inch bch 8 SSGEG2 false
  | DT3 | ML3 => writeShifted inch bch 0x30 4 DT3 4 ML3
  | TL3 => writeTL inch bch 4 TL3 7 (Some 2)
  | KS3 | AR3 => writeShifted inch bch 0x50 4 KS3 6 AR3
  | DR3 => writeDR inch bch 4 DR3 AM3
  | SR3 => writeSR inch bch 4 SR3
  | SL3 | RR3 => writeShifted inch bch 0x80 4 SL3 4 RR3
  | SSGEG3 => writeSSGEG inch bch 4 SSGEG3 false
  | DT4 | ML4 => writeShifted inch bch 0x30 12 DT4 4 ML4
  | TL4 => writeTL inch bch 12 TL4 8 None
  | KS4 | AR4 => writeShifted inch bch 0x50 12 KS4 6 AR4
  | DR4 => writeDR inch bch 12 DR4 AM4
  | SR4 => writeSR inch bch 12 SR4
  | SL4 | RR4 => writeShifted inch bch 0x80 12 SL4 4 RR4
  | SSGEG4 => writeSSGEG inch bch 12 SSGEG4 true
  end.

(** [void writeFMLFORegister(int inch, FMLFOParameter param)] *)
Definition writeFMLFORegister (inch : Z) (param : FMLFOParameter) : C unit :=
  bch ← getFMChannelOffset inch false;   (* Bank and channel offset *)
  let am (p : FMLFOParameter) (dr : FMEnvelopeParameter) (off : Z) : C unit :=
    r ← refInst inch;
    v ← envParam inch dr;
    setRegister (0x60 + bch + off)
      (u8 (Z.lor (u8 (Z.shiftl (getLFOParameter r p) 7)) v)) in
  match param with
  | FREQ =>
      r ← refInst inch;
      modify (set_lfoFreq_ (getLFOParameter r FREQ)) ;;
      setRegister 0x22 (u8 (Z.lor (getLFOParameter r FREQ) (Z.shiftl 1 3)))
  | PMS | AMS =>
      pan ← gets (λ c, panFM_ c inch);
      r ← refInst inch;
      let data := u8 (Z.shiftl pan 6) in
      let data := u8 (Z.lor data (Z.shiftl (getLFOParameter r AMS) 4)) in
      let data := u8 (Z.lor data (getLFOParameter r PMS)) in
      setRegister (0xb4 + bch) data
  | AM1 => am AM1 DR1 0
  | AM2 => am AM2 DR2 8
  | AM3 => am AM3 DR3 4
  | AM4 => am AM4 DR4 12
  | Count => mret tt
  end.

(** [void writeFMLFOAllRegisters(int inch)] *)
Definition writeFMLFOAllRegisters (inch : Z) : C unit :=
  r ← refInst inch;
  cnt ← gets (λ c, lfoStartCntFM_ c inch);
  if negb (getLFOEnabled r) || (0 <? cnt)
  then   (* Clear data *)
    bch ← getFMChannelOffset inch false;   (* Bank and channel offset *)
    pan ← gets (λ c, panFM_ c inch);
    setRegister (0xb4 + bch) (u8 (Z.shiftl pan 6)) ;;
    (v ← envParam inch DR1; setRegister (0x60 + bch) (u8 v)) ;;
    (v ← envParam inch DR2; setRegister (0x60 + bch + 8) (u8 v)) ;;
    (v ← envParam inch DR3; setRegister (0x60 + bch + 4) (u8 v)) ;;
    (v ← envParam inch DR4; setRegister (0x60 + bch + 12) (u8 v))
  else
    writeFMLFORegister inch FREQ ;;
    writeFMLFORegister inch PMS ;;
    writeFMLFORegister inch AMS ;;
    writeFMLFORegister inch AM1 ;;
    writeFMLFORegister inch AM2 ;;
    writeFMLFORegister inch AM3 ;;
    writeFMLFORegister inch AM4 ;;
    modify (λ c, set_lfoStartCntFM_ (upd (lfoStartCntFM_ c) inch (-1)) c).

(** [opSeqItFM_[inch].at(p)]: the map has the 38 keys the constructor
    gave it. *)
Definition opSeqItAt (inch : Z) (p : FMEnvelopeParameter) : C (option Iter) :=
  if bool_decide (p ∈ getFMEnvelopeParametersForOperator All)
  then gets (λ c, opSeqItFM_ c inch p)
  else raise OutOfRange.

(** [void checkOperatorSequenceFM(int ch, int type)] *)
Definition checkOperatorSequenceFM (ch type : Z) : C unit :=
  mode ← gets mode_;
  inch ← lift (toInternalFMChannel mode ch);
  opType ← toChannelOperatorType ch;
  forM_ (getFMEnvelopeParametersForOperator opType) (λ p,
    o ← opSeqItAt inch p;
    match o with
    | None => mret tt
    | Some it =>
        r ← (if bool_decide (type = 0) then mret (it_next false it)
             else if bool_decide (type = 1) then mret (it_front it)
             else if bool_decide (type = 2) then mret (it_next true it)
             else raise OutOfRange);
        let t := fst r in
        let it := snd r in
        modify (λ c, set_opSeqItFM_
                       (upd (opSeqItFM_ c) inch (upd (opSeqItFM_ c inch) p (Some it))) c) ;;
        if bool_decide (t ≠ -1)
        then let d := it_getCommandType it in
             cur ← envParam inch p;
             if bool_decide (d ≠ cur)
             then writeFMEnveropeParameterToRegister inch p d
             else mret tt
        else mret tt
    end).

(** [void checkVolumeEffectFM(int ch)] *)
Definition checkVolumeEffectFM (ch : Z) : C unit :=
  tre ← gets (λ c, treItFM_ c ch);
  sumVolSld ← gets (λ c, sumVolSldFM_ c ch);
  volSld ← gets (λ c, volSldFM_ c ch);
  match (match tre with
         | Some it => Some (it_getCommandType it + sumVolSld)
         | None => if bool_decide (volSld ≠ 0) then Some sumVolSld else None
         end) with
  | None => mret tt
  | Some v =>
      bch ← getFMChannelOffset ch false;
      mode ← gets mode_;
      inch ← lift (toInternalFMChannel mode ch);
      opType ← toChannelOperatorType ch;
      let carrierTL (e : Z) (tl : FMEnvelopeParameter) (off : Z) : C unit :=
        data ← envParam e tl;
        setRegister (0x40 + bch + off) (u8 (clamp (data + v) 0 127)) in
      match opType with
      | All =>
          al ← envParam ch AL;
          (if isCarrier 0 al then carrierTL ch TL1 0 else mret tt) ;;   (* Operator 1 *)
          (if isCarrier 1 al then carrierTL ch TL2 8 else mret tt) ;;   (* Operator 2 *)
          (if isCarrier 2 al then carrierTL ch TL3 4 else mret tt) ;;   (* Operator 3 *)
          (if isCarrier 3 al then carrierTL ch TL4 12 else mret tt)     (* Operator 4 *)
      | Op1 => carrierTL inch TL1 0
      | Op2 => carrierTL inch TL2 8
      | Op3 => carrierTL inch TL3 4
      | Op4 => carrierTL inch TL4 12
      end
  end.

(** [std::deque::front] *)
Definition front {A} (l : list A) : Result A :=
  match l with x :: _ => Ok x | [] => Fail Undefined end.

(** [void checkRealToneByArpeggio(int seqPos, arpIt, baseTone, keyTone, needToneSet)],
    called for channel [ch] by the inline [checkRealToneFMByArpeggio(ch, seqPos)]. *)
Definition checkRealToneFMByArpeggio (ch seqPos : Z) : C unit :=
  if bool_decide (seqPos = -1) then mret tt
  else
    o ← gets (λ c, arpItFM_ c ch);
    arpIt ← (match o with Some it => mret it | None => raise Undefined end);
    baseTone ← gets (λ c, baseToneFM_ c ch);
    keyTone ← gets (λ c, keyToneFM_ c ch);
    let setTone (pair : Z * Z) : C unit :=
      modify (λ c, set_keyToneFM_
                     (upd (keyToneFM_ c) ch (mkTone (fst pair) (snd pair) (pitch keyTone))) c) ;;
      modify (λ c, set_needToneSetFM_ (upd (needToneSetFM_ c) ch true) c) in
    match it_getSequenceType arpIt with
    | ABSOLUTE_SEQUENCE =>
        b ← lift (front baseTone);
        setTone (noteNumberToOctaveAndNote
                   (octaveAndNoteToNoteNumber (octave b) (note b)
                    + it_getCommandType arpIt - 48))
    | FIXED_SEQUENCE =>
        setTone (noteNumberToOctaveAndNote (it_getCommandType arpIt))
    | RELATIVE_SEQUENCE =>
        setTone (noteNumberToOctaveAndNote
                   (octaveAndNoteToNoteNumber (octave keyTone) (note keyTone)
                    + it_getCommandType arpIt - 48))
    | NO_SEQUENCE_TYPE => mret tt
    end.

(** [void checkPortamento(arpIt, prtm, hasKeyOnBefore, isTonePrtm, baseTone, keyTone, needToneSet)],
    called for channel [ch] by the inline [checkPortamentoFM(ch)]. *)
Definition checkPortamentoFM (ch : Z) : C unit :=
  arpIt ← gets (λ c, arpItFM_ c ch);
  prtm ← gets (λ c, prtmFM_ c ch);
  gets (λ c, hasKeyOnBeforeFM_ c ch) ≫= λ hasKeyOnBefore : bool,
  gets (λ c, isTonePrtmFM_ c ch) ≫= λ isTonePrtm : bool,
  baseTone ← gets (λ c, baseToneFM_ c ch);
  keyTone ← gets (λ c, keyToneFM_ c ch);
  let setTone (t : ToneDetail) : C unit :=
    modify (λ c, set_keyToneFM_ (upd (keyToneFM_ c) ch t) c) ;;
    modify (λ c, set_needToneSetFM_ (upd (needToneSetFM_ c) ch true) c) in
  if match arpIt with None => true | Some it => bool_decide (it_getPosition it = -1) end
     && bool_decide (prtm ≠ 0) && hasKeyOnBefore
  then
    if isTonePrtm
    then
      b ← lift (front baseTone);
      let dif := (octaveAndNoteToNoteNumber (octave b) (note b) * SEMINOTE_PITCH + pitch b)
                 - (octaveAndNoteToNoteNumber (octave keyTone) (note keyTone)
                    * SEMINOTE_PITCH + pitch keyTone) in
      if 0 <? dif
      then if dif - prtm <? 0 then setTone b
           else setTone (mkTone (octave keyTone) (note keyTone) (pitch keyTone + prtm))
      else if dif <? 0
      then if 0 <? dif + prtm then setTone b
           else setTone (mkTone (octave keyTone) (note keyTone) (pitch keyTone - prtm))
      else mret tt
    else setTone (mkTone (octave keyTone) (note keyTone) (pitch keyTone + prtm))
  else mret tt.

(** [void checkRealToneByPitch(int seqPos, ptIt, sumPitch, needToneSet)],
    called for channel [ch] by the inline [checkRealToneFMByPitch(ch, seqPos)]. *)
Definition checkRealToneFMByPitch (ch seqPos : Z) : C unit :=
  if bool_decide (seqPos = -1) then mret tt
  else
    o ← gets (λ c, ptItFM_ c ch);
    ptIt ← (match o with Some it => mret it | None => raise Undefined end);
    sumPitch ← gets (λ c, sumPitchFM_ c ch);
    let setSum (v : Z) : C unit :=
      modify (λ c, set_sumPitchFM_ (upd (sumPitchFM_ c) ch v) c) ;;
      modify (λ c, set_needToneSetFM_ (upd (needToneSetFM_ c) ch true) c) in
    match it_getSequenceType ptIt with
    | ABSOLUTE_SEQUENCE => setSum (it_getCommandType ptIt - 127)
    | RELATIVE_SEQUENCE => setSum (sumPitch + (it_getCommandType ptIt - 127))
    | _ => mret tt
    end.

(** [void writePitchFM(int ch)] *)
Definition writePitchFM (ch : Z) : C unit :=
  keyTone ← gets (λ c, keyToneFM_ c ch);
  if bool_decide (octave keyTone = -1) then mret tt   (* Not set note yet *)
  else
    sumPitch ← gets (λ c, sumPitchFM_ c ch);
    vibIt ← gets (λ c, vibItFM_ c ch);
    detune ← gets (λ c, detuneFM_ c ch);
    sumNoteSld ← gets (λ c, sumNoteSldFM_ c ch);
    transpose ← gets (λ c, transposeFM_ c ch);
    let p := u16 (getPitchFM
                    (note keyTone)
                    (octave keyTone)
                    (pitch keyTone
                     + sumPitch
                     + match vibIt with Some it => it_getCommandType it | None => 0 end
                     + detune
                     + sumNoteSld
                     + transpose)) in
    offset ← getFMChannelOffset ch true;
    setRegister (0xa4 + offset) (Z.shiftr p 8) ;;
    setRegister (0xa0 + offset) (Z.land p 0x00ff) ;;
    modify (λ c, set_needToneSetFM_ (upd (needToneSetFM_ c) ch false) c).

(** [if (it) it->next()] on one of the iterator members of a channel;
    the position [next] returns is handed on. *)
Definition advance (get : OPNAController → Z → option Iter)
    (set : (Z → option Iter) → OPNAController → OPNAController) (ch : Z)
  : C (option Z) :=
  o ← gets (λ c, get c ch);
  match o with
  | None => mret None
  | Some it =>
      let r := it_next false it in
      modify (λ c, set (upd (get c) ch (Some (snd r))) c) ;;
      mret (Some (fst r))
  end.

(** [void tickEventFM(int ch)] *)
Definition tickEventFM (ch : Z) : C unit :=
  gets (λ c, hasPreSetTickEventFM_ c ch) ≫= λ preSet : bool,
  if preSet
  then modify (λ c, set_hasPreSetTickEventFM_ (upd (hasPreSetTickEventFM_ c) ch false) c)
  else
    gets (λ c, isMuteFM_ c ch) ≫= λ mute : bool,
    if mute then mret tt
    else
      mode ← gets mode_;
      inch ← lift (toInternalFMChannel mode ch);
      cnt ← gets (λ c, lfoStartCntFM_ c inch);
      (if 0 <? cnt
       then modify (λ c, set_lfoStartCntFM_ (upd (lfoStartCntFM_ c) inch (cnt - 1)) c) ;;
            writeFMLFOAllRegisters inch
       else mret tt) ;;
      checkOperatorSequenceFM ch 0 ;;
      _ ← advance treItFM_ set_treItFM_ ch;
      modify (λ c, set_sumVolSldFM_
                     (upd (sumVolSldFM_ c) ch (sumVolSldFM_ c ch + volSldFM_ c ch)) c) ;;
      checkVolumeEffectFM ch ;;
      arp ← advance arpItFM_ set_arpItFM_ ch;
      (match arp with
       | Some seqPos => checkRealToneFMByArpeggio ch seqPos
       | None => mret tt
       end) ;;
      checkPortamentoFM ch ;;
      pt ← advance ptItFM_ set_ptItFM_ ch;
      (match pt with
       | Some seqPos => checkRealToneFMByPitch ch seqPos
       | None => mret tt
       end) ;;
      vib ← advance vibItFM_ set_vibItFM_ ch;
      (match vib with
       | Some _ => modify (λ c, set_needToneSetFM_ (upd (needToneSetFM_ c) ch true) c)
       | None => mret tt
       end) ;;
      ns ← advance nsItFM_ set_nsItFM_ ch;
      (match ns with
       | Some pos =>
           if bool_decide (pos ≠ -1)
           then it ← gets (λ c, nsItFM_ c ch);
                modify (λ c, set_sumNoteSldFM_
                  (upd (sumNoteSldFM_ c) ch
                     (sumNoteSldFM_ c ch
                      + match it with Some it => it_getCommandType it | None => 0 end)) c) ;;
                modify (λ c, set_needToneSetFM_ (upd (needToneSetFM_ c) ch true) c)
           else mret tt
       | None => mret tt
       end) ;;
      gets (λ c, needToneSetFM_ c ch) ≫= λ need : bool,
      if need then writePitchFM ch else mret tt.

End Controller.

(** ** instruments_manager.cpp: the queries and the housekeeping *)

(** Modelled from the spec: [AbstractInstrument::setName] of the absent
    instrument.cpp, the setter of the name that [getName] returns. *)
Definition setName (name : string) (i : AbstractInstrument) : AbstractInstrument :=
  match i with
  | InstFM fm =>
      InstFM (mkInstrumentFM (fm_number fm) name (fm_envNum fm) (fm_lfoEnabled fm)
                (fm_lfoNum fm) (fm_opSeqEnabled fm) (fm_opSeqNum fm) (fm_arpEnabled fm)
                (fm_arpNum fm) (fm_ptEnabled fm) (fm_ptNum fm) (fm_envResetEnabled fm))
  | InstSSG s =>
      InstSSG (mkInstrumentSSG (ssg_number s) name (ssg_wfEnabled s) (ssg_wfNum s)
                 (ssg_tnEnabled s) (ssg_tnNum s) (ssg_envEnabled s) (ssg_envNum s)
                 (ssg_arpEnabled s) (ssg_arpNum s) (ssg_ptEnabled s) (ssg_ptNum s))
  | InstADPCM a =>
      InstADPCM (mkInstrumentADPCM (adpcm_number a) name (adpcm_wfNum a)
                   (adpcm_envEnabled a) (adpcm_envNum a) (adpcm_arpEnabled a)
                   (adpcm_arpNum a) (adpcm_ptEnabled a) (adpcm_ptNum a))
  end.

Section ManagerQueries.
Context `{PropertyClasses}.

Local Abbreviation M := (StateErr InstrumentsManager).

(** [int findFirstFreeInstrument() const]: [std::find_if_not] with the
    conversion of the pointer to [bool] as its predicate. *)
Definition findFirstFreeInstrument (m : InstrumentsManager) : Z :=
  match find_if_not (λ inst : option AbstractInstrument,
                       match inst with Some _ => true | None => false end)
                    (insts_ m) with
  | None => -1
  | Some i => Z.of_nat i
  end.

(** [std::vector<int> getInstrumentIndices() const]:
    [for (size_t i = 0; i < insts_.size(); ++i) if (insts_[i]) idcs.push_back(i);] *)
Definition getInstrumentIndices (m : InstrumentsManager) : list Z :=
  flat_map (λ i : nat, match insts_ m !! i with
                       | Some (Some _) => [Z.of_nat i]
                       | _ => []
                       end)
           (seq 0 (length (insts_ m))).

(** [std::vector<std::string> getInstrumentNameList() const] *)
Definition getInstrumentNameList (m : InstrumentsManager) : list string :=
  flat_map (λ inst : option AbstractInstrument,
              match inst with Some i => [getName i] | None => [] end)
           (insts_ m).

(** [void setInstrumentName(int instNum, std::string name)] *)
Definition setInstrumentName (instNum : Z) (name : string) : M unit :=
  l ← gets insts_;
  o ← lift (at_ l instNum);
  i ← lift (deref o);
  putInst instNum (setName name i).

(** [int getInstrumentFMEnvelope(int instNum) const] and its siblings
    [getInstrument{X}(instNum)]:
    [return std::dynamic_pointer_cast<Instrument..>(insts_[instNum])->get{X}Number();]
    with [insts_] indexed unchecked and the result of the cast
    dereferenced. *)
Definition getInstrumentProperty (l : Link) (instNum : Z) : M Z :=
  insts ← gets insts_;
  o ← lift (idx insts instNum);
  inst ← lift (derefAs (link_source l) o);
  mret (getLinkNumber l inst).

Definition getInstrumentFMEnvelope := getInstrumentProperty LEnvFM.

(** The loop of [get{X}EntriedIndices] and of
    [getWaveformADPCMValidIndices]: [n] counts the slots, and the numbers
    of those for which the test holds are pushed. *)
Definition indicesWhere (cond : Property → bool) (l : list Property) : list Z :=
  flat_map (λ np : nat * Property,
              if cond (snd np) then [Z.of_nat (fst np)] else [])
           (imap (λ n p, (n, p)) l).

(** The test of [get{X}EntriedIndices]: [isEdited()] for the FM envelope,
    the FM LFO and the ADPCM waveform, [isUserInstrument() || isEdited()]
    for the eleven kinds of sequence. *)
Definition entriedCond (k : PropKind) : Property → bool :=
  match k with
  | EnvFM | LfoFM | WfADPCM => isEdited
  | _ => λ p, isUserInstrument p || isEdited p
  end.

(** [std::vector<int> get{X}EntriedIndices() const];
    [getOperatorSequenceFMEntriedIndices(param)] reads [opSeqFM_.at(param)]. *)
Definition getPropertyEntriedIndices (k : PropKind) : M (list Z) :=
  l ← pool k;
  mret (indicesWhere (entriedCond k) l).

Definition getEnvelopeFMEntriedIndices := getPropertyEntriedIndices EnvFM.
Definition getLFOFMEntriedIndices := getPropertyEntriedIndices LfoFM.
Definition getOperatorSequenceFMEntriedIndices param :=
  getPropertyEntriedIndices (OpSeqFM param).
Definition getArpeggioFMEntriedIndices := getPropertyEntriedIndices ArpFM.
Definition getPitchFMEntriedIndices := getPropertyEntriedIndices PtFM.
Definition getWaveformSSGEntriedIndices := getPropertyEntriedIndices WfSSG.
Definition getToneNoiseSSGEntriedIndices := getPropertyEntriedIndices TnSSG.
Definition getEnvelopeSSGEntriedIndices := getPropertyEntriedIndices EnvSSG.
Definition getArpeggioSSGEntriedIndices := getPropertyEntriedIndices ArpSSG.
Definition getPitchSSGEntriedIndices := getPropertyEntriedIndices PtSSG.
Definition getWaveformADPCMEntriedIndices := getPropertyEntriedIndices WfADPCM.
Definition getEnvelopeADPCMEntriedIndices := getPropertyEntriedIndices EnvADPCM.
Definition getArpeggioADPCMEntriedIndices := getPropertyEntriedIndices ArpADPCM.
Definition getPitchADPCMEntriedIndices := getPropertyEntriedIndices PtADPCM.

(** [std::vector<int> getWaveformADPCMValidIndices() const] *)
Definition getWaveformADPCMValidIndices (m : InstrumentsManager) : list Z :=
  indicesWhere (λ p, isUserInstrument p && isEdited p) (pools_ m WfADPCM).

(** [if (!pool[i]->isUserInstrument()) pool[i] = std::make_shared<..>(i, ..);]
    with the arguments of the constructor that [clearAll] uses for the
    pool. *)
Definition clearIfUnused (k : PropKind) (i : Z) : M unit :=
  l ← gets (λ m, pools_ m k);
  p ← lift (idx l i);
  if isUserInstrument p then mret tt
  else modify (setPool k (<[Z.to_nat i := newProperty k i]> l)).

(** [void clearUnusedInstrumentProperties()]; the loop over [opSeqFM_]
    visits its keys, here in the order of [envFMParams_]. *)
Definition clearUnusedInstrumentProperties : M unit :=
  forM_ (Z.of_nat <$> seq 0 128) (λ i,
    clearIfUnused EnvFM i ;;
    clearIfUnused LfoFM i ;;
    forM_ envFMParams_ (λ p, clearIfUnused (OpSeqFM p) i) ;;
    clearIfUnused ArpFM i ;;
    clearIfUnused PtFM i ;;
    clearIfUnused WfSSG i ;;
    clearIfUnused TnSSG i ;;
    clearIfUnused EnvSSG i ;;
    clearIfUnused ArpSSG i ;;
    clearIfUnused PtSSG i ;;
    clearIfUnused WfADPCM i ;;
    clearIfUnused EnvADPCM i ;;
    clearIfUnused ArpADPCM i ;;
    clearIfUnused PtADPCM i).

(** [void clearUnusedWaveformsADPCM()] *)
Definition clearUnusedWaveformsADPCM : M unit :=
  forM_ (Z.of_nat <$> seq 0 128) (clearIfUnused WfADPCM).

(** [envFM_.at(envNum)]; the array holds envelopes only. *)
Definition envelopeAt (envNum : Z) : M EnvelopeFM :=
  l ← pool EnvFM;
  p ← lift (at_ l envNum);
  match payload_ p with
  | PEnvelopeFM e => mret e
  | _ => raise Undefined
  end.

(** [int getEnvelopeFMParameter(int envNum, FMEnvelopeParameter param) const] *)
Definition getEnvelopeFMParameter (envNum : Z) (param : FMEnvelopeParameter) : M Z :=
  e ← envelopeAt envNum;
  mret (getParameterValue e param).

(** [op_[num]] for an [int]: outside 0..3 the index leaves the array. *)
Definition opIndex (opNum : Z) : Result nat :=
  if (0 <=? opNum) && (opNum <? 4) then Ok (Z.to_nat opNum) else Fail Undefined.

(** [bool getEnvelopeFMOperatorEnabled(int envNum, int opNum) const] *)
Definition getEnvelopeFMOperatorEnabled (envNum opNum : Z) : M bool :=
  e ← envelopeAt envNum;
  i ← lift (opIndex opNum);
  mret (getOperatorEnabled e i).

(** [void setEnvelopeFMOperatorEnabled(int envNum, int opNum, bool enabled)] *)
Definition setEnvelopeFMOperatorEnabled (envNum opNum : Z) (enabled : bool) : M unit :=
  l ← pool EnvFM;
  p ← lift (at_ l envNum);
  i ← lift (opIndex opNum);
  modify (setPool EnvFM
    (<[Z.to_nat envNum :=
         mkProperty (number_ p) (users_ p)
           match payload_ p with
           | PEnvelopeFM e => PEnvelopeFM (setOperatorEnabled e i enabled)
           | other => other
           end]> l)).

End ManagerQueries.

(** ** module_io.cpp: the FM envelopes in the instrument property section *)

Section ModuleIO.
Context `{PropertyClasses}.

Local Abbreviation M := (StateErr InstrumentsManager).

(** In [saveModule], for one of the four operators of envelope [idx]: the
    arguments of the six calls of [ctr.appendUint8(tmp)], in their order.
    [tmp] is a [uint8_t], the parameters are [int]s. *)
Definition saveOperatorFM (idx opNum : Z)
    (ar ks dr dt sr sl rr tl ssgeg ml : FMEnvelopeParameter) : M (list Z) :=
  en ← getEnvelopeFMOperatorEnabled idx opNum;
  let tmp := Z.b2z en in
  v_ar ← getEnvelopeFMParameter idx ar;
  let b1 := u8 (Z.lor (u8 (Z.shiftl tmp 5)) (u8 v_ar)) in
  v_ks ← getEnvelopeFMParameter idx ks;
  v_dr ← getEnvelopeFMParameter idx dr;
  let b2 := u8 (Z.lor (u8 (Z.shiftl v_ks 5)) (u8 v_dr)) in
  v_dt ← getEnvelopeFMParameter idx dt;
  v_sr ← getEnvelopeFMParameter idx sr;
  let b3 := u8 (Z.lor (u8 (Z.shiftl v_dt 5)) (u8 v_sr)) in
  v_sl ← getEnvelopeFMParameter idx sl;
  v_rr ← getEnvelopeFMParameter idx rr;
  let b4 := u8 (Z.lor (u8 (Z.shiftl v_sl 4)) (u8 v_rr)) in
  v_tl ← getEnvelopeFMParameter idx tl;
  let b5 := u8 v_tl in
  tmp2 ← getEnvelopeFMParameter idx ssgeg;
  v_ml ← getEnvelopeFMParameter idx ml;
  let b6 := u8 (Z.lor (if bool_decide (tmp2 = -1) then 0x80 else u8 (Z.shiftl tmp2 4))
                      (u8 v_ml)) in
  mret [b1; b2; b3; b4; b5; b6].

(** In [saveModule], the body of [for (auto& idx : envFMIdcs)] between
    the dummy offset and [ctr.writeUint8(ofs, ..)]: the 25 bytes appended
    for envelope [idx]. *)
Definition saveEnvelopeFM (idx : Z) : M (list Z) :=
  v_al ← getEnvelopeFMParameter idx AL;
  v_fb ← getEnvelopeFMParameter idx FB;
  let b0 := u8 (Z.lor (u8 (Z.shiftl v_al 4)) (u8 v_fb)) in
  o1 ← saveOperatorFM idx 0 AR1 KS1 DR1 DT1 SR1 SL1 RR1 TL1 SSGEG1 ML1;
  o2 ← saveOperatorFM idx 1 AR2 KS2 DR2 DT2 SR2 SL2 RR2 TL2 SSGEG2 ML2;
  o3 ← saveOperatorFM idx 2 AR3 KS3 DR3 DT3 SR3 SL3 RR3 TL3 SSGEG3 ML3;
  o4 ← saveOperatorFM idx 3 AR4 KS4 DR4 DT4 SR4 SL4 RR4 TL4 SSGEG4 ML4;
  mret (b0 :: o1 ++ o2 ++ o3 ++ o4).

(** [uint8_t BinaryContainer::readUint8(size_t offset)] of the absent
    binary_container.cpp: the byte of the file at [offset]. *)
Variable readUint8 : Z → Z.

(** In [loadInstrumentPropertySectionInModule], for one operator: six
    calls of [ctr.readUint8(csr++)], each followed by the setters of the
    fields of the byte. *)
Definition loadOperatorFM (idx opNum : Z)
    (ar ks dr dt sr sl rr tl ssgeg ml : FMEnvelopeParameter) (csr : Z) : M unit :=
  let tmp := u8 (readUint8 csr) in
  setEnvelopeFMOperatorEnabled idx opNum (negb (Z.land 0x20 tmp =? 0)) ;;
  setEnvelopeFMParameter idx ar (Z.land tmp 0x1f) ;;
  let tmp := u8 (readUint8 (csr + 1)) in
  setEnvelopeFMParameter idx ks (Z.shiftr tmp 5) ;;
  setEnvelopeFMParameter idx dr (Z.land tmp 0x1f) ;;
  let tmp := u8 (readUint8 (csr + 2)) in
  setEnvelopeFMParameter idx dt (Z.shiftr tmp 5) ;;
  setEnvelopeFMParameter idx sr (Z.land tmp 0x1f) ;;
  let tmp := u8 (readUint8 (csr + 3)) in
  setEnvelopeFMParameter idx sl (Z.shiftr tmp 4) ;;
  setEnvelopeFMParameter idx rr (Z.land tmp 0x0f) ;;
  let tmp := u8 (readUint8 (csr + 4)) in
  setEnvelopeFMParameter idx tl tmp ;;
  let tmp := u8 (readUint8 (csr + 5)) in
  setEnvelopeFMParameter idx ml (Z.land tmp 0x0f) ;;
  setEnvelopeFMParameter idx ssgeg
    (if negb (Z.land tmp 0x80 =? 0) then -1 else Z.land (Z.shiftr tmp 4) 0x07).

(** In [loadInstrumentPropertySectionInModule], [case 0x00]: the body of
    the loop from [size_t csr = instPropCsr + 1] to the last setter;
    [idx] is the [uint8_t] read before. *)
Definition loadEnvelopeFM (idx csr : Z) : M unit :=
  let tmp := u8 (readUint8 csr) in
  setEnvelopeFMParameter idx AL (Z.shiftr tmp 4) ;;
  setEnvelopeFMParameter idx FB (Z.land tmp 0x0f) ;;
  loadOperatorFM idx 0 AR1 KS1 DR1 DT1 SR1 SL1 RR1 TL1 SSGEG1 ML1 (csr + 1) ;;
  loadOperatorFM idx 1 AR2 KS2 DR2 DT2 SR2 SL2 RR2 TL2 SSGEG2 ML2 (csr + 7) ;;
  loadOperatorFM idx 2 AR3 KS3 DR3 DT3 SR3 SL3 RR3 TL3 SSGEG3 ML3 (csr + 13) ;;
  loadOperatorFM idx 3 AR4 KS4 DR4 DT4 SR4 SL4 RR4 TL4 SSGEG4 ML4 (csr + 19).

End ModuleIO.

(** ** opna_controller.cpp: the operators of a level, the output history *)

(** [std::vector<int> getOperatorsInLevel(int level, int al)]; [None]
    stands for the [std::invalid_argument] that both [default] branches
    throw. *)
Definition getOperatorsInLevel (level al : Z) : option (list Z) :=
  match level with
  | 0 =>
      match al with
      | 0 | 1 | 2 | 3 => Some [3]
      | 4 => Some [1; 3]
      | 5 | 6 => Some [1; 2; 3]
      | 7 => Some [0; 1; 2; 3]
      | _ => None
      end
  | 1 =>
      match al with
      | 0 | 1 => Some [2]
      | 2 => Some [0; 2]
      | 3 => Some [1; 2]
      | 4 => Some [0; 2]
      | 5 | 6 => Some [0]
      | 7 => Some []
      | _ => None
      end
  | 2 =>
      match al with
      | 0 => Some [1]
      | 1 => Some [0; 1]
      | 2 => Some [1]
      | 3 => Some [0]
      | 4 | 5 | 6 | 7 => Some []
      | _ => None
      end
  | 3 =>
      match al with
      | 0 => Some [0]
      | 1 | 2 | 3 | 4 | 5 | 6 | 7 => Some []
      | _ => None
      end
  | _ => None
  end.

Section OutputHistory.

(** [OUTPUT_HISTORY_SIZE], a constant of the absent opna_controller.hpp:
    the number of stereo frames that the history holds. *)
Variable OUTPUT_HISTORY_SIZE : Z.

(** The members that the functions of the output history use.  The two
    arrays hold [2 * OUTPUT_HISTORY_SIZE] samples, a left and a right one
    for each frame. *)
Record OutputHistory := mkOutputHistory {
  outputHistory_ : list Z;
  outputHistoryReady_ : list Z;
  outputHistoryIndex_ : Z
}.

Local Abbreviation H := (StateErr OutputHistory).

(** The range [&a[from], &a[to]) of an array; it must lie in the array. *)
Definition range (a : list Z) (from to : Z) : Result (list Z) :=
  if (0 <=? from) && (from <=? to) && (to <=? size a)
  then Ok (take (Z.to_nat (to - from)) (drop (Z.to_nat from) a))
  else Fail Undefined.

(** [std::copy(first, last, &dst[pos])]: the elements of the range are
    written over those of [dst] from [pos] on; writing past the end of
    [dst] is undefined. *)
Definition copyTo (src dst : list Z) (pos : Z) : Result (list Z) :=
  if (0 <=? pos) && (pos + size src <=? size dst)
  then Ok (take (Z.to_nat pos) dst ++ src ++ drop (Z.to_nat (pos + size src)) dst)
  else Fail Undefined.

(** [void transferReadyHistory()] *)
Definition transferReadyHistory : H unit :=
  src ← gets outputHistory_;
  dst ← gets outputHistoryReady_;
  index ← gets outputHistoryIndex_;
  (* copy the back, and then the front *)
  back ← lift (range src (2 * index) (2 * OUTPUT_HISTORY_SIZE));
  dst ← lift (copyTo back dst 0);
  front ← lift (range src 0 (2 * index));
  dst ← lift (copyTo front dst (2 * (OUTPUT_HISTORY_SIZE - index)));
  modify (λ h, mkOutputHistory (outputHistory_ h) dst (outputHistoryIndex_ h)).

(** [void fillOutputHistory(const int16_t* outputs, size_t nSamples)];
    [outputs] is the array from the pointer on, [owns_lock] the outcome
    of [std::try_to_lock]. *)
Definition fillOutputHistory (outputs : list Z) (nSamples : Z) (owns_lock : bool)
  : H unit :=
  history ← gets outputHistory_;
  historyIndex ← gets outputHistoryIndex_;
  (* copy as many as possible to the back *)
  let backCapacity := usize (OUTPUT_HISTORY_SIZE - historyIndex) in
  let nBack := Z.min nSamples backCapacity in
  part ← lift (range outputs 0 (2 * nBack));
  history ← lift (copyTo part history (2 * historyIndex));
  (* copy the rest to the front *)
  part ← lift (range outputs (2 * nBack) (2 * nSamples));
  history ← lift (copyTo part history 0);
  (* update the write position *)
  let historyIndex := usize (historyIndex + nSamples) mod OUTPUT_HISTORY_SIZE in
  modify (λ h, mkOutputHistory history (outputHistoryReady_ h) historyIndex) ;;
  (* if no one holds the ready buffer, update the contents *)
  if owns_lock then transferReadyHistory else mret tt.

(** [void getStreamSamples(int16_t* container, size_t nSamples)];
    [mixed] is the container as [opna_->mix] of the absent chip left
    it. *)
Definition getStreamSamples (mixed : list Z) (nSamples : Z) (owns_lock : bool)
  : H unit :=
  let nHistory := Z.min nSamples OUTPUT_HISTORY_SIZE in
  container ← lift (range mixed (2 * (nSamples - nHistory)) (size mixed));
  fillOutputHistory container nHistory owns_lock.

(** [void getOutputHistory(int16_t* container)]: the samples copied. *)
Definition getOutputHistory : H (list Z) :=
  history ← gets outputHistoryReady_;
  lift (range history 0 (2 * OUTPUT_HISTORY_SIZE)).

End OutputHistory.

(** ** opna_controller.cpp: the drum channels *)

Section Drum.
Context `{ControllerParts}.

(** The members of [OPNAController] that only the functions of the drum
    channels use; the arrays have an element for each of the six
    channels, as [initDrum] fills them.  The flags of the key writes are
    [keyOnFlagDrum_] and [keyOffFlagDrum_] of the controller. *)
Record DrumMembers := mkDrumMembers {
  volDrum_ : Z → Z;
  tmpVolDrum_ : Z → Z;
  panDrum_ : Z → Z;
  isMuteDrum_ : Z → bool;
  mVolDrum_ : Z
}.

Local Abbreviation D := (StateErr (OPNAController * DrumMembers)).

(** A call of a function that uses the other members only. *)
Definition onController {A} (σ : StateErr OPNAController A) : D A :=
  λ s, match σ (fst s) with
       | Ok (a, c) => Ok (a, (c, snd s))
       | Fail e => Fail e
       end.

Definition modifyDrum (f : DrumMembers → DrumMembers) : D unit :=
  modify (λ s, (fst s, f (snd s))).

(** An element of one of the arrays of six: outside them the access is
    undefined. *)
Definition drumCh (ch : Z) : D unit :=
  if (0 <=? ch) && (ch <? 6) then mret tt else raise Undefined.

(** [1 << ch] on [int]s. *)
Definition bitOf (ch : Z) : Result Z :=
  if (0 <=? ch) && (ch <? 31) then Ok (Z.shiftl 1 ch) else Fail Undefined.

(** [void setVolumeDrum(int ch, int volume)] *)
Definition setVolumeDrum (ch volume : Z) : D unit :=
  if 0x1f <? volume then mret tt   (* Out of range *)
  else
    drumCh ch ;;
    modifyDrum (λ d, mkDrumMembers (upd (volDrum_ d) ch volume) (upd (tmpVolDrum_ d) ch (-1))
                       (panDrum_ d) (isMuteDrum_ d) (mVolDrum_ d)) ;;
    pan ← gets (λ s, panDrum_ (snd s) ch);
    onController (setRegister (0x18 + u32 ch) (u8 (Z.lor (Z.shiftl pan 6) volume))).

(** [void setMasterVolumeDrum(int volume)] *)
Definition setMasterVolumeDrum (volume : Z) : D unit :=
  modifyDrum (λ d, mkDrumMembers (volDrum_ d) (tmpVolDrum_ d) (panDrum_ d)
                     (isMuteDrum_ d) volume) ;;
  onController (setRegister 0x11 (u8 volume)).

(** [void setTemporaryVolumeDrum(int ch, int volume)] *)
Definition setTemporaryVolumeDrum (ch volume : Z) : D unit :=
  if 0x1f <? volume then mret tt   (* Out of range *)
  else
    drumCh ch ;;
    modifyDrum (λ d, mkDrumMembers (volDrum_ d) (upd (tmpVolDrum_ d) ch volume)
                       (panDrum_ d) (isMuteDrum_ d) (mVolDrum_ d)) ;;
    pan ← gets (λ s, panDrum_ (snd s) ch);
    onController (setRegister (0x18 + u32 ch) (u8 (Z.lor (Z.shiftl pan 6) volume))).

(** [void setPanDrum(int ch, int value)] *)
Definition setPanDrum (ch value : Z) : D unit :=
  drumCh ch ;;
  modifyDrum (λ d, mkDrumMembers (volDrum_ d) (tmpVolDrum_ d)
                     (upd (panDrum_ d) ch (u8 value)) (isMuteDrum_ d) (mVolDrum_ d)) ;;
  vol ← gets (λ s, volDrum_ (snd s) ch);
  onController (setRegister (0x18 + u32 ch) (u8 (Z.lor (Z.shiftl value 6) vol))).

(** [void setKeyOnFlagDrum(int ch)] *)
Definition setKeyOnFlagDrum (ch : Z) : D unit :=
  drumCh ch ;;
  mute ← gets (λ s, isMuteDrum_ (snd s) ch);
  if (mute : bool) then mret tt
  else
    tmp ← gets (λ s, tmpVolDrum_ (snd s) ch);
    (if bool_decide (tmp ≠ -1)
     then vol ← gets (λ s, volDrum_ (snd s) ch); setVolumeDrum ch vol
     else mret tt) ;;
    b ← lift (bitOf ch);
    onController (modify (λ c, set_keyOnFlagDrum_ (u8 (Z.lor (keyOnFlagDrum_ c) (u8 b))) c)).

(** [void setKeyOffFlagDrum(int ch)] *)
Definition setKeyOffFlagDrum (ch : Z) : D unit :=
  b ← lift (bitOf ch);
  onController (modify (λ c, set_keyOffFlagDrum_ (u8 (Z.lor (keyOffFlagDrum_ c) (u8 b))) c)).

(** [void initDrum()] *)
Definition initDrum : D unit :=
  onController (modify (set_keyOnFlagDrum_ 0) ;; modify (set_keyOffFlagDrum_ 0)) ;;
  modifyDrum (λ d, mkDrumMembers (volDrum_ d) (tmpVolDrum_ d) (panDrum_ d)
                     (isMuteDrum_ d) 0x3f) ;;
  onController (setRegister 0x11 0x3f) ;;   (* Drum total volume *)
  forM_ (Z.of_nat <$> seq 0 6) (λ ch,
    modifyDrum (λ d, mkDrumMembers (upd (volDrum_ d) ch 0x1f)   (* Init volume *)
                       (upd (tmpVolDrum_ d) ch (-1))
                       (upd (panDrum_ d) ch 3)                  (* Init pan *)
                       (isMuteDrum_ d) (mVolDrum_ d)) ;;
    onController (setRegister (0x18 + u32 ch) 0xdf)).

(** [void setMuteDrumState(int ch, bool isMute)] *)
Definition setMuteDrumState (ch : Z) (isMute : bool) : D unit :=
  drumCh ch ;;
  modifyDrum (λ d, mkDrumMembers (volDrum_ d) (tmpVolDrum_ d) (panDrum_ d)
                     (upd (isMuteDrum_ d) ch isMute) (mVolDrum_ d)) ;;
  if isMute
  then setKeyOffFlagDrum ch ;; onController updateKeyOnOffStatusDrum
  else mret tt.

(** [bool isMuteDrum(int ch)] *)
Definition isMuteDrum (ch : Z) : D bool :=
  drumCh ch ;;
  gets (λ s, isMuteDrum_ (snd s) ch).

End Drum.

(** ** export_container.cpp: the waits of the exported files *)

(** The members of the two containers are declared in the absent
    export_container.hpp.  [lastWait_] counts samples in an unsigned
    type, whose width is [waitBits] below; [totalSampCnt_], which only
    [recordStream], [clear] and [getSampleLength] use, is left out. *)

Module S98ExportContainer.
Section S98ExportContainer.

Variable waitBits : Z.

Record t := mk {
  buf_ : list Z;
  lastWait_ : Z;
  isSetLoop_ : bool;
  loopPoint_ : Z
}.

(** The [do] loop of [setWait]: the bytes pushed for a count [w].  The
    loop ends when the count is used up; [None] when [fuel] turns did not
    get there. *)
Fixpoint pushCount (fuel : nat) (w : Z) : option (list Z) :=
  match fuel with
  | O => None
  | S fuel' =>
      let b := u8 (Z.land w 0x7f) in
      let w := Z.shiftr w 7 in
      let b := if 0 <? w then u8 (Z.lor b 0x80) else b in
      if 0 <? w then cons b <$> pushCount fuel' w else Some [b]
  end.

(** [void setWait()] *)
Definition setWait (fuel : nat) (c : t) : option t :=
  pushed ← (if bool_decide (lastWait_ c = 1) then Some [0xff]
            else cons 0xfe <$> pushCount fuel ((lastWait_ c - 2) mod 2 ^ waitBits));
  let buf := buf_ c ++ pushed in
  Some (mk buf 0 (isSetLoop_ c)
          (if negb (isSetLoop_ c) then size buf else loopPoint_ c)).

(** [void recordStream(int16_t* stream, size_t nSamples)] *)
Definition recordStream (nSamples : Z) (c : t) : t :=
  mk (buf_ c) ((lastWait_ c + nSamples) mod 2 ^ waitBits) (isSetLoop_ c) (loopPoint_ c).

(** [std::vector<uint8_t> getData()] *)
Definition getData (fuel : nat) (c : t) : option (list Z * t) :=
  c ← (if bool_decide (lastWait_ c ≠ 0) then setWait fuel c else Some c);
  Some (buf_ c, c).

(** [size_t setLoopPoint()] *)
Definition setLoopPoint (fuel : nat) (c : t) : option (Z * t) :=
  c ← (if bool_decide (lastWait_ c ≠ 0) then setWait fuel c else Some c);
  Some (loopPoint_ c, mk (buf_ c) (lastWait_ c) true (loopPoint_ c)).

(** [bool empty() const] *)
Definition empty (c : t) : bool :=
  bool_decide (buf_ c = []) || negb (bool_decide (lastWait_ c = 0)).

End S98ExportContainer.
End S98ExportContainer.

Module VgmExportContainer.
Section VgmExportContainer.

Variable waitBits : Z.

Record t := mk {
  buf_ : list Z;
  lastWait_ : Z;
  intrRate_ : Z;
  isSetLoop_ : bool;
  loopPoint_ : Z
}.

(** [buf_.push_back(0x61); buf_.push_back(w & 0x00ff); buf_.push_back(w >> 8);] *)
Definition wait16 (w : Z) : list Z := [0x61; u8 (Z.land w 0x00ff); u8 (Z.shiftr w 8)].

(** One turn of [while (lastWait_)] with [lastWait_] at [w]: the bytes
    pushed and [sub]. *)
Definition turn (intrRate w : Z) : list Z * Z :=
  if intrRate =? 50 then
    if 65535 <? w then
      let tmp := u32 (w - 65535) in
      let sub := if tmp <=? 882 then u32 (64653 + tmp)
                 else if tmp <=? 1764 then u32 (63771 + tmp)
                 else if tmp <=? 2646 then u32 (62889 + tmp)
                 else 65535 in
      (wait16 sub, sub)
    else
      ((if w <=? 16 then [u8 (Z.lor 0x70 (w - 1))]
        else if 2646 <? w then wait16 w
        else if w =? 2646 then [0x63; 0x63; 0x63]
        else if (1764 <=? w) && (w <=? 1780) then
          let tmp := u32 (w - 1764) in
          [0x63; 0x63] ++ (if tmp =? 0 then [] else [u8 (Z.lor 0x70 (tmp - 1))])
        else if (882 <=? w) && (w <=? 898) then
          let tmp := u32 (w - 882) in
          [0x63] ++ (if tmp =? 0 then [] else [u8 (Z.lor 0x70 (tmp - 1))])
        else wait16 w),
       u32 w)
  else if intrRate =? 60 then
    if 65535 <? w then
      let tmp := u32 (w - 65535) in
      let sub := if tmp <=? 735 then u32 (64800 + tmp)
                 else if tmp <=? 1470 then u32 (64065 + tmp)
                 else if tmp <=? 2205 then u32 (63330 + tmp)
                 else 65535 in
      (wait16 sub, sub)
    else
      ((if w <=? 16 then [u8 (Z.lor 0x70 (w - 1))]
        else if 2205 <? w then wait16 w
        else if w =? 2205 then [0x62; 0x62; 0x62]
        else if (1470 <=? w) && (w <=? 1486) then
          let tmp := u32 (w - 1470) in
          [0x62; 0x62] ++ (if tmp =? 0 then [] else [u8 (Z.lor 0x70 (tmp - 1))])
        else if (735 <=? w) && (w <=? 751) then
          let tmp := u32 (w - 735) in
          [0x62] ++ (if tmp =? 0 then [] else [u8 (Z.lor 0x70 (tmp - 1))])
        else wait16 w),
       u32 w)
  else
    ((if 65535 <? w then wait16 65535 else wait16 w), u32 w).

(** The loop of [setWait]; [None] when [fuel] turns did not use the wait
    up. *)
Fixpoint waitLoop (fuel : nat) (intrRate w : Z) (buf : list Z) : option (list Z) :=
  if w =? 0 then Some buf
  else match fuel with
       | O => None
       | S fuel' =>
           let '(pushed, sub) := turn intrRate w in
           waitLoop fuel' intrRate ((w - sub) mod 2 ^ waitBits) (buf ++ pushed)
       end.

(** [void setWait()] *)
Definition setWait (fuel : nat) (c : t) : option t :=
  buf ← waitLoop fuel (intrRate_ c) (lastWait_ c) (buf_ c);
  Some (mk buf 0 (intrRate_ c) (isSetLoop_ c)
          (if negb (isSetLoop_ c) then size buf else loopPoint_ c)).

(** [void recordStream(int16_t* stream, size_t nSamples)] *)
Definition recordStream (nSamples : Z) (c : t) : t :=
  mk (buf_ c) ((lastWait_ c + nSamples) mod 2 ^ waitBits) (intrRate_ c) (isSetLoop_ c)
     (loopPoint_ c).

(** [std::vector<uint8_t> getData()] *)
Definition getData (fuel : nat) (c : t) : option (list Z * t) :=
  c ← (if bool_decide (lastWait_ c ≠ 0) then setWait fuel c else Some c);
  Some (buf_ c, c).

End VgmExportContainer.
End VgmExportContainer.

(** ** Transposing the notes of a selection
    (transpose_note_in_pattern_command.cpp) *)

Module TransposeNoteInPatternCommand.

(** [Song], [Track], [Pattern] and [Step] are absent.  The command reaches
    every step through
    [sng.getTrack(track).getPatternFromOrderNumber(order_).getStep(step)],
    for one song and one order: what it sees of the module is the note
    number of each step of the pattern that each track has at that order,
    a grid of note numbers by track and step.  The selection is taken to
    lie within the song, and [getNoteNumber] and [setNoteNumber] to read
    and to write the note number of the step.  The sum of a note number
    and the interval is taken within [int]. *)
Definition Notes : Type := Z → Z → Z.

Definition getNoteNumber (track step : Z) (g : Notes) : Z := g track step.

Definition setNoteNumber (track step n : Z) (g : Notes) : Notes :=
  λ t s, if bool_decide (t = track) && bool_decide (s = step) then n else g t s.

Record t := mk {
  song_ : Z;
  bTrack_ : Z;
  order_ : Z;
  bStep_ : Z;
  eTrack_ : Z;
  eStep_ : Z;
  seminote_ : Z;
  prevKeys_ : list Z
}.

(** The values of [i] in [for (int i = lo; i <= hi; ++i)]. *)
Definition fromTo (lo hi : Z) : list Z := seqZ lo (hi - lo + 1).

(** The constructor, on the notes [g] of the module. *)
Definition new (g : Notes)
    (songNum beginTrack beginOrder beginStep endTrack endStep seminote : Z) : t :=
  mk songNum beginTrack beginOrder beginStep endTrack endStep seminote
    (foldl (λ prevKeys step,
       foldl (λ prevKeys track,
         let n := getNoteNumber track step g in
         if -1 <? n then prevKeys ++ [n] else prevKeys)
         prevKeys (fromTo beginTrack endTrack))
       [] (fromTo beginStep endStep)).

(** [void redo()] *)
Definition redo (c : t) (g : Notes) : Notes :=
  foldl (λ g step,
    foldl (λ g track,
      let n := getNoteNumber track step g in
      if -1 <? n then setNoteNumber track step (clamp (n + seminote_ c) 0 95) g
      else g)
      g (fromTo (bTrack_ c) (eTrack_ c)))
    g (fromTo (bStep_ c) (eStep_ c)).

(** [void undo()]: the state of the loops is the notes and the local
    [i]; [prevKeys_.at(i++)] throws beyond the keys kept. *)
Definition undoStep (c : t) (step track : Z) : StateErr (Notes * Z) unit :=
  g ← gets fst;
  if -1 <? getNoteNumber track step g then
    i ← gets snd;
    key ← lift (at_ (prevKeys_ c) i);
    modify (λ _, (setNoteNumber track step key g, i + 1))
  else mret tt.

Definition undo (c : t) (g : Notes) : Result Notes :=
  match forM_ (fromTo (bStep_ c) (eStep_ c)) (λ step,
          forM_ (fromTo (bTrack_ c) (eTrack_ c)) (undoStep c step)) (g, 0) with
  | Ok (_, (g', _)) => Ok g'
  | Fail e => Fail e
  end.

End TransposeNoteInPatternCommand.

(** ** The songs of a module (module.cpp) *)

Section ModuleSongs.

(** [Song] is absent.  Of a song the module reads and writes the number,
    with [getNumber] and [setNumber]; what else a song holds is a value of
    [SongData], which the two constructors build.  What a move leaves in
    the song moved from is not fixed by the language: it is [movedFrom]
    of what the song held, and the number, an [int], stays. *)
Variable SongData : Type.
Variable Song_new3 : SongType → string → SongData.
Variable Song_new8 : SongType → string → bool → Z → Z → Z → Z → SongData.
Variable movedFrom : SongData → SongData.

Record Song := mkSong {
  song_number : Z;
  song_data : SongData
}.

(** The state is [songs_]. *)
Local Abbreviation MS := (StateErr (list Song)).

(** [size_t Module::getSongCount() const] *)
Definition getSongCount : MS Z := gets size.

(** [void Module::addSong(SongType songType, std::string title)] *)
Definition addSong (songType : SongType) (title : string) : MS unit :=
  n ← gets size;
  modify (λ songs, songs ++ [mkSong n (Song_new3 songType title)]).

(** [void Module::addSong(int n, SongType songType, std::string title,
    bool isUsedTempo, int tempo, int groove, int speed,
    size_t defaultPatternSize)] *)
Definition addSongNumbered (n : Z) (songType : SongType) (title : string)
    (isUsedTempo : bool) (tempo groove speed defaultPatternSize : Z) : MS unit :=
  let song := mkSong n (Song_new8 songType title isUsedTempo tempo groove speed
                          defaultPatternSize) in
  sz ← gets size;
  if n <? sz then
    songs ← gets id;
    _ ← lift (at_ songs n);
    modify (λ songs, <[Z.to_nat n := song]> songs)
  else modify (λ songs, songs ++ [song]).

(** [void Module::sortSongs(std::vector<int> numbers)]: [songs_.begin() + n]
    is dereferenced unchecked; [setNumber] writes the song of [songs_],
    which is then moved to the end of [newSongs]. *)
Definition sortSongs (numbers : list Z) : MS unit :=
  newSongs ← foldM (λ newSongs n,
                songs ← gets id;
                s ← lift (idx songs n);
                let s' := mkSong (size newSongs) (song_data s) in
                modify (λ songs,
                  <[Z.to_nat n := mkSong (song_number s') (movedFrom (song_data s'))]>
                    songs) ;;
                mret (newSongs ++ [s']))
              [] numbers;
  modify (λ _, newSongs).

(** [Song& Module::getSong(int num)]: the first song with the number;
    without one the end of [songs_] is dereferenced. *)
Definition getSong (num : Z) : MS Song :=
  songs ← gets id;
  match list_find (λ s, song_number s = num) songs with
  | Some (_, s) => mret s
  | None => raise Undefined
  end.

End ModuleSongs.

Arguments mkSong {SongData} _ _.
Arguments song_number {SongData} _.
Arguments song_data {SongData} _.
Arguments getSongCount {SongData} _.
Arguments addSong {SongData} _ _ _ _.
Arguments addSongNumbered {SongData} _ _ _ _ _ _ _ _ _ _.
Arguments sortSongs {SongData} _ _ _.
Arguments getSong {SongData} _ _.

(** ** The volume of the SSG channels (opna_controller.cpp) *)

Section VolumeSSG.
Context `{ControllerParts}.

(** The members of [OPNAController] that the volume of an SSG channel
    depends on; the arrays have an element for each of the three
    channels. *)
Record SSGMembers := mkSSGMembers {
  baseVolSSG_ : Z → Z;
  tmpVolSSG_ : Z → Z;
  isKeyOnSSG_ : Z → bool;
  isBuzzEffSSG_ : Z → bool;
  isHardEnvSSG_ : Z → bool;
  envItSSG_ : Z → option Iter;
  treItSSG_ : Z → option Iter;
  sumVolSldSSG_ : Z → Z;
  needEnvSetSSG_ : Z → bool
}.

Local Abbreviation G := (StateErr (OPNAController * SSGMembers)).

(** A call of a function that uses the other members only. *)
Definition onControllerSSG {A} (σ : StateErr OPNAController A) : G A :=
  λ s, match σ (fst s) with
       | Ok (a, c) => Ok (a, (c, snd s))
       | Fail e => Fail e
       end.

Definition modifySSG (f : SSGMembers → SSGMembers) : G unit :=
  modify (λ s, (fst s, f (snd s))).

(** An element of one of the arrays of three: outside them the access is
    undefined. *)
Definition ssgCh (ch : Z) : G unit :=
  if (0 <=? ch) && (ch <? 3) then mret tt else raise Undefined.

(** [void setRealVolumeSSG(int ch)] *)
Definition setRealVolumeSSG (ch : Z) : G unit :=
  ssgCh ch ;;
  g ← gets snd;
  if isBuzzEffSSG_ g ch || isHardEnvSSG_ g ch then mret tt
  else
    let volume := if bool_decide (tmpVolSSG_ g ch = -1) then baseVolSSG_ g ch
                  else tmpVolSSG_ g ch in
    let volume :=
      match envItSSG_ g ch with
      | Some it =>
          let type := it_getCommandType it in
          if (0 <=? type) && (type <? 16) then volume - (15 - type) else volume
      | None => volume
      end in
    let volume :=
      match treItSSG_ g ch with
      | Some it => volume + it_getCommandType it
      | None => volume
      end in
    let volume := volume + sumVolSldSSG_ g ch in
    let volume := clamp volume 0 15 in
    onControllerSSG (setRegister (0x08 + u32 ch) (u8 volume)) ;;
    modifySSG (λ g, mkSSGMembers (baseVolSSG_ g) (tmpVolSSG_ g) (isKeyOnSSG_ g)
                      (isBuzzEffSSG_ g) (isHardEnvSSG_ g) (envItSSG_ g) (treItSSG_ g)
                      (sumVolSldSSG_ g) (upd (needEnvSetSSG_ g) ch false)).

(** [void setVolumeSSG(int ch, int volume)] *)
Definition setVolumeSSG (ch volume : Z) : G unit :=
  if 0xf <? volume then mret tt   (* Out of range *)
  else
    ssgCh ch ;;
    modifySSG (λ g, mkSSGMembers (upd (baseVolSSG_ g) ch volume)
                      (upd (tmpVolSSG_ g) ch (-1)) (isKeyOnSSG_ g)
                      (isBuzzEffSSG_ g) (isHardEnvSSG_ g) (envItSSG_ g) (treItSSG_ g)
                      (sumVolSldSSG_ g) (needEnvSetSSG_ g)) ;;
    keyOn ← gets (λ s, isKeyOnSSG_ (snd s) ch);
    if (keyOn : bool) then setRealVolumeSSG ch else mret tt.

(** [void setTemporaryVolumeSSG(int ch, int volume)] *)
Definition setTemporaryVolumeSSG (ch volume : Z) : G unit :=
  if 0xf <? volume then mret tt   (* Out of range *)
  else
    ssgCh ch ;;
    modifySSG (λ g, mkSSGMembers (baseVolSSG_ g) (upd (tmpVolSSG_ g) ch volume)
                      (isKeyOnSSG_ g) (isBuzzEffSSG_ g) (isHardEnvSSG_ g) (envItSSG_ g)
                      (treItSSG_ g) (sumVolSldSSG_ g) (needEnvSetSSG_ g)) ;;
    keyOn ← gets (λ s, isKeyOnSSG_ (snd s) ch);
    if (keyOn : bool) then setRealVolumeSSG ch else mret tt.

End VolumeSSG.

(** * Part II: the vocabulary of the statements *)

(** ** Runs that return *)

(** A property of the state that a computation keeps, whenever it
    returns. *)
Definition pres {S A} (P : S → Prop) (σ : StateErr S A) : Prop :=
  ∀ s x s', σ s = Ok (x, s') → P s → P s'.

(** A computation that returns from every state with property [P], in a
    state with property [P]. *)
Definition safe {S A} (P : S → Prop) (σ : StateErr S A) : Prop :=
  ∀ s, P s → ∃ x s', σ s = Ok (x, s') ∧ P s'.

(** ** The manager *)

(** The links that are always in force: "the FM envelope and the ADPCM
    waveform counting as always enabled". *)
Definition fixedLink (l : Link) : bool :=
  match l with LEnvFM | LWfADPCM => true | _ => false end.

Section ManagerSpec.
Context `{PropertyClasses}.
Implicit Types m : InstrumentsManager.

(** The users of slot [s] of pool [k], and the instrument stored under
    number [n]. *)
Definition slotUsers m (k : PropKind) (s : Z) : list Z :=
  match lookupZ (pools_ m k) s with Some p => users_ p | None => [] end.

Definition instOf m (n : Z) : option AbstractInstrument :=
  match lookupZ (insts_ m) n with Some (Some i) => Some i | _ => None end.

(** The arrays have their 128 entries, and [opSeqFM_] its 38 keys. *)
Definition wellFormed m : Prop :=
  length (insts_ m) = 128%nat ∧
  ∀ k, length (pools_ m k) = if validKind k then 128%nat else 0%nat.

Definition assignCond m : Property → bool :=
  if regardingUnedited_ m
  then (λ p : Property, isUserInstrument p || isEdited p)
  else (λ p : Property, isUserInstrument p).

(** The slot number [addInstrument] takes from pool [k]. *)
Definition assigned m (k : PropKind) : Z :=
  match find_if_not (assignCond m) (pools_ m k) with
  | Some i => Z.of_nat i
  | None => size (pools_ m k) - 1
  end.

Definition afterAssign (k : PropKind) m : InstrumentsManager :=
  if regardingUnedited_ m then m
  else match find_if_not (assignCond m) (pools_ m k) with
       | Some i => setPool k (alter clearParameters i (pools_ m k)) m
       | None => m
       end.

(** Two states that differ in payloads of slots only. *)
Definition sameUsers m m' : Prop :=
  insts_ m' = insts_ m ∧ regardingUnedited_ m' = regardingUnedited_ m ∧
  ∀ k, users_ <$> pools_ m' k = users_ <$> pools_ m k.

(** The pool in which [addInstrument] registers the new instrument. *)
Definition fixedKind (source : SoundSource) : option PropKind :=
  match source with
  | FM => Some EnvFM | ADPCM => Some WfADPCM | _ => None
  end.

(** The instrument [addInstrument] builds in state [m]. *)
Definition freshInst m (instNum : Z) (source : SoundSource) (name : string)
    (inst : AbstractInstrument) : Prop :=
  getSoundSource inst = source ∧ getNumber inst = instNum ∧ getName inst = name ∧
  (∀ l, l ∈ linksOf source →
      getLinkNumber l inst = assigned m (link_kind l) ∧
      getLinkEnabled l inst = fixedLink l) ∧
  (∀ t, getEnvelopeResetEnabled t inst = false).

Definition addEffect m (instNum : Z) (source : SoundSource)
    (inst : AbstractInstrument) m' : Prop :=
  insts_ m' = <[Z.to_nat instNum := Some inst]> (insts_ m) ∧
  regardingUnedited_ m' = regardingUnedited_ m ∧
  (∀ k, length (pools_ m' k) = length (pools_ m k)) ∧
  ∀ k s, slotUsers m' k s =
         if bool_decide (fixedKind source = Some k ∧ s = assigned m k)
         then insert_sorted instNum (slotUsers m k s)
         else slotUsers m k s.

Definition opSeqStep m (fm : AbstractInstrument) (param : FMEnvelopeParameter) :=
  setLinkEnabled (LOpSeqFM param) false
    (setLinkNumber (LOpSeqFM param) (assigned m (OpSeqFM param)) fm).

(** [mi] is reached from [m] by steps that keep the instruments, the flag
    and the pools outside [ks]; [U] are the users of its slots. *)
Definition tracks (ks : list PropKind) (U : PropKind → Z → list Z) m mi : Prop :=
  insts_ mi = insts_ m ∧ regardingUnedited_ mi = regardingUnedited_ m ∧
  (∀ k, length (pools_ mi k) = length (pools_ m k)) ∧
  (∀ k, k ∉ ks → pools_ mi k = pools_ m k) ∧
  (∀ k s, slotUsers mi k s = U k s).

(** Two slots that compare equal by [operator==], and two slot numbers
    of pool [k] that hold such slots. *)
Definition slotEq (pa pb : Property) : Prop := Property_neq pa pb = false.

Definition slotsEqual m (k : PropKind) (na nb : Z) : Prop :=
  ∃ pa pb, lookupZ (pools_ m k) na = Some pa ∧ lookupZ (pools_ m k) nb = Some pb ∧
           slotEq pa pb.

(** The test of [checkDuplicateInstruments] lets [j] join the group of [i]. *)
Definition joins m (i j : Z) : Prop := sameGroup m i j = Ok true.

(** Two instruments that duplicate each other: the same sound source,
    the same references enabled, equal slots behind the enabled
    references and, for FM, the same envelope-reset flags.  The number of
    a disabled reference is not looked at. *)
Definition similar m (a b : AbstractInstrument) : Prop :=
  getSoundSource a = getSoundSource b ∧
  (∀ l, l ∈ linksOf (getSoundSource a) →
     getLinkEnabled l a = getLinkEnabled l b ∧
     (getLinkEnabled l a = true →
      slotsEqual m (link_kind l) (getLinkNumber l a) (getLinkNumber l b))) ∧
  (getSoundSource a = FM →
   ∀ t, getEnvelopeResetEnabled t a = getEnvelopeResetEnabled t b).

(** The enabled references of [a] are slot numbers, and so are those of
    every stored instrument. *)
Definition inRange (a : AbstractInstrument) : Prop :=
  ∀ l, l ∈ linksOf (getSoundSource a) → getLinkEnabled l a = true →
       0 <= getLinkNumber l a < 128.

Definition linksInRange m : Prop :=
  ∀ n i, instOf m n = Some i → inRange i.


(** *** The reference counts *)

(** How often [n] stands in a list of users. *)
Definition count (n : Z) (l : list Z) : nat := length (filter (λ x, x = n) l).

(** Reference [l] of instrument [i] is in force and names slot [s] of
    pool [k]. *)
Definition pointsAt (i : AbstractInstrument) (k : PropKind) (s : Z) (l : Link) : bool :=
  getLinkEnabled l i && bool_decide (link_kind l = k)
  && bool_decide (getLinkNumber l i = s).

(** The number of references of [i] to slot [s] of pool [k], those of the
    list [X] left out; and the same for the instrument stored under [n]. *)
Definition refCountX (X : list Link) (i : AbstractInstrument) (k : PropKind) (s : Z)
  : nat :=
  length (filter (λ l, pointsAt i k s l && negb (bool_decide (l ∈ X)))
            (linksOf (getSoundSource i))).

Definition refCount := refCountX [].

Definition refCountOf m (n : Z) (k : PropKind) (s : Z) : nat :=
  match instOf m n with Some i => refCount i k s | None => 0%nat end.

(** "For all slots, |reference set| == |{instruments i : instrument i has
    this slot enabled and pointing at this slot}|", number by number. *)
Definition countsRight m : Prop :=
  ∀ n k s, count n (slotUsers m k s) = refCountOf m n k s.

(** The state when the references in [X] of instrument [N] wait for
    their registration. *)
Definition countsPending (N : Z) (X : list Link) m : Prop :=
  ∀ n k s, count n (slotUsers m k s)
           = match instOf m n with
             | Some i => refCountX (if bool_decide (n = N) then X else []) i k s
             | None => 0%nat
             end.

(** [m'] differs from [m] in the instrument stored under [N] and in the
    registrations of [N] only, but for the payloads. *)
Definition touchesOnly (N : Z) m m' : Prop :=
  regardingUnedited_ m' = regardingUnedited_ m ∧
  (∀ k, length (pools_ m' k) = length (pools_ m k)) ∧
  length (insts_ m') = length (insts_ m) ∧
  (∀ n, n ≠ N → instOf m' n = instOf m n) ∧
  (∀ n k s, n ≠ N → count n (slotUsers m' k s) = count n (slotUsers m k s)).

(** No instrument but [N] uses slot [s] of pool [k]. *)
Definition exclusive (N : Z) (k : PropKind) (s : Z) m : Prop :=
  ∀ n, n ∈ slotUsers m k s → n = N.

(** The state while [cloneInstrument] and [deepCloneInstrument] go
    through the references of the clone [c]: the counts are right, and the
    references in [rest] are not yet in force. *)
Definition copying (c : Z) (src : SoundSource) (rest : list Link) m : Prop :=
  countsRight m ∧
  ∃ ic, instOf m c = Some ic ∧ getSoundSource ic = src ∧
        ∀ l, l ∈ rest → fixedLink l = false → getLinkEnabled l ic = false.

(** Reference [l] of the clone [c] is as deep cloning leaves it: in force
    when that of [ref] is, and then to a slot that no other instrument
    uses. *)
Definition cloned (c : Z) (ref : AbstractInstrument) (l : Link) m : Prop :=
  ∃ ic, instOf m c = Some ic ∧ getLinkEnabled l ic = getLinkEnabled l ref ∧
        (getLinkEnabled l ref = true →
         exclusive c (link_kind l) (getLinkNumber l ic) m).

(** The instrument under [c] is the same in [m'] as in [m] but for the
    references in [LG]. *)
Definition keepsLinks (c : Z) (LG : list Link) m m' : Prop :=
  ∀ ic, instOf m c = Some ic →
    ∃ ic', instOf m' c = Some ic' ∧ getSoundSource ic' = getSoundSource ic ∧
           ∀ l, l ∉ LG → getLinkEnabled l ic' = getLinkEnabled l ic ∧
                           getLinkNumber l ic' = getLinkNumber l ic.

(** Deep cloning has gone from [m] to [m'] through the references in
    [LG], and those in [rest] are left. *)
Definition groupDone (c : Z) (ref : AbstractInstrument) (LG rest : list Link) m m'
  : Prop :=
  copying c (getSoundSource ref) rest m' ∧ touchesOnly c m m' ∧
  keepsLinks c LG m m' ∧ ∀ l, l ∈ LG → cloned c ref l m'.

(** *** The calls that change references *)

Inductive Call :=
  | CAdd (instNum : Z) (source : SoundSource) (name : string)
  | CRemove (instNum : Z)
  | CClone (cloneInstNum refInstNum : Z)
  | CDeepClone (cloneInstNum refInstNum : Z)
  | CSetEnabled (l : Link) (instNum : Z) (enabled : bool)
  | CSetNumber (l : Link) (instNum num : Z)
  | CSetEnvelopeReset (instNum : Z) (op : FMOperatorType) (enabled : bool)
  | CMutate (k : PropKind) (n : Z) (f : Payload → Payload).

Definition call (c : Call) : StateErr InstrumentsManager unit :=
  match c with
  | CAdd instNum source name => addInstrument instNum source name
  | CRemove instNum => removeInstrument instNum ;; mret tt
  | CClone cloneInstNum refInstNum => cloneInstrument cloneInstNum refInstNum
  | CDeepClone cloneInstNum refInstNum => deepCloneInstrument cloneInstNum refInstNum
  | CSetEnabled l instNum enabled => setInstrumentPropertyEnabled l instNum enabled
  | CSetNumber l instNum num => setInstrumentProperty l instNum num
  | CSetEnvelopeReset instNum op enabled =>
      setInstrumentFMEnvelopeResetEnabled instNum op enabled
  | CMutate k n f => mutateProperty k n f
  end.

(** The calls as the editor makes them: a new instrument goes to a free
    number, and a flag is set only to the value it does not have; the FM
    envelope and the ADPCM waveform have no flag to set. *)
Definition admissible m (c : Call) : Prop :=
  match c with
  | CAdd instNum _ _ => instOf m instNum = None
  | CClone cloneInstNum _ => instOf m cloneInstNum = None
  | CDeepClone cloneInstNum _ => instOf m cloneInstNum = None
  | CSetEnabled l instNum enabled =>
      fixedLink l = false ∧
      ∀ i, instOf m instNum = Some i → getLinkEnabled l i = negb enabled
  | _ => True
  end.

Inductive reachable : InstrumentsManager → Prop :=
  | reachable_new unedited : reachable (InstrumentsManager_new unedited)
  | reachable_call m c m' :
      reachable m → admissible m c → call c m = Ok (tt, m') → reachable m'.

(** The states a list of calls leads through. *)
Fixpoint calls (cs : list Call) : StateErr InstrumentsManager unit :=
  match cs with
  | [] => mret tt
  | c :: cs' => call c ;; calls cs'
  end.

(** The state a list of calls ends in; a call that raises ends the list. *)
Fixpoint after (cs : list Call) m : InstrumentsManager :=
  match cs with
  | [] => m
  | c :: cs' => match call c m with Ok (_, m') => after cs' m' | Fail _ => m end
  end.

(** Every call of a list returns. *)
Fixpoint returns (cs : list Call) m : bool :=
  match cs with
  | [] => true
  | c :: cs' => match call c m with Ok (_, m') => returns cs' m' | Fail _ => false end
  end.

(** [admissible] as a test, and the test that every call of a list is
    admissible where it is made and returns. *)
Definition admissibleb m (c : Call) : bool :=
  match c with
  | CAdd instNum _ _ | CClone instNum _ | CDeepClone instNum _ =>
      match instOf m instNum with None => true | Some _ => false end
  | CSetEnabled l instNum enabled =>
      negb (fixedLink l) &&
      match instOf m instNum with
      | Some i => bool_decide (getLinkEnabled l i = negb enabled)
      | None => true
      end
  | _ => true
  end.

Fixpoint runsWell (cs : list Call) m : bool :=
  match cs with
  | [] => true
  | c :: cs' =>
      admissibleb m c &&
      match call c m with Ok (_, m') => runsWell cs' m' | Fail _ => false end
  end.

(** Instrument [n] is stored and has a reference in force to slot [s] of
    pool [k]. *)
Definition pointedBy m (n : Z) (k : PropKind) (s : Z) : bool :=
  match instOf m n with
  | Some i => existsb (pointsAt i k s) (linksOf (getSoundSource i))
  | None => false
  end.

(** The flag and the number of reference [l] of the instrument stored
    under [n]. *)
Definition linkOf m (n : Z) (l : Link) : option (bool * Z) :=
  (λ i, (getLinkEnabled l i, getLinkNumber l i)) <$> instOf m n.


(** The payload in slot [s] of pool [k]. *)
Definition payloadAt m (k : PropKind) (s : Z) : option Payload :=
  payload_ <$> lookupZ (pools_ m k) s.

End ManagerSpec.

(** ** The controller *)

Section ControllerSpec.
Context `{ControllerParts}.

(** What a tracker effect feeds to the direct register queue. *)
Inductive Send :=
  | SendAddress (bank addr : Z)
  | SendValue (val : Z).

Definition send (s : Send) : StateErr OPNAController unit :=
  match s with
  | SendAddress bank addr => sendRegisterAddress bank addr
  | SendValue val => sendRegisterValue val
  end.

(** The value that stands at the end of the run of values at the head of
    a list of sends. *)
Fixpoint valueRun (l : list Send) : option Z :=
  match l with
  | SendValue v :: rest => Some (default v (valueRun rest))
  | _ => None
  end.

(** The pairs a list of sends leaves for the flush: an address counts with
    the last value of the run of values that follows it directly, and not
    at all without one; a value before any address is lost. *)
Fixpoint queued (l : list Send) : list (Z * Z) :=
  match l with
  | SendAddress bank addr :: rest =>
      match valueRun rest with
      | Some v => [(Z.lor (Z.shiftl bank 8) addr, v)]
      | None => []
      end ++ queued rest
  | SendValue _ :: rest => queued rest
  | [] => []
  end.

(** The pair a unit of the buffer stands for. *)
Definition unitPair (u : RegisterUnit) : Z * Z := (address u, value u).

(** What a flush would write of buffer [b]. *)
Definition flushOut (b : list RegisterUnit) : list (Z * Z) :=
  match back b with
  | Some u => unitPair <$> (if hasCompleted u then b else pop_back b)
  | None => []
  end.

(** What a flush writes of buffer [b] once [sends] have gone through. *)
Definition expected (b : list RegisterUnit) (sends : list Send) : list (Z * Z) :=
  match back b with
  | None => queued sends
  | Some u =>
      (unitPair <$> pop_back b)
      ++ (if hasCompleted u
          then [(address u, default (value u) (valueRun sends))]
          else match valueRun sends with Some v => [(address u, v)] | None => [] end)
      ++ queued sends
  end.

(** The state a run has reached, if it returned. *)
Definition stateOf {A} (r : Result (A * OPNAController)) (c : OPNAController)
  : OPNAController :=
  match r with Ok (_, c') => c' | Fail _ => c end.

(** The result of a run, if it returned. *)
Definition resultOf {A} (r : Result (A * OPNAController)) : option A :=
  match r with Ok (a, _) => Some a | Fail _ => None end.

(** The register writes a run has made, if it returned. *)
Definition writesOf {A} (r : Result (A * OPNAController)) : option (list (Z * Z)) :=
  match r with Ok (_, c) => Some (writes_ c) | Fail _ => None end.

(** The two narrowing casts of [opna_->setRegister]. *)
Definition narrow (w : Z * Z) : Z * Z := (u32 (fst w), u8 (snd w)).

(** What [updateKeyOnOffStatusDrum] writes. *)
Definition drumWrites (c : OPNAController) : list (Z * Z) :=
  (if bool_decide (keyOnFlagDrum_ c ≠ 0) then [narrow (0x10, keyOnFlagDrum_ c)] else [])
  ++ (if bool_decide (keyOffFlagDrum_ c ≠ 0)
      then [narrow (0x10, Z.lor 0x80 (keyOffFlagDrum_ c))] else []).

(** The limit of the sample memory, in units of 32 bytes. *)
Definition dramLimit (c : OPNAController) : Z :=
  Z.shiftr (usize (dramSize_ c - 1)) 5.

(** "Effective pitch = base note/octave/fine-pitch + pitch-macro output +
    vibrato + detune + note-slide accumulator + transpose accumulator":
    the fine-pitch part of it. *)
Definition effectivePitchFM (c : OPNAController) (ch : Z) : Z :=
  pitch (keyToneFM_ c ch)
  + sumPitchFM_ c ch
  + match vibItFM_ c ch with Some it => it_getCommandType it | None => 0 end
  + detuneFM_ c ch
  + sumNoteSldFM_ c ch
  + transposeFM_ c ch.

(** A tone write is due in this tick: one is pending, or the vibrato
    iterator will ask for one. *)
Definition toneDue (ch : Z) (c : OPNAController) : Prop :=
  needToneSetFM_ c ch = true ∨ vibItFM_ c ch ≠ None.

(** An iterator that is absent, or whose next step is the sentinel
    "no output this tick". *)
Definition quietIterator (o : option Iter) : Prop :=
  match o with
  | None => True
  | Some it => fst (it_next false it) = -1
  end.

(** An operator-sequence iterator that is absent, ends, or steps to the
    value the envelope already has for its parameter. *)
Definition quietOpSeq (c : OPNAController) (inch : Z) (p : FMEnvelopeParameter) : Prop :=
  match opSeqItFM_ c inch p with
  | None => True
  | Some it =>
      fst (it_next false it) = -1
      ∨ it_getCommandType (snd (it_next false it)) = getParameterValue (envFM_ c inch) p
  end.

(** Nothing is left for a tick of channel [ch] to do. *)
Definition quiescent (ch inch : Z) (c : OPNAController) : Prop :=
  lfoStartCntFM_ c inch <= 0 ∧
  (∀ p, quietOpSeq c inch p) ∧
  treItFM_ c ch = None ∧ volSldFM_ c ch = 0 ∧
  quietIterator (arpItFM_ c ch) ∧ prtmFM_ c ch = 0 ∧
  quietIterator (ptItFM_ c ch) ∧
  vibItFM_ c ch = None ∧
  quietIterator (nsItFM_ c ch) ∧
  needToneSetFM_ c ch = false.

(** Channel [ch] is a channel of the song type, with internal channel
    [inch]; an instrument is set on it and it has a base tone. *)
Definition sound (ch inch : Z) (c : OPNAController) : Prop :=
  toInternalFMChannel (mode_ c) ch = Ok inch ∧
  (∃ i, toInternalFMChannel (mode_ c) inch = Ok i) ∧
  (mode_ c = FM3chExpanded → inch = 2 → ch = 2 ∨ ch = 6 ∨ ch = 7 ∨ ch = 8) ∧
  refInstFM_ c inch ≠ None ∧
  baseToneFM_ c ch ≠ [].

(** The members that a tick reads and never writes. *)
Definition fixedParts (mode : SongType) (inch ch : Z) (r : RefInstrumentFM)
    (base : list ToneDetail) (c : OPNAController) : Prop :=
  mode_ c = mode ∧ refInstFM_ c inch = Some r ∧ baseToneFM_ c ch = base.

(** The two writes of a pitch word [p] at channel offset [offset]. *)
Definition pitchWrites (offset p : Z) : list (Z * Z) :=
  [narrow (0xa4 + offset, Z.shiftr p 8); narrow (0xa0 + offset, Z.land p 0xff)].

End ControllerSpec.

(** ** One reading of the absent classes, for the worked examples

    The general statements below hold for every implementation of the
    absent classes; the examples are run on this one. *)

(** Modelled from the spec: a macro sequence is an "ordered sequence of
    steps, each a (type-code, auxiliary-data) pair; a set of disjoint loop
    regions {begin, end, repeat-count}; an optional release marker". *)
Inductive ReleaseKind := NoRelease | FixedRelease | AbsoluteRelease | RelativeRelease.

Record MacroSequence := mkMacro {
  macro_type : SequenceType;
  macro_default : Z;
  macro_steps : list (Z * Z);
  macro_loops : list (Z * Z * Z);
  macro_release : ReleaseKind * Z
}.

#[global] Instance ReleaseKind_eq_dec : EqDecision ReleaseKind.
Proof. solve_decision. Defined.
#[global] Instance MacroSequence_eq_dec : EqDecision MacroSequence.
Proof. solve_decision. Defined.

Definition macro_new (t : SequenceType) (d : Z) : MacroSequence :=
  mkMacro t d [(d, -1)] [] (NoRelease, -1).

(** The parameters of an LFO, and the metadata of an ADPCM waveform. *)
Record LFOValues := mkLFO {
  lfo_freq : Z; lfo_pms : Z; lfo_ams : Z;
  lfo_am1 : bool; lfo_am2 : bool; lfo_am3 : bool; lfo_am4 : bool;
  lfo_count : Z
}.

Record WaveformValues := mkWaveform {
  wf_rootKey : Z; wf_rootRate : Z; wf_repeat : bool;
  wf_sample : list Z; wf_start : Z; wf_stop : Z
}.

#[global] Instance LFOValues_eq_dec : EqDecision LFOValues.
Proof. solve_decision. Defined.
#[global] Instance WaveformValues_eq_dec : EqDecision WaveformValues.
Proof. solve_decision. Defined.

Definition sampleOperator : FMOperator := mkFMOperator true 31 0 0 7 0 32 0 0 0 (-1).

Definition sampleClasses : PropertyClasses := {|
  DEF_AL := 4;
  DEF_FB := 0;
  DEF_OP := λ _, sampleOperator;
  LFOFM := LFOValues;
  LFOFM_new := mkLFO 0 0 0 false false false false 0;
  LFOFM_isEdited := λ l, negb (bool_decide (l = mkLFO 0 0 0 false false false false 0));
  LFOFM_clearParameters := λ _, mkLFO 0 0 0 false false false false 0;
  LFOFM_eqb := λ a b, bool_decide (a = b);
  CommandSequence := MacroSequence;
  CommandSequence_new1 := macro_new NO_SEQUENCE_TYPE 0;
  CommandSequence_new3 := macro_new;
  CommandSequence_isEdited := λ s,
    negb (bool_decide (s = macro_new (macro_type s) (macro_default s)));
  CommandSequence_clearParameters := λ s, macro_new (macro_type s) (macro_default s);
  CommandSequence_eqb := λ a b, bool_decide (a = b);
  WaveformADPCM := WaveformValues;
  WaveformADPCM_new := mkWaveform 60 16000 false [] 0 0;
  WaveformADPCM_isEdited := λ w, negb (bool_decide (w = mkWaveform 60 16000 false [] 0 0));
  WaveformADPCM_clearParameters := λ _, mkWaveform 60 16000 false [] 0 0;
  WaveformADPCM_eqb := λ a b, bool_decide (a = b)
|}.

(** A session of the editor: an FM instrument gets two arpeggios, is
    cloned both ways and removed. *)
Definition arpeggiosSet : list (@Call sampleClasses) :=
  [ CAdd 0 FM "lead"; CSetEnabled (LArpFM All) 0 true;
    CSetEnabled (LArpFM Op1) 0 true; CSetNumber (LArpFM Op1) 0 5 ].

Definition editorSession : list (@Call sampleClasses) :=
  arpeggiosSet ++ [ CDeepClone 1 0; CClone 2 0; CRemove 0 ].

Definition newManager : @InstrumentsManager sampleClasses :=
  InstrumentsManager_new false.

(** The same number is given to two new instruments. *)
Definition doubleAdd : list (@Call sampleClasses) :=
  [ CAdd 0 FM "lead"; CAdd 0 FM "bass" ].

(** The arpeggio of an operator is switched off while it is off, and the
    instrument is cloned. *)
Definition strayDisable : list (@Call sampleClasses) :=
  [ CAdd 0 FM "lead"; CSetEnabled (LArpFM All) 0 true;
    CSetEnabled (LArpFM Op1) 0 false ].


(** Three instruments, two of them new FM instruments. *)
Definition threeInstruments : list (@Call sampleClasses) :=
  [ CAdd 0 FM "lead"; CAdd 1 SSG "bass"; CAdd 2 FM "pad" ].

(** A step is appended to a macro sequence. *)
Definition macro_addStep (t d : Z) (s : MacroSequence) : MacroSequence :=
  mkMacro (macro_type s) (macro_default s) (macro_steps s ++ [(t, d)])
    (macro_loops s) (macro_release s).

Definition addStep (t d : Z) (p : @Payload sampleClasses) : @Payload sampleClasses :=
  match p with
  | PCommandSequence s => @PCommandSequence sampleClasses (macro_addStep t d s)
  | other => other
  end.

(** A manager in the mode that regards unedited slots, all of whose SSG
    arpeggios are edited. *)
Definition arpeggiosEdited : @InstrumentsManager sampleClasses :=
  after ((λ n : nat, CMutate ArpSSG (Z.of_nat n) (addStep 1 (-1))) <$> seq 0 128)
    (InstrumentsManager_new true).

(** An iterator over a table of values that stops at its end. *)
Record TableIter := mkIter {
  iter_type : SequenceType;
  iter_values : list Z;
  iter_pos : Z
}.

Definition iter_move (it : TableIter) (pos : Z) : Z * TableIter :=
  if (0 <=? pos) && (pos <? size (iter_values it))
  then (pos, mkIter (iter_type it) (iter_values it) pos)
  else (-1, mkIter (iter_type it) (iter_values it) (-1)).

Definition sampleParts : ControllerParts := {|
  Iter := TableIter;
  it_next := λ _ it,
    if bool_decide (iter_pos it = -1) then (-1, it) else iter_move it (iter_pos it + 1);
  it_front := λ it, iter_move it 0;
  it_getPosition := iter_pos;
  it_getSequenceType := iter_type;
  it_getCommandType := λ it, default (-1) (lookupZ (iter_values it) (iter_pos it));
  toInternalFMChannel := λ mode ch,
    if (0 <=? ch) && (ch <? 6) then Ok ch
    else if bool_decide (mode = FM3chExpanded) && (6 <=? ch) && (ch <? 9) then Ok 2
    else Fail OutOfRange;
  isCarrier := λ op al,
    if bool_decide (op = 0) then bool_decide (al = 7)
    else if bool_decide (op = 1) then (4 <=? al) && (al <=? 7)
    else if bool_decide (op = 2) then (5 <=? al) && (al <=? 7)
    else true;
  judgeSSEGRegisterValue := λ v, if bool_decide (v = -1) then 0 else 0x08 + v;
  noteNumberToOctaveAndNote := λ n, (n / 12, n mod 12);
  octaveAndNoteToNoteNumber := λ o n, 12 * o + n;
  SEMINOTE_PITCH := 32;
  getPitchFM := λ note octave pitch,
    Z.lor (Z.shiftl octave 11) (Z.land (617 + 32 * note + pitch) 0x7ff)
|}.

Definition sampleMembers : @ControllerMembers sampleParts := {|
  calculateTL := λ c ch data,
    let vol := if bool_decide (tmpVolFM_ c ch = -1) then baseVolFM_ c ch
               else tmpVolFM_ c ch in
    if 127 - vol <? data then 127 else data + vol
|}.

(** A controller without iterators and notes, the buffers empty, with
    [dramSize] bytes of sample memory; its channels refer to instrument
    [inst] and wait [lfoCnt] ticks for the start of the LFO. *)
Definition sampleController (mode : SongType) (dramSize : Z)
    (inst : option RefInstrumentFM) (lfoCnt : Z) : @OPNAController sampleParts :=
  mkController mode [] [] 0 0 dramSize 0 (-1)
    (λ _, mkEnvelopeFM 4 0 sampleOperator sampleOperator sampleOperator sampleOperator)
    (λ _, inst) (λ _, 3) (λ _, lfoCnt) (λ _ _, None)
    (λ _, false) (λ _, false) (λ _, 0) (λ _, -1)
    (λ _, replicate 4 (mkTone (-1) 0 0)) (λ _, mkTone (-1) 0 0)
    (λ _, false) (λ _, false)
    (λ _, None) (λ _, None) (λ _, None) (λ _, None) (λ _, None)
    (λ _, 0) (λ _, false) (λ _, 0) (λ _, 0) (λ _, 0) (λ _, 0) (λ _, 0) (λ _, 0).

(** A controller at rest, as [initChip] leaves the members. *)
Definition restController (mode : SongType) (dramSize : Z)
  : @OPNAController sampleParts :=
  sampleController mode dramSize None (-1).

(** A controller whose arpeggio has ended and whose algorithm sequence
    steps to the value the envelope has. *)
Definition steadyAlgorithm (p : FMEnvelopeParameter) : option TableIter :=
  match p with
  | AL => Some (mkIter ABSOLUTE_SEQUENCE [4; 4] 0)
  | _ => None
  end.

Definition endedArpeggio : option TableIter :=
  Some (mkIter ABSOLUTE_SEQUENCE [48; 50] (-1)).

Definition quietController : @OPNAController sampleParts :=
  @set_opSeqItFM_ sampleParts (λ _, steadyAlgorithm)
    (@set_arpItFM_ sampleParts (λ _, endedArpeggio) (restController Standard 0)).

(** An instrument with its LFO enabled, and a controller three ticks
    before the start of that LFO. *)
Definition lfoInstrument : RefInstrumentFM :=
  mkRefFM true (λ p, match p with FREQ => 3 | PMS => 2 | AMS => 1 | _ => 1 end).

Definition lfoWaitingController : @OPNAController sampleParts :=
  sampleController Standard 0 (Some lfoInstrument) 3.

(** A controller whose channels have an instrument and the note A of
    octave 4 set, with a tone write pending, a pitch macro at 3 and a note
    slide at 12. *)
Definition tonePendingController : @OPNAController sampleParts :=
  set_needToneSetFM_ (λ _, true)
    (set_keyToneFM_ (λ _, mkTone 4 9 0)
       (set_sumPitchFM_ (λ _, 3)
          (set_sumNoteSldFM_ (λ _, 12)
             (sampleController Standard 0 (Some lfoInstrument) (-1))))).

(** ** Computations that return in a state with a property of their own *)

(** From a state with [P] the computation returns, with a value and in a
    state that [Q] relates. *)
Definition hoare {S A} (P : S → Prop) (σ : StateErr S A) (Q : A → S → Prop) : Prop :=
  ∀ s, P s → ∃ x s', σ s = Ok (x, s') ∧ Q x s'.

(** ** The manager *)

(** Two instruments with the same sound source, the same references and
    the same envelope-reset flags; their names and numbers may differ. *)
Definition sameLinks (a a' : AbstractInstrument) : Prop :=
  getSoundSource a' = getSoundSource a ∧
  (∀ l, getLinkEnabled l a' = getLinkEnabled l a ∧
        getLinkNumber l a' = getLinkNumber l a) ∧
  ∀ t, getEnvelopeResetEnabled t a' = getEnvelopeResetEnabled t a.

Section ManagerMore.
Context `{PropertyClasses}.
Implicit Types m : InstrumentsManager.

(** State [m] while the unused slots of [m0] are cleared: the slots in
    [processed] have been visited. *)
Definition clearedTo (processed : list (PropKind * Z)) m0 m : Prop :=
  insts_ m = insts_ m0 ∧ regardingUnedited_ m = regardingUnedited_ m0 ∧
  (∀ k, length (pools_ m k) = length (pools_ m0 k)) ∧
  ∀ k s p, lookupZ (pools_ m0 k) s = Some p →
    lookupZ (pools_ m k) s
    = Some (if bool_decide ((k, s) ∈ processed) && negb (isUserInstrument p)
            then newProperty k s else p).

(** The slots that one turn of the loop of
    [clearUnusedInstrumentProperties] visits. *)
Definition slotsAt (i : Z) : list (PropKind * Z) :=
  [ (EnvFM, i); (LfoFM, i) ] ++ ((λ p, (OpSeqFM p, i)) <$> envFMParams_)
  ++ [ (ArpFM, i); (PtFM, i); (WfSSG, i); (TnSSG, i); (EnvSSG, i); (ArpSSG, i);
       (PtSSG, i); (WfADPCM, i); (EnvADPCM, i); (ArpADPCM, i); (PtADPCM, i) ].


(** State [m] while [cloneInstrument] copies the references of [ref] to
    the clone [c], from the state [m0] in which [addInstrument] left the
    clone: the references in [copiedLinks] and the reset flags of
    [copiedFlags] are those of [ref], the other references are not in
    force unless they always are. *)
Definition cloning (c : Z) (ref : AbstractInstrument) (copiedLinks : list Link)
    (copiedFlags : list FMOperatorType) m0 m : Prop :=
  (∀ k, length (pools_ m k) = length (pools_ m0 k)) ∧
  length (insts_ m) = length (insts_ m0) ∧
  (∀ n, n ≠ c → instOf m n = instOf m0 n) ∧
  ∃ ic, instOf m c = Some ic ∧
    getSoundSource ic = getSoundSource ref ∧ getName ic = getName ref ∧
    (∀ l, l ∈ linksOf (getSoundSource ref) → getLinkEnabled l ic = true →
          0 <= getLinkNumber l ic < 128) ∧
    (∀ l, l ∈ copiedLinks →
          getLinkEnabled l ic = getLinkEnabled l ref ∧
          getLinkNumber l ic = getLinkNumber l ref) ∧
    (∀ l, l ∈ linksOf (getSoundSource ref) → l ∉ copiedLinks →
          getLinkEnabled l ic = fixedLink l) ∧
    (∀ t, t ∈ copiedFlags →
          getEnvelopeResetEnabled t ic = getEnvelopeResetEnabled t ref).

(** The envelope that slot [n] of [envFM_] holds. *)
Definition envelopeOf m (n : Z) : option EnvelopeFM :=
  match payloadAt m EnvFM n with
  | Some (PEnvelopeFM e) => Some e
  | _ => None
  end.

(** State [m] while the envelope in slot [n] of [m0] is written: the slot
    holds [e], and nothing else differs from [m0]. *)
Definition envelopeIs (n : Z) (e : EnvelopeFM) m0 m : Prop :=
  envelopeOf m n = Some e ∧
  insts_ m = insts_ m0 ∧ regardingUnedited_ m = regardingUnedited_ m0 ∧
  (∀ k, length (pools_ m k) = length (pools_ m0 k)) ∧
  (∀ k s, (k, s) ≠ (EnvFM, n) → lookupZ (pools_ m k) s = lookupZ (pools_ m0 k) s) ∧
  ∀ k s, slotUsers m k s = slotUsers m0 k s.

End ManagerMore.

(** The parameters that [EnvelopeFM::isEdited] does not read, and those of
    the operators that [operator==] does not read. *)
Definition ssgegParams : list FMEnvelopeParameter := [ SSGEG1; SSGEG2; SSGEG3; SSGEG4 ].

Definition ofLaterOperator (p : FMEnvelopeParameter) : bool :=
  match paramMap_ p with
  | Some (S _, _) => true
  | _ => false
  end.

(** An operator, and an envelope, whose values fit the fields that the
    module file has for them. *)
Definition storableOperator (o : FMOperator) : bool :=
  bool_decide (0 <= ar_ o < 32) && bool_decide (0 <= dr_ o < 32)
  && bool_decide (0 <= sr_ o < 32) && bool_decide (0 <= rr_ o < 16)
  && bool_decide (0 <= sl_ o < 16) && bool_decide (0 <= tl_ o < 256)
  && bool_decide (0 <= ks_ o < 8) && bool_decide (0 <= ml_ o < 16)
  && bool_decide (0 <= dt_ o < 8) && bool_decide (-1 <= ssgeg_ o < 8).

Definition storable (e : EnvelopeFM) : bool :=
  bool_decide (0 <= al_ e < 16) && bool_decide (0 <= fb_ e < 16)
  && storableOperator (op0_ e) && storableOperator (op1_ e)
  && storableOperator (op2_ e) && storableOperator (op3_ e).

(** The six bytes of an operator in a module file, and the operator that
    six bytes stand for. *)
Definition operatorBytes (o : FMOperator) : list Z :=
  [ u8 (Z.lor (u8 (Z.shiftl (Z.b2z (enabled_ o)) 5)) (u8 (ar_ o)));
    u8 (Z.lor (u8 (Z.shiftl (ks_ o) 5)) (u8 (dr_ o)));
    u8 (Z.lor (u8 (Z.shiftl (dt_ o) 5)) (u8 (sr_ o)));
    u8 (Z.lor (u8 (Z.shiftl (sl_ o) 4)) (u8 (rr_ o)));
    u8 (tl_ o);
    u8 (Z.lor (if bool_decide (ssgeg_ o = -1) then 0x80 else u8 (Z.shiftl (ssgeg_ o) 4))
              (u8 (ml_ o))) ].

Definition operatorOfBytes (t0 t1 t2 t3 t4 t5 : Z) : FMOperator :=
  mkFMOperator (negb (Z.land 0x20 (u8 t0) =? 0))
    (Z.land (u8 t0) 0x1f) (Z.land (u8 t1) 0x1f) (Z.land (u8 t2) 0x1f)
    (Z.land (u8 t3) 0x0f) (Z.shiftr (u8 t3) 4) (u8 t4) (Z.shiftr (u8 t1) 5)
    (Z.land (u8 t5) 0x0f) (Z.shiftr (u8 t2) 5)
    (if negb (Z.land (u8 t5) 0x80 =? 0) then -1 else Z.land (Z.shiftr (u8 t5) 4) 0x07).

(** ** The output history *)

(** The integers [lo, lo + n). *)
Definition zrange (lo : Z) (n : nat) : list Z := (λ i : nat, lo + Z.of_nat i) <$> seq 0 n.

(** The samples of the history from the oldest to the newest: the write
    position is where the oldest frame stands. *)
Definition chronological (h : OutputHistory) : list Z :=
  drop (Z.to_nat (2 * outputHistoryIndex_ h)) (outputHistory_ h)
  ++ take (Z.to_nat (2 * outputHistoryIndex_ h)) (outputHistory_ h).

(** The arrays have their size and the write position is a frame of
    them. *)
Definition historyOk (N : Z) (h : OutputHistory) : Prop :=
  size (outputHistory_ h) = 2 * N ∧ size (outputHistoryReady_ h) = 2 * N ∧
  0 <= outputHistoryIndex_ h < N.

(** The last [k] elements of a list. *)
Definition newest {A} (k : Z) (l : list A) : list A :=
  drop (length l - Z.to_nat k) l.

(** ** The waits of the exported files *)

(** The count that the bytes after the command 0xfe of an S98 file stand
    for: seven bits a byte, the low ones first. *)
Fixpoint countOf (bs : list Z) : Z :=
  match bs with
  | [] => 0
  | b :: bs' => Z.land b 0x7f + 128 * countOf bs'
  end.

(** Bit 7 is set in every byte but the last, so that a reader finds the
    end of the count. *)
Fixpoint selfDelimiting (bs : list Z) : Prop :=
  match bs with
  | [] => False
  | [b] => 0 <= b < 128
  | b :: bs' => 128 <= b < 256 ∧ selfDelimiting bs'
  end.

(** The samples that a list of wait commands of a VGM file stands for:
    0x61 with a count of 16 bits, 0x62 and 0x63 for a frame of 735 and of
    882 samples, 0x70..0x7f for 1..16 samples. *)
Fixpoint vgmWaits (bs : list Z) : option Z :=
  match bs with
  | [] => Some 0
  | b :: rest =>
      if b =? 0x61 then
        match rest with
        | lo :: hi :: rest' => (λ t, lo + 256 * hi + t) <$> vgmWaits rest'
        | _ => None
        end
      else if b =? 0x62 then (λ t, 735 + t) <$> vgmWaits rest
      else if b =? 0x63 then (λ t, 882 + t) <$> vgmWaits rest
      else if (0x70 <=? b) && (b <=? 0x7f) then (λ t, b - 0x6f + t) <$> vgmWaits rest
      else None
  end.

(** ** A state of the drum channels *)

(** The drum channels at rest: every volume 0x1f, no temporary volume,
    both sides, nothing muted. *)
Definition restDrums : DrumMembers :=
  mkDrumMembers (λ _, 0x1f) (λ _, -1) (λ _, 3) (λ _, false) 0x3f.

(** ** Loops within loops *)

(** Two loops, one within the other, visit the pairs of their values in
    the order of the list of pairs. *)
Definition pairsOf {A B} (xs : list A) (ys : list B) : list (A * B) :=
  xs ≫= λ x, (λ y, (x, y)) <$> ys.

(** The notes among the steps [cs] (pairs of a step and a track) of the
    grid [g], in the order of the list. *)
Definition keysOf (g : TransposeNoteInPatternCommand.Notes) (cs : list (Z * Z)) : list Z :=
  filter (λ n, -1 < n) ((λ p : Z * Z, g p.2 p.1) <$> cs).

(** ** The songs of a module *)

(** Every song has the number of the place it stands at. *)
Definition numbered {SongData} (songs : list (Song SongData)) : Prop :=
  ∀ (i : nat) s, songs !! i = Some s → song_number s = Z.of_nat i.

(** ** Tone portamento *)

Section Tones.
Context `{ControllerParts}.

(** The height of a tone in units of pitch, as [checkPortamento] counts
    it. *)
Definition toneValue (t : ToneDetail) : Z :=
  octaveAndNoteToNoteNumber (octave t) (note t) * SEMINOTE_PITCH + pitch t.

(** No arpeggio is running on FM channel [ch]. *)
Definition arpeggioIdle (c : OPNAController) (ch : Z) : Prop :=
  match arpItFM_ c ch with
  | None => True
  | Some it => it_getPosition it = -1
  end.

End Tones.

(** ** The volume of an SSG channel *)

Section VolumeSSGSpec.
Context `{ControllerParts}.

(** The volume that [setRealVolumeSSG] writes for channel [ch]: the
    temporary volume when there is one and the base volume when not, less
    what the envelope takes, with the tremolo and the volume slide added,
    within 0..15. *)
Definition realVolumeSSG (g : SSGMembers) (ch : Z) : Z :=
  clamp ((if bool_decide (tmpVolSSG_ g ch = -1) then baseVolSSG_ g ch else tmpVolSSG_ g ch)
         - match envItSSG_ g ch with
           | Some it => if bool_decide (0 <= it_getCommandType it < 16)
                        then 15 - it_getCommandType it else 0
           | None => 0
           end
         + match treItSSG_ g ch with Some it => it_getCommandType it | None => 0 end
         + sumVolSldSSG_ g ch) 0 15.

(** The channel sounds with its own volume: the key is on and neither the
    buzzer effect nor the hardware envelope has the volume. *)
Definition soundsSSG (g : SSGMembers) (ch : Z) : bool :=
  isKeyOnSSG_ g ch && negb (isBuzzEffSSG_ g ch || isHardEnvSSG_ g ch).

End VolumeSSGSpec.

(** ** States for the examples *)

(** Three songs in the order of their numbers; of a song the title stands
    for what it holds. *)
Definition sampleSongs : list (Song string) :=
  [mkSong 0 "intro"; mkSong 1 "theme"; mkSong 2 "finale"].

(** A controller whose first tone of the echo buffer is C4 while the key
    tone is A3, three seminotes below, with a tone portamento of 40 units
    of pitch a tick. *)
Definition glidingController : @OPNAController sampleParts :=
  mkController Standard [] [] 0 0 0 0 (-1)
    (λ _, mkEnvelopeFM 4 0 sampleOperator sampleOperator sampleOperator sampleOperator)
    (λ _, None) (λ _, 3) (λ _, -1) (λ _ _, None)
    (λ _, false) (λ _, false) (λ _, 0) (λ _, -1)
    (λ _, [mkTone 4 0 0]) (λ _, mkTone 3 9 0)
    (λ _, false) (λ _, true)
    (λ _, None) (λ _, None) (λ _, None) (λ _, None) (λ _, None)
    (λ _, 40) (λ _, true) (λ _, 0) (λ _, 0) (λ _, 0) (λ _, 0) (λ _, 0) (λ _, 0).

(** SSG channels that sound at full volume, without envelope, tremolo and
    volume slide. *)
Definition soundingSSG : @SSGMembers sampleParts :=
  mkSSGMembers (λ _, 0xf) (λ _, -1) (λ _, true) (λ _, false) (λ _, false)
    (λ _, None) (λ _, None) (λ _, 0) (λ _, true).

(** ** Duplicates by value *)


Section DuplicatesByValue.
Context `{PropertyClasses}.
Implicit Types m : InstrumentsManager.





End DuplicatesByValue.

(** ** The tick of an FM channel *)

Section TickSteps.
Context `{ControllerParts} `{!ControllerMembers}.

(** The steps of [tickEventFM] on a channel whose pre-set flag is clear
    and which is not muted, from [int inch = toInternalFMChannel(ch)] to
    the step of the note slide: all of the tick but its last statement,
    [if (needToneSetFM_[ch]) writePitchFM(ch)]. *)
Definition tickStepsFM (ch : Z) : StateErr OPNAController unit :=
  mode ← gets mode_;
  inch ← lift (toInternalFMChannel mode ch);
  cnt ← gets (λ c, lfoStartCntFM_ c inch);
  (if 0 <? cnt
   then modify (λ c, set_lfoStartCntFM_ (upd (lfoStartCntFM_ c) inch (cnt - 1)) c) ;;
        writeFMLFOAllRegisters inch
   else mret tt) ;;
  checkOperatorSequenceFM ch 0 ;;
  _ ← advance treItFM_ set_treItFM_ ch;
  modify (λ c, set_sumVolSldFM_
                 (upd (sumVolSldFM_ c) ch (sumVolSldFM_ c ch + volSldFM_ c ch)) c) ;;
  checkVolumeEffectFM ch ;;
  arp ← advance arpItFM_ set_arpItFM_ ch;
  (match arp with
   | Some seqPos => checkRealToneFMByArpeggio ch seqPos
   | None => mret tt
   end) ;;
  checkPortamentoFM ch ;;
  pt ← advance ptItFM_ set_ptItFM_ ch;
  (match pt with
   | Some seqPos => checkRealToneFMByPitch ch seqPos
   | None => mret tt
   end) ;;
  vib ← advance vibItFM_ set_vibItFM_ ch;
  (match vib with
   | Some _ => modify (λ c, set_needToneSetFM_ (upd (needToneSetFM_ c) ch true) c)
   | None => mret tt
   end) ;;
  ns ← advance nsItFM_ set_nsItFM_ ch;
  (match ns with
   | Some pos =>
       if bool_decide (pos ≠ -1)
       then it ← gets (λ c, nsItFM_ c ch);
            modify (λ c, set_sumNoteSldFM_
              (upd (sumNoteSldFM_ c) ch
                 (sumNoteSldFM_ c ch
                  + match it with Some it => it_getCommandType it | None => 0 end)) c) ;;
            modify (λ c, set_needToneSetFM_ (upd (needToneSetFM_ c) ch true) c)
       else mret tt
   | None => mret tt
   end).

End TickSteps.

(** A controller whose channels have an instrument and the note A of
    octave 4 set, without a tone write pending and without vibrato; a
    pitch macro stands before its second step, which is 130. *)
Definition pitchMacroController : @OPNAController sampleParts :=
  @set_ptItFM_ sampleParts (λ _, Some (mkIter ABSOLUTE_SEQUENCE [127; 130] 0))
    (set_keyToneFM_ (λ _, mkTone 4 9 0)
       (sampleController Standard 0 (Some lfoInstrument) (-1))).

(** The notes of two tracks of three steps: in the first track a B of the
    highest octave, a step without note and a low note, in the second the
    note 40 throughout. *)
Definition sampleNotes : TransposeNoteInPatternCommand.Notes :=
  λ t s, if t =? 0 then (if s =? 0 then 95 else if s =? 1 then -1 else 10) else 40.

(** ** What raises the need of a tone write within a tick *)

Section NeedRaised.
Context `{ControllerParts}.

(** The members of channel [ch] that the steps of a tick before the
    arpeggio leave alone, as they are in [c0]. *)
Definition tonePartsOf (ch : Z) (c0 c : OPNAController) : Prop :=
  arpItFM_ c ch = arpItFM_ c0 ch ∧ ptItFM_ c ch = ptItFM_ c0 ch ∧
  nsItFM_ c ch = nsItFM_ c0 ch ∧ keyToneFM_ c ch = keyToneFM_ c0 ch ∧
  prtmFM_ c ch = prtmFM_ c0 ch ∧ hasKeyOnBeforeFM_ c ch = hasKeyOnBeforeFM_ c0 ch ∧
  isTonePrtmFM_ c ch = isTonePrtmFM_ c0 ch ∧ baseToneFM_ c ch = baseToneFM_ c0 ch.

(** The arpeggio has a step in this tick, of a sequence with a type. *)
Definition arpeggioFires (c : OPNAController) (ch : Z) : Prop :=
  ∃ it, arpItFM_ c ch = Some it ∧ fst (it_next false it) ≠ -1 ∧
        it_getSequenceType (snd (it_next false it)) ≠ NO_SEQUENCE_TYPE.

(** A portamento moves the key tone in this tick: there is no arpeggio
    iterator, the depth is not 0, there was a key-on, and a tone
    portamento has not arrived yet. *)
Definition portamentoFires (c : OPNAController) (ch : Z) : Prop :=
  arpItFM_ c ch = None ∧ prtmFM_ c ch ≠ 0 ∧ hasKeyOnBeforeFM_ c ch = true ∧
  (isTonePrtmFM_ c ch = false ∨
   ∃ b, front (baseToneFM_ c ch) = Ok b ∧ toneValue b ≠ toneValue (keyToneFM_ c ch)).

(** The pitch macro has a step in this tick, of an absolute or a relative
    sequence. *)
Definition pitchMacroFires (c : OPNAController) (ch : Z) : Prop :=
  ∃ it, ptItFM_ c ch = Some it ∧ fst (it_next false it) ≠ -1 ∧
        (it_getSequenceType (snd (it_next false it)) = ABSOLUTE_SEQUENCE ∨
         it_getSequenceType (snd (it_next false it)) = RELATIVE_SEQUENCE).

(** The note slide has a step in this tick. *)
Definition noteSlideFires (c : OPNAController) (ch : Z) : Prop :=
  ∃ it, nsItFM_ c ch = Some it ∧ fst (it_next false it) ≠ -1.

End NeedRaised.

(** * Part III: the properties *)

(** ** Reading a link after writing one *)


Lemma upd_same {K V} `{EqDecision K} (f : K → V) k v : upd f k v k = v.
Proof. unfold upd. by rewrite decide_True. Qed.

Lemma upd_other {K V} `{EqDecision K} (f : K → V) k k' v :
  k' ≠ k → upd f k v k' = f k'.
Proof. intros. unfold upd. by rewrite decide_False. Qed.

Lemma getSoundSource_setLinkNumber l n i :
  getSoundSource (setLinkNumber l n i) = getSoundSource i.
Proof. by destruct l, i as [[]|[]|[]]. Qed.

Lemma getSoundSource_setLinkEnabled l b i :
  getSoundSource (setLinkEnabled l b i) = getSoundSource i.
Proof. by destruct l, i as [[]|[]|[]]. Qed.

Lemma getSoundSource_setEnvelopeResetEnabled t b i :
  getSoundSource (setEnvelopeResetEnabled t b i) = getSoundSource i.
Proof. by destruct i as [[]|[]|[]]. Qed.

Ltac link_cases :=
  simpl; unfold upd; repeat case_decide; try reflexivity; try congruence.

Lemma getLinkNumber_setLinkNumber_same l n i :
  getSoundSource i = link_source l →
  getLinkNumber l (setLinkNumber l n i) = n.
Proof. destruct l, i as [[]|[]|[]]; intros; try discriminate; link_cases. Qed.

Lemma getLinkNumber_setLinkNumber_other l l' n i :
  l' ≠ l → getLinkNumber l' (setLinkNumber l n i) = getLinkNumber l' i.
Proof. destruct l, i as [[]|[]|[]]; intros; destruct l'; link_cases. Qed.

Lemma getLinkEnabled_setLinkNumber l l' n i :
  getLinkEnabled l' (setLinkNumber l n i) = getLinkEnabled l' i.
Proof. destruct l, i as [[]|[]|[]]; destruct l'; link_cases. Qed.

Lemma getLinkNumber_setLinkEnabled l l' b i :
  getLinkNumber l' (setLinkEnabled l b i) = getLinkNumber l' i.
Proof. destruct l, i as [[]|[]|[]]; destruct l'; link_cases. Qed.

Lemma getLinkEnabled_setLinkEnabled_same l b i :
  getSoundSource i = link_source l → fixedLink l = false →
  getLinkEnabled l (setLinkEnabled l b i) = b.
Proof. destruct l, i as [[]|[]|[]]; intros; try discriminate; link_cases. Qed.

Lemma getLinkEnabled_setLinkEnabled_other l l' b i :
  l' ≠ l → getLinkEnabled l' (setLinkEnabled l b i) = getLinkEnabled l' i.
Proof. destruct l, i as [[]|[]|[]]; intros; destruct l'; link_cases. Qed.

Lemma getLinkEnabled_fixed l i :
  fixedLink l = true → getSoundSource i = link_source l → getLinkEnabled l i = true.
Proof. destruct l, i as [[]|[]|[]]; intros; try discriminate; reflexivity. Qed.

Lemma getLinkEnabled_setLinkEnabled_fixed l b i :
  fixedLink l = true → setLinkEnabled l b i = i.
Proof. destruct l, i as [[]|[]|[]]; intros; try discriminate; reflexivity. Qed.

Lemma getLinkNumber_setEnvelopeResetEnabled l t b i :
  getLinkNumber l (setEnvelopeResetEnabled t b i) = getLinkNumber l i.
Proof. destruct l, i as [[]|[]|[]]; link_cases. Qed.

Lemma getLinkEnabled_setEnvelopeResetEnabled l t b i :
  getLinkEnabled l (setEnvelopeResetEnabled t b i) = getLinkEnabled l i.
Proof. destruct l, i as [[]|[]|[]]; link_cases. Qed.

Lemma link_source_linksOf src l : l ∈ linksOf src → link_source l = src.
Proof.
  destruct src; simpl; unfold linksFM, linksSSG, linksADPCM;
    rewrite ?elem_of_cons, ?elem_of_app, ?list_elem_of_fmap, ?elem_of_nil;
    try (rewrite list_elem_of_In, in_flat_map; setoid_rewrite <- list_elem_of_In).
  - intros [->|[->|[(p & -> & _)|(t & _ & Ht)]]]; try done.
    rewrite !elem_of_cons, elem_of_nil in Ht. naive_solver.
  - naive_solver.
  - naive_solver.
  - naive_solver.
Qed.

Lemma NoDup_linksOf src : NoDup (linksOf src).
Proof.
  destruct src; simpl; unfold linksFM, linksSSG, linksADPCM.
  all: apply (bool_decide_unpack _); vm_compute; exact I.
Qed.

Lemma getName_setLinkNumber l n i : getName (setLinkNumber l n i) = getName i.
Proof. by destruct l, i as [[]|[]|[]]. Qed.

Lemma getName_setLinkEnabled l b i : getName (setLinkEnabled l b i) = getName i.
Proof. by destruct l, i as [[]|[]|[]]. Qed.

Lemma getNumber_setLinkNumber l n i : getNumber (setLinkNumber l n i) = getNumber i.
Proof. by destruct l, i as [[]|[]|[]]. Qed.

Lemma getNumber_setLinkEnabled l b i : getNumber (setLinkEnabled l b i) = getNumber i.
Proof. by destruct l, i as [[]|[]|[]]. Qed.

Lemma getEnvelopeResetEnabled_setLinkNumber t l n i :
  getEnvelopeResetEnabled t (setLinkNumber l n i) = getEnvelopeResetEnabled t i.
Proof. by destruct l, i as [[]|[]|[]]. Qed.

Lemma getEnvelopeResetEnabled_setLinkEnabled t l b i :
  getEnvelopeResetEnabled t (setLinkEnabled l b i) = getEnvelopeResetEnabled t i.
Proof. by destruct l, i as [[]|[]|[]]. Qed.

Create Rewrite HintDb links.
#[global] Hint Rewrite getSoundSource_setLinkNumber getSoundSource_setLinkEnabled
  getSoundSource_setEnvelopeResetEnabled
  getName_setLinkNumber getName_setLinkEnabled
  getNumber_setLinkNumber getNumber_setLinkEnabled
  getEnvelopeResetEnabled_setLinkNumber getEnvelopeResetEnabled_setLinkEnabled
  getLinkNumber_setLinkEnabled getLinkEnabled_setLinkNumber
  getLinkNumber_setEnvelopeResetEnabled getLinkEnabled_setEnvelopeResetEnabled : links.

Arguments setLinkNumber : simpl never.
Arguments setLinkEnabled : simpl never.
Arguments getLinkNumber : simpl never.
Arguments getLinkEnabled : simpl never.
Arguments setEnvelopeResetEnabled : simpl never.
Arguments getEnvelopeResetEnabled : simpl never.

(** ** Running the monad *)

Section Run.
Context {S : Type}.
Implicit Types s : S.

Lemma bind_run {A B} (c : StateErr S A) (k : A → StateErr S B) s a s1 :
  c s = Ok (a, s1) → (c ≫= k) s = k a s1.
Proof. unfold mbind, StateErr_bind. by intros ->. Qed.

Lemma bind_fail {A B} (c : StateErr S A) (k : A → StateErr S B) s e :
  c s = Fail e → (c ≫= k) s = Fail e.
Proof. unfold mbind, StateErr_bind. by intros ->. Qed.

Lemma bind_Ok {A B} (c : StateErr S A) (k : A → StateErr S B) s r :
  (c ≫= k) s = Ok r → ∃ a s1, c s = Ok (a, s1) ∧ k a s1 = Ok r.
Proof.
  unfold mbind, StateErr_bind. destruct (c s) as [[a s1]|]; [eauto|done].
Qed.

Lemma ret_run {A} (a : A) s : (mret a : StateErr S A) s = Ok (a, s).
Proof. reflexivity. Qed.

Lemma gets_run {A} (f : S → A) s : gets f s = Ok (f s, s).
Proof. reflexivity. Qed.

Lemma modify_run (f : S → S) s : modify f s = Ok (tt, f s).
Proof. reflexivity. Qed.

Lemma lift_Ok {A} (r : Result A) s a s1 :
  lift r s = Ok (a, s1) → r = Ok a ∧ s1 = s.
Proof. unfold lift. destruct r; naive_solver. Qed.

Lemma lift_run {A} (a : A) s : lift (S:=S) (Ok a) s = Ok (a, s).
Proof. reflexivity. Qed.
End Run.

Lemma lookupZ_Some {A} (l : list A) i a :
  lookupZ l i = Some a ↔ 0 <= i ∧ l !! Z.to_nat i = Some a.
Proof. unfold lookupZ. case_match; [rewrite Z.leb_le in *|rewrite Z.leb_gt in *]; naive_solver lia. Qed.

Lemma lookupZ_lt {A} (l : list A) i a :
  lookupZ l i = Some a → 0 <= i < size l.
Proof.
  rewrite lookupZ_Some. intros [? Hl]. apply lookup_lt_Some in Hl. unfold size. lia.
Qed.

Lemma lookupZ_is_Some {A} (l : list A) i :
  0 <= i < size l → is_Some (lookupZ l i).
Proof.
  unfold size, lookupZ. intros. rewrite (proj2 (Z.leb_le _ _)) by lia.
  apply lookup_lt_is_Some. lia.
Qed.

Lemma lookupZ_of_nat {A} (l : list A) (i : nat) :
  lookupZ l (Z.of_nat i) = l !! i.
Proof. unfold lookupZ. rewrite (proj2 (Z.leb_le _ _)) by lia. by rewrite Nat2Z.id. Qed.

Lemma at_Ok {A} (l : list A) i a : at_ l i = Ok a ↔ lookupZ l i = Some a.
Proof. unfold at_. destruct (lookupZ l i); naive_solver. Qed.

Lemma idx_Ok {A} (l : list A) i a : idx l i = Ok a ↔ lookupZ l i = Some a.
Proof. unfold idx. destruct (lookupZ l i); naive_solver. Qed.

Lemma lookupZ_insert {A} (l : list A) (i : nat) j x :
  (i < length l)%nat →
  lookupZ (<[i := x]> l) j = if bool_decide (j = Z.of_nat i) then Some x else lookupZ l j.
Proof.
  intros. unfold lookupZ. case_bool_decide as Hj.
  - subst. rewrite (proj2 (Z.leb_le _ _)) by lia. rewrite Nat2Z.id.
    by apply list_lookup_insert_eq.
  - case_match; [|done]. apply list_lookup_insert_ne. rewrite Z.leb_le in *. lia.
Qed.

(** ** Properties that a computation keeps *)

Section Pres.
Context {S : Type}.
Implicit Types P : S → Prop.

Lemma pres_bind {A B} P (σ : StateErr S A) (k : A → StateErr S B) :
  pres P σ → (∀ x, pres P (k x)) → pres P (σ ≫= k).
Proof.
  intros Hσ Hk c y c' (x & c1 & H1 & H2)%bind_Ok HP.
  eapply Hk; [done|]. by eapply Hσ.
Qed.

Lemma pres_ret {A} P (x : A) : pres P (mret x).
Proof. intros c y c' [= _ <-]. done. Qed.

Lemma pres_gets {A} P (f : S → A) : pres P (gets f).
Proof. intros c y c' [= _ <-]. done. Qed.

Lemma pres_lift {A} P (r : Result A) : pres P (lift r).
Proof. intros c y c' [_ ->]%lift_Ok. done. Qed.

Lemma pres_raise {A} P e : pres P (raise e : StateErr S A).
Proof. intros c y c' [=]. Qed.

Lemma pres_modify P f : (∀ c, P c → P (f c)) → pres P (modify f).
Proof. intros Hf c y c' [= _ <-]. apply Hf. Qed.

Lemma pres_forM_ {A} P (xs : list A) body :
  (∀ x, pres P (body x)) → pres P (forM_ xs body).
Proof.
  intros Hb. induction xs as [|x xs IH]; cbn [forM_]; [apply pres_ret|].
  apply pres_bind; [apply Hb|]. by intros _.
Qed.

Lemma pres_foldM {A B} P (xs : list B) (body : A → B → StateErr S A) a :
  (∀ a x, pres P (body a x)) → pres P (foldM body a xs).
Proof.
  intros Hb. revert a. induction xs as [|x xs IH]; intros a; cbn [foldM]; [apply pres_ret|].
  apply pres_bind; [apply Hb|]. intros a'. apply IH.
Qed.

End Pres.

Create HintDb presdb discriminated.

Ltac head_of t := lazymatch t with ?f _ => head_of f | _ => t end.

(** Walks through a computation; [solve_mod] deals with the updates of
    the state. *)
Ltac pres_walk_with solve_mod :=
  repeat (cbv beta zeta;
    try solve [auto 2 with presdb nocore];
    lazymatch goal with
    | |- pres _ (_ ≫= _) => apply pres_bind; [|intros ?]
    | |- pres _ (mret _) => apply pres_ret
    | |- pres _ (gets _) => apply pres_gets
    | |- pres _ (lift _) => apply pres_lift
    | |- pres _ (raise _) => apply pres_raise
    | |- pres _ (forM_ _ _) => apply pres_forM_; intros ?
    | |- pres _ (foldM _ _ _) => apply pres_foldM; intros ? ?
    | |- pres _ (modify _) => apply pres_modify; solve_mod
    | |- pres _ (if ?b then _ else _) => destruct b
    | |- pres _ (match ?o with _ => _ end) => destruct o
    | |- pres _ ?σ => let h := head_of σ in progress unfold h
    end).

(** ** What the primitive steps of the manager do *)

Section Effects.
Context `{PropertyClasses}.
Implicit Types m : InstrumentsManager.
Abbreviation M := (StateErr InstrumentsManager).




Lemma pool_run k m : validKind k = true → pool k m = Ok (pools_ m k, m).
Proof. unfold pool. by intros ->. Qed.

Lemma pool_Ok k m l m' :
  pool k m = Ok (l, m') → validKind k = true ∧ l = pools_ m k ∧ m' = m.
Proof. unfold pool. case_match; naive_solver. Qed.

Lemma pools_setPool k l m k' :
  pools_ (setPool k l m) k' = if decide (k' = k) then l else pools_ m k'.
Proof. reflexivity. Qed.

Lemma updateAt_run k n f m p :
  validKind k = true → lookupZ (pools_ m k) n = Some p →
  updateAt k n f m = Ok (tt, setPool k (<[Z.to_nat n := f p]> (pools_ m k)) m).
Proof.
  intros Hk Hp. unfold updateAt.
  rewrite (bind_run _ _ _ _ _ (pool_run _ _ Hk)).
  apply at_Ok in Hp. rewrite Hp. reflexivity.
Qed.

Lemma updateAt_Ok k n f m m' :
  updateAt k n f m = Ok (tt, m') →
  validKind k = true ∧ ∃ p, lookupZ (pools_ m k) n = Some p ∧
    m' = setPool k (<[Z.to_nat n := f p]> (pools_ m k)) m.
Proof.
  unfold updateAt. intros (l & m1 & (Hk & -> & ->)%pool_Ok & Hr)%bind_Ok.
  apply bind_Ok in Hr as (p & m2 & [Hp%at_Ok ->]%lift_Ok & Hr).
  rewrite modify_run in Hr. naive_solver.
Qed.

Lemma updateIdx_run k n f m p :
  validKind k = true → lookupZ (pools_ m k) n = Some p →
  updateIdx k n f m = Ok (tt, setPool k (<[Z.to_nat n := f p]> (pools_ m k)) m).
Proof.
  intros Hk Hp. unfold updateIdx.
  rewrite (bind_run _ _ _ _ _ (pool_run _ _ Hk)).
  apply idx_Ok in Hp. rewrite Hp. reflexivity.
Qed.

Lemma updateIdx_Ok k n f m m' :
  updateIdx k n f m = Ok (tt, m') →
  validKind k = true ∧ ∃ p, lookupZ (pools_ m k) n = Some p ∧
    m' = setPool k (<[Z.to_nat n := f p]> (pools_ m k)) m.
Proof.
  unfold updateIdx. intros (l & m1 & (Hk & -> & ->)%pool_Ok & Hr)%bind_Ok.
  apply bind_Ok in Hr as (p & m2 & [Hp%idx_Ok ->]%lift_Ok & Hr).
  rewrite modify_run in Hr. naive_solver.
Qed.

(** *** [findFirstAssignable] *)




Lemma findFirstAssignable_run k m :
  validKind k = true →
  findFirstAssignable k m =
  Ok (match find_if_not (assignCond m) (pools_ m k) with
      | Some i => Z.of_nat i | None => -1 end, afterAssign k m).
Proof.
  intros Hk. unfold findFirstAssignable, afterAssign, assignCond.
  rewrite (bind_run _ _ _ _ _ (gets_run _ _)).
  rewrite (bind_run _ _ _ _ _ (pool_run _ _ Hk)).
  destruct (regardingUnedited_ m); simpl;
    destruct (find_if_not _ _); reflexivity.
Qed.

Lemma findFirstAssignable_Ok k m n m' :
  findFirstAssignable k m = Ok (n, m') → validKind k = true.
Proof.
  unfold findFirstAssignable. rewrite (bind_run _ _ _ _ _ (gets_run _ _)).
  intros (l & m1 & (Hk & _)%pool_Ok & _)%bind_Ok. done.
Qed.

Lemma length_afterAssign k m k' :
  length (pools_ (afterAssign k m) k') = length (pools_ m k').
Proof.
  unfold afterAssign. destruct (regardingUnedited_ m); [done|].
  destruct (find_if_not _ _); [|done].
  rewrite pools_setPool. case_decide; subst; by rewrite ?length_alter.
Qed.

Lemma firstAssignableOrLast_run k m :
  validKind k = true →
  firstAssignableOrLast k m = Ok (assigned m k, afterAssign k m).
Proof.
  intros Hk. unfold firstAssignableOrLast.
  rewrite (bind_run _ _ _ _ _ (findFirstAssignable_run _ _ Hk)).
  rewrite (bind_run _ _ _ _ _ (pool_run _ _ Hk)).
  rewrite ret_run. unfold assigned, size. rewrite length_afterAssign.
  destruct (find_if_not _ _) as [i|]; [|done].
  by rewrite (proj2 (Z.eqb_neq _ _)) by lia.
Qed.

Lemma find_if_not_Some {A} (cond : A → bool) (l : list A) i :
  find_if_not cond l = Some i →
  ∃ x, l !! i = Some x ∧ cond x = false ∧
       ∀ j y, (j < i)%nat → l !! j = Some y → cond y = true.
Proof.
  revert i. induction l as [|x l IH]; intros i; simpl; [done|].
  destruct (cond x) eqn:Hx.
  - destruct (find_if_not cond l) as [i'|] eqn:Hf; simpl; [|done].
    intros [= <-]. destruct (IH _ eq_refl) as (y & ? & ? & Hlt).
    exists y. split_and!; [done..|]. intros [|j] z ?; simpl; [naive_solver|].
    intros. eapply Hlt; [|done]. lia.
  - intros [= <-]. exists x. split_and!; [done..|]. intros; lia.
Qed.

Lemma find_if_not_None {A} (cond : A → bool) (l : list A) :
  find_if_not cond l = None ↔ ∀ x, x ∈ l → cond x = true.
Proof.
  induction l as [|x l IH]; simpl.
  - split; [|done]. intros _ x Hx. by apply elem_of_nil in Hx.
  - destruct (cond x) eqn:Hx.
    + destruct (find_if_not cond l); simpl.
      * split; [done|]. intros Hall. destruct IH as [_ IH].
        discriminate IH. intros; apply Hall. by right.
      * split; [|done]. intros _ y [->|?]%elem_of_cons; [done|].
        by apply IH.
    + split; [done|]. intros Hall. rewrite Hall in Hx; [done|by left].
Qed.

Lemma find_if_not_ext {A B} (c1 : A → bool) (c2 : B → bool) l1 l2 :
  Forall2 (λ x y, c1 x = c2 y) l1 l2 →
  find_if_not c1 l1 = find_if_not c2 l2.
Proof. induction 1 as [|x y l1 l2 Hxy _ IH]; simpl; [done|]. by rewrite Hxy, IH. Qed.


Lemma sameUsers_refl m : sameUsers m m.
Proof. done. Qed.

Lemma sameUsers_trans m1 m2 m3 : sameUsers m1 m2 → sameUsers m2 m3 → sameUsers m1 m3.
Proof. intros (?&?&?) (?&?&?). split_and!; intros; congruence. Qed.

Lemma sameUsers_length m m' k :
  sameUsers m m' → length (pools_ m' k) = length (pools_ m k).
Proof. intros (_&_&Hu). by rewrite <-(length_fmap users_), Hu, length_fmap. Qed.

Lemma sameUsers_slotUsers m m' k s :
  sameUsers m m' → slotUsers m' k s = slotUsers m k s.
Proof.
  intros (_&_&Hu). unfold slotUsers, lookupZ. destruct (0 <=? s); [|done].
  pose proof (f_equal (λ l, l !! Z.to_nat s) (Hu k)) as Hs. simpl in Hs.
  rewrite !list_lookup_fmap in Hs.
  destruct (pools_ m' k !! _), (pools_ m k !! _); naive_solver.
Qed.

Lemma sameUsers_instOf m m' n : sameUsers m m' → instOf m' n = instOf m n.
Proof. intros (Hi&_). unfold instOf. by rewrite Hi. Qed.

Lemma sameUsers_wellFormed m m' : sameUsers m m' → wellFormed m → wellFormed m'.
Proof.
  intros Hs [Hi Hp]. split; [destruct Hs as (->&_); done|].
  intros k. by rewrite (sameUsers_length _ _ _ Hs).
Qed.

Lemma afterAssign_sameUsers k m : sameUsers m (afterAssign k m).
Proof.
  unfold afterAssign. destruct (regardingUnedited_ m); [done|].
  destruct (find_if_not _ _) as [i|]; [|done].
  split_and!; [done..|]. intros k'. rewrite pools_setPool. case_decide; [subst|done].
  apply list_eq. intros j. rewrite !list_lookup_fmap.
  destruct (decide (j = i)) as [->|].
  - rewrite list_lookup_alter_eq. by destruct (pools_ m k !! i).
  - by rewrite list_lookup_alter_ne.
Qed.

Lemma pools_afterAssign_other k m k' :
  k' ≠ k → pools_ (afterAssign k m) k' = pools_ m k'.
Proof.
  intros. unfold afterAssign. destruct (regardingUnedited_ m); [done|].
  destruct (find_if_not _ _); [|done]. rewrite pools_setPool. by rewrite decide_False.
Qed.

(** [assigned] reads the flag and one pool. *)
Lemma assigned_ext m m' k :
  regardingUnedited_ m' = regardingUnedited_ m → pools_ m' k = pools_ m k →
  assigned m' k = assigned m k.
Proof. unfold assigned, assignCond. by intros -> ->. Qed.

(** *** [addInstrument] *)





Lemma foldM_opSeq (ps : list FMEnvelopeParameter) fm m :
  (∀ p, p ∈ ps → p ∈ envFMParams_) → NoDup ps →
  ∃ m', foldM (λ fm param,
               opSeqNum ← firstAssignableOrLast (OpSeqFM param);
               mret (setLinkEnabled (LOpSeqFM param) false
                       (setLinkNumber (LOpSeqFM param) opSeqNum fm)))
             fm ps m = Ok (fold_left (opSeqStep m) ps fm, m') ∧
        sameUsers m m' ∧
        ∀ k, (∀ p, p ∈ ps → k ≠ OpSeqFM p) → pools_ m' k = pools_ m k.
Proof.
  revert fm m. induction ps as [|p ps IH]; intros fm m Hin Hnd.
  { exists m. split_and!; done. }
  apply list.NoDup_cons in Hnd as [Hp Hnd]. simpl.
  assert (validKind (OpSeqFM p) = true) as Hk.
  { simpl. apply bool_decide_eq_true_2, Hin. by left. }
  rewrite (bind_run _ _ _ _ _ (bind_run _ _ _ _ _ (firstAssignableOrLast_run _ _ Hk))).
  destruct (IH (opSeqStep m fm p) (afterAssign (OpSeqFM p) m)) as (m' & Hr & Hs & Hf);
    [intros; apply Hin; by right|done|].
  exists m'. split_and!.
  - change (setLinkEnabled _ _ (setLinkNumber _ _ fm)) with (opSeqStep m fm p).
    rewrite Hr. f_equal. f_equal. clear -Hp.
    generalize (opSeqStep m fm p). induction ps as [|q ps IH]; intros i; [done|].
    apply not_elem_of_cons in Hp as [Hq Hp]. simpl. rewrite <-(IH Hp). f_equal.
    unfold opSeqStep. f_equal. f_equal. apply assigned_ext.
    + by destruct (afterAssign_sameUsers (OpSeqFM p) m) as (_&?&_).
    + apply pools_afterAssign_other. congruence.
  - eapply sameUsers_trans; [apply afterAssign_sameUsers|done].
  - intros k Hk'. rewrite Hf by (intros; apply Hk'; by right).
    apply pools_afterAssign_other. apply Hk'. by left.
Qed.

Lemma fold_opSeqStep_number m ps fm l :
  getSoundSource fm = FM →
  getLinkNumber l (fold_left (opSeqStep m) ps fm) =
  match l with
  | LOpSeqFM p => if bool_decide (p ∈ ps) then assigned m (OpSeqFM p)
                  else getLinkNumber l fm
  | _ => getLinkNumber l fm
  end.
Proof.
  revert fm. induction ps as [|q ps IH] using rev_ind; intros fm Hfm.
  { simpl. by destruct l. }
  rewrite fold_left_app. simpl. unfold opSeqStep at 1.
  rewrite getLinkNumber_setLinkEnabled.
  destruct (decide (l = LOpSeqFM q)) as [->|Hne].
  - rewrite getLinkNumber_setLinkNumber_same.
    + rewrite bool_decide_eq_true_2; [done|]. apply elem_of_app. right. by left.
    + clear IH. revert fm Hfm. induction ps as [|r ps IH]; intros fm Hfm; [done|].
      simpl. apply IH. unfold opSeqStep.
      by rewrite getSoundSource_setLinkEnabled, getSoundSource_setLinkNumber.
  - rewrite getLinkNumber_setLinkNumber_other by done. rewrite IH by done.
    destruct l; try done.
    assert (p ≠ q) by congruence.
    destruct (decide (p ∈ ps)).
    + rewrite !bool_decide_eq_true_2; [done| |done]. apply elem_of_app. by left.
    + rewrite !bool_decide_eq_false_2; [done| |done].
      rewrite elem_of_app, list_elem_of_singleton. naive_solver.
Qed.

Lemma fold_opSeqStep_source m ps fm :
  getSoundSource (fold_left (opSeqStep m) ps fm) = getSoundSource fm.
Proof.
  revert fm. induction ps as [|r ps IH]; intros fm; [done|].
  simpl. rewrite IH. unfold opSeqStep.
  by rewrite getSoundSource_setLinkEnabled, getSoundSource_setLinkNumber.
Qed.

Lemma fold_opSeqStep_pres m (P : AbstractInstrument → Prop) ps fm :
  (∀ l n i, P i → P (setLinkNumber l n i)) →
  (∀ l b i, P i → P (setLinkEnabled l b i)) →
  P fm → P (fold_left (opSeqStep m) ps fm).
Proof.
  intros Hn He. revert fm. induction ps as [|p ps IH]; intros fm Hfm; [done|].
  simpl. apply IH. unfold opSeqStep. auto.
Qed.

#[local] Hint Rewrite fold_opSeqStep_source : links.

Lemma fold_opSeqStep_enabled m ps fm l :
  getSoundSource fm = FM →
  getLinkEnabled l (fold_left (opSeqStep m) ps fm) =
  match l with
  | LOpSeqFM p => if bool_decide (p ∈ ps) then false else getLinkEnabled l fm
  | _ => getLinkEnabled l fm
  end.
Proof.
  revert fm. induction ps as [|q ps IH] using rev_ind; intros fm Hfm.
  { simpl. by destruct l. }
  rewrite fold_left_app. simpl. unfold opSeqStep at 1.
  destruct (decide (l = LOpSeqFM q)) as [->|Hne].
  - rewrite getLinkEnabled_setLinkEnabled_same.
    + rewrite bool_decide_eq_true_2; [done|]. apply elem_of_app. right. by left.
    + by rewrite getSoundSource_setLinkNumber, fold_opSeqStep_source.
    + done.
  - rewrite getLinkEnabled_setLinkEnabled_other by done.
    rewrite getLinkEnabled_setLinkNumber. rewrite IH by done.
    destruct l; try done.
    assert (p ≠ q) by congruence.
    destruct (decide (p ∈ ps)).
    + rewrite !bool_decide_eq_true_2; [done| |done]. apply elem_of_app. by left.
    + rewrite !bool_decide_eq_false_2; [done| |done].
      rewrite elem_of_app, list_elem_of_singleton. naive_solver.
Qed.

Lemma NoDup_envFMParams : NoDup envFMParams_.
Proof. apply (bool_decide_unpack _). vm_compute. exact I. Qed.

Lemma fold_left_ext_in {A B} (f g : A → B → A) (l : list B) (a : A) :
  (∀ x a, x ∈ l → f a x = g a x) → fold_left f l a = fold_left g l a.
Proof.
  revert a. induction l as [|x l IH]; intros a Hfg; [done|]. simpl.
  rewrite Hfg by (by left). apply IH. intros; apply Hfg. by right.
Qed.

Lemma opSeqStep_ext m m' :
  regardingUnedited_ m' = regardingUnedited_ m →
  (∀ p, pools_ m' (OpSeqFM p) = pools_ m (OpSeqFM p)) →
  ∀ ps fm, fold_left (opSeqStep m') ps fm = fold_left (opSeqStep m) ps fm.
Proof.
  intros Hf Hp ps fm. apply fold_left_ext_in. intros p a _.
  unfold opSeqStep. by rewrite (assigned_ext m m') by done.
Qed.

Lemma assigned_range m k :
  (0 < length (pools_ m k))%nat → 0 <= assigned m k < size (pools_ m k).
Proof.
  intros Hl. unfold assigned, size.
  destruct (find_if_not _ _) as [i|] eqn:Hf; [|lia].
  apply find_if_not_Some in Hf as (x & Hx%lookup_lt_Some & _). lia.
Qed.

Lemma wellFormed_pool m k :
  wellFormed m → validKind k = true → length (pools_ m k) = 128%nat.
Proof. intros [_ Hp] Hk. specialize (Hp k). by rewrite Hk in Hp. Qed.

(** The state after [pool.at(n)->f()]. *)
Lemma slotUsers_setPool m k n p f k' s :
  lookupZ (pools_ m k) n = Some p →
  slotUsers (setPool k (<[Z.to_nat n := f p]> (pools_ m k)) m) k' s =
  if bool_decide (k' = k ∧ s = n) then users_ (f p) else slotUsers m k' s.
Proof.
  intros Hp. unfold slotUsers. rewrite pools_setPool.
  apply lookupZ_Some in Hp as Hp'. destruct Hp' as [Hn Hp'].
  apply lookup_lt_Some in Hp' as Hlt.
  case_decide as Hk; subst.
  - rewrite lookupZ_insert by done. rewrite Z2Nat.id by done.
    repeat case_bool_decide; try done; naive_solver.
  - rewrite bool_decide_eq_false_2; [done|naive_solver].
Qed.

Lemma length_setPool m k n x k' :
  length (pools_ (setPool k (<[n := x]> (pools_ m k)) m) k') = length (pools_ m k').
Proof. rewrite pools_setPool. case_decide; subst; by rewrite ?length_insert. Qed.

Lemma slotUsers_setInsts m l k s : slotUsers (setInsts l m) k s = slotUsers m k s.
Proof. reflexivity. Qed.

Lemma storeInst_run m n i :
  0 <= n < size (insts_ m) →
  storeInst n i m = Ok (tt, setInsts (<[Z.to_nat n := Some i]> (insts_ m)) m).
Proof.
  intros Hn. unfold storeInst. rewrite (bind_run _ _ _ _ _ (gets_run _ _)).
  destruct (lookupZ_is_Some _ _ Hn) as [o Ho]. apply at_Ok in Ho. by rewrite Ho.
Qed.

Lemma storeInst_Ok m n i m' :
  storeInst n i m = Ok (tt, m') →
  0 <= n < size (insts_ m) ∧ m' = setInsts (<[Z.to_nat n := Some i]> (insts_ m)) m.
Proof.
  unfold storeInst. rewrite (bind_run _ _ _ _ _ (gets_run _ _)).
  intros (o & m1 & [Ho%at_Ok ->]%lift_Ok & Hr)%bind_Ok.
  apply lookupZ_lt in Ho. rewrite modify_run in Hr. naive_solver.
Qed.

Ltac mstep H := rewrite (bind_run _ _ _ _ _ H); cbv beta.

Lemma addInstrument_out_of_range m instNum source name :
  instNum < 0 ∨ size (insts_ m) <= instNum →
  addInstrument instNum source name m = Ok (tt, m).
Proof.
  intros Hn. unfold addInstrument. mstep (gets_run (λ m, size (insts_ m)) m).
  destruct (instNum <? 0) eqn:H1; [done|].
  destruct (size (insts_ m) <=? instNum) eqn:H2; [done|].
  apply Z.ltb_ge in H1. apply Z.leb_gt in H2. lia.
Qed.

Lemma guard_in_range (instNum sz : Z) :
  0 <= instNum < sz → (instNum <? 0) || (sz <=? instNum) = false.
Proof.
  intros. rewrite (proj2 (Z.ltb_ge _ _)) by lia. by rewrite (proj2 (Z.leb_gt _ _)) by lia.
Qed.

Lemma assigned_lookup m k :
  wellFormed m → validKind k = true →
  is_Some (lookupZ (pools_ m k) (assigned m k)).
Proof.
  intros Hwf Hk. apply lookupZ_is_Some, assigned_range.
  rewrite (wellFormed_pool _ _ Hwf Hk). lia.
Qed.


Lemma tracks_init m : tracks [] (slotUsers m) m m.
Proof. done. Qed.

Lemma tracks_assigned ks U m mi k :
  tracks ks U m mi → k ∉ ks → assigned mi k = assigned m k.
Proof. intros (_&Hf&_&Hp&_) Hk. apply assigned_ext; auto. Qed.

Lemma tracks_sameUsers ks U m mi mi' k :
  tracks ks U m mi → sameUsers mi mi' →
  (∀ k', k' ≠ k → pools_ mi' k' = pools_ mi k') →
  tracks (k :: ks) U m mi'.
Proof.
  intros (Hi&Hf&Hl&Hp&Hu) Hs Ho. split_and!.
  - destruct Hs as (->&_). done.
  - destruct Hs as (_&->&_). done.
  - intros k'. by rewrite (sameUsers_length _ _ _ Hs).
  - intros k' [Hk' Hks]%not_elem_of_cons. rewrite Ho by done. auto.
  - intros k' s. by rewrite (sameUsers_slotUsers _ _ _ _ Hs).
Qed.

Lemma tracks_assign ks U m mi k :
  tracks ks U m mi → validKind k = true → k ∉ ks →
  firstAssignableOrLast k mi = Ok (assigned m k, afterAssign k mi) ∧
  tracks (k :: ks) U m (afterAssign k mi).
Proof.
  intros Ht Hk Hks. split.
  - rewrite firstAssignableOrLast_run by done. by rewrite (tracks_assigned _ _ _ _ _ Ht).
  - eapply tracks_sameUsers; [done|apply afterAssign_sameUsers|].
    intros. by apply pools_afterAssign_other.
Qed.

Lemma tracks_update ks U m mi k n f :
  tracks ks U m mi → validKind k = true → 0 <= n < size (pools_ m k) →
  ∃ p mi', lookupZ (pools_ mi k) n = Some p ∧
    updateAt k n f mi = Ok (tt, mi') ∧
    updateIdx k n f mi = Ok (tt, mi') ∧
    tracks (k :: ks)
      (λ k' s, if bool_decide (k' = k ∧ s = n) then users_ (f p) else U k' s) m mi'.
Proof.
  intros (Hi&Hf&Hl&Hp&Hu) Hk Hn.
  destruct (lookupZ_is_Some (pools_ mi k) n) as [p Hpn].
  { unfold size in *. by rewrite Hl. }
  exists p, (setPool k (<[Z.to_nat n := f p]> (pools_ mi k)) mi).
  split_and!; [done|by apply updateAt_run|by apply updateIdx_run|].
  split_and!; [done|done|..].
  - intros k'. by rewrite length_setPool.
  - intros k' [Hk' Hks]%not_elem_of_cons. rewrite pools_setPool.
    rewrite decide_False by done. auto.
  - intros k' s. rewrite slotUsers_setPool by done. by rewrite Hu.
Qed.

Lemma tracks_foldM_opSeq ks U m mi fm :
  tracks ks U m mi → (∀ p, OpSeqFM p ∉ ks) →
  ∃ mi', foldM (λ fm param,
               opSeqNum ← firstAssignableOrLast (OpSeqFM param);
               mret (setLinkEnabled (LOpSeqFM param) false
                       (setLinkNumber (LOpSeqFM param) opSeqNum fm)))
             fm envFMParams_ mi = Ok (fold_left (opSeqStep m) envFMParams_ fm, mi') ∧
        tracks (map OpSeqFM envFMParams_ ++ ks) U m mi'.
Proof.
  intros Ht Hks.
  destruct (foldM_opSeq envFMParams_ fm mi) as (mi' & Hr & Hs & Hf);
    [done|apply NoDup_envFMParams|].
  exists mi'. split.
  - rewrite Hr. f_equal. f_equal. apply opSeqStep_ext.
    + by destruct Ht as (_&?&_).
    + intros p. destruct Ht as (_&_&_&Hp&_). by apply Hp.
  - destruct Ht as (Hi&Hfl&Hl&Hp&Hu). split_and!.
    + destruct Hs as (->&_). done.
    + destruct Hs as (_&->&_). done.
    + intros k. by rewrite (sameUsers_length _ _ _ Hs).
    + intros k [Hk Hk']%not_elem_of_app. rewrite Hf; [auto|].
      intros p Hp' ->. apply Hk. apply list_elem_of_fmap. eauto.
    + intros k s. by rewrite (sameUsers_slotUsers _ _ _ _ Hs).
Qed.

Lemma tracks_store ks U m mi instNum inst :
  tracks ks U m mi → 0 <= instNum < size (insts_ m) →
  ∃ m', storeInst instNum inst mi = Ok (tt, m') ∧
        insts_ m' = <[Z.to_nat instNum := Some inst]> (insts_ m) ∧
        regardingUnedited_ m' = regardingUnedited_ m ∧
        (∀ k, length (pools_ m' k) = length (pools_ m k)) ∧
        (∀ k s, slotUsers m' k s = U k s).
Proof.
  intros (Hi&Hf&Hl&Hp&Hu) Hn. eexists. split.
  - apply storeInst_run. by rewrite Hi.
  - simpl. rewrite Hi. split_and!; done.
Qed.


Ltac link_obs :=
  repeat first
    [ progress autorewrite with links
    | rewrite getLinkNumber_setLinkNumber_same by (by autorewrite with links)
    | rewrite getLinkNumber_setLinkNumber_other by congruence
    | rewrite getLinkEnabled_setLinkEnabled_same by (by autorewrite with links)
    | rewrite getLinkEnabled_setLinkEnabled_other by congruence
    | rewrite fold_opSeqStep_number by (by autorewrite with links)
    | rewrite fold_opSeqStep_enabled by (by autorewrite with links)
    | rewrite bool_decide_eq_true_2 by done
    | rewrite bool_decide_eq_false_2 by congruence ];
  try done.

Lemma fixedLink_FM l : l ∈ linksOf FM → fixedLink l = bool_decide (l = LEnvFM).
Proof.
  simpl. unfold linksFM. rewrite !elem_of_cons, elem_of_app, list_elem_of_fmap.
  rewrite list_elem_of_In, in_flat_map. setoid_rewrite <- list_elem_of_In.
  intros [->|[->|[(p & -> & _)|(t & _ & Ht)]]]; try done.
  rewrite !elem_of_cons, elem_of_nil in Ht. naive_solver.
Qed.

Lemma addInstrument_FM_run m instNum name :
  wellFormed m → 0 <= instNum < 128 →
  ∃ inst m', addInstrument instNum FM name m = Ok (tt, m') ∧
             freshInst m instNum FM name inst ∧
             addEffect m instNum FM inst m'.
Proof.
  intros Hwf Hn. unfold addInstrument.
  assert (size (insts_ m) = 128) as Hsz by (unfold size; destruct Hwf as [-> _]; lia).
  mstep (gets_run (λ m, size (insts_ m)) m).
  rewrite guard_in_range by lia.
  pose proof (tracks_init m) as Ht.
  apply (tracks_assign _ _ _ _ EnvFM) in Ht as [Hr Ht]; [|done|apply not_elem_of_nil].
  mstep Hr. clear Hr.
  eapply (tracks_update _ _ _ _ EnvFM (assigned m EnvFM) (registerUserInstrument instNum))
    in Ht as (p & m2 & Hp & Hr & _ & Ht); [|done|].
  2:{ apply assigned_range. rewrite (wellFormed_pool _ _ Hwf) by done. lia. }
  mstep Hr. clear Hr.
  apply (tracks_assign _ _ _ _ LfoFM) in Ht as [Hr Ht]; [|done|set_solver].
  mstep Hr. clear Hr.
  match goal with |- context [foldM _ ?fm _] =>
    eapply (tracks_foldM_opSeq _ _ _ _ fm) in Ht as (m4 & Hr & Ht); [|set_solver] end.
  mstep Hr. clear Hr.
  apply (tracks_assign _ _ _ _ ArpFM) in Ht as [Hr Ht]; [|done|].
  2:{ rewrite not_elem_of_app, list_elem_of_fmap. set_solver. }
  mstep Hr. clear Hr.
  apply (tracks_assign _ _ _ _ PtFM) in Ht as [Hr Ht]; [|done|].
  2:{ rewrite not_elem_of_cons, not_elem_of_app, list_elem_of_fmap. set_solver. }
  mstep Hr. clear Hr.
  match goal with |- context [storeInst _ ?i] => set (inst := i) end.
  eapply (tracks_store _ _ _ _ instNum inst) in Ht as (m' & Hr & Hi & Hf & Hl & Hu); [|lia].
  exists inst, m'. split; [done|]. split.
  - subst inst. cbn [fold_left fmOpTypes_]. split_and!.
    + by autorewrite with links.
    + autorewrite with links.
      apply (fold_opSeqStep_pres m (λ i, getNumber i = instNum)); [| |done];
        intros; by autorewrite with links.
    + autorewrite with links.
      apply (fold_opSeqStep_pres m (λ i, getName i = name)); [| |done];
        intros; by autorewrite with links.
    + intros l Hlk. rewrite (fixedLink_FM l Hlk).
      match goal with |- context [fold_left (opSeqStep m) _ ?i] => set (fm0 := i) end.
      assert (getSoundSource fm0 = FM) as Hfm0 by done.
      revert Hlk. unfold linksOf, linksFM.
      rewrite !elem_of_cons, elem_of_app, list_elem_of_fmap.
      rewrite list_elem_of_In, in_flat_map. setoid_rewrite <- list_elem_of_In.
      intros [->|[->|[(q & -> & Hq)|(t & _ & Ht)]]].
      * split; link_obs.
      * split; link_obs.
      * split; link_obs.
      * rewrite !elem_of_cons, elem_of_nil in Ht.
        destruct Ht as [->|[->|[]]]; destruct t; split; link_obs.
    + intros t. autorewrite with links.
      apply (fold_opSeqStep_pres m (λ i, getEnvelopeResetEnabled t i = false)); [| |done];
        intros; by autorewrite with links.
  - split_and!; [done..|]. intros k s. rewrite Hu.
    assert (users_ p = slotUsers m EnvFM (assigned m EnvFM)) as Hpu.
    { rewrite <-(sameUsers_slotUsers m (afterAssign EnvFM m))
        by apply afterAssign_sameUsers. unfold slotUsers. by rewrite Hp. }
    simpl. rewrite Hpu. repeat case_bool_decide; naive_solver.
Qed.

Ltac kinds_fresh :=
  repeat first [ rewrite not_elem_of_cons | rewrite not_elem_of_app
               | rewrite list_elem_of_fmap | rewrite elem_of_nil ];
  naive_solver.

Ltac assign_step k Ht :=
  let Hr := fresh "Hr" in
  apply (tracks_assign _ _ _ _ k) in Ht as [Hr Ht]; [|done|kinds_fresh];
  mstep Hr; clear Hr.

Lemma addInstrument_SSG_run m instNum name :
  wellFormed m → 0 <= instNum < 128 →
  ∃ inst m', addInstrument instNum SSG name m = Ok (tt, m') ∧
             freshInst m instNum SSG name inst ∧
             addEffect m instNum SSG inst m'.
Proof.
  intros Hwf Hn. unfold addInstrument.
  assert (size (insts_ m) = 128) as Hsz by (unfold size; destruct Hwf as [-> _]; lia).
  mstep (gets_run (λ m, size (insts_ m)) m).
  rewrite guard_in_range by lia.
  pose proof (tracks_init m) as Ht.
  assign_step WfSSG Ht. assign_step TnSSG Ht. assign_step EnvSSG Ht.
  assign_step ArpSSG Ht. assign_step PtSSG Ht.
  match goal with |- context [storeInst _ ?i] => set (inst := i) end.
  eapply (tracks_store _ _ _ _ instNum inst) in Ht as (m' & Hr & Hi & Hf & Hl & Hu); [|lia].
  exists inst, m'. split; [done|]. split.
  - subst inst. split_and!; try by autorewrite with links.
    intros l. unfold linksOf, linksSSG. rewrite !elem_of_cons, elem_of_nil.
    intros [->|[->|[->|[->|[->|[]]]]]]; split; link_obs.
  - split_and!; [done..|]. intros k s. rewrite Hu.
    case_bool_decide; naive_solver.
Qed.

Lemma addInstrument_ADPCM_run m instNum name :
  wellFormed m → 0 <= instNum < 128 →
  ∃ inst m', addInstrument instNum ADPCM name m = Ok (tt, m') ∧
             freshInst m instNum ADPCM name inst ∧
             addEffect m instNum ADPCM inst m'.
Proof.
  intros Hwf Hn. unfold addInstrument.
  assert (size (insts_ m) = 128) as Hsz by (unfold size; destruct Hwf as [-> _]; lia).
  mstep (gets_run (λ m, size (insts_ m)) m).
  rewrite guard_in_range by lia.
  pose proof (tracks_init m) as Ht.
  assign_step WfADPCM Ht.
  eapply (tracks_update _ _ _ _ WfADPCM (assigned m WfADPCM)
            (registerUserInstrument instNum))
    in Ht as (p & m2 & Hp & Hr & _ & Ht); [|done|].
  2:{ apply assigned_range. rewrite (wellFormed_pool _ _ Hwf) by done. lia. }
  mstep Hr. clear Hr.
  assign_step EnvADPCM Ht. assign_step ArpADPCM Ht. assign_step PtADPCM Ht.
  match goal with |- context [storeInst _ ?i] => set (inst := i) end.
  eapply (tracks_store _ _ _ _ instNum inst) in Ht as (m' & Hr & Hi & Hf & Hl & Hu); [|lia].
  exists inst, m'. split; [done|]. split.
  - subst inst. split_and!; try by autorewrite with links.
    intros l. unfold linksOf, linksADPCM. rewrite !elem_of_cons, elem_of_nil.
    intros [->|[->|[->|[->|[]]]]]; split; link_obs.
  - split_and!; [done..|]. intros k s. rewrite Hu.
    assert (users_ p = slotUsers m WfADPCM (assigned m WfADPCM)) as Hpu.
    { rewrite <-(sameUsers_slotUsers m (afterAssign WfADPCM m))
        by apply afterAssign_sameUsers. unfold slotUsers. by rewrite Hp. }
    simpl. rewrite Hpu. repeat case_bool_decide; naive_solver.
Qed.

(** [addInstrument] on a well-formed manager, for a number in range and a
    sound source that has instruments. *)
Lemma addInstrument_run m instNum source name :
  wellFormed m → 0 <= instNum < 128 → source ≠ DRUM →
  ∃ inst m', addInstrument instNum source name m = Ok (tt, m') ∧
             freshInst m instNum source name inst ∧
             addEffect m instNum source inst m'.
Proof.
  intros Hwf Hn Hs. destruct source; [| |done|].
  - by apply addInstrument_FM_run.
  - by apply addInstrument_SSG_run.
  - by apply addInstrument_ADPCM_run.
Qed.

Lemma addInstrument_DRUM m instNum name :
  addInstrument instNum DRUM name m = Ok (tt, m).
Proof.
  unfold addInstrument. mstep (gets_run (λ m, size (insts_ m)) m).
  by destruct (_ || _).
Qed.

Lemma wellFormed_new unedited : wellFormed (InstrumentsManager_new unedited).
Proof.
  split; [done|]. intros k. unfold InstrumentsManager_new, clearAll. cbn [pools_].
  destruct (validKind k); [|done].
  by rewrite List.length_map, length_seq.
Qed.

Lemma instOf_out_of_range m n :
  n < 0 ∨ size (insts_ m) <= n → instOf m n = None.
Proof.
  intros Hn. unfold instOf. destruct (lookupZ (insts_ m) n) as [o|] eqn:Ho; [|done].
  apply lookupZ_lt in Ho. lia.
Qed.

(** C6: for an instrument number below 0 or from 128 on, [addInstrument]
    returns and leaves the manager as it is, whatever the sound source and
    the name. *)
Theorem addInstrument_out_of_range_is_noop m instNum source name :
  wellFormed m → instNum < 0 ∨ 128 <= instNum →
  addInstrument instNum source name m = Ok (tt, m).
Proof.
  intros [Hi _] Hn. apply addInstrument_out_of_range. unfold size. rewrite Hi. lia.
Qed.

(** [getInstrumentSharedPtr] never raises: it returns the null
    pointer for a number out of range and for an empty entry, and the
    stored instrument otherwise; [getInstrumentName] raises for a number
    out of range. *)
Theorem getInstrumentSharedPtr_never_raises m instNum :
  getInstrumentSharedPtr instNum m = Ok (instOf m instNum, m) ∧
  (instNum < 0 ∨ size (insts_ m) <= instNum → instOf m instNum = None) ∧
  (lookupZ (insts_ m) instNum = Some None → instOf m instNum = None) ∧
  (∀ i, lookupZ (insts_ m) instNum = Some (Some i) → instOf m instNum = Some i) ∧
  (instNum < 0 ∨ size (insts_ m) <= instNum →
   getInstrumentName instNum m = Fail OutOfRange).
Proof.
  split_and!.
  - unfold getInstrumentSharedPtr, instOf, at_, idx.
    unfold mbind, StateErr_bind, gets, lift, mret, StateErr_ret.
    destruct ((0 <=? instNum) && (instNum <? size (insts_ m))) eqn:Hr.
    + destruct (lookupZ (insts_ m) instNum) as [[i|]|] eqn:Ho; [by rewrite ?Ho|done|].
      apply andb_true_iff in Hr as [H1%Z.leb_le H2%Z.ltb_lt].
      destruct (lookupZ_is_Some (insts_ m) instNum) as [o Ho']; [lia|congruence].
    + destruct (lookupZ (insts_ m) instNum) as [o|] eqn:Ho; [|done].
      apply lookupZ_lt in Ho. apply andb_false_iff in Hr as [H1%Z.leb_gt|H2%Z.ltb_ge]; lia.
  - apply instOf_out_of_range.
  - unfold instOf. by intros ->.
  - unfold instOf. by intros i ->.
  - intros Hn. unfold getInstrumentName, at_.
    unfold mbind, StateErr_bind, gets, lift.
    destruct (lookupZ (insts_ m) instNum) as [o|] eqn:Ho; [|done].
    apply lookupZ_lt in Ho. lia.
Qed.

(** C7: when [findFirstAssignable] returns -1 for the pool of a reference
    of the new instrument, [addInstrument] returns, the instrument stored
    has number 127 for that reference, and for the FM envelope and the
    ADPCM waveform the instrument is registered in slot 127. *)
Theorem addInstrument_exhausted_pool_takes_last_slot m m1 instNum source name l :
  wellFormed m → 0 <= instNum < 128 → l ∈ linksOf source →
  findFirstAssignable (link_kind l) m = Ok (-1, m1) →
  ∃ inst m', addInstrument instNum source name m = Ok (tt, m') ∧
             instOf m' instNum = Some inst ∧
             getLinkNumber l inst = 127 ∧
             (fixedLink l = true →
              slotUsers m' (link_kind l) 127
              = insert_sorted instNum (slotUsers m (link_kind l) 127)).
Proof.
  intros Hwf Hn Hl Hf.
  assert (source ≠ DRUM) as Hs by (intros ->; by apply elem_of_nil in Hl).
  destruct (addInstrument_run m instNum source name Hwf Hn Hs)
    as (inst & m' & Hr & (_&_&_&Hlk&_) & (Hi&_&_&Hu)).
  assert (assigned m (link_kind l) = 127) as Ha.
  { pose proof (findFirstAssignable_Ok _ _ _ _ Hf) as Hk.
    rewrite findFirstAssignable_run in Hf by done.
    unfold assigned, size. rewrite (wellFormed_pool _ _ Hwf Hk).
    destruct (find_if_not _ _); [|done]. injection Hf. lia. }
  exists inst, m'. split_and!; [done|..].
  - unfold instOf. rewrite Hi. destruct Hwf as [Hlen _].
    rewrite lookupZ_insert by lia. rewrite bool_decide_eq_true_2; [done|lia].
  - destruct (Hlk l Hl) as [-> _]. done.
  - intros Hfix. rewrite Hu, bool_decide_eq_true_2; [done|].
    split; [|done]. clear -Hl Hfix. destruct l; try done;
      by apply link_source_linksOf in Hl as <-.
Qed.

(** [addInstrument] returns for every argument when the arrays have their
    sizes. *)
Lemma addInstrument_total m instNum source name :
  wellFormed m → ∃ m', addInstrument instNum source name m = Ok (tt, m').
Proof.
  intros Hwf. destruct (decide (0 <= instNum < 128)) as [Hn|Hn].
  - destruct (decide (source = DRUM)) as [->|Hs].
    + eexists. apply addInstrument_DRUM.
    + destruct (addInstrument_run m instNum source name Hwf Hn Hs) as (?&?&?&_). eauto.
  - exists m. apply addInstrument_out_of_range. destruct Hwf as [Hi _].
    unfold size. rewrite Hi. lia.
Qed.
End Effects.

(** ** Duplicates *)

Lemma EnvelopeFM_eqb_true a b :
  EnvelopeFM_eqb a b = true ↔ al_ a = al_ b ∧ fb_ a = fb_ b ∧ op_ a 0 = op_ b 0.
Proof.
  unfold EnvelopeFM_eqb, FMOperator_neq. cbn [seq forallb op_].
  repeat case_bool_decide; cbn; naive_solver.
Qed.

Lemma allTests_true (tests : list (Result bool)) :
  allTests tests = Ok true ↔ Forall (λ t, t = Ok true) tests.
Proof.
  induction tests as [|[[]|e] ts IH]; cbn [allTests].
  - split; [constructor|done].
  - rewrite IH. split; [by constructor|by inversion 1].
  - split; [done|by inversion 1].
  - split; [done|by inversion 1].
Qed.

Lemma allTests_total (tests : list (Result bool)) :
  Forall (λ t, isOk t = true) tests → ∃ b, allTests tests = Ok b.
Proof.
  induction 1 as [|[[]|e] ts Ht _ IH]; cbn [allTests]; eauto. done.
Qed.


Section Duplicates.
Context `{PropertyClasses} `{!PropertyEqLaws}.
Implicit Types m : InstrumentsManager.
Implicit Types a b : AbstractInstrument.

#[local] Instance slotEq_refl : Reflexive slotEq.
Proof.
  intros [n u []]; unfold slotEq, Property_neq; cbn; rewrite negb_false_iff.
  - by apply EnvelopeFM_eqb_true.
  - apply LFOFM_eqb_equiv.
  - apply CommandSequence_eqb_equiv.
  - apply WaveformADPCM_eqb_equiv.
Qed.

#[local] Instance slotEq_sym : Symmetric slotEq.
Proof.
  intros [n u []] [n' u' []]; unfold slotEq, Property_neq; cbn; try done;
    rewrite !negb_false_iff.
  - rewrite !EnvelopeFM_eqb_true. naive_solver.
  - apply LFOFM_eqb_equiv.
  - apply CommandSequence_eqb_equiv.
  - apply WaveformADPCM_eqb_equiv.
Qed.

#[local] Instance slotEq_trans : Transitive slotEq.
Proof.
  intros [n u []] [n' u' []] [n'' u'' []]; unfold slotEq, Property_neq; cbn; try done;
    rewrite !negb_false_iff.
  - rewrite !EnvelopeFM_eqb_true. naive_solver congruence.
  - apply LFOFM_eqb_equiv.
  - apply CommandSequence_eqb_equiv.
  - apply WaveformADPCM_eqb_equiv.
Qed.

Lemma slotsEqual_refl m k n :
  wellFormed m → validKind k = true → 0 <= n < 128 → slotsEqual m k n n.
Proof.
  intros Hwf Hk Hn. destruct (lookupZ_is_Some (pools_ m k) n) as [p Hp].
  { unfold size. rewrite (wellFormed_pool _ _ Hwf Hk). lia. }
  exists p, p. done.
Qed.



Lemma validKind_link l : l ∈ linksOf (link_source l) → validKind (link_kind l) = true.
Proof.
  destruct l; try done. cbn [link_source link_kind validKind linksOf]. intros Hl.
  apply bool_decide_eq_true_2.
  destruct p;
    first [ apply (bool_decide_unpack _); vm_compute; exact I
          | exfalso; revert Hl;
            match goal with |- ?P → False => apply (bool_decide_eq_false_1 P) end;
            vm_compute; reflexivity ].
Qed.

(** [similar] is an equivalence among the instruments whose enabled
    references are slot numbers. *)
Lemma similar_refl m a :
  wellFormed m →
  (∀ l, l ∈ linksOf (getSoundSource a) → getLinkEnabled l a = true →
        0 <= getLinkNumber l a < 128) →
  similar m a a.
Proof.
  intros Hwf Hr. split_and!; [done| |done].
  intros l Hl. split; [done|]. intros He. apply slotsEqual_refl; [done| |by apply Hr].
  apply validKind_link. by rewrite (link_source_linksOf _ _ Hl).
Qed.



Lemma allTests_spec (tests : list (Result bool)) :
  Forall (λ t, isOk t = true) tests →
  ∃ r, allTests tests = Ok r ∧ (r = true ↔ Forall (λ t, t = Ok true) tests).
Proof.
  intros Hok. destruct (allTests_total _ Hok) as [r Hr]. exists r. split; [done|].
  rewrite <- allTests_true, Hr. naive_solver.
Qed.

Lemma equalLink_spec m a b l :
  wellFormed m → getSoundSource a = getSoundSource b →
  l ∈ linksOf (getSoundSource a) → inRange a → inRange b →
  ∃ r, equalLink m a b l = Ok r ∧
       (r = true ↔ getLinkEnabled l a = getLinkEnabled l b ∧
                   (getLinkEnabled l a = true →
                    slotsEqual m (link_kind l) (getLinkNumber l a) (getLinkNumber l b))).
Proof.
  intros Hwf Hs Hl Ha Hb. unfold equalLink.
  case_bool_decide as He; cbn [negb]; [|exists false; naive_solver].
  destruct (getLinkEnabled l a) eqn:Hea; [|exists true; naive_solver].
  assert (validKind (link_kind l) = true) as Hk.
  { apply validKind_link. by rewrite (link_source_linksOf _ _ Hl). }
  destruct (lookupZ_is_Some (pools_ m (link_kind l)) (getLinkNumber l a)) as [pa Hpa].
  { unfold size. rewrite (wellFormed_pool _ _ Hwf Hk). by apply Ha. }
  destruct (lookupZ_is_Some (pools_ m (link_kind l)) (getLinkNumber l b)) as [pb Hpb].
  { unfold size. rewrite (wellFormed_pool _ _ Hwf Hk). apply Hb; [by rewrite <- Hs|done]. }
  rewrite (proj2 (idx_Ok _ _ _) Hpa), (proj2 (idx_Ok _ _ _) Hpb).
  eexists. split; [done|]. rewrite negb_true_iff. split.
  - intros Hne. split; [done|]. intros _. by exists pa, pb.
  - intros [_ (pa' & pb' & ? & ? & ?)]; [done|]. by simplify_eq.
Qed.

Lemma elem_of_linksFM l :
  l ∈ linksFM ↔
  l = LEnvFM ∨ l = LLfoFM ∨ (∃ p, p ∈ envFMParams_ ∧ l = LOpSeqFM p)
  ∨ (∃ t, l = LArpFM t) ∨ (∃ t, l = LPtFM t).
Proof.
  split.
  - intros Hl. destruct l;
      try (exfalso; revert Hl;
           match goal with |- ?P → False => apply (bool_decide_eq_false_1 P) end;
           vm_compute; reflexivity); eauto 8.
    right; right; left. exists p. split; [|done].
    apply (validKind_link (LOpSeqFM p)) in Hl. by apply bool_decide_eq_true_1 in Hl.
  - unfold linksFM. rewrite !elem_of_cons, elem_of_app, list_elem_of_fmap.
    intros [?|[?|[(p & ? & ?)|[[t ->]|[t ->]]]]]; [by left|by right; left|..].
    + right; right; left. by exists p.
    + do 3 right. destruct t; apply (bool_decide_unpack _); vm_compute; exact I.
    + do 3 right. destruct t; apply (bool_decide_unpack _); vm_compute; exact I.
Qed.

Lemma equalPropertiesFM_spec m a b :
  wellFormed m → getSoundSource a = FM → getSoundSource b = FM →
  inRange a → inRange b →
  ∃ r, equalPropertiesFM m a b = Ok r ∧ (r = true ↔ similar m a b).
Proof.
  intros Hwf Hsa Hsb Ha Hb.
  assert (∀ l, l ∈ linksFM → ∃ r, equalLink m a b l = Ok r ∧
       (r = true ↔ getLinkEnabled l a = getLinkEnabled l b ∧
                   (getLinkEnabled l a = true →
                    slotsEqual m (link_kind l) (getLinkNumber l a) (getLinkNumber l b))))
    as Hlink.
  { intros l Hl. apply equalLink_spec; [done|congruence|by rewrite Hsa|done..]. }
  unfold equalPropertiesFM.
  edestruct allTests_spec as (r & Hr & Hiff); [|exists r; split; [exact Hr|]].
  { rewrite !Forall_cons, Forall_app, Forall_fmap. split_and!.
    - destruct (Hlink LEnvFM) as (? & -> & _); [apply elem_of_linksFM; auto|done].
    - destruct (Hlink LLfoFM) as (? & -> & _); [apply elem_of_linksFM; auto|done].
    - apply Forall_forall. intros p Hp. cbn.
      destruct (Hlink (LOpSeqFM p)) as (? & -> & _); [apply elem_of_linksFM; eauto 6|done].
    - cbn [flat_map fmOpTypes_ app]. repeat apply Forall_cons_2; try apply Forall_nil_2;
        try done;
        match goal with |- isOk (equalLink _ _ _ ?l) = true =>
          destruct (Hlink l) as (? & -> & _); [apply elem_of_linksFM; eauto 8|done] end. }
  rewrite Hiff. clear Hr Hiff r.
  rewrite !Forall_cons, Forall_app, Forall_fmap.
  split.
  - intros (He & Hf & Ho & Hap). split_and!; [congruence| |].
    + intros l. rewrite Hsa. intros Hl. destruct (Hlink l Hl) as (r & Hr & Hiff).
      apply Hiff. apply elem_of_linksFM in Hl as [->|[->|[(p & Hp & ->)|[[t ->]|[t ->]]]]].
      * congruence.
      * congruence.
      * rewrite Forall_forall in Ho. specialize (Ho p Hp). cbn in Ho. congruence.
      * cbn [flat_map fmOpTypes_ app] in Hap. rewrite !Forall_cons in Hap.
        destruct t; naive_solver congruence.
      * cbn [flat_map fmOpTypes_ app] in Hap. rewrite !Forall_cons in Hap.
        destruct t; naive_solver congruence.
    + intros _ t. cbn [flat_map fmOpTypes_ app] in Hap. rewrite !Forall_cons in Hap.
      destruct t; destruct_and!;
        match goal with H : Ok (bool_decide (getEnvelopeResetEnabled ?t a = _)) = Ok true |- 
            getEnvelopeResetEnabled ?t a = _ =>
          injection H as H; by apply bool_decide_eq_true_1 in H end.
  - intros (_ & Hl & Hres).
    assert (∀ l, l ∈ linksFM → equalLink m a b l = Ok true) as Hall.
    { intros l Hin. destruct (Hlink l Hin) as (r & -> & Hiff). f_equal. apply Hiff.
      apply Hl. by rewrite Hsa. }
    split_and!.
    + apply Hall, elem_of_linksFM; auto.
    + apply Hall, elem_of_linksFM; auto.
    + apply Forall_forall. intros p Hp. cbn. apply Hall, elem_of_linksFM; eauto 6.
    + cbn [flat_map fmOpTypes_ app].
      repeat apply Forall_cons_2; try apply Forall_nil_2;
        first [ apply Hall, elem_of_linksFM; eauto 8
              | f_equal; apply bool_decide_eq_true_2, Hres, Hsa ].
Qed.

Lemma equalProperties_list_spec m a b (links : list Link) :
  wellFormed m → getSoundSource a = getSoundSource b →
  getSoundSource a ≠ FM → linksOf (getSoundSource a) = links →
  inRange a → inRange b →
  ∃ r, allTests (map (equalLink m a b) links) = Ok r ∧ (r = true ↔ similar m a b).
Proof.
  intros Hwf Hs Hfm Hlinks Ha Hb.
  assert (∀ l, l ∈ links → ∃ r, equalLink m a b l = Ok r ∧
       (r = true ↔ getLinkEnabled l a = getLinkEnabled l b ∧
                   (getLinkEnabled l a = true →
                    slotsEqual m (link_kind l) (getLinkNumber l a) (getLinkNumber l b))))
    as Hlink.
  { intros l Hl. apply equalLink_spec; [done..|by rewrite Hlinks|done|done]. }
  edestruct allTests_spec as (r & Hr & Hiff); [|exists r; split; [exact Hr|]].
  { apply Forall_fmap, Forall_forall. intros l Hl. cbn.
    by destruct (Hlink l Hl) as (? & -> & _). }
  rewrite Hiff, Forall_fmap, Forall_forall. unfold similar. rewrite Hlinks. split.
  - intros Hall. split_and!; [done| |done].
    intros l Hl. destruct (Hlink l Hl) as (r' & Hr' & Hiff'). apply Hiff'.
    specialize (Hall l Hl). cbn in Hall. congruence.
  - intros (_ & Hl & _) l Hin. cbn. destruct (Hlink l Hin) as (r' & -> & Hiff').
    f_equal. by apply Hiff', Hl.
Qed.

(** The test of the inner loop is total on stored instruments, and says
    whether they are similar. *)
Lemma sameGroup_spec m i j a b :
  wellFormed m → linksInRange m →
  instOf m i = Some a → instOf m j = Some b →
  ∃ r, sameGroup m i j = Ok r ∧ (r = true ↔ similar m a b).
Proof.
  intros Hwf Hrange Hi Hj. unfold sameGroup.
  assert (∀ n x, instOf m n = Some x → idx (insts_ m) n = Ok (Some x)) as Hidx.
  { intros n x. unfold instOf, idx. by destruct (lookupZ _ _) as [[?|]|]; intros [= ->]. }
  rewrite (Hidx _ _ Hi), (Hidx _ _ Hj).
  pose proof (Hrange _ _ Hi) as Ha. pose proof (Hrange _ _ Hj) as Hb.
  case_bool_decide as Hs; [|exists false; split; [done|]; unfold similar; naive_solver].
  destruct (getSoundSource a) eqn:Hsa.
  - apply equalPropertiesFM_spec; done.
  - apply equalProperties_list_spec; [done|congruence|by rewrite Hsa|by rewrite Hsa|done..].
  - by destruct a.
  - apply equalProperties_list_spec; [done|congruence|by rewrite Hsa|by rewrite Hsa|done..].
Qed.

Lemma joins_similar m i j a b :
  wellFormed m → linksInRange m →
  instOf m i = Some a → instOf m j = Some b →
  joins m i j ↔ similar m a b.
Proof.
  intros Hwf Hrange Hi Hj. unfold joins.
  destruct (sameGroup_spec m i j a b) as (r & -> & Hiff); [done..|].
  rewrite <- Hiff. naive_solver.
Qed.

(** *** The two loops *)



(** *** The stored numbers *)

Lemma entried_from (k : nat) (l : list (option AbstractInstrument)) (i : Z) :
  i ∈ flat_map (λ ni : nat * option AbstractInstrument,
                  match snd ni with Some _ => [Z.of_nat (fst ni)] | None => [] end)
               (imap (λ n inst, ((k + n)%nat, inst)) l)
  ↔ ∃ n x, l !! n = Some (Some x) ∧ i = Z.of_nat (k + n).
Proof.
  revert k. induction l as [|o l IH]; intros k; cbn [imap flat_map].
  { split; [by intros ?%elem_of_nil|by intros (n & x & ? & _)]. }
  rewrite elem_of_app.
  rewrite (imap_ext _ (λ n inst, ((S k + n)%nat, inst))) by (intros; cbn; f_equal; lia).
  rewrite IH. cbn [snd fst]. split.
  - intros [Hi|(n & x & Hn & ->)].
    + destruct o as [x|]; [|by apply elem_of_nil in Hi].
      apply list_elem_of_singleton in Hi as ->. by exists 0%nat, x.
    + exists (S n), x. split; [done|]. lia.
  - intros ([|n] & x & Hn & ->).
    + left. cbn in Hn. injection Hn as ->. by apply list_elem_of_singleton.
    + right. exists n, x. split; [done|]. lia.
Qed.




Lemma same_but_disabled_similar m n a b :
  wellFormed m → linksInRange m → instOf m n = Some a →
  getSoundSource a = getSoundSource b →
  (∀ l, l ∈ linksOf (getSoundSource a) →
        getLinkEnabled l a = getLinkEnabled l b ∧
        (getLinkEnabled l a = true → getLinkNumber l a = getLinkNumber l b)) →
  (∀ t, getEnvelopeResetEnabled t a = getEnvelopeResetEnabled t b) →
  similar m a b.
Proof.
  intros Hwf Hrange Ha Hs Hlinks Hreset. split_and!; [done| |done].
  intros l Hl. destruct (Hlinks l Hl) as [He Hn]. split; [done|].
  intros Hon. rewrite <- (Hn Hon). apply slotsEqual_refl; [done| |by eapply Hrange].
  apply validKind_link. by rewrite (link_source_linksOf _ _ Hl).
Qed.


End Duplicates.

(** ** Counting users and references *)

Lemma count_cons n x l :
  count n (x :: l) = ((if bool_decide (x = n) then 1 else 0) + count n l)%nat.
Proof. unfold count. rewrite filter_cons. by case_decide; case_bool_decide. Qed.

Lemma count_insert_sorted n N l :
  count n (insert_sorted N l) = ((if bool_decide (N = n) then 1 else 0) + count n l)%nat.
Proof.
  induction l as [|x l IH]; cbn [insert_sorted]; [by rewrite count_cons|].
  destruct (N <=? x); rewrite !count_cons, ?IH; lia.
Qed.

Lemma count_remove_one n N l :
  count n (remove_one N l) = (count n l - (if bool_decide (N = n) then 1 else 0))%nat.
Proof.
  induction l as [|x l IH]; cbn [remove_one]; [done|].
  destruct (bool_decide (x = N)) eqn:Hx;
    [apply bool_decide_eq_true_1 in Hx|apply bool_decide_eq_false_1 in Hx];
    rewrite !count_cons, ?IH; repeat case_bool_decide; lia.
Qed.

Lemma count_pos n l : (0 < count n l)%nat ↔ n ∈ l.
Proof.
  induction l as [|x l IH]; [cbn; split; [lia|by intros ?%elem_of_nil]|].
  rewrite count_cons, elem_of_cons. case_bool_decide; subst; [|rewrite <- IH]; 
    naive_solver lia.
Qed.

Lemma count_zero n l : count n l = 0%nat ↔ n ∉ l.
Proof. rewrite <- count_pos. lia. Qed.

Lemma length_filter_ext {A} (p q : A → bool) (l : list A) :
  (∀ x, x ∈ l → p x = q x) → length (filter (λ x, p x) l) = length (filter (λ x, q x) l).
Proof.
  induction l as [|x l IH]; intros Hl; [done|]. rewrite !filter_cons.
  assert (p x = q x) as Hx by (apply Hl; by left).
  specialize (IH (λ y Hy, Hl y (list_elem_of_further _ _ _ Hy))).
  rewrite Hx. case_decide; cbn [length]; lia.
Qed.

(** Two tests that agree but on [a] pass as many elements of a list that
    holds [a] once, but for [a]. *)
Lemma length_filter_change {A} (p q : A → bool) (l : list A) (a : A) :
  NoDup l → a ∈ l → (∀ x, x ∈ l → x ≠ a → p x = q x) →
  (length (filter (λ x, q x) l) + (if p a then 1 else 0)
   = length (filter (λ x, p x) l) + (if q a then 1 else 0))%nat.
Proof.
  induction l as [|x l IH]; intros Hnd Ha Hl; [by apply elem_of_nil in Ha|].
  apply list.NoDup_cons in Hnd as [Hx Hnd]. rewrite !filter_cons.
  apply elem_of_cons in Ha as [->|Ha].
  - assert (length (filter (λ x, p x) l) = length (filter (λ x, q x) l)) as Heq.
    { apply length_filter_ext. intros y Hy. apply Hl; [by right|]. by intros ->. }
    destruct (p x), (q x); cbn [length]; repeat case_decide; cbn [length]; try done; lia.
  - assert (p x = q x) as Hpx by (apply Hl; [by left|by intros ->]).
    specialize (IH Hnd Ha (λ y Hy, Hl y (list_elem_of_further _ _ _ Hy))).
    rewrite Hpx. case_decide; cbn [length]; lia.
Qed.

Lemma length_filter_false {A} (l : list A) :
  length (filter (λ _, false) l) = 0%nat.
Proof. induction l as [|x l IH]; [done|]. rewrite filter_cons. by case_decide. Qed.

Section Counts.
Context `{PropertyClasses}.
Implicit Types m : InstrumentsManager.
Implicit Types i : AbstractInstrument.

Lemma countsRight_pending N m : countsRight m ↔ countsPending N [] m.
Proof.
  unfold countsRight, countsPending, refCountOf, refCount.
  split; intros Hc n k s; rewrite Hc; destruct (instOf m n); by try case_bool_decide.
Qed.

(** A reference changes: the count changes at the slots it named and
    names. *)
Lemma refCountX_change (X X' : list Link) i i' k s l :
  getSoundSource i' = getSoundSource i → l ∈ linksOf (getSoundSource i) →
  (∀ l', l' ∈ linksOf (getSoundSource i) → l' ≠ l →
         pointsAt i' k s l' && negb (bool_decide (l' ∈ X'))
         = pointsAt i k s l' && negb (bool_decide (l' ∈ X))) →
  (refCountX X' i' k s + (if pointsAt i k s l && negb (bool_decide (l ∈ X)) then 1 else 0)
   = refCountX X i k s
     + (if pointsAt i' k s l && negb (bool_decide (l ∈ X')) then 1 else 0))%nat.
Proof.
  intros Hs Hl Hother. unfold refCountX. rewrite Hs.
  pose proof (length_filter_change
                (λ x : Link, pointsAt i k s x && negb (bool_decide (x ∈ X)))
                (λ x : Link, pointsAt i' k s x && negb (bool_decide (x ∈ X')))
                (linksOf (getSoundSource i)) l (NoDup_linksOf _) Hl) as Hc.
  apply Hc. intros l' Hl' Hne. symmetry. by apply Hother.
Qed.

Lemma refCountX_ext (X X' : list Link) i i' k s :
  getSoundSource i' = getSoundSource i →
  (∀ l', l' ∈ linksOf (getSoundSource i) →
         pointsAt i' k s l' && negb (bool_decide (l' ∈ X'))
         = pointsAt i k s l' && negb (bool_decide (l' ∈ X))) →
  refCountX X' i' k s = refCountX X i k s.
Proof.
  intros Hs Hall. unfold refCountX. rewrite Hs.
  pose proof (length_filter_ext
                (λ x : Link, pointsAt i' k s x && negb (bool_decide (x ∈ X')))
                (λ x : Link, pointsAt i k s x && negb (bool_decide (x ∈ X)))
                (linksOf (getSoundSource i))) as Hc.
  apply Hc. intros l' Hl'. by apply Hall.
Qed.

Lemma pointsAt_true i k s l :
  pointsAt i k s l = true ↔
  getLinkEnabled l i = true ∧ link_kind l = k ∧ getLinkNumber l i = s.
Proof.
  unfold pointsAt. rewrite !andb_true_iff, !bool_decide_eq_true. naive_solver.
Qed.

Lemma instOf_range m n i : instOf m n = Some i → 0 <= n < size (insts_ m).
Proof.
  unfold instOf. destruct (lookupZ (insts_ m) n) as [o|] eqn:Ho; [|done].
  intros _. by apply lookupZ_lt in Ho.
Qed.

Lemma instOf_setInsts m N o n :
  0 <= N < size (insts_ m) →
  instOf (setInsts (<[Z.to_nat N := o]> (insts_ m)) m) n
  = if bool_decide (n = N) then o else instOf m n.
Proof.
  intros HN. unfold instOf. cbn [insts_ setInsts].
  rewrite lookupZ_insert by (unfold size in HN; lia).
  rewrite Z2Nat.id by lia. case_bool_decide; [by destruct o|done].
Qed.

Lemma instOf_setPool m k l n : instOf (setPool k l m) n = instOf m n.
Proof. reflexivity. Qed.

Lemma slotUsers_lookup m k s p :
  lookupZ (pools_ m k) s = Some p → slotUsers m k s = users_ p.
Proof. unfold slotUsers. by intros ->. Qed.

(** *** The steps that move a reference in and out of the count *)

(** The instrument is registered for a waiting reference. *)
Lemma pending_register N (X X' : list Link) m i l p :
  countsPending N X m → instOf m N = Some i →
  l ∈ linksOf (getSoundSource i) → l ∈ X → (∀ l', l' ∈ X' ↔ l' ∈ X ∧ l' ≠ l) →
  getLinkEnabled l i = true →
  lookupZ (pools_ m (link_kind l)) (getLinkNumber l i) = Some p →
  countsPending N X'
    (setPool (link_kind l)
       (<[Z.to_nat (getLinkNumber l i) := registerUserInstrument N p]>
          (pools_ m (link_kind l))) m).
Proof.
  intros Hc Hi Hl HX HX' He Hp n k s.
  rewrite (slotUsers_setPool _ _ _ _ _ _ _ Hp), instOf_setPool. specialize (Hc n k s).
  assert (count n (if bool_decide (k = link_kind l ∧ s = getLinkNumber l i)
                   then users_ (registerUserInstrument N p) else slotUsers m k s)
          = ((if bool_decide (N = n) && bool_decide (k = link_kind l ∧ s = getLinkNumber l i)
              then 1 else 0) + count n (slotUsers m k s))%nat) as ->.
  { destruct (decide (k = link_kind l ∧ s = getLinkNumber l i)) as [[-> ->]|Hks].
    - rewrite !(bool_decide_eq_true_2 (_ ∧ _)) by done.
      cbn [users_ registerUserInstrument].
      by rewrite count_insert_sorted, (slotUsers_lookup _ _ _ _ Hp), andb_true_r.
    - rewrite !(bool_decide_eq_false_2 (_ ∧ _)) by done. by rewrite andb_false_r. }
  rewrite Hc. clear Hc. destruct (decide (n = N)) as [->|HnN].
  - rewrite Hi, !(bool_decide_eq_true_2 (N = N)) by done. cbn [andb].
    pose proof (refCountX_change X X' i i k s l eq_refl Hl) as Hch.
    rewrite (bool_decide_eq_true_2 (l ∈ X)), andb_false_r in Hch by done.
    rewrite (bool_decide_eq_false_2 (l ∈ X')), andb_true_r in Hch
      by (rewrite HX'; naive_solver).
    rewrite Nat.add_0_r in Hch. rewrite Hch.
    + unfold pointsAt. rewrite He. cbn [andb].
      repeat case_bool_decide; cbn [andb]; naive_solver lia.
    + intros l' Hl' Hne. do 2 f_equal. apply bool_decide_ext. rewrite HX'. naive_solver.
  - rewrite (bool_decide_eq_false_2 (N = n)), (bool_decide_eq_false_2 (n = N)) by done.
    done.
Qed.

(** A counted reference loses its registration and waits. *)
Lemma pending_deregister N (X X' : list Link) m i l p :
  countsPending N X m → instOf m N = Some i →
  l ∈ linksOf (getSoundSource i) → l ∉ X → (∀ l', l' ∈ X' ↔ l' = l ∨ l' ∈ X) →
  getLinkEnabled l i = true →
  lookupZ (pools_ m (link_kind l)) (getLinkNumber l i) = Some p →
  countsPending N X'
    (setPool (link_kind l)
       (<[Z.to_nat (getLinkNumber l i) := deregisterUserInstrument N p]>
          (pools_ m (link_kind l))) m).
Proof.
  intros Hc Hi Hl HX HX' He Hp n k s.
  rewrite (slotUsers_setPool _ _ _ _ _ _ _ Hp), instOf_setPool. specialize (Hc n k s).
  assert (count n (if bool_decide (k = link_kind l ∧ s = getLinkNumber l i)
                   then users_ (deregisterUserInstrument N p) else slotUsers m k s)
          = (count n (slotUsers m k s)
             - (if bool_decide (N = n) && bool_decide (k = link_kind l ∧ s = getLinkNumber l i)
                then 1 else 0))%nat) as ->.
  { destruct (decide (k = link_kind l ∧ s = getLinkNumber l i)) as [[-> ->]|Hks].
    - rewrite !(bool_decide_eq_true_2 (_ ∧ _)) by done.
      cbn [users_ deregisterUserInstrument].
      by rewrite count_remove_one, (slotUsers_lookup _ _ _ _ Hp), andb_true_r.
    - rewrite !(bool_decide_eq_false_2 (_ ∧ _)) by done. rewrite andb_false_r. lia. }
  rewrite Hc. clear Hc. destruct (decide (n = N)) as [->|HnN].
  - rewrite Hi, !(bool_decide_eq_true_2 (N = N)) by done. cbn [andb].
    pose proof (refCountX_change X X' i i k s l eq_refl Hl) as Hch.
    rewrite (bool_decide_eq_false_2 (l ∈ X)), andb_true_r in Hch by done.
    rewrite (bool_decide_eq_true_2 (l ∈ X')), andb_false_r in Hch
      by (rewrite HX'; naive_solver).
    rewrite Nat.add_0_r in Hch. rewrite <- Hch.
    + unfold pointsAt. rewrite He. cbn [andb].
      repeat case_bool_decide; cbn [andb]; naive_solver lia.
    + intros l' Hl' Hne. do 2 f_equal. apply bool_decide_ext. rewrite HX'. naive_solver.
  - rewrite (bool_decide_eq_false_2 (N = n)), (bool_decide_eq_false_2 (n = N)) by done.
    cbn [andb]. lia.
Qed.

(** The instrument changes in references that wait, or not at all in
    its references. *)
Lemma pending_putInst N (X : list Link) m i i' :
  countsPending N X m → instOf m N = Some i →
  getSoundSource i' = getSoundSource i →
  (∀ l, l ∈ linksOf (getSoundSource i) → l ∉ X →
        getLinkEnabled l i' = getLinkEnabled l i ∧ getLinkNumber l i' = getLinkNumber l i) →
  countsPending N X (setInsts (<[Z.to_nat N := Some i']> (insts_ m)) m).
Proof.
  intros Hc Hi Hs Hsame n k s. rewrite slotUsers_setInsts, Hc.
  rewrite instOf_setInsts by (by eapply instOf_range).
  case_bool_decide as HnN; [|done]. subst n. rewrite Hi. symmetry.
  apply refCountX_ext; [done|]. intros l Hl.
  destruct (decide (l ∈ X)) as [Hin|Hout].
  - by rewrite (bool_decide_eq_true_2 _ Hin), !andb_false_r.
  - destruct (Hsame l Hl Hout) as [He Hn]. unfold pointsAt. by rewrite He, Hn.
Qed.

(** References that are not in force may wait or not. *)
Lemma pending_ghost N (X X' : list Link) m :
  countsPending N X m →
  (∀ i l, instOf m N = Some i → l ∈ linksOf (getSoundSource i) →
          getLinkEnabled l i = true → l ∈ X' ↔ l ∈ X) →
  countsPending N X' m.
Proof.
  intros Hc HX n k s. rewrite Hc. destruct (instOf m n) as [i|] eqn:Hi; [|done].
  case_bool_decide as HnN; [|done]. subst n.
  apply refCountX_ext; [done|]. intros l Hl. unfold pointsAt.
  destruct (getLinkEnabled l i) eqn:He; [|done]. cbn [andb]. do 2 f_equal.
  apply bool_decide_ext. symmetry. by apply (HX i).
Qed.

Lemma pending_sameUsers N (X : list Link) m m' :
  sameUsers m m' → countsPending N X m → countsPending N X m'.
Proof.
  intros Hs Hc n k s.
  by rewrite (sameUsers_slotUsers _ _ _ _ Hs), (sameUsers_instOf _ _ _ Hs).
Qed.

(** The instrument goes when all its references wait. *)
Lemma pending_remove N (X : list Link) m i :
  countsPending N X m → instOf m N = Some i →
  (∀ l, l ∈ linksOf (getSoundSource i) → getLinkEnabled l i = true → l ∈ X) →
  countsRight (setInsts (<[Z.to_nat N := None]> (insts_ m)) m).
Proof.
  intros Hc Hi HX n k s. unfold refCountOf. rewrite slotUsers_setInsts, Hc.
  rewrite instOf_setInsts by (by eapply instOf_range).
  case_bool_decide as HnN; [|by destruct (instOf m n)]. subst n. rewrite Hi.
  unfold refCountX. rewrite (length_filter_ext _ (λ _, false)).
  - by rewrite length_filter_false.
  - intros l Hl. unfold pointsAt. destruct (getLinkEnabled l i) eqn:He; [|done].
    by rewrite (bool_decide_eq_true_2 _ (HX l Hl He)), andb_false_r.
Qed.

End Counts.

(** ** What a call does to the counts *)

Section Calls.
Context `{PropertyClasses}.
Implicit Types m : InstrumentsManager.
Implicit Types i : AbstractInstrument.

Lemma valid_link_in l : validKind (link_kind l) = true → l ∈ linksOf (link_source l).
Proof.
  destruct l; cbn [link_kind link_source validKind linksOf];
    try (intros _; unfold linksFM, linksSSG, linksADPCM;
         repeat first [ apply list_elem_of_here | apply list_elem_of_further ]; fail).
  - intros Hp%bool_decide_eq_true_1. unfold linksFM. do 2 right.
    apply elem_of_app. left. by apply list_elem_of_fmap_2.
  - intros _. unfold linksFM. do 2 right. apply elem_of_app. right.
    apply list_elem_of_In, in_flat_map. exists t. split; [destruct t; cbn; tauto|by left].
  - intros _. unfold linksFM. do 2 right. apply elem_of_app. right.
    apply list_elem_of_In, in_flat_map. exists t.
    split; [destruct t; cbn; tauto|by right; left].
Qed.

Lemma instAt_Ok src n m i m' :
  instAt src n m = Ok (i, m') →
  m' = m ∧ instOf m n = Some i ∧ getSoundSource i = src.
Proof.
  unfold instAt. rewrite (bind_run _ _ _ _ _ (gets_run _ _)).
  intros (o & m1 & [Ho%at_Ok ->]%lift_Ok & [Hd ->]%lift_Ok)%bind_Ok.
  unfold derefAs in Hd. destruct o as [i'|]; [|done]. case_bool_decide; [|done].
  injection Hd as ->. unfold instOf. by rewrite Ho.
Qed.

Lemma checkLink_Ok l m x m' :
  checkLink l m = Ok (x, m') → m' = m ∧ validKind (link_kind l) = true.
Proof. unfold checkLink. destruct (validKind _); [by intros [= _ <-]|done]. Qed.

Lemma putInst_run n i m :
  putInst n i m = Ok (tt, setInsts (<[Z.to_nat n := Some i]> (insts_ m)) m).
Proof. reflexivity. Qed.

Lemma modifyInst_Ok n f m m' :
  modifyInst n f m = Ok (tt, m') →
  ∃ i, instOf m n = Some i ∧ m' = setInsts (<[Z.to_nat n := Some (f i)]> (insts_ m)) m.
Proof.
  unfold modifyInst. rewrite (bind_run _ _ _ _ _ (gets_run _ _)).
  intros (o & m1 & [Ho%idx_Ok ->]%lift_Ok & Hr)%bind_Ok.
  apply bind_Ok in Hr as (i & m2 & [Hd ->]%lift_Ok & Hr).
  destruct o as [i'|]; [|done]. injection Hd as ->.
  rewrite putInst_run in Hr. injection Hr as <-.
  exists i. split; [|done]. unfold instOf. by rewrite Ho.
Qed.

(** [setInstrument{X}Enabled] with a flag that changes. *)
Lemma setInstrumentPropertyEnabled_counts l N e m m' :
  countsRight m → fixedLink l = false →
  (∀ i, instOf m N = Some i → getLinkEnabled l i = negb e) →
  setInstrumentPropertyEnabled l N e m = Ok (tt, m') →
  countsRight m' ∧
  ∃ i, instOf m N = Some i ∧ getSoundSource i = link_source l ∧
       instOf m' N = Some (setLinkEnabled l e i).
Proof.
  intros Hc Hfix Hflag Hrun. unfold setInstrumentPropertyEnabled in Hrun.
  apply bind_Ok in Hrun as (i & m0 & (-> & Hi & Hs)%instAt_Ok & Hrun).
  apply bind_Ok in Hrun as (x & m0 & (-> & Hk)%checkLink_Ok & Hrun).
  cbv zeta in Hrun. rewrite (bind_run _ _ _ _ _ (putInst_run _ _ _)) in Hrun.
  pose proof (instOf_range _ _ _ Hi) as HN.
  assert (l ∈ linksOf (getSoundSource i)) as Hl by (rewrite Hs; by apply valid_link_in).
  specialize (Hflag i Hi).
  set (i' := setLinkEnabled l e i) in *.
  assert (getSoundSource i' = getSoundSource i) as Hs'
    by apply getSoundSource_setLinkEnabled.
  assert (getLinkNumber l i' = getLinkNumber l i) as Hnum
    by apply getLinkNumber_setLinkEnabled.
  assert (getLinkEnabled l i' = e) as Hen
    by (by apply getLinkEnabled_setLinkEnabled_same).
  assert (∀ l', l' ≠ l → getLinkEnabled l' i' = getLinkEnabled l' i ∧
                          getLinkNumber l' i' = getLinkNumber l' i) as Hother.
  { intros l' Hne. split; [by apply getLinkEnabled_setLinkEnabled_other|].
    apply getLinkNumber_setLinkEnabled. }
  apply (countsRight_pending N) in Hc.
  assert (instOf m' N = Some i') as Hi'.
  { destruct e; apply updateAt_Ok in Hrun as (_ & p & _ & ->);
      rewrite instOf_setPool, instOf_setInsts by done; by rewrite bool_decide_eq_true_2. }
  split; [|by exists i]. apply (countsRight_pending N).
  destruct e; apply updateAt_Ok in Hrun as (_ & p & Hp & ->);
    cbn [pools_ setInsts] in Hp |- *.
  - (* the reference waits, is put in force, and is registered *)
    assert (countsPending N [l] m) as Hc1.
    { apply (pending_ghost N [] [l] m Hc). intros i0 l0 Hi0 _ He0.
      assert (i0 = i) as -> by congruence.
      split; [intros ->%list_elem_of_singleton|by intros ?%elem_of_nil].
      rewrite Hflag in He0. done. }
    assert (countsPending N [l] (setInsts (<[Z.to_nat N := Some i']> (insts_ m)) m)) as Hc2.
    { apply (pending_putInst N [l] m i i' Hc1 Hi Hs').
      intros l' _ Hne. apply Hother. set_solver. }
    refine (pending_register N [l] [] _ i' l p Hc2 _ _ _ _ Hen Hp).
    + rewrite instOf_setInsts by done. by rewrite bool_decide_eq_true_2.
    + by rewrite Hs'.
    + set_solver.
    + set_solver.
  - (* the registration goes, the flag is cleared, and nothing waits *)
    rewrite Hnum in Hp |- *.
    assert (getLinkEnabled l i = true) as He by done.
    assert (countsPending N [l]
              (setPool (link_kind l)
                 (<[Z.to_nat (getLinkNumber l i) := deregisterUserInstrument N p]>
                    (pools_ m (link_kind l))) m)) as Hc1.
    { refine (pending_deregister N [] [l] m i l p Hc Hi Hl _ _ He Hp); set_solver. }
    assert (countsPending N [l]
              (setInsts (<[Z.to_nat N := Some i']> (insts_ m))
                 (setPool (link_kind l)
                    (<[Z.to_nat (getLinkNumber l i) := deregisterUserInstrument N p]>
                       (pools_ m (link_kind l))) m))) as Hc2.
    { apply (pending_putInst N [l] _ i i' Hc1 Hi Hs').
      intros l' _ Hne. apply Hother. set_solver. }
    refine (pending_ghost N [l] [] _ Hc2 _).
    intros i0 l0 Hi0 _ He0.
    rewrite (instOf_setInsts (setPool _ _ m)) in Hi0 by done.
    rewrite bool_decide_eq_true_2 in Hi0 by done. injection Hi0 as <-.
    split; [by intros ?%elem_of_nil|intros ->%list_elem_of_singleton].
    rewrite Hen in He0. done.
Qed.

(** [setInstrument{X}]: the reference moves to slot [num]. *)
Lemma setInstrumentProperty_counts l N num m m' :
  countsRight m →
  setInstrumentProperty l N num m = Ok (tt, m') →
  countsRight m' ∧
  ∃ i, instOf m N = Some i ∧ getSoundSource i = link_source l ∧
       instOf m' N = Some (setLinkNumber l num i).
Proof.
  intros Hc Hrun. unfold setInstrumentProperty in Hrun.
  apply bind_Ok in Hrun as (i & m0 & (-> & Hi & Hs)%instAt_Ok & Hrun).
  apply bind_Ok in Hrun as (x & m0 & (-> & Hk)%checkLink_Ok & Hrun).
  pose proof (instOf_range _ _ _ Hi) as HN.
  assert (l ∈ linksOf (getSoundSource i)) as Hl by (rewrite Hs; by apply valid_link_in).
  set (i' := setLinkNumber l num i) in *.
  assert (getSoundSource i' = getSoundSource i) as Hs'
    by apply getSoundSource_setLinkNumber.
  assert (getLinkNumber l i' = num) as Hnum
    by (by apply getLinkNumber_setLinkNumber_same).
  assert (∀ l', getLinkEnabled l' i' = getLinkEnabled l' i) as Hen
    by (intros; apply getLinkEnabled_setLinkNumber).
  assert (∀ l', l' ≠ l → getLinkEnabled l' i' = getLinkEnabled l' i ∧
                          getLinkNumber l' i' = getLinkNumber l' i) as Hother.
  { intros l' Hne. split; [done|]. by apply getLinkNumber_setLinkNumber_other. }
  apply (countsRight_pending N) in Hc.
  apply bind_Ok in Hrun as ([] & m2 & Hmove & Hrun).
  rewrite putInst_run in Hrun. injection Hrun as <-.
  assert (insts_ m2 = insts_ m) as Hins.
  { destruct (getLinkEnabled l i).
    - apply bind_Ok in Hmove as ([] & m1 & (_ & p0 & _ & ->)%updateAt_Ok & Hmove).
      by apply updateAt_Ok in Hmove as (_ & p1 & _ & ->).
    - by injection Hmove as <-. }
  split.
  2:{ exists i. split_and!; [done..|]. unfold instOf. cbn [insts_ setInsts].
      rewrite Hins, lookupZ_insert by (unfold size in HN; lia).
      by rewrite Z2Nat.id, bool_decide_eq_true_2 by lia. }
  apply (countsRight_pending N). rewrite Hins.
  destruct (getLinkEnabled l i) eqn:He.
  - apply bind_Ok in Hmove as ([] & m1 & (_ & p0 & Hp0 & ->)%updateAt_Ok & Hmove).
    apply updateAt_Ok in Hmove as (_ & p1 & Hp1 & ->).
    set (m1 := setPool (link_kind l) (<[Z.to_nat (getLinkNumber l i) :=
                 deregisterUserInstrument N p0]> (pools_ m (link_kind l))) m) in *.
    assert (countsPending N [l] m1) as Hc1.
    { refine (pending_deregister N [] [l] m i l p0 Hc Hi Hl _ _ He Hp0); set_solver. }
    assert (countsPending N [l] (setInsts (<[Z.to_nat N := Some i']> (insts_ m)) m1)) as Hc2.
    { apply (pending_putInst N [l] m1 i i' Hc1 Hi Hs').
      intros l' _ Hne. apply Hother. set_solver. }
    assert (instOf (setInsts (<[Z.to_nat N := Some i']> (insts_ m)) m1) N = Some i') as Hi'.
    { rewrite (instOf_setInsts m1) by done. by rewrite bool_decide_eq_true_2. }
    assert (getLinkEnabled l i' = true) as He' by (by rewrite Hen).
    pose proof (pending_register N [l] [] _ i' l p1 Hc2 Hi') as Hc3.
    rewrite Hnum, Hs' in Hc3.
    exact (Hc3 Hl ltac:(set_solver) ltac:(set_solver) He' Hp1).
  - injection Hmove as <-.
    assert (countsPending N [l] m) as Hc1.
    { apply (pending_ghost N [] [l] m Hc). intros i0 l0 Hi0 _ He0.
      assert (i0 = i) as -> by congruence.
      split; [intros ->%list_elem_of_singleton|by intros ?%elem_of_nil]. congruence. }
    assert (countsPending N [l] (setInsts (<[Z.to_nat N := Some i']> (insts_ m)) m)) as Hc2.
    { apply (pending_putInst N [l] m i i' Hc1 Hi Hs').
      intros l' _ Hne. apply Hother. set_solver. }
    refine (pending_ghost N [l] [] _ Hc2 _).
    intros i0 l0 Hi0 _ He0. rewrite instOf_setInsts in Hi0 by done.
    rewrite bool_decide_eq_true_2 in Hi0 by done. injection Hi0 as <-.
    split; [by intros ?%elem_of_nil|intros ->%list_elem_of_singleton]. congruence.
Qed.

(** *** What a call leaves alone *)

Lemma touchesOnly_refl N m : touchesOnly N m m.
Proof. by split_and!. Qed.

Lemma touchesOnly_trans N m1 m2 m3 :
  touchesOnly N m1 m2 → touchesOnly N m2 m3 → touchesOnly N m1 m3.
Proof.
  intros (Hf & Hl & Hi & Ho & Hc) (Hf' & Hl' & Hi' & Ho' & Hc'). split_and!.
  - congruence.
  - intros k. by rewrite Hl'.
  - congruence.
  - intros n Hn. by rewrite Ho', Ho.
  - intros n k s Hn. by rewrite Hc', Hc.
Qed.

Lemma touchesOnly_wellFormed N m m' : touchesOnly N m m' → wellFormed m → wellFormed m'.
Proof.
  intros (_ & Hl & Hi & _) [Hwi Hwp]. split; [congruence|]. intros k. by rewrite Hl.
Qed.

Lemma touchesOnly_exclusive N m m' k s :
  touchesOnly N m m' → exclusive N k s m → exclusive N k s m'.
Proof.
  intros (_ & _ & _ & _ & Hc) Hex n Hn.
  destruct (decide (n = N)) as [|Hne]; [done|].
  apply Hex. apply count_pos. rewrite <- Hc by done. by apply count_pos.
Qed.

Lemma touchesOnly_sameUsers N m m' : sameUsers m m' → touchesOnly N m m'.
Proof.
  intros Hs. pose proof Hs as (Hi & Hf & Hu). split_and!; [done| |by rewrite Hi|..].
  - intros k. by apply sameUsers_length.
  - intros n _. by apply sameUsers_instOf.
  - intros n k s _. by rewrite (sameUsers_slotUsers _ _ _ _ Hs).
Qed.

Lemma touchesOnly_setPool N m k s p p' :
  lookupZ (pools_ m k) s = Some p →
  (∀ n, n ≠ N → count n (users_ p') = count n (users_ p)) →
  touchesOnly N m (setPool k (<[Z.to_nat s := p']> (pools_ m k)) m).
Proof.
  intros Hp Hu. split_and!; [done| |done|done|].
  - intros k'. apply length_setPool.
  - intros n k' s' Hn.
    rewrite (slotUsers_setPool m k s p (λ _, p') k' s' Hp).
    case_bool_decide as Hks; [|done]. destruct Hks as [-> ->].
    rewrite (slotUsers_lookup _ _ _ _ Hp). by apply Hu.
Qed.

Lemma touchesOnly_setInsts N m o :
  0 <= N → touchesOnly N m (setInsts (<[Z.to_nat N := o]> (insts_ m)) m).
Proof.
  intros HN. split_and!; [done|done|apply length_insert| |done].
  intros n Hn. unfold instOf, lookupZ. cbn [insts_ setInsts].
  destruct (0 <=? n) eqn:H0; [|done]. apply Z.leb_le in H0.
  rewrite list_lookup_insert_ne by lia. done.
Qed.

Lemma cloneProperty_Ok k srcNum m n m' :
  cloneProperty k srcNum m = Ok (n, m') →
  validKind k = true ∧ sameUsers m m' ∧
  (n = size (pools_ m k) ∨ (0 <= n < size (pools_ m k) ∧ slotUsers m' k n = [])).
Proof.
  unfold cloneProperty. intros (l & m1 & (Hk & -> & ->)%pool_Ok & Hr)%bind_Ok.
  split; [done|].
  destruct (find_if_not isUserInstrument (pools_ m k)) as [c|] eqn:Hf.
  - apply bind_Ok in Hr as (src & m1 & [Hsrc%at_Ok ->]%lift_Ok & Hr).
    rewrite (bind_run _ _ _ _ _ (modify_run _ _)) in Hr. injection Hr as <- <-.
    apply find_if_not_Some in Hf as (p & Hp & Hu & _).
    assert (users_ p = []) as Hnil.
    { unfold isUserInstrument in Hu. by destruct (users_ p). }
    pose proof (lookup_lt_Some _ _ _ Hp) as Hlt.
    split.
    + split_and!; [done..|]. intros k'. rewrite pools_setPool.
      case_decide as Hk'; [|done]. subst k'. rewrite list_fmap_insert.
      cbn [users_ setNumber clone clearUserInstruments].
      rewrite <- Hnil. apply list_insert_id. by rewrite list_lookup_fmap, Hp.
    + right. split; [unfold size; lia|].
      unfold slotUsers. rewrite pools_setPool, decide_True by done.
      rewrite lookupZ_of_nat, list_lookup_insert_eq by done. done.
  - injection Hr as <- <-. split; [apply sameUsers_refl|by left].
Qed.

(** The steps out of which the calls for instrument [N] are made. *)
Lemma pres_touchesOnly_updateAt_register N m0 k s :
  pres (touchesOnly N m0) (updateAt k s (registerUserInstrument N)).
Proof.
  intros m [] m' (_ & p & Hp & ->)%updateAt_Ok Ht.
  eapply touchesOnly_trans; [done|]. apply touchesOnly_setPool with p; [done|].
  intros n Hn. cbn [users_ registerUserInstrument]. rewrite count_insert_sorted.
  by rewrite bool_decide_eq_false_2.
Qed.

Lemma pres_touchesOnly_updateAt_deregister N m0 k s :
  pres (touchesOnly N m0) (updateAt k s (deregisterUserInstrument N)).
Proof.
  intros m [] m' (_ & p & Hp & ->)%updateAt_Ok Ht.
  eapply touchesOnly_trans; [done|]. apply touchesOnly_setPool with p; [done|].
  intros n Hn. cbn [users_ deregisterUserInstrument]. rewrite count_remove_one.
  rewrite bool_decide_eq_false_2 by done. lia.
Qed.

Lemma pres_touchesOnly_updateIdx_register N m0 k s :
  pres (touchesOnly N m0) (updateIdx k s (registerUserInstrument N)).
Proof.
  intros m [] m' (_ & p & Hp & ->)%updateIdx_Ok Ht.
  eapply touchesOnly_trans; [done|]. apply touchesOnly_setPool with p; [done|].
  intros n Hn. cbn [users_ registerUserInstrument]. rewrite count_insert_sorted.
  by rewrite bool_decide_eq_false_2.
Qed.

Lemma pres_touchesOnly_updateIdx_deregister N m0 k s :
  pres (touchesOnly N m0) (updateIdx k s (deregisterUserInstrument N)).
Proof.
  intros m [] m' (_ & p & Hp & ->)%updateIdx_Ok Ht.
  eapply touchesOnly_trans; [done|]. apply touchesOnly_setPool with p; [done|].
  intros n Hn. cbn [users_ deregisterUserInstrument]. rewrite count_remove_one.
  rewrite bool_decide_eq_false_2 by done. lia.
Qed.

Lemma pres_touchesOnly_putInst N m0 i :
  0 <= N → pres (touchesOnly N m0) (putInst N i).
Proof.
  intros HN m [] m' [= <-] Ht.
  eapply touchesOnly_trans; [done|]. by apply touchesOnly_setInsts.
Qed.

Lemma pres_touchesOnly_storeInst N m0 i :
  pres (touchesOnly N m0) (storeInst N i).
Proof.
  intros m [] m' [HN ->]%storeInst_Ok Ht.
  eapply touchesOnly_trans; [done|]. apply touchesOnly_setInsts. lia.
Qed.

Lemma pres_touchesOnly_cloneProperty N m0 k s :
  pres (touchesOnly N m0) (cloneProperty k s).
Proof.
  intros m n m' (_ & Hs & _)%cloneProperty_Ok Ht.
  eapply touchesOnly_trans; [done|]. by apply touchesOnly_sameUsers.
Qed.

Lemma pres_touchesOnly_firstAssignableOrLast N m0 k :
  pres (touchesOnly N m0) (firstAssignableOrLast k).
Proof.
  intros m n m' Hr Ht. unfold firstAssignableOrLast in Hr.
  apply bind_Ok in Hr as (n0 & m1 & Hf & Hr).
  pose proof (findFirstAssignable_Ok _ _ _ _ Hf) as Hk.
  rewrite findFirstAssignable_run in Hf by done. injection Hf as <- <-.
  apply bind_Ok in Hr as (l & m2 & (_ & -> & ->)%pool_Ok & [= _ <-]).
  eapply touchesOnly_trans; [done|]. apply touchesOnly_sameUsers, afterAssign_sameUsers.
Qed.

End Calls.

#[global] Hint Resolve pres_touchesOnly_updateAt_register
  pres_touchesOnly_updateAt_deregister pres_touchesOnly_updateIdx_register
  pres_touchesOnly_updateIdx_deregister pres_touchesOnly_putInst
  pres_touchesOnly_storeInst pres_touchesOnly_cloneProperty
  pres_touchesOnly_firstAssignableOrLast : presdb.

Section Frames.
Context `{PropertyClasses}.
Implicit Types m : InstrumentsManager.

Ltac touch_mod :=
  let m := fresh "m" in let Hm := fresh "Hm" in
  intros m Hm; eapply touchesOnly_trans; [exact Hm|];
  first [ by apply touchesOnly_setInsts | apply touchesOnly_refl ].

Lemma pres_touchesOnly_setInstrumentPropertyEnabled N m0 l e :
  0 <= N → pres (touchesOnly N m0) (setInstrumentPropertyEnabled l N e).
Proof. intros HN. pres_walk_with touch_mod. Qed.

Lemma pres_touchesOnly_setInstrumentProperty N m0 l num :
  0 <= N → pres (touchesOnly N m0) (setInstrumentProperty l N num).
Proof. intros HN. pres_walk_with touch_mod. Qed.

Lemma pres_touchesOnly_modifyInst N m0 f :
  0 <= N → pres (touchesOnly N m0) (modifyInst N f).
Proof. intros HN. pres_walk_with touch_mod. Qed.

Lemma pres_touchesOnly_setEnvelopeReset N m0 t e :
  0 <= N → pres (touchesOnly N m0) (setInstrumentFMEnvelopeResetEnabled N t e).
Proof. intros HN. pres_walk_with touch_mod. Qed.

Lemma pres_touchesOnly_removeInstrument N m0 :
  0 <= N → pres (touchesOnly N m0) (removeInstrument N).
Proof. intros HN. pres_walk_with touch_mod. Qed.

Lemma pres_touchesOnly_addInstrument N m0 source name :
  pres (touchesOnly N m0) (addInstrument N source name).
Proof. pres_walk_with touch_mod. Qed.

End Frames.

#[global] Hint Resolve pres_touchesOnly_setInstrumentPropertyEnabled
  pres_touchesOnly_setInstrumentProperty pres_touchesOnly_modifyInst
  pres_touchesOnly_setEnvelopeReset pres_touchesOnly_addInstrument : presdb.

Section Frames2.
Context `{PropertyClasses}.
Implicit Types m : InstrumentsManager.

Ltac touch_mod :=
  let m := fresh "m" in let Hm := fresh "Hm" in
  intros m Hm; eapply touchesOnly_trans; [exact Hm|];
  first [ by apply touchesOnly_setInsts | apply touchesOnly_refl ].

Lemma pres_touchesOnly_cloneInstrument N m0 r :
  0 <= N → pres (touchesOnly N m0) (cloneInstrument N r).
Proof. intros HN. pres_walk_with touch_mod. Qed.

Lemma pres_touchesOnly_deepCloneInstrument N m0 r :
  0 <= N → pres (touchesOnly N m0) (deepCloneInstrument N r).
Proof. intros HN. pres_walk_with touch_mod. Qed.

End Frames2.

Section Calls2.
Context `{PropertyClasses}.
Implicit Types m : InstrumentsManager.
Implicit Types i : AbstractInstrument.

(** The loop of [removeInstrument]: the references in force lose their
    registrations one by one. *)
Lemma remove_loop N i (ls : list Link) : ∀ (X : list Link) m m',
  NoDup ls → (∀ l, l ∈ ls → l ∈ linksOf (getSoundSource i) ∧ l ∉ X) →
  countsPending N X m → instOf m N = Some i →
  forM_ ls (λ l,
    if getLinkEnabled l i
    then updateAt (link_kind l) (getLinkNumber l i) (deregisterUserInstrument N)
    else mret tt) m = Ok (tt, m') →
  ∃ X' : list Link,
    countsPending N X' m' ∧ insts_ m' = insts_ m ∧
    (∀ l, l ∈ X ∨ (l ∈ ls ∧ getLinkEnabled l i = true) → l ∈ X').
Proof.
  induction ls as [|l ls IH]; intros X m m' Hnd Hls Hc Hi Hrun.
  { injection Hrun as <-. exists X. split_and!; [done..|]. set_solver. }
  apply list.NoDup_cons in Hnd as [Hl Hnd]. cbn [forM_] in Hrun.
  apply bind_Ok in Hrun as ([] & m1 & Hstep & Hrun).
  destruct (Hls l) as [Hin HX]; [by left|].
  destruct (getLinkEnabled l i) eqn:He.
  - apply updateAt_Ok in Hstep as (_ & p & Hp & ->).
    assert (countsPending N (l :: X)
              (setPool (link_kind l)
                 (<[Z.to_nat (getLinkNumber l i) := deregisterUserInstrument N p]>
                    (pools_ m (link_kind l))) m)) as Hc1.
    { refine (pending_deregister N X (l :: X) m i l p Hc Hi Hin HX _ He Hp). set_solver. }
    assert (∀ l', l' ∈ ls → l' ∈ linksOf (getSoundSource i) ∧ l' ∉ l :: X) as Hls'.
    { intros l' Hl'. destruct (Hls l') as [? ?]; [by right|]. split; [done|].
      set_solver. }
    destruct (IH (l :: X) _ m' Hnd Hls' Hc1 Hi Hrun) as (X' & Hc' & Hins & HX').
    exists X'. split_and!; [done|done|]. intros l' [?|[[->|?]%elem_of_cons ?]];
      apply HX'; set_solver.
  - injection Hstep as <-.
    assert (∀ l', l' ∈ ls → l' ∈ linksOf (getSoundSource i) ∧ l' ∉ X) as Hls'
      by (intros l' Hl'; apply Hls; by right).
    destruct (IH X m m' Hnd Hls' Hc Hi Hrun) as (X' & Hc' & Hins & HX').
    exists X'. split_and!; [done|done|].
    intros l' [?|[[->|?]%elem_of_cons He']]; [apply HX'; by left|congruence|].
    apply HX'. by right.
Qed.

Lemma removeInstrument_counts N m i m' :
  countsRight m → removeInstrument N m = Ok (i, m') →
  countsRight m' ∧ instOf m N = Some i ∧ instOf m' N = None.
Proof.
  intros Hc Hrun. unfold removeInstrument in Hrun.
  rewrite (bind_run _ _ _ _ _ (gets_run _ _)) in Hrun.
  apply bind_Ok in Hrun as (o & m0 & [Ho%at_Ok ->]%lift_Ok & Hrun).
  apply bind_Ok in Hrun as (inst & m0 & [Hd ->]%lift_Ok & Hrun).
  destruct o as [i0|]; [|done]. injection Hd as ->.
  assert (instOf m N = Some inst) as Hi by (unfold instOf; by rewrite Ho).
  apply bind_Ok in Hrun as ([] & m1 & Hloop & Hrun).
  rewrite (bind_run _ _ _ _ _ (modify_run _ _)) in Hrun. injection Hrun as <- <-.
  apply (countsRight_pending N) in Hc.
  assert (∀ l, l ∈ linksOf (getSoundSource inst) →
               l ∈ linksOf (getSoundSource inst) ∧ l ∉ ([] : list Link)) as Hls
    by set_solver.
  destruct (remove_loop N inst _ [] m m1 (NoDup_linksOf _) Hls Hc Hi Hloop)
    as (X' & Hc' & Hins & HX').
  pose proof (instOf_range _ _ _ Hi) as HN.
  assert (instOf m1 N = Some inst) as Hi1 by (unfold instOf in *; by rewrite Hins).
  split_and!; [|done|].
  - apply (pending_remove N X' m1 inst Hc' Hi1). intros l Hl He. apply HX'. by right.
  - rewrite instOf_setInsts by (unfold size in *; by rewrite Hins).
    by rewrite bool_decide_eq_true_2.
Qed.

End Calls2.

Section Calls3.
Context `{PropertyClasses}.
Implicit Types m : InstrumentsManager.
Implicit Types i : AbstractInstrument.

(** The one reference of a new instrument that is in force. *)
Lemma fixedLink_unique source l :
  l ∈ linksOf source → fixedLink l = true → fixedKind source = Some (link_kind l).
Proof. destruct l; try done; by intros <-%link_source_linksOf. Qed.

Lemma fixedKind_link source k :
  fixedKind source = Some k →
  ∃ l, l ∈ linksOf source ∧ fixedLink l = true ∧ link_kind l = k ∧
       ∀ l', l' ∈ linksOf source → fixedLink l' = true → l' = l.
Proof.
  destruct source; intros [= <-].
  - exists LEnvFM. split_and!; [by left|done..|].
    intros l' Hl' Hf. rewrite (fixedLink_FM _ Hl') in Hf. by apply bool_decide_eq_true_1 in Hf.
  - exists LWfADPCM. split_and!; [by left|done..|].
    intros l' Hl' Hf. cbn [linksOf] in Hl'. unfold linksADPCM in Hl'.
    set_unfold. naive_solver.
Qed.

Lemma refCount_fresh m N source name inst k s :
  freshInst m N source name inst →
  refCount inst k s
  = if bool_decide (fixedKind source = Some k ∧ s = assigned m k) then 1%nat else 0%nat.
Proof.
  intros (Hs & _ & _ & Hl & _). unfold refCount, refCountX. rewrite Hs.
  assert (∀ l, l ∈ linksOf source →
            pointsAt inst k s l && negb (bool_decide (l ∈ ([] : list Link)))
            = fixedLink l && bool_decide (link_kind l = k ∧ assigned m k = s)) as Htest.
  { intros l Hin. destruct (Hl l Hin) as [Hn He]. unfold pointsAt.
    rewrite He, Hn, (bool_decide_eq_false_2 (l ∈ [])), andb_true_r by set_solver.
    destruct (fixedLink l); [|done]. cbn [andb].
    repeat case_bool_decide; cbn [andb]; naive_solver. }
  rewrite (length_filter_ext _ (λ l : Link, fixedLink l
             && bool_decide (link_kind l = k ∧ assigned m k = s)) _ Htest).
  destruct (fixedKind source) as [k0|] eqn:Hfk.
  - destruct (fixedKind_link _ _ Hfk) as (l0 & Hl0 & Hf0 & Hk0 & Huniq).
    pose proof (length_filter_change (λ _ : Link, false)
      (λ l : Link, fixedLink l && bool_decide (link_kind l = k ∧ assigned m k = s))
      (linksOf source) l0 (NoDup_linksOf _) Hl0) as Hch.
    rewrite length_filter_false, Hf0 in Hch. cbn [andb] in Hch.
    rewrite Nat.add_0_r in Hch. cbn [Nat.add] in Hch. rewrite Hch.
    + repeat case_bool_decide; naive_solver.
    + intros l Hin Hne. destruct (fixedLink l) eqn:Hf; [|done].
      by destruct Hne; apply Huniq.
  - rewrite (length_filter_ext _ (λ _, false)).
    + rewrite length_filter_false. by rewrite bool_decide_eq_false_2 by naive_solver.
    + intros l Hin. destruct (fixedLink l) eqn:Hf; [|done].
      pose proof (fixedLink_unique _ _ Hin Hf). congruence.
Qed.

Lemma addInstrument_counts N source name m m' :
  wellFormed m → countsRight m → instOf m N = None →
  addInstrument N source name m = Ok (tt, m') →
  countsRight m' ∧
  (0 <= N < 128 → source ≠ DRUM →
   ∃ inst, instOf m' N = Some inst ∧ freshInst m N source name inst).
Proof.
  intros Hwf Hc Hfree Hrun.
  destruct (decide (0 <= N < 128)) as [HN|HN].
  2:{ rewrite addInstrument_out_of_range in Hrun
        by (destruct Hwf as [Hi _]; unfold size; rewrite Hi; lia).
      injection Hrun as <-. split; [done|]. lia. }
  destruct (decide (source = DRUM)) as [->|Hs].
  { rewrite addInstrument_DRUM in Hrun. injection Hrun as <-. done. }
  destruct (addInstrument_run m N source name Hwf HN Hs)
    as (inst & m'' & Hrun' & Hfresh & Hins & _ & _ & Hu).
  rewrite Hrun' in Hrun. injection Hrun as ->.
  assert (∀ n, instOf m' n = if bool_decide (n = N) then Some inst else instOf m n) as Hi.
  { intros n. unfold instOf at 1. rewrite Hins. destruct Hwf as [Hlen _].
    rewrite lookupZ_insert by lia. rewrite Z2Nat.id by lia. by case_bool_decide. }
  split.
  - intros n k s. unfold refCountOf. rewrite Hu, Hi.
    assert (count n (if bool_decide (fixedKind source = Some k ∧ s = assigned m k)
                     then insert_sorted N (slotUsers m k s) else slotUsers m k s)
            = ((if bool_decide (fixedKind source = Some k ∧ s = assigned m k)
                     && bool_decide (N = n) then 1 else 0)
               + count n (slotUsers m k s))%nat) as ->.
    { destruct (bool_decide (fixedKind source = Some k ∧ s = assigned m k)); [|done].
      by rewrite count_insert_sorted. }
    rewrite (Hc n k s). unfold refCountOf.
    destruct (decide (n = N)) as [->|Hne].
    + rewrite Hfree, !(bool_decide_eq_true_2 (N = N)), andb_true_r by done.
      rewrite (refCount_fresh _ _ _ _ _ k s Hfresh). lia.
    + rewrite (bool_decide_eq_false_2 (N = n)), (bool_decide_eq_false_2 (n = N)),
        andb_false_r by done. done.
  - intros _ _. exists inst. split; [|done]. by rewrite Hi, bool_decide_eq_true_2.
Qed.

End Calls3.

Section Clone.
Context `{PropertyClasses}.
Implicit Types m : InstrumentsManager.
Implicit Types i : AbstractInstrument.

Lemma copying_setInstrumentProperty c src rest l num m m' :
  copying c src rest m →
  setInstrumentProperty l c num m = Ok (tt, m') →
  copying c src rest m'.
Proof.
  intros (Hc & ic & Hi & Hs & Hrest) Hrun.
  destruct (setInstrumentProperty_counts l c num m m' Hc Hrun)
    as (Hc' & i & Hi0 & Hsl & Hi').
  assert (i = ic) as -> by congruence.
  split; [done|]. eexists. split; [done|]. split.
  - by rewrite getSoundSource_setLinkNumber.
  - intros l' Hl' Hf. rewrite getLinkEnabled_setLinkNumber. by apply Hrest.
Qed.

Lemma copying_copyLink c src rest l ref m m' :
  fixedLink l = false → l ∉ rest →
  copying c src (l :: rest) m →
  copyLink c ref l m = Ok (tt, m') →
  copying c src rest m'.
Proof.
  intros Hf Hl Hcp Hrun. unfold copyLink in Hrun.
  apply bind_Ok in Hrun as ([] & m1 & Hset & Hrun).
  apply (copying_setInstrumentProperty _ _ _ _ _ _ _ Hcp) in Hset
    as (Hc & ic & Hi & Hs & Hrest).
  destruct (getLinkEnabled l ref).
  - apply setInstrumentPropertyEnabled_counts in Hrun as (Hc' & i & Hi0 & Hsl & Hi');
      [|done|done|].
    + assert (i = ic) as -> by congruence.
      split; [done|]. eexists. split; [done|]. split.
      * by rewrite getSoundSource_setLinkEnabled.
      * intros l' Hl' Hf'. rewrite getLinkEnabled_setLinkEnabled_other by set_solver.
        apply Hrest; [by right|done].
    + intros i Hi0. assert (i = ic) as -> by congruence. apply Hrest; [by left|done].
  - injection Hrun as <-. split; [done|]. exists ic. split_and!; [done..|].
    intros l' Hl'. apply Hrest. by right.
Qed.

Lemma copying_weaken c src rest rest' m :
  (∀ l, l ∈ rest' → l ∈ rest) → copying c src rest m → copying c src rest' m.
Proof. intros Hsub (Hc & ic & Hi & Hs & Hrest). split; [done|]. exists ic. naive_solver. Qed.

Lemma copying_envelopeReset c src rest t e m m' :
  copying c src rest m →
  setInstrumentFMEnvelopeResetEnabled c t e m = Ok (tt, m') →
  copying c src rest m'.
Proof.
  intros (Hc & ic & Hi & Hs & Hrest) Hrun. unfold setInstrumentFMEnvelopeResetEnabled in Hrun.
  rewrite (bind_run _ _ _ _ _ (gets_run _ _)) in Hrun.
  apply bind_Ok in Hrun as (o & m0 & [Ho%idx_Ok ->]%lift_Ok & Hrun).
  apply bind_Ok in Hrun as (inst & m0 & [Hd ->]%lift_Ok & Hrun).
  rewrite putInst_run in Hrun. injection Hrun as <-.
  assert (o = Some ic) as ->.
  { unfold instOf in Hi. rewrite Ho in Hi. by destruct o. }
  unfold derefAs in Hd. case_bool_decide; [|done]. injection Hd as <-.
  pose proof (instOf_range _ _ _ Hi) as HN.
  split.
  - apply (countsRight_pending c). apply (countsRight_pending c) in Hc.
    apply (pending_putInst c [] m ic _ Hc Hi).
    + apply getSoundSource_setEnvelopeResetEnabled.
    + intros l _ _. by rewrite getLinkEnabled_setEnvelopeResetEnabled,
        getLinkNumber_setEnvelopeResetEnabled.
  - eexists. split; [by rewrite instOf_setInsts, bool_decide_eq_true_2|]. split.
    + by rewrite getSoundSource_setEnvelopeResetEnabled.
    + intros l Hl Hf. rewrite getLinkEnabled_setEnvelopeResetEnabled. by apply Hrest.
Qed.

Lemma copying_opSeq_loop c src ref (ps : list FMEnvelopeParameter) : ∀ rest m m',
  NoDup ps → (∀ p, p ∈ ps → LOpSeqFM p ∉ rest) →
  copying c src ((LOpSeqFM <$> ps) ++ rest) m →
  forM_ ps (λ p, copyLink c ref (LOpSeqFM p)) m = Ok (tt, m') →
  copying c src rest m'.
Proof.
  induction ps as [|p ps IH]; intros rest m m' Hnd Hps Hcp Hrun.
  { by injection Hrun as <-. }
  apply list.NoDup_cons in Hnd as [Hp Hnd]. cbn [forM_] in Hrun.
  apply bind_Ok in Hrun as ([] & m1 & Hstep & Hrun).
  apply (IH rest m1 m' Hnd); [intros; apply Hps; by right| |done].
  apply (copying_copyLink c src _ (LOpSeqFM p) ref m m1); [done| |done|done].
  rewrite elem_of_app, list_elem_of_fmap. intros [(q & [= <-] & Hq)|Hr]; [done|].
  by apply (Hps p); [left|].
Qed.

Lemma elem_of_perOperator (l : Link) (ts : list FMOperatorType) :
  l ∈ flat_map (λ t, [LArpFM t; LPtFM t]) ts →
  ∃ t, t ∈ ts ∧ (l = LArpFM t ∨ l = LPtFM t).
Proof.
  intros (t & Ht & Hl)%list_elem_of_In%in_flat_map.
  exists t. rewrite list_elem_of_In. split; [done|]. cbn in Hl. naive_solver.
Qed.

Lemma copying_perOperator_loop c src ref (ts : list FMOperatorType) : ∀ rest m m',
  NoDup ts → (∀ t, t ∈ ts → (LArpFM t ∉ rest) ∧ (LPtFM t ∉ rest)) →
  copying c src (flat_map (λ t, [LArpFM t; LPtFM t]) ts ++ rest) m →
  forM_ ts (λ t,
    copyLink c ref (LArpFM t) ;;
    copyLink c ref (LPtFM t) ;;
    setInstrumentFMEnvelopeResetEnabled c t (getEnvelopeResetEnabled t ref)) m
  = Ok (tt, m') →
  copying c src rest m'.
Proof.
  induction ts as [|t ts IH]; intros rest m m' Hnd Hts Hcp Hrun.
  { by injection Hrun as <-. }
  apply list.NoDup_cons in Hnd as [Ht Hnd]. cbn [forM_] in Hrun.
  apply bind_Ok in Hrun as ([] & m3 & Hstep & Hrun).
  apply bind_Ok in Hstep as ([] & m1 & Harp & Hstep).
  apply bind_Ok in Hstep as ([] & m2 & Hpt & Hreset).
  apply (IH rest m3 m' Hnd); [intros; apply Hts; by right| |done].
  eapply copying_envelopeReset; [|done].
  pose proof (λ l, elem_of_perOperator l ts) as Hflat.
  destruct (Hts t) as [Ha Hp]; [by left|].
  apply (copying_copyLink c src _ (LPtFM t) ref m1 m2); [done| |  |done].
  - rewrite elem_of_app. intros [(t' & Ht' & [?|[= <-]])%Hflat|?]; done.
  - apply (copying_copyLink c src _ (LArpFM t) ref m m1); [done| |exact Hcp|done].
    rewrite elem_of_cons, elem_of_app.
    intros [?|[(t' & Ht' & [[= <-]|?])%Hflat|?]]; done.
Qed.

Lemma cloneInstrument_counts c r m m' :
  wellFormed m → countsRight m → instOf m c = None →
  cloneInstrument c r m = Ok (tt, m') →
  countsRight m'.
Proof.
  intros Hwf Hc Hfree Hrun. unfold cloneInstrument in Hrun.
  rewrite (bind_run _ _ _ _ _ (gets_run _ _)) in Hrun.
  apply bind_Ok in Hrun as (o & m0 & [Ho%at_Ok ->]%lift_Ok & Hrun).
  apply bind_Ok in Hrun as (ref & m0 & [Hd ->]%lift_Ok & Hrun).
  apply bind_Ok in Hrun as ([] & m1 & Hadd & Hrun).
  rewrite (bind_run _ _ _ _ _ (gets_run _ _)) in Hrun.
  apply bind_Ok in Hrun as (oc & m0 & [Hoc%at_Ok ->]%lift_Ok & Hrun).
  pose proof (pres_touchesOnly_addInstrument c m _ _ _ _ _ Hadd (touchesOnly_refl _ _))
    as Htouch.
  assert (0 <= c < 128) as Hcr.
  { apply lookupZ_lt in Hoc. destruct Htouch as (_ & _ & Hlen & _).
    destruct Hwf as [Hi _]. unfold size in Hoc. lia. }
  assert (getSoundSource ref ≠ DRUM) as Hsrc by (by destruct ref).
  destruct (addInstrument_counts c _ _ m m1 Hwf Hc Hfree Hadd) as [Hc1 Hfresh].
  destruct (Hfresh Hcr Hsrc) as (ic & Hic & Hs & _ & _ & Hlinks & _).
  assert (copying c (getSoundSource ref) (linksOf (getSoundSource ref)) m1) as Hcp.
  { split; [done|]. exists ic. split_and!; [done..|].
    intros l Hl Hf. destruct (Hlinks l Hl) as [_ ->]. done. }
  clear Hc Hc1 Hfresh Hlinks Hic Hs.
  destruct ref as [fm|ssg|adpcm]; cbn [getSoundSource linksOf] in Hcp.
  - apply bind_Ok in Hrun as ([] & m2 & Henv & Hrun).
    apply bind_Ok in Hrun as ([] & m3 & Hlfo & Hrun).
    apply bind_Ok in Hrun as ([] & m4 & Hops & Hrun).
    set (ref := InstFM fm) in *.
    set (perOp := flat_map (λ t, [LArpFM t; LPtFM t]) fmOpTypes_) in *.
    pose proof (copying_setInstrumentProperty _ _ _ _ _ _ _ Hcp Henv) as H1.
    assert (copying c FM (LLfoFM :: (LOpSeqFM <$> envFMParams_) ++ perOp ++ []) m2) as H2.
    { apply (copying_weaken c FM linksFM); [|done].
      intros l Hl. rewrite app_nil_r in Hl. unfold linksFM. by right. }
    assert (copying c FM ((LOpSeqFM <$> envFMParams_) ++ perOp ++ []) m3) as H3.
    { apply (copying_copyLink c FM _ LLfoFM ref m2 m3); [done| |done|done].
      rewrite elem_of_app, list_elem_of_fmap, app_nil_r.
      intros [(p & [=] & _)|(t & _ & [[=]|[=]])%elem_of_perOperator]. }
    assert (copying c FM (perOp ++ []) m4) as H4.
    { apply (copying_opSeq_loop c FM ref envFMParams_ _ m3 m4); [|  |done|done].
      - apply NoDup_envFMParams.
      - intros p _. rewrite app_nil_r.
        intros (t & _ & [[=]|[=]])%elem_of_perOperator. }
    assert (copying c FM [] m') as H5.
    { apply (copying_perOperator_loop c FM ref fmOpTypes_ _ m4 m'); [| |done|done].
      - apply (bool_decide_unpack _). vm_compute. exact I.
      - intros t _. split; by intros ?%elem_of_nil. }
    by destruct H5.
  - apply bind_Ok in Hrun as ([] & m2 & H1 & Hrun).
    apply bind_Ok in Hrun as ([] & m3 & H2 & Hrun).
    apply bind_Ok in Hrun as ([] & m4 & H3 & Hrun).
    apply bind_Ok in Hrun as ([] & m5 & H4 & Hrun).
    unfold linksSSG in Hcp. set (ref := InstSSG ssg) in *.
    pose proof (copying_copyLink c SSG [LTnSSG; LEnvSSG; LArpSSG; LPtSSG] LWfSSG ref m1 m2
                  eq_refl ltac:(set_solver) Hcp H1) as G1.
    pose proof (copying_copyLink c SSG [LEnvSSG; LArpSSG; LPtSSG] LTnSSG ref m2 m3
                  eq_refl ltac:(set_solver) G1 H2) as G2.
    pose proof (copying_copyLink c SSG [LArpSSG; LPtSSG] LEnvSSG ref m3 m4
                  eq_refl ltac:(set_solver) G2 H3) as G3.
    pose proof (copying_copyLink c SSG [LPtSSG] LArpSSG ref m4 m5
                  eq_refl ltac:(set_solver) G3 H4) as G4.
    pose proof (copying_copyLink c SSG [] LPtSSG ref m5 m'
                  eq_refl ltac:(set_solver) G4 Hrun) as G5.
    by destruct G5.
  - apply bind_Ok in Hrun as ([] & m2 & H1 & Hrun).
    apply bind_Ok in Hrun as ([] & m3 & H2 & Hrun).
    apply bind_Ok in Hrun as ([] & m4 & H3 & Hrun).
    unfold linksADPCM in Hcp. set (ref := InstADPCM adpcm) in *.
    pose proof (copying_setInstrumentProperty _ _ _ _ _ _ _ Hcp H1) as G1.
    apply (copying_weaken _ _ _ [LEnvADPCM; LArpADPCM; LPtADPCM]) in G1;
      [|intros l Hl; by right].
    pose proof (copying_copyLink c ADPCM [LArpADPCM; LPtADPCM] LEnvADPCM ref m2 m3
                  eq_refl ltac:(set_solver) G1 H2) as G2.
    pose proof (copying_copyLink c ADPCM [LPtADPCM] LArpADPCM ref m3 m4
                  eq_refl ltac:(set_solver) G2 H3) as G3.
    pose proof (copying_copyLink c ADPCM [] LPtADPCM ref m4 m'
                  eq_refl ltac:(set_solver) G3 Hrun) as G4.
    by destruct G4.
Qed.

End Clone.

(** ** Deep cloning *)

Section DeepClone.
Context `{PropertyClasses}.
Implicit Types m : InstrumentsManager.
Implicit Types i ic ref : AbstractInstrument.

Lemma exclusive_nil c k s m : slotUsers m k s = [] → exclusive c k s m.
Proof. intros Hn n. rewrite Hn. by intros ?%elem_of_nil. Qed.

Lemma keepsLinks_refl c m : keepsLinks c [] m m.
Proof. intros ic Hi. exists ic. done. Qed.

Lemma keepsLinks_trans c LG1 LG2 m1 m2 m3 :
  keepsLinks c LG1 m1 m2 → keepsLinks c LG2 m2 m3 → keepsLinks c (LG1 ++ LG2) m1 m3.
Proof.
  intros H12 H23 ic Hi. destruct (H12 ic Hi) as (ic2 & Hi2 & Hs2 & Hl2).
  destruct (H23 ic2 Hi2) as (ic3 & Hi3 & Hs3 & Hl3).
  exists ic3. split_and!; [done|congruence|].
  intros l Hl. rewrite elem_of_app in Hl.
  destruct (Hl2 l) as [E2 N2]; [naive_solver|].
  destruct (Hl3 l) as [E3 N3]; [naive_solver|]. split; congruence.
Qed.

Lemma keepsLinks_weaken c LG LG' m m' :
  (∀ l, l ∈ LG → l ∈ LG') → keepsLinks c LG m m' → keepsLinks c LG' m m'.
Proof.
  intros Hsub Hk ic Hi. destruct (Hk ic Hi) as (ic' & ? & ? & Hl).
  exists ic'. split_and!; [done..|]. intros l Hl'. apply Hl. naive_solver.
Qed.

(** A reference that is done stays done while other references are
    dealt with. *)
Lemma cloned_frame c ref l LG m m' :
  cloned c ref l m → touchesOnly c m m' → keepsLinks c LG m m' → l ∉ LG →
  cloned c ref l m'.
Proof.
  intros (ic & Hi & He & Hex) Ht Hk Hl.
  destruct (Hk ic Hi) as (ic' & Hi' & _ & Hsame). destruct (Hsame l Hl) as [He' Hn'].
  exists ic'. split_and!; [done|congruence|].
  intros Hr. rewrite Hn'. eapply touchesOnly_exclusive; [done|]. by apply Hex.
Qed.

Lemma groupDone_seq c ref LG1 LG2 rest1 rest2 m1 m2 m3 :
  groupDone c ref LG1 rest1 m1 m2 → groupDone c ref LG2 rest2 m2 m3 →
  (∀ l, l ∈ LG1 → l ∉ LG2) →
  groupDone c ref (LG1 ++ LG2) rest2 m1 m3.
Proof.
  intros (_ & Ht1 & Hk1 & Hd1) (Hc2 & Ht2 & Hk2 & Hd2) Hdisj.
  split_and!; [done|by eapply touchesOnly_trans|by eapply keepsLinks_trans|].
  intros l [Hl|Hl]%elem_of_app; [|by apply Hd2].
  eapply cloned_frame; [by apply Hd1|done|done|by apply Hdisj].
Qed.

(** The tail of every group: a slot is cloned, the reference is moved to
    it and the clone is registered there. *)
Lemma clone_and_register c l srcNum ic m m' :
  countsPending c [l] m → instOf m c = Some ic →
  getLinkEnabled l ic = true → l ∈ linksOf (getSoundSource ic) →
  ∀ n m1 m2,
  cloneProperty (link_kind l) srcNum m = Ok (n, m1) →
  modifyInst c (setLinkNumber l n) m1 = Ok (tt, m2) →
  updateIdx (link_kind l) n (registerUserInstrument c) m2 = Ok (tt, m') →
  countsRight m' ∧ instOf m' c = Some (setLinkNumber l n ic) ∧
  exclusive c (link_kind l) n m'.
Proof.
  intros Hc Hi He Hl n m1 m2 Hclone Hmod Hreg.
  apply cloneProperty_Ok in Hclone as (Hk & Hsame & Hn).
  apply modifyInst_Ok in Hmod as (ic1 & Hi1 & ->).
  rewrite (sameUsers_instOf _ _ _ Hsame) in Hi1.
  assert (ic1 = ic) as -> by congruence.
  apply updateIdx_Ok in Hreg as (_ & p & Hp & ->). cbn [pools_ setInsts] in Hp |- *.
  pose proof (instOf_range _ _ _ Hi) as Hcr.
  assert (size (insts_ m1) = size (insts_ m)) as Hsz
    by (destruct Hsame as [-> _]; done).
  set (ic' := setLinkNumber l n ic).
  assert (getSoundSource ic' = getSoundSource ic) as Hs'
    by apply getSoundSource_setLinkNumber.
  assert (getLinkNumber l ic' = n) as Hnum.
  { apply getLinkNumber_setLinkNumber_same. symmetry. by apply link_source_linksOf. }
  assert (getLinkEnabled l ic' = true) as He'
    by (unfold ic'; by rewrite getLinkEnabled_setLinkNumber).
  assert (instOf m1 c = Some ic) as Hic1 by (by rewrite (sameUsers_instOf _ _ _ Hsame)).
  assert (countsPending c [l] (setInsts (<[Z.to_nat c := Some ic']> (insts_ m1)) m1))
    as Hc2.
  { apply (pending_putInst c [l] m1 ic ic'); [by eapply pending_sameUsers|done|done|].
    intros l' _ Hne. unfold ic'. rewrite getLinkEnabled_setLinkNumber.
    rewrite getLinkNumber_setLinkNumber_other by set_solver. done. }
  assert (instOf (setInsts (<[Z.to_nat c := Some ic']> (insts_ m1)) m1) c = Some ic')
    as Hi2.
  { rewrite instOf_setInsts by lia. by rewrite bool_decide_eq_true_2. }
  split_and!.
  - apply (countsRight_pending c).
    pose proof (pending_register c [l] [] _ ic' l p Hc2 Hi2) as Hc3.
    rewrite Hnum, Hs' in Hc3.
    exact (Hc3 Hl ltac:(set_solver) ltac:(set_solver) He' Hp).
  - done.
  - destruct Hn as [->|[_ Hnil]].
    { apply lookupZ_lt in Hp. unfold size in Hp.
      rewrite (sameUsers_length _ _ _ Hsame) in Hp. lia. }
    intros x. rewrite (slotUsers_setPool (setInsts _ m1) _ _ _ _ _ _ Hp).
    rewrite bool_decide_eq_true_2 by done. cbn [users_ registerUserInstrument].
    rewrite <- (slotUsers_lookup _ _ _ _ Hp).
    change (slotUsers (setInsts _ m1) (link_kind l) n) with (slotUsers m1 (link_kind l) n).
    rewrite Hnil. cbn. by intros ->%list_elem_of_singleton.
Qed.

Ltac touch_mod :=
  let m := fresh "m" in let Hm := fresh "Hm" in
  intros m Hm; eapply touchesOnly_trans; [exact Hm|];
  first [ by apply touchesOnly_setInsts | apply touchesOnly_refl ].

Lemma pres_touchesOnly_deepCopyLink c m0 ref l :
  0 <= c → pres (touchesOnly c m0) (deepCopyLink c ref l).
Proof. intros Hc. pres_walk_with touch_mod. Qed.

(** A reference with a flag. *)
Lemma deepCopyLink_group c ref rest l m m' :
  fixedLink l = false → l ∈ linksOf (getSoundSource ref) → l ∉ rest → 0 <= c →
  copying c (getSoundSource ref) (l :: rest) m →
  deepCopyLink c ref l m = Ok (tt, m') →
  groupDone c ref [l] rest m m'.
Proof.
  intros Hf Hl Hrest Hc0 (Hc & ic & Hi & Hs & Hdis) Hrun.
  pose proof (pres_touchesOnly_deepCopyLink c m ref l Hc0 _ _ _ Hrun
                (touchesOnly_refl _ _)) as Htouch.
  unfold deepCopyLink in Hrun. destruct (getLinkEnabled l ref) eqn:Her.
  - apply bind_Ok in Hrun as ([] & m1 & Hmod & Hrun).
    apply bind_Ok in Hrun as (n & m2 & Hclone & Hrun).
    apply bind_Ok in Hrun as ([] & m3 & Hmod2 & Hreg).
    apply modifyInst_Ok in Hmod as (ic0 & Hi0 & ->).
    assert (ic0 = ic) as -> by congruence.
    set (ic1 := setLinkEnabled l true ic) in *.
    pose proof (instOf_range _ _ _ Hi) as Hcr.
    assert (getSoundSource ic1 = getSoundSource ic) as Hs1
      by apply getSoundSource_setLinkEnabled.
    assert (getSoundSource ic = link_source l) as Hsl
      by (rewrite Hs; symmetry; by apply link_source_linksOf).
    assert (getLinkEnabled l ic1 = true) as He1
      by (by apply getLinkEnabled_setLinkEnabled_same).
    apply (countsRight_pending c) in Hc.
    assert (countsPending c [l] m) as Hc1.
    { apply (pending_ghost c [] [l] m Hc). intros i0 l0 Hi0' _ He0.
      assert (i0 = ic) as -> by congruence.
      split; [intros ->%list_elem_of_singleton|by intros ?%elem_of_nil].
      rewrite Hdis in He0; [done|by left|done]. }
    assert (countsPending c [l] (setInsts (<[Z.to_nat c := Some ic1]> (insts_ m)) m))
      as Hc2.
    { apply (pending_putInst c [l] m ic ic1 Hc1 Hi Hs1).
      intros l' _ Hne. unfold ic1.
      rewrite getLinkEnabled_setLinkEnabled_other by set_solver.
      by rewrite getLinkNumber_setLinkEnabled. }
    assert (instOf (setInsts (<[Z.to_nat c := Some ic1]> (insts_ m)) m) c = Some ic1)
      as Hi1 by (rewrite instOf_setInsts by done; by rewrite bool_decide_eq_true_2).
    assert (l ∈ linksOf (getSoundSource ic1)) as Hl1 by (by rewrite Hs1, Hs).
    destruct (clone_and_register c l _ ic1 _ m' Hc2 Hi1 He1 Hl1 _ _ _ Hclone Hmod2 Hreg)
      as (Hc' & Hi' & Hex).
    set (ic' := setLinkNumber l n ic1) in *.
    assert (∀ l', l' ≠ l → getLinkEnabled l' ic' = getLinkEnabled l' ic ∧
                            getLinkNumber l' ic' = getLinkNumber l' ic) as Hother.
    { intros l' Hne. unfold ic', ic1.
      rewrite getLinkEnabled_setLinkNumber, getLinkEnabled_setLinkEnabled_other by done.
      rewrite getLinkNumber_setLinkNumber_other, getLinkNumber_setLinkEnabled by done.
      done. }
    assert (getSoundSource ic' = getSoundSource ic) as Hs'
      by (unfold ic'; by rewrite getSoundSource_setLinkNumber).
    split_and!.
    + split; [done|]. exists ic'. split_and!; [done|congruence|].
      intros l' Hl' Hf'. destruct (Hother l') as [-> _]; [set_solver|].
      apply Hdis; [by right|done].
    + done.
    + intros ic0 Hi0'. assert (ic0 = ic) as -> by congruence.
      exists ic'. split_and!; [done..|]. intros l' Hl'. apply Hother. set_solver.
    + intros l0 ->%list_elem_of_singleton. exists ic'. split_and!; [done| |].
      * unfold ic'. by rewrite getLinkEnabled_setLinkNumber, He1, Her.
      * intros _. unfold ic'. rewrite getLinkNumber_setLinkNumber_same; [done|].
        by rewrite Hs1.
  - injection Hrun as <-. split_and!.
    + split; [done|]. exists ic. split_and!; [done..|]. intros l' Hl'. apply Hdis. by right.
    + apply touchesOnly_refl.
    + eapply keepsLinks_weaken; [|apply keepsLinks_refl]. set_solver.
    + intros l0 ->%list_elem_of_singleton. exists ic. split_and!; [done| |by rewrite Her].
      rewrite Her. apply Hdis; [by left|done].
Qed.

(** The reference without a flag: the slot that [addInstrument] gave the
    clone is released before the slot with the copy is taken. *)
Lemma deepCopyFixed_group c ref l rest cl m m1 n m2 m3 m' :
  fixedLink l = true → l ∈ linksOf (getSoundSource ref) → 0 <= c →
  copying c (getSoundSource ref) rest m →
  instOf m c = Some cl →
  updateIdx (link_kind l) (getLinkNumber l cl) (deregisterUserInstrument c) m
    = Ok (tt, m1) →
  cloneProperty (link_kind l) (getLinkNumber l ref) m1 = Ok (n, m2) →
  modifyInst c (setLinkNumber l n) m2 = Ok (tt, m3) →
  updateIdx (link_kind l) n (registerUserInstrument c) m3 = Ok (tt, m') →
  groupDone c ref [l] rest m m'.
Proof.
  intros Hf Hl Hc0 (Hc & ic & Hi & Hs & Hdis) Hcl Hdereg Hclone Hmod Hreg.
  assert (ic = cl) as -> by congruence.
  assert (touchesOnly c m m') as Htouch.
  { pose proof (pres_touchesOnly_updateIdx_deregister c m _ _ _ _ _ Hdereg
                  (touchesOnly_refl _ _)) as Ht1.
    pose proof (pres_touchesOnly_cloneProperty c m _ _ _ _ _ Hclone Ht1) as Ht2.
    pose proof (pres_touchesOnly_modifyInst c m _ Hc0 _ _ _ Hmod Ht2) as Ht3.
    exact (pres_touchesOnly_updateIdx_register c m _ _ _ _ _ Hreg Ht3). }
  assert (getSoundSource cl = link_source l) as Hsl
    by (rewrite Hs; symmetry; by apply link_source_linksOf).
  assert (l ∈ linksOf (getSoundSource cl)) as Hl1 by (by rewrite Hs).
  pose proof (getLinkEnabled_fixed l cl Hf Hsl) as He.
  apply updateIdx_Ok in Hdereg as (_ & p & Hp & ->).
  apply (countsRight_pending c) in Hc.
  pose proof (pending_deregister c [] [l] m cl l p Hc Hi Hl1 ltac:(by intros ?%elem_of_nil)
                ltac:(set_solver) He Hp) as Hc1.
  destruct (clone_and_register c l _ cl _ m' Hc1 Hi He Hl1 _ _ _ Hclone Hmod Hreg)
    as (Hc' & Hi' & Hex).
  set (ic' := setLinkNumber l n cl) in *.
  assert (getSoundSource ic' = getSoundSource cl) as Hs'
    by apply getSoundSource_setLinkNumber.
  split_and!.
  - split; [done|]. exists ic'. split_and!; [done|congruence|].
    intros l' Hl' Hf'. unfold ic'. rewrite getLinkEnabled_setLinkNumber. by apply Hdis.
  - done.
  - intros ic0 Hi0. assert (ic0 = cl) as -> by congruence.
    exists ic'. split_and!; [done..|]. intros l' Hl'. unfold ic'.
    rewrite getLinkEnabled_setLinkNumber, getLinkNumber_setLinkNumber_other by set_solver.
    done.
  - intros l0 ->%list_elem_of_singleton. exists ic'. split_and!; [done| |].
    + unfold ic'. rewrite getLinkEnabled_setLinkNumber, He. symmetry.
      apply getLinkEnabled_fixed; [done|]. symmetry. by apply link_source_linksOf.
    + intros _. unfold ic'. by rewrite getLinkNumber_setLinkNumber_same.
Qed.

(** The loop over the 38 operator sequences. *)
Lemma deepCopy_opSeq_loop c ref (ps : list FMEnvelopeParameter) : ∀ rest m m',
  NoDup ps → (∀ p, p ∈ ps → LOpSeqFM p ∉ rest) →
  (∀ p, p ∈ ps → LOpSeqFM p ∈ linksOf (getSoundSource ref)) → 0 <= c →
  copying c (getSoundSource ref) ((LOpSeqFM <$> ps) ++ rest) m →
  forM_ ps (λ p, deepCopyLink c ref (LOpSeqFM p)) m = Ok (tt, m') →
  groupDone c ref (LOpSeqFM <$> ps) rest m m'.
Proof.
  induction ps as [|p ps IH]; intros rest m m' Hnd Hps Hin Hc0 Hcp Hrun.
  { injection Hrun as <-. split_and!; [done|apply touchesOnly_refl|apply keepsLinks_refl|].
    by intros l ?%elem_of_nil. }
  apply list.NoDup_cons in Hnd as [Hp Hnd]. cbn [forM_] in Hrun.
  apply bind_Ok in Hrun as ([] & m1 & Hstep & Hrun).
  apply (deepCopyLink_group c ref ((LOpSeqFM <$> ps) ++ rest)) in Hstep;
    [|done|apply Hin; by left| |done|done].
  2:{ rewrite elem_of_app, list_elem_of_fmap. intros [(q & [= <-] & Hq)|Hr]; [done|].
      by apply (Hps p); [left|]. }
  pose proof Hstep as (Hcp1 & _).
  apply (IH rest m1 m' Hnd) in Hrun;
    [|intros; apply Hps; by right|intros; apply Hin; by right|done|done].
  change (LOpSeqFM <$> p :: ps) with ([LOpSeqFM p] ++ (LOpSeqFM <$> ps)).
  apply (groupDone_seq c ref [LOpSeqFM p] (LOpSeqFM <$> ps)
           ((LOpSeqFM <$> ps) ++ rest) rest m m1 m'); [done..|].
  intros l ->%list_elem_of_singleton. rewrite list_elem_of_fmap.
  intros (q & [= <-] & Hq). done.
Qed.

(** The three loops over the operator types.  The first sets the flags
    of the clone. *)
Lemma perOperator_flags c ref (L : FMOperatorType → Link) (X : list Link)
    (ts : list FMOperatorType) : ∀ nums0 m nums m' ic,
  (∀ t, fixedLink (L t) = false ∧ L t ∈ linksOf (getSoundSource ref)) →
  (∀ t, t ∈ ts → L t ∈ X) → 0 <= c →
  countsPending c X m → instOf m c = Some ic →
  getSoundSource ic = getSoundSource ref →
  foldM (λ nums t,
     if getLinkEnabled (L t) ref
     then modifyInst c (setLinkEnabled (L t) true) ;;
          mret (emplace (getLinkNumber (L t) ref) (-1) nums)
     else mret nums) nums0 ts m = Ok (nums, m') →
  countsPending c X m' ∧ touchesOnly c m m' ∧
  ∃ ic', instOf m' c = Some ic' ∧ getSoundSource ic' = getSoundSource ic ∧
    (∀ l, getLinkNumber l ic' = getLinkNumber l ic) ∧
    (∀ l, getLinkEnabled l ic' = getLinkEnabled l ic ∨
          (l ∈ L <$> ts ∧ getLinkEnabled l ref = true ∧ getLinkEnabled l ic' = true)) ∧
    (∀ t, t ∈ ts → getLinkEnabled (L t) ref = true → getLinkEnabled (L t) ic' = true).
Proof.
  induction ts as [|t ts IH]; intros nums0 m nums m' ic HL HX Hc0 Hc Hi Hs Hrun.
  { injection Hrun as <- <-. split_and!; [done|apply touchesOnly_refl|].
    exists ic. split_and!; [done..|by left|by intros ? ?%elem_of_nil]. }
  cbn [foldM] in Hrun. apply bind_Ok in Hrun as (nums1 & m1 & Hstep & Hrun).
  destruct (HL t) as [Hf Hl].
  destruct (getLinkEnabled (L t) ref) eqn:Her.
  - apply bind_Ok in Hstep as ([] & m2 & Hmod & Hret). injection Hret as <- <-.
    pose proof (pres_touchesOnly_modifyInst c m _ Hc0 _ _ _ Hmod (touchesOnly_refl _ _))
      as Ht1.
    apply modifyInst_Ok in Hmod as (ic0 & Hi0 & ->).
    assert (ic0 = ic) as -> by congruence.
    set (ic1 := setLinkEnabled (L t) true ic) in *.
    pose proof (instOf_range _ _ _ Hi) as Hcr.
    assert (getSoundSource ic1 = getSoundSource ic) as Hs1
      by apply getSoundSource_setLinkEnabled.
    assert (getLinkEnabled (L t) ic1 = true) as He1.
    { apply getLinkEnabled_setLinkEnabled_same; [|done].
      rewrite Hs. symmetry. by apply link_source_linksOf. }
    assert (countsPending c X (setInsts (<[Z.to_nat c := Some ic1]> (insts_ m)) m)) as Hc1.
    { apply (pending_putInst c X m ic ic1 Hc Hi Hs1). intros l' _ Hne. unfold ic1.
      rewrite getLinkEnabled_setLinkEnabled_other, getLinkNumber_setLinkEnabled; [done|].
      intros ->. apply Hne, HX. by left. }
    assert (instOf (setInsts (<[Z.to_nat c := Some ic1]> (insts_ m)) m) c = Some ic1)
      as Hi1 by (rewrite instOf_setInsts by done; by rewrite bool_decide_eq_true_2).
    destruct (IH _ _ _ _ ic1 HL ltac:(intros; apply HX; by right) Hc0 Hc1 Hi1
                ltac:(congruence) Hrun)
      as (Hc' & Htc & ic' & Hi' & Hs' & Hnum & HA & HB).
    split_and!; [done|by eapply touchesOnly_trans|].
    exists ic'. split_and!; [done|congruence| | |].
    + intros l. rewrite Hnum. apply getLinkNumber_setLinkEnabled.
    + intros l. destruct (HA l) as [Heq|(Hin & ? & ?)].
      * destruct (decide (l = L t)) as [->|Hne].
        { right. split_and!; [by left|done|congruence]. }
        left. rewrite Heq. by apply getLinkEnabled_setLinkEnabled_other.
      * right. split_and!; [by right|done..].
    + intros t0 [->|Ht0]%elem_of_cons He0; [|by apply HB].
      destruct (HA (L t)) as [Heq|(_ & _ & ?)]; [congruence|done].
  - injection Hstep as <- <-.
    destruct (IH _ _ _ _ ic HL ltac:(intros; apply HX; by right) Hc0 Hc Hi Hs Hrun)
      as (Hc' & Htc & ic' & Hi' & Hs' & Hnum & HA & HB).
    split_and!; [done..|]. exists ic'. split_and!; [done..| |].
    + intros l. destruct (HA l) as [Heq|(Hin & ? & ?)]; [by left|].
      right. split_and!; [by right|done..].
    + intros t0 [->|Ht0]%elem_of_cons He0; [congruence|by apply HB].
Qed.

(** The second takes a slot for every slot of the instrument cloned. *)
Lemma perOperator_clones k (nums : list (Z * Z)) : ∀ acc m nums' m',
  foldM (λ acc pair,
     second ← cloneProperty k (fst pair);
     mret (acc ++ [(fst pair, second)])) acc nums m = Ok (nums', m') →
  sameUsers m m' ∧ ∀ kv, kv ∈ nums' → kv ∈ acc ∨ slotUsers m' k (snd kv) = [].
Proof.
  induction nums as [|pair nums IH]; intros acc m nums' m' Hrun.
  { injection Hrun as <- <-. split; [apply sameUsers_refl|by left]. }
  cbn [foldM] in Hrun. apply bind_Ok in Hrun as (acc1 & m1 & Hstep & Hrun).
  apply bind_Ok in Hstep as (second & m2 & Hclone & Hret). injection Hret as <- <-.
  apply cloneProperty_Ok in Hclone as (_ & Hsame & Hn).
  apply IH in Hrun as (Hsame' & Hnums).
  split; [by eapply sameUsers_trans|].
  intros kv [Hkv|Hnil]%Hnums; [|by right].
  apply elem_of_app in Hkv as [?| ->%list_elem_of_singleton]; [by left|right].
  rewrite (sameUsers_slotUsers _ _ _ _ Hsame'). cbn [snd].
  destruct Hn as [->|[_ Hnil]]; [|done].
  unfold slotUsers. destruct (lookupZ _ _) as [p|] eqn:Hp; [|done].
  apply lookupZ_lt in Hp. unfold size in Hp.
  rewrite (sameUsers_length _ _ _ Hsame) in Hp. lia.
Qed.

Lemma map_at_Ok (nums : list (Z * Z)) key n :
  map_at nums key = Ok n → ∃ kv, kv ∈ nums ∧ snd kv = n.
Proof.
  unfold map_at. destruct (find _ nums) as [kv|] eqn:Hf; [|done].
  intros [= <-]. apply find_some in Hf as [Hin _]. exists kv.
  by rewrite list_elem_of_In.
Qed.

(** The third moves the references of the clone to the slots taken and
    registers the clone there. *)
Lemma perOperator_register c ref (L : FMOperatorType → Link) k (nums : list (Z * Z))
    (ts : list FMOperatorType) : ∀ m m' ic,
  (∀ t, link_kind (L t) = k ∧ L t ∈ linksOf (getSoundSource ref)) →
  NoDup (L <$> ts) → 0 <= c →
  countsPending c (L <$> ts) m → instOf m c = Some ic →
  getSoundSource ic = getSoundSource ref →
  (∀ t, t ∈ ts → getLinkEnabled (L t) ic = getLinkEnabled (L t) ref) →
  forM_ ts (λ t,
    if getLinkEnabled (L t) ref
    then n ← lift (map_at nums (getLinkNumber (L t) ref));
         modifyInst c (setLinkNumber (L t) n) ;;
         updateIdx k n (registerUserInstrument c)
    else mret tt) m = Ok (tt, m') →
  countsRight m' ∧ touchesOnly c m m' ∧
  ∃ ic', instOf m' c = Some ic' ∧ getSoundSource ic' = getSoundSource ic ∧
    (∀ l, getLinkEnabled l ic' = getLinkEnabled l ic) ∧
    (∀ l, l ∉ L <$> ts → getLinkNumber l ic' = getLinkNumber l ic) ∧
    (∀ t, t ∈ ts → getLinkEnabled (L t) ref = true →
          ∃ kv, kv ∈ nums ∧ getLinkNumber (L t) ic' = snd kv).
Proof.
  induction ts as [|t ts IH]; intros m m' ic HL Hnd Hc0 Hc Hi Hs Hflags Hrun.
  { injection Hrun as <-. split_and!; [by apply (countsRight_pending c)|
      apply touchesOnly_refl|].
    exists ic. split_and!; [done..|by intros ? ?%elem_of_nil]. }
  cbn [forM_] in Hrun. apply bind_Ok in Hrun as ([] & m3 & Hstep & Hrun).
  rewrite fmap_cons in Hnd. apply list.NoDup_cons in Hnd as [Ht Hnd].
  destruct (HL t) as [Hk Hl].
  assert (getSoundSource ic = link_source (L t)) as Hsl
    by (rewrite Hs; symmetry; by apply link_source_linksOf).
  destruct (getLinkEnabled (L t) ref) eqn:Her.
  - apply bind_Ok in Hstep as (n & m0 & [Hat ->]%lift_Ok & Hstep).
    apply bind_Ok in Hstep as ([] & m1 & Hmod & Hreg).
    pose proof (pres_touchesOnly_modifyInst c m _ Hc0 _ _ _ Hmod (touchesOnly_refl _ _))
      as Ht1.
    pose proof (pres_touchesOnly_updateIdx_register c m _ _ _ _ _ Hreg Ht1) as Ht2.
    apply modifyInst_Ok in Hmod as (ic0 & Hi0 & ->).
    assert (ic0 = ic) as -> by congruence.
    set (ic1 := setLinkNumber (L t) n ic) in *.
    pose proof (instOf_range _ _ _ Hi) as Hcr.
    assert (getSoundSource ic1 = getSoundSource ic) as Hs1
      by apply getSoundSource_setLinkNumber.
    assert (getLinkNumber (L t) ic1 = n) as Hnum1
      by (by apply getLinkNumber_setLinkNumber_same).
    assert (getLinkEnabled (L t) ic1 = true) as He1.
    { unfold ic1. rewrite getLinkEnabled_setLinkNumber, <- Her. apply Hflags. by left. }
    assert (countsPending c (L <$> t :: ts)
              (setInsts (<[Z.to_nat c := Some ic1]> (insts_ m)) m)) as Hc1.
    { apply (pending_putInst c _ m ic ic1 Hc Hi Hs1). intros l' _ Hne. unfold ic1.
      rewrite getLinkEnabled_setLinkNumber, getLinkNumber_setLinkNumber_other; [done|].
      intros ->. apply Hne. rewrite fmap_cons. by left. }
    assert (instOf (setInsts (<[Z.to_nat c := Some ic1]> (insts_ m)) m) c = Some ic1)
      as Hi1 by (rewrite instOf_setInsts by done; by rewrite bool_decide_eq_true_2).
    apply updateIdx_Ok in Hreg as (_ & p & Hp & Hm3).
    assert (L t ∈ linksOf (getSoundSource ic1)) as Hl1 by (by rewrite Hs1, Hs).
    assert (countsPending c (L <$> ts) m3) as Hc2.
    { rewrite Hm3, <- Hk, <- Hnum1. rewrite <- Hk, <- Hnum1 in Hp.
      apply (pending_register c (L <$> t :: ts) (L <$> ts) _ ic1 (L t) p Hc1 Hi1 Hl1);
        [rewrite fmap_cons; by left| |done..].
      intros l'. rewrite fmap_cons, elem_of_cons. naive_solver. }
    assert (instOf m3 c = Some ic1) as Hi3 by (by rewrite Hm3).
    assert (∀ t0, t0 ∈ ts → getLinkEnabled (L t0) ic1 = getLinkEnabled (L t0) ref)
      as Hflags1.
    { intros t0 Ht0. unfold ic1. rewrite getLinkEnabled_setLinkNumber.
      apply Hflags. by right. }
    destruct (IH _ m' ic1 HL Hnd Hc0 Hc2 Hi3 ltac:(congruence) Hflags1 Hrun)
      as (Hc' & Htc & ic' & Hi' & Hs' & Hen & Hnum & Hin).
    split_and!; [done|by eapply touchesOnly_trans|].
    exists ic'. split_and!; [done|congruence| | |].
    + intros l. rewrite Hen. apply getLinkEnabled_setLinkNumber.
    + intros l Hnl. rewrite fmap_cons, not_elem_of_cons in Hnl. destruct Hnl as [Hne Hnl].
      rewrite Hnum by done. by apply getLinkNumber_setLinkNumber_other.
    + intros t0 [->|Ht0]%elem_of_cons He0; [|by apply Hin].
      rewrite Hnum, Hnum1 by done. apply map_at_Ok in Hat as (kv & ? & ?). by exists kv.
  - injection Hstep as <-.
    assert (countsPending c (L <$> ts) m) as Hc1.
    { apply (pending_ghost c _ _ m Hc). intros i0 l0 Hi0 _ He0.
      assert (i0 = ic) as -> by congruence. rewrite fmap_cons, elem_of_cons.
      split; [by right|]. intros [->|?]; [|done].
      rewrite Hflags in He0; [congruence|by left]. }
    destruct (IH _ m' ic HL Hnd Hc0 Hc1 Hi Hs ltac:(intros; apply Hflags; by right) Hrun)
      as (Hc' & Htc & ic' & Hi' & Hs' & Hen & Hnum & Hin).
    split_and!; [done..|]. exists ic'. split_and!; [done..| |].
    + intros l Hnl. rewrite fmap_cons, not_elem_of_cons in Hnl. apply Hnum, Hnl.
    + intros t0 [->|Ht0]%elem_of_cons He0; [congruence|by apply Hin].
Qed.

Lemma pres_touchesOnly_deepCopyPerOperator c m0 ref L k :
  0 <= c → pres (touchesOnly c m0) (deepCopyPerOperator c ref L k).
Proof. intros Hc. pres_walk_with touch_mod. Qed.

(** The arpeggios, and the pitches, of an FM instrument. *)
Lemma deepCopyPerOperator_group c ref (L : FMOperatorType → Link) k rest m m' :
  (∀ t, link_kind (L t) = k ∧ fixedLink (L t) = false ∧
        L t ∈ linksOf (getSoundSource ref) ∧ L t ∉ rest) →
  NoDup (L <$> fmOpTypes_) → (∀ t, t ∈ fmOpTypes_) → 0 <= c →
  copying c (getSoundSource ref) ((L <$> fmOpTypes_) ++ rest) m →
  deepCopyPerOperator c ref L k m = Ok (tt, m') →
  groupDone c ref (L <$> fmOpTypes_) rest m m'.
Proof.
  intros HL Hnd Hall Hc0 (Hc & ic & Hi & Hs & Hdis) Hrun.
  pose proof (pres_touchesOnly_deepCopyPerOperator c m ref L k Hc0 _ _ _ Hrun
                (touchesOnly_refl _ _)) as Htouch.
  unfold deepCopyPerOperator in Hrun.
  apply bind_Ok in Hrun as (nums & m1 & Hflags & Hrun).
  apply bind_Ok in Hrun as (nums' & m2 & Hclones & Hreg).
  assert (∀ t, getLinkEnabled (L t) ic = false) as Hoff.
  { intros t. apply Hdis; [|apply HL]. rewrite elem_of_app, list_elem_of_fmap.
    left. by exists t. }
  apply (countsRight_pending c) in Hc.
  assert (countsPending c (L <$> fmOpTypes_) m) as Hc0'.
  { apply (pending_ghost c [] _ m Hc). intros i0 l0 Hi0 _ He0.
    assert (i0 = ic) as -> by congruence.
    split; [intros (t & -> & _)%list_elem_of_fmap|by intros ?%elem_of_nil].
    by rewrite Hoff in He0. }
  assert (∀ t, t ∈ fmOpTypes_ → L t ∈ L <$> fmOpTypes_) as Hsub.
  { intros t Ht. apply list_elem_of_fmap. by exists t. }
  assert (∀ t, fixedLink (L t) = false ∧ L t ∈ linksOf (getSoundSource ref)) as HL1.
  { intros t. split; apply HL. }
  assert (∀ t, link_kind (L t) = k ∧ L t ∈ linksOf (getSoundSource ref)) as HL2.
  { intros t. split; apply HL. }
  destruct (perOperator_flags c ref L (L <$> fmOpTypes_) fmOpTypes_ _ _ _ _ ic
              HL1 Hsub Hc0 Hc0' Hi Hs Hflags)
    as (Hc1 & Ht1 & ic1 & Hi1 & Hs1 & Hnum1 & HA & HB).
  apply perOperator_clones in Hclones as (Hsame & Hnums).
  assert (∀ t, getLinkEnabled (L t) ic1 = getLinkEnabled (L t) ref) as Hflags1.
  { intros t. destruct (getLinkEnabled (L t) ref) eqn:Her; [by apply HB|].
    destruct (HA (L t)) as [->|(_ & ? & _)]; [done|congruence]. }
  assert (countsPending c (L <$> fmOpTypes_) m2) as Hc2
    by (by eapply pending_sameUsers).
  assert (instOf m2 c = Some ic1) as Hi2 by (by rewrite (sameUsers_instOf _ _ _ Hsame)).
  assert (getSoundSource ic1 = getSoundSource ref) as Hs2 by congruence.
  destruct (perOperator_register c ref L k nums' fmOpTypes_ m2 m' ic1
              HL2 Hnd Hc0 Hc2 Hi2 Hs2 ltac:(done) Hreg)
    as (Hc' & Ht3 & ic' & Hi' & Hs' & Hen & Hnum & Hin).
  assert (∀ l, l ∉ L <$> fmOpTypes_ → getLinkEnabled l ic' = getLinkEnabled l ic) as Hkeep.
  { intros l Hnl. rewrite Hen. by destruct (HA l) as [->|(? & _)]. }
  split_and!.
  - split; [done|]. exists ic'. split_and!; [done|congruence|].
    intros l Hl Hf. rewrite Hkeep; [apply Hdis; [set_solver|done]|].
    intros (t & -> & _)%list_elem_of_fmap. by apply (HL t).
  - done.
  - intros ic0 Hi0. assert (ic0 = ic) as -> by congruence.
    exists ic'. split_and!; [done|congruence|]. intros l Hnl. split; [by apply Hkeep|].
    by rewrite Hnum, Hnum1.
  - intros l (t & -> & _)%list_elem_of_fmap. exists ic'. split_and!; [done| |].
    + by rewrite Hen.
    + intros Her. destruct (Hin t (Hall t) Her) as (kv & Hkv & ->).
      destruct (HL t) as (-> & _).
      apply (touchesOnly_exclusive c m2); [done|]. apply exclusive_nil.
      by destruct (Hnums kv Hkv) as [?%elem_of_nil|?].
Qed.

(** The last loop sets the envelope reset flags and leaves the references
    alone. *)
Lemma envelopeReset_group c ref LG rest m0 t e :
  0 <= c →
  pres (groupDone c ref LG rest m0) (setInstrumentFMEnvelopeResetEnabled c t e).
Proof.
  intros Hc0 m [] m' Hrun (Hcp & Ht & Hk & Hd).
  pose proof (copying_envelopeReset _ _ _ _ _ _ _ Hcp Hrun) as Hcp'.
  pose proof (pres_touchesOnly_setEnvelopeReset c m t e Hc0 _ _ _ Hrun
                (touchesOnly_refl _ _)) as Ht'.
  assert (keepsLinks c [] m m') as Hk'.
  { unfold setInstrumentFMEnvelopeResetEnabled in Hrun.
    rewrite (bind_run _ _ _ _ _ (gets_run _ _)) in Hrun.
    apply bind_Ok in Hrun as (o & m1 & [Ho%idx_Ok ->]%lift_Ok & Hrun).
    apply bind_Ok in Hrun as (inst & m1 & [Hder ->]%lift_Ok & Hrun).
    rewrite putInst_run in Hrun. injection Hrun as <-.
    intros ic Hi. pose proof (instOf_range _ _ _ Hi) as Hcr.
    assert (o = Some ic) as ->.
    { unfold instOf in Hi. rewrite Ho in Hi. by destruct o. }
    unfold derefAs in Hder. case_bool_decide; [|done]. injection Hder as <-.
    eexists. split; [by rewrite instOf_setInsts, bool_decide_eq_true_2|].
    split; [apply getSoundSource_setEnvelopeResetEnabled|]. intros l _.
    by rewrite getLinkEnabled_setEnvelopeResetEnabled,
      getLinkNumber_setEnvelopeResetEnabled. }
  split_and!; [done|by eapply touchesOnly_trans| |].
  - apply (keepsLinks_weaken c (LG ++ [])); [intros l; by rewrite app_nil_r|].
    by eapply keepsLinks_trans.
  - intros l Hl. apply (cloned_frame c ref l [] m m'); [by apply Hd|done|done|].
    by intros ?%elem_of_nil.
Qed.

Ltac list_decide := apply (bool_decide_unpack _); vm_compute; exact I.

Lemma deepCloneInstrument_cloned c r m m' :
  wellFormed m → countsRight m → instOf m c = None →
  deepCloneInstrument c r m = Ok (tt, m') →
  ∃ ref clone,
    instOf m r = Some ref ∧ countsRight m' ∧ touchesOnly c m m' ∧
    instOf m' c = Some clone ∧ getSoundSource clone = getSoundSource ref ∧
    ∀ l, l ∈ linksOf (getSoundSource ref) → cloned c ref l m'.
Proof.
  intros Hwf Hc Hfree Hrun. unfold deepCloneInstrument in Hrun.
  rewrite (bind_run _ _ _ _ _ (gets_run _ _)) in Hrun.
  apply bind_Ok in Hrun as (o & m0 & [Ho%at_Ok ->]%lift_Ok & Hrun).
  apply bind_Ok in Hrun as (ref & m0 & [Hd ->]%lift_Ok & Hrun).
  apply bind_Ok in Hrun as ([] & m1 & Hadd & Hrun).
  rewrite (bind_run _ _ _ _ _ (gets_run _ _)) in Hrun.
  apply bind_Ok in Hrun as (oc & m0 & [Hoc%at_Ok ->]%lift_Ok & Hrun).
  pose proof (pres_touchesOnly_addInstrument c m _ _ _ _ _ Hadd (touchesOnly_refl _ _))
    as Htouch.
  assert (0 <= c < 128) as Hcr.
  { apply lookupZ_lt in Hoc. destruct Htouch as (_ & _ & Hlen & _).
    destruct Hwf as [Hi _]. unfold size in Hoc. lia. }
  assert (0 <= c) as Hc0 by lia.
  assert (getSoundSource ref ≠ DRUM) as Hsrc by (by destruct ref).
  assert (instOf m r = Some ref) as Href.
  { unfold instOf. rewrite Ho. destruct o; [by injection Hd as ->|done]. }
  destruct (addInstrument_counts c _ _ m m1 Hwf Hc Hfree Hadd) as [Hc1 Hfresh].
  destruct (Hfresh Hcr Hsrc) as (ic & Hic & Hs & _ & _ & Hlinks & _).
  assert (copying c (getSoundSource ref) (linksOf (getSoundSource ref)) m1) as Hcp.
  { split; [done|]. exists ic. split_and!; [done..|].
    intros l Hl Hf. destruct (Hlinks l Hl) as [_ ->]. done. }
  assert (oc = Some ic) as ->.
  { unfold instOf in Hic. rewrite Hoc in Hic. by destruct oc. }
  enough (groupDone c ref (linksOf (getSoundSource ref)) [] m1 m') as (Hcp' & Ht & _ & Hdone).
  { destruct Hcp' as (Hc' & clone & Hclone & Hsc & _). exists ref, clone.
    split_and!; [done|done|by eapply touchesOnly_trans|done..]. }
  clear Hc Hc1 Hfresh Hlinks Hs Htouch Hfree Hwf Ho Hd Href Hoc.
  destruct ref as [fm|ssg|adpcm]; cbn [getSoundSource linksOf] in Hcp |- *.
  - apply bind_Ok in Hrun as (cl & m0 & [Hder ->]%lift_Ok & Hrun).
    unfold derefAs in Hder. case_bool_decide; [|done]. injection Hder as <-.
    apply bind_Ok in Hrun as ([] & m2 & Hdereg & Hrun).
    apply bind_Ok in Hrun as (n & m3 & Hclone & Hrun).
    apply bind_Ok in Hrun as ([] & m4 & Hmod & Hrun).
    apply bind_Ok in Hrun as ([] & m5 & Hreg & Hrun).
    apply bind_Ok in Hrun as ([] & m6 & Hlfo & Hrun).
    apply bind_Ok in Hrun as ([] & m7 & Hops & Hrun).
    apply bind_Ok in Hrun as ([] & m8 & Harp & Hrun).
    apply bind_Ok in Hrun as ([] & m9 & Hpt & Hrun).
    set (ref := InstFM fm) in *.
    set (ops := LOpSeqFM <$> envFMParams_).
    set (arps := LArpFM <$> fmOpTypes_).
    set (pts := LPtFM <$> fmOpTypes_).
    assert (copying c FM (LLfoFM :: ops ++ arps ++ pts ++ []) m1) as H1.
    { apply (copying_weaken c FM linksFM); [|done].
      apply (proj1 (Forall_forall _ _)). list_decide. }
    pose proof (deepCopyFixed_group c ref LEnvFM _ ic m1 m2 n m3 m4 m5 eq_refl
                  ltac:(list_decide) Hc0 H1 Hic Hdereg Hclone Hmod Hreg) as G1.
    pose proof G1 as (C1 & _).
    pose proof (deepCopyLink_group c ref (ops ++ arps ++ pts ++ []) LLfoFM m5 m6 eq_refl
                  ltac:(list_decide) ltac:(list_decide) Hc0 C1 Hlfo) as G2.
    pose proof G2 as (C2 & _).
    pose proof (deepCopy_opSeq_loop c ref envFMParams_ (arps ++ pts ++ []) m6 m7
                  NoDup_envFMParams
                  ltac:(apply (proj1 (Forall_forall _ _)); list_decide)
                  ltac:(apply (proj1 (Forall_forall _ _)); list_decide) Hc0 C2 Hops) as G3.
    pose proof G3 as (C3 & _).
    assert (∀ t : FMOperatorType, t ∈ fmOpTypes_) as Hall
      by (intros t; destruct t; list_decide).
    pose proof (deepCopyPerOperator_group c ref LArpFM ArpFM (pts ++ []) m7 m8
                  ltac:(intros t; destruct t; split_and!; try done; list_decide)
                  ltac:(list_decide) Hall Hc0 C3 Harp) as G4.
    pose proof G4 as (C4 & _).
    pose proof (deepCopyPerOperator_group c ref LPtFM PtFM [] m8 m9
                  ltac:(intros t; destruct t; split_and!; try done; list_decide)
                  ltac:(list_decide) Hall Hc0 C4 Hpt) as G5.
    pose proof (groupDone_seq _ _ _ _ _ _ _ _ _ G4 G5
                  ltac:(apply (proj1 (Forall_forall _ _)); list_decide)) as G45.
    pose proof (groupDone_seq _ _ _ _ _ _ _ _ _ G3 G45
                  ltac:(apply (proj1 (Forall_forall _ _)); list_decide)) as G35.
    pose proof (groupDone_seq _ _ _ _ _ _ _ _ _ G2 G35
                  ltac:(apply (proj1 (Forall_forall _ _)); list_decide)) as G25.
    pose proof (groupDone_seq _ _ _ _ _ _ _ _ _ G1 G25
                  ltac:(apply (proj1 (Forall_forall _ _)); list_decide)) as G15.
    pose proof (pres_forM_ _ fmOpTypes_ _
                  (λ t, envelopeReset_group c ref _ [] m1 t
                          (getEnvelopeResetEnabled t ref) Hc0) _ _ _ Hrun G15)
      as (Hcp' & Ht & Hk & Hdone).
    split_and!; [done..| |].
    + eapply keepsLinks_weaken; [|done].
      apply (proj1 (Forall_forall _ _)). list_decide.
    + intros l Hl. apply Hdone. revert l Hl.
      apply (proj1 (Forall_forall _ _)). list_decide.
  - apply bind_Ok in Hrun as ([] & m2 & H1 & Hrun).
    apply bind_Ok in Hrun as ([] & m3 & H2 & Hrun).
    apply bind_Ok in Hrun as ([] & m4 & H3 & Hrun).
    apply bind_Ok in Hrun as ([] & m5 & H4 & Hrun).
    unfold linksSSG in Hcp |- *. set (ref := InstSSG ssg) in *.
    pose proof (deepCopyLink_group c ref [LTnSSG; LEnvSSG; LArpSSG; LPtSSG] LWfSSG m1 m2
                  eq_refl ltac:(list_decide) ltac:(list_decide) Hc0 Hcp H1) as G1.
    pose proof G1 as (C1 & _).
    pose proof (deepCopyLink_group c ref [LEnvSSG; LArpSSG; LPtSSG] LTnSSG m2 m3
                  eq_refl ltac:(list_decide) ltac:(list_decide) Hc0 C1 H2) as G2.
    pose proof G2 as (C2 & _).
    pose proof (deepCopyLink_group c ref [LArpSSG; LPtSSG] LEnvSSG m3 m4
                  eq_refl ltac:(list_decide) ltac:(list_decide) Hc0 C2 H3) as G3.
    pose proof G3 as (C3 & _).
    pose proof (deepCopyLink_group c ref [LPtSSG] LArpSSG m4 m5
                  eq_refl ltac:(list_decide) ltac:(list_decide) Hc0 C3 H4) as G4.
    pose proof G4 as (C4 & _).
    pose proof (deepCopyLink_group c ref [] LPtSSG m5 m'
                  eq_refl ltac:(list_decide) ltac:(list_decide) Hc0 C4 Hrun) as G5.
    pose proof (groupDone_seq _ _ _ _ _ _ _ _ _ G4 G5
                  ltac:(apply (proj1 (Forall_forall _ _)); list_decide)) as G45.
    pose proof (groupDone_seq _ _ _ _ _ _ _ _ _ G3 G45
                  ltac:(apply (proj1 (Forall_forall _ _)); list_decide)) as G35.
    pose proof (groupDone_seq _ _ _ _ _ _ _ _ _ G2 G35
                  ltac:(apply (proj1 (Forall_forall _ _)); list_decide)) as G25.
    exact (groupDone_seq _ _ _ _ _ _ _ _ _ G1 G25
             ltac:(apply (proj1 (Forall_forall _ _)); list_decide)).
  - apply bind_Ok in Hrun as (cl & m0 & [Hder ->]%lift_Ok & Hrun).
    unfold derefAs in Hder. case_bool_decide; [|done]. injection Hder as <-.
    apply bind_Ok in Hrun as ([] & m2 & Hdereg & Hrun).
    apply bind_Ok in Hrun as (n & m3 & Hclone & Hrun).
    apply bind_Ok in Hrun as ([] & m4 & Hmod & Hrun).
    apply bind_Ok in Hrun as ([] & m5 & Hreg & Hrun).
    apply bind_Ok in Hrun as ([] & m6 & H2 & Hrun).
    apply bind_Ok in Hrun as ([] & m7 & H3 & Hrun).
    unfold linksADPCM in Hcp |- *. set (ref := InstADPCM adpcm) in *.
    apply (copying_weaken _ _ _ [LEnvADPCM; LArpADPCM; LPtADPCM]) in Hcp;
      [|intros l Hl; by right].
    pose proof (deepCopyFixed_group c ref LWfADPCM _ ic m1 m2 n m3 m4 m5 eq_refl
                  ltac:(list_decide) Hc0 Hcp Hic Hdereg Hclone Hmod Hreg) as G1.
    pose proof G1 as (C1 & _).
    pose proof (deepCopyLink_group c ref [LArpADPCM; LPtADPCM] LEnvADPCM m5 m6
                  eq_refl ltac:(list_decide) ltac:(list_decide) Hc0 C1 H2) as G2.
    pose proof G2 as (C2 & _).
    pose proof (deepCopyLink_group c ref [LPtADPCM] LArpADPCM m6 m7
                  eq_refl ltac:(list_decide) ltac:(list_decide) Hc0 C2 H3) as G3.
    pose proof G3 as (C3 & _).
    pose proof (deepCopyLink_group c ref [] LPtADPCM m7 m'
                  eq_refl ltac:(list_decide) ltac:(list_decide) Hc0 C3 Hrun) as G4.
    pose proof (groupDone_seq _ _ _ _ _ _ _ _ _ G3 G4
                  ltac:(apply (proj1 (Forall_forall _ _)); list_decide)) as G34.
    pose proof (groupDone_seq _ _ _ _ _ _ _ _ _ G2 G34
                  ltac:(apply (proj1 (Forall_forall _ _)); list_decide)) as G24.
    exact (groupDone_seq _ _ _ _ _ _ _ _ _ G1 G24
             ltac:(apply (proj1 (Forall_forall _ _)); list_decide)).
Qed.

End DeepClone.

(** ** The invariant of the reference counts *)

Lemma length_filter_pos {A} (p : A → bool) (l : list A) :
  (0 < length (filter (λ x, p x) l))%nat ↔ ∃ x, x ∈ l ∧ p x = true.
Proof.
  induction l as [|x l IH].
  { cbn. split; [lia|]. by intros (x & ?%elem_of_nil & _). }
  rewrite filter_cons. case_decide as Hx.
  - cbn [length]. split; [|lia].
    intros _. exists x. split; [by left|by apply Is_true_true].
  - rewrite IH. split.
    + intros (y & ? & ?). exists y. split; [by right|done].
    + intros (y & [->|?]%elem_of_cons & Hy); [|by exists y].
      by rewrite Hy in Hx.
Qed.

Lemma all_equal_replicate (N : Z) (l : list Z) :
  (∀ n, n ∈ l → n = N) → l = replicate (count N l) N.
Proof.
  induction l as [|x l IH]; intros Hall; [done|].
  rewrite count_cons. assert (x = N) as -> by (apply Hall; by left).
  rewrite bool_decide_eq_true_2 by done. cbn [Nat.add replicate]. f_equal.
  apply IH. intros n Hn. apply Hall. by right.
Qed.

Section Invariant.
Context `{PropertyClasses}.
Implicit Types m : InstrumentsManager.
Implicit Types i : AbstractInstrument.

Lemma refCount_pos i k s :
  (0 < refCount i k s)%nat ↔
  ∃ l, l ∈ linksOf (getSoundSource i) ∧ pointsAt i k s l = true.
Proof.
  unfold refCount, refCountX.
  rewrite (length_filter_ext _ (λ l, pointsAt i k s l)).
  2:{ intros l _. rewrite bool_decide_eq_false_2 by (by intros ?%elem_of_nil).
      apply andb_true_r. }
  apply length_filter_pos.
Qed.

Lemma countsRight_members m :
  countsRight m →
  ∀ k s n, n ∈ slotUsers m k s ↔
           ∃ i l, instOf m n = Some i ∧ l ∈ linksOf (getSoundSource i) ∧
                  pointsAt i k s l = true.
Proof.
  intros Hc k s n. rewrite <- count_pos, (Hc n k s). unfold refCountOf.
  destruct (instOf m n) as [i|].
  - rewrite refCount_pos. split; [intros (l & ? & ?); by exists i, l|].
    intros (i' & l & [= <-] & ? & ?). by exists l.
  - split; [lia|]. by intros (i & l & [=] & _).
Qed.

Lemma countsRight_new unedited : countsRight (InstrumentsManager_new unedited).
Proof.
  intros n k s. unfold refCountOf.
  assert (instOf (InstrumentsManager_new unedited) n = None) as ->.
  { unfold instOf. destruct (lookupZ _ _) as [o|] eqn:Ho; [|done].
    apply lookupZ_Some in Ho as [_ Ho].
    unfold InstrumentsManager_new, clearAll in Ho. cbn [insts_] in Ho.
    apply lookup_replicate in Ho as [-> _]. done. }
  apply count_zero. unfold slotUsers.
  destruct (lookupZ _ _) as [p|] eqn:Hp; [|by intros ?%elem_of_nil].
  apply lookupZ_Some in Hp as [_ Hp]. apply list_elem_of_lookup_2 in Hp.
  unfold InstrumentsManager_new, clearAll in Hp. cbn [pools_] in Hp.
  destruct (validKind k); [|by apply elem_of_nil in Hp].
  apply list_elem_of_In, in_map_iff in Hp as (j & <- & _). by intros ?%elem_of_nil.
Qed.

Lemma cloneInstrument_range c r m m' :
  wellFormed m → cloneInstrument c r m = Ok (tt, m') → 0 <= c < 128.
Proof.
  intros Hwf Hrun. unfold cloneInstrument in Hrun.
  rewrite (bind_run _ _ _ _ _ (gets_run _ _)) in Hrun.
  apply bind_Ok in Hrun as (o & m0 & [Ho%at_Ok ->]%lift_Ok & Hrun).
  apply bind_Ok in Hrun as (ref & m0 & [Hd ->]%lift_Ok & Hrun).
  apply bind_Ok in Hrun as ([] & m1 & Hadd & Hrun).
  rewrite (bind_run _ _ _ _ _ (gets_run _ _)) in Hrun.
  apply bind_Ok in Hrun as (oc & m0 & [Hoc%at_Ok ->]%lift_Ok & Hrun).
  pose proof (pres_touchesOnly_addInstrument c m _ _ _ _ _ Hadd (touchesOnly_refl _ _))
    as Htouch.
  apply lookupZ_lt in Hoc. destruct Htouch as (_ & _ & Hlen & _).
  destruct Hwf as [Hi _]. unfold size in Hoc. lia.
Qed.

Lemma setEnvelopeReset_counts N t e m m' :
  countsRight m →
  setInstrumentFMEnvelopeResetEnabled N t e m = Ok (tt, m') →
  countsRight m' ∧ 0 <= N.
Proof.
  intros Hc Hrun.
  assert (∃ ic, instOf m N = Some ic) as [ic Hi].
  { unfold setInstrumentFMEnvelopeResetEnabled in Hrun.
    rewrite (bind_run _ _ _ _ _ (gets_run _ _)) in Hrun.
    apply bind_Ok in Hrun as (o & m0 & [Ho%idx_Ok ->]%lift_Ok & Hrun).
    apply bind_Ok in Hrun as (inst & m0 & [Hd ->]%lift_Ok & Hrun).
    unfold instOf. rewrite Ho. destruct o; [by eexists|done]. }
  assert (copying N (getSoundSource ic) [] m) as Hcp.
  { split; [done|]. exists ic. split_and!; [done..|]. by intros l ?%elem_of_nil. }
  destruct (copying_envelopeReset _ _ _ _ _ _ _ Hcp Hrun) as [Hc' _].
  split; [done|]. apply instOf_range in Hi. lia.
Qed.

Lemma mutateProperty_sameUsers k n f m m' :
  mutateProperty k n f m = Ok (tt, m') → sameUsers m m'.
Proof.
  intros (_ & p & Hp & ->)%updateAt_Ok. split_and!; [done..|].
  intros k'. rewrite pools_setPool. case_decide as Hk; [subst k'|done].
  rewrite list_fmap_insert. cbn [users_]. apply list_insert_id.
  apply lookupZ_Some in Hp as [_ Hp]. by rewrite list_lookup_fmap, Hp.
Qed.

(** Every call that the editor makes keeps the arrays and the counts. *)
Lemma call_invariant m c m' :
  wellFormed m → countsRight m → admissible m c → call c m = Ok (tt, m') →
  wellFormed m' ∧ countsRight m'.
Proof.
  intros Hwf Hc Hadm Hrun.
  destruct c as [N src name|N|N r|N r|l N e|l N num|N t e|k n f];
    cbn [call admissible] in Hadm, Hrun.
  - split.
    + eapply touchesOnly_wellFormed; [|done].
      exact (pres_touchesOnly_addInstrument _ m _ _ _ _ _ Hrun (touchesOnly_refl _ _)).
    + by destruct (addInstrument_counts _ _ _ m m' Hwf Hc Hadm Hrun).
  - apply bind_Ok in Hrun as (i & m1 & Hrem & Hret). injection Hret as <-.
    destruct (removeInstrument_counts _ _ _ _ Hc Hrem) as (Hc' & Hi & _).
    split; [|done]. eapply touchesOnly_wellFormed; [|done].
    apply instOf_range in Hi.
    exact (pres_touchesOnly_removeInstrument N m ltac:(lia) _ _ _ Hrem
             (touchesOnly_refl _ _)).
  - pose proof (cloneInstrument_range _ _ _ _ Hwf Hrun) as Hr. split.
    + eapply touchesOnly_wellFormed; [|done].
      exact (pres_touchesOnly_cloneInstrument N m r ltac:(lia) _ _ _ Hrun
               (touchesOnly_refl _ _)).
    + by eapply cloneInstrument_counts.
  - destruct (deepCloneInstrument_cloned _ _ _ _ Hwf Hc Hadm Hrun)
      as (ref & clone & _ & Hc' & Ht & _).
    split; [by eapply touchesOnly_wellFormed|done].
  - destruct Hadm as [Hf Hflag].
    destruct (setInstrumentPropertyEnabled_counts _ _ _ _ _ Hc Hf Hflag Hrun)
      as (Hc' & i & Hi & _).
    split; [|done]. eapply touchesOnly_wellFormed; [|done].
    apply instOf_range in Hi.
    exact (pres_touchesOnly_setInstrumentPropertyEnabled N m l e ltac:(lia) _ _ _ Hrun
             (touchesOnly_refl _ _)).
  - destruct (setInstrumentProperty_counts _ _ _ _ _ Hc Hrun) as (Hc' & i & Hi & _).
    split; [|done]. eapply touchesOnly_wellFormed; [|done].
    apply instOf_range in Hi.
    exact (pres_touchesOnly_setInstrumentProperty N m l num ltac:(lia) _ _ _ Hrun
             (touchesOnly_refl _ _)).
  - destruct (setEnvelopeReset_counts _ _ _ _ _ Hc Hrun) as [Hc' HN].
    split; [|done]. eapply touchesOnly_wellFormed; [|done].
    exact (pres_touchesOnly_setEnvelopeReset _ m _ _ HN _ _ _ Hrun
             (touchesOnly_refl _ _)).
  - apply mutateProperty_sameUsers in Hrun.
    split; [by eapply sameUsers_wellFormed|].
    apply (countsRight_pending 0). eapply pending_sameUsers; [done|].
    by apply (countsRight_pending 0).
Qed.

Lemma reachable_invariant m : reachable m → wellFormed m ∧ countsRight m.
Proof.
  induction 1 as [unedited|m c m' _ [Hwf Hc] Hadm Hrun].
  - split; [apply wellFormed_new|apply countsRight_new].
  - by eapply call_invariant.
Qed.

End Invariant.

Section Sessions.
Context `{PropertyClasses}.
Implicit Types m : InstrumentsManager.
Implicit Types i : AbstractInstrument.

Lemma pointedBy_spec m n k s :
  pointedBy m n k s = true ↔
  ∃ i l, instOf m n = Some i ∧ l ∈ linksOf (getSoundSource i) ∧ pointsAt i k s l = true.
Proof.
  unfold pointedBy. destruct (instOf m n) as [i|].
  - rewrite existsb_exists. split.
    + intros (l & Hl%list_elem_of_In & Hp). by exists i, l.
    + intros (i' & l & [= <-] & Hl%list_elem_of_In & Hp). by exists l.
  - split; [done|]. by intros (i & l & [=] & _).
Qed.

Lemma admissibleb_spec m c : admissibleb m c = true → admissible m c.
Proof.
  destruct c as [N src name|N|N r|N r|l N e|l N num|N t e|k n f];
    cbn [admissibleb admissible]; try done; try (by destruct (instOf m N)).
  intros [Hf Hflag]%andb_true_iff. split; [by destruct (fixedLink l)|].
  intros i Hi. rewrite Hi in Hflag. by apply bool_decide_eq_true in Hflag.
Qed.

Lemma returns_calls cs : ∀ m, returns cs m = true → calls cs m = Ok (tt, after cs m).
Proof.
  induction cs as [|c cs IH]; intros m Hrun; [done|]. cbn [returns calls after] in *.
  destruct (call c m) as [[[] m1]|e] eqn:Hc; [|done].
  rewrite (bind_run _ _ _ _ _ Hc). by apply IH.
Qed.

Lemma returns_call c m : returns [c] m = true → call c m = Ok (tt, after [c] m).
Proof. cbn [returns after]. by destruct (call c m) as [[[] m1]|e]. Qed.

Lemma returns_deepCloneInstrument c r m :
  returns [CDeepClone c r] m = true →
  deepCloneInstrument c r m = Ok (tt, after [CDeepClone c r] m).
Proof. exact (returns_call (CDeepClone c r) m). Qed.

Lemma returns_mutateProperty k n f m :
  returns [CMutate k n f] m = true →
  mutateProperty k n f m = Ok (tt, after [CMutate k n f] m).
Proof. exact (returns_call (CMutate k n f) m). Qed.

Lemma after_app cs1 cs2 m :
  returns cs1 m = true → after (cs1 ++ cs2) m = after cs2 (after cs1 m).
Proof.
  revert m. induction cs1 as [|c cs1 IH]; intros m Hr; [done|].
  cbn [returns after app] in *. destruct (call c m) as [[[] m1]|e]; [by apply IH|done].
Qed.

Lemma runsWell_returns cs : ∀ m, runsWell cs m = true → returns cs m = true.
Proof.
  induction cs as [|c cs IH]; intros m Hrun; [done|]. cbn [runsWell returns] in *.
  apply andb_true_iff in Hrun as [_ Hrun].
  destruct (call c m) as [[[] m1]|e]; [by apply IH|done].
Qed.

(** A reference in force names a slot that exists. *)
Lemma countsRight_linksInRange m : wellFormed m → countsRight m → linksInRange m.
Proof.
  intros Hwf Hc n i Hi l Hl He.
  pose proof (proj2 (countsRight_members m Hc (link_kind l) (getLinkNumber l i) n)) as Hin.
  unfold slotUsers in Hin.
  destruct (lookupZ (pools_ m (link_kind l)) (getLinkNumber l i)) as [p|] eqn:Hp.
  - apply lookupZ_lt in Hp. unfold size in Hp. destruct Hwf as [_ Hpools].
    specialize (Hpools (link_kind l)). destruct (validKind (link_kind l)); lia.
  - exfalso. eapply elem_of_nil, Hin. exists i, l. split_and!; [done..|].
    by apply pointsAt_true.
Qed.

Lemma runsWell_reachable cs : ∀ m,
  reachable m → runsWell cs m = true → reachable (after cs m).
Proof.
  induction cs as [|c cs IH]; intros m Hm Hrun; [done|]. cbn [runsWell after] in *.
  apply andb_true_iff in Hrun as [Hadm%admissibleb_spec Hrun].
  destruct (call c m) as [[[] m1]|e] eqn:Hc; [|done].
  apply IH; [|done]. by eapply reachable_call.
Qed.

End Sessions.

Section ManagerProperties.
Context `{PropertyClasses}.
Implicit Types m : InstrumentsManager.
Implicit Types i : AbstractInstrument.

Lemma payloadAt_mutateProperty k s f m m' k' s' :
  mutateProperty k s f m = Ok (tt, m') → (k', s') ≠ (k, s) →
  payloadAt m' k' s' = payloadAt m k' s'.
Proof.
  intros (_ & p & Hp & ->)%updateAt_Ok Hne. unfold payloadAt.
  rewrite pools_setPool. case_decide as Hk; [subst k'|done].
  pose proof (lookupZ_lt _ _ _ Hp) as Hs.
  rewrite lookupZ_insert by (unfold size in Hs; lia).
  rewrite bool_decide_eq_false_2; [done|]. rewrite Z2Nat.id by lia. congruence.
Qed.

Lemma exclusive_replicate N k s m :
  exclusive N k s m → slotUsers m k s = replicate (count N (slotUsers m k s)) N.
Proof. intros Hex. by apply all_equal_replicate. Qed.

Lemma enabled_registered m n i l :
  countsRight m → instOf m n = Some i → l ∈ linksOf (getSoundSource i) →
  getLinkEnabled l i = true →
  n ∈ slotUsers m (link_kind l) (getLinkNumber l i).
Proof.
  intros Hc Hi Hl He. apply (countsRight_members m Hc). exists i, l.
  split_and!; [done..|]. by apply pointsAt_true.
Qed.

(** C1: after the calls that the editor makes (a new instrument, a clone
    or a deep clone goes to a free number; a flag is set to the value it
    does not have), every slot of every pool lists exactly the stored
    instruments that have a reference in force to it, and lists each as
    often as it has such references. *)
Theorem reference_counts_invariant m :
  reachable m →
  ∀ k s n, (n ∈ slotUsers m k s ↔ pointedBy m n k s = true) ∧
           count n (slotUsers m k s) = refCountOf m n k s.
Proof.
  intros [_ Hc]%reachable_invariant k s n. split; [|apply Hc].
  rewrite pointedBy_spec. by apply countsRight_members.
Qed.

(** C5: when the reference counts are right and the number of the clone
    is free, a deep clone that returns leaves the instrument cloned as it
    was, gives the clone the flags of that instrument and, for every
    reference in force, a slot that no other instrument uses: it is none
    of the slots of the same pool that the instrument cloned refers to,
    so a change of the payload on either side leaves the other side as it
    is; and the counts are right again, so the slot that [addInstrument]
    gave the clone for the time being keeps no registration of it. *)
Theorem deepCloneInstrument_independent c r m m' :
  wellFormed m → countsRight m → instOf m c = None →
  deepCloneInstrument c r m = Ok (tt, m') →
  ∃ ref clone,
    instOf m r = Some ref ∧ instOf m' r = Some ref ∧ instOf m' c = Some clone ∧
    getSoundSource clone = getSoundSource ref ∧
    (∀ l, l ∈ linksOf (getSoundSource ref) →
          getLinkEnabled l clone = getLinkEnabled l ref) ∧
    (∀ l l', l ∈ linksOf (getSoundSource ref) → l' ∈ linksOf (getSoundSource ref) →
       link_kind l' = link_kind l →
       getLinkEnabled l ref = true → getLinkEnabled l' ref = true →
       getLinkNumber l clone ≠ getLinkNumber l' ref ∧
       (∀ f m'', mutateProperty (link_kind l) (getLinkNumber l clone) f m' = Ok (tt, m'') →
                 payloadAt m'' (link_kind l') (getLinkNumber l' ref)
                 = payloadAt m' (link_kind l') (getLinkNumber l' ref)) ∧
       (∀ f m'', mutateProperty (link_kind l') (getLinkNumber l' ref) f m' = Ok (tt, m'') →
                 payloadAt m'' (link_kind l) (getLinkNumber l clone)
                 = payloadAt m' (link_kind l) (getLinkNumber l clone))) ∧
    (∀ l, l ∈ linksOf (getSoundSource ref) → getLinkEnabled l ref = true →
          slotUsers m' (link_kind l) (getLinkNumber l clone)
          = replicate (refCount clone (link_kind l) (getLinkNumber l clone)) c) ∧
    (∀ k s, c ∈ slotUsers m' k s ↔ pointedBy m' c k s = true).
Proof.
  intros Hwf Hc Hfree Hrun.
  destruct (deepCloneInstrument_cloned c r m m' Hwf Hc Hfree Hrun)
    as (ref & clone & Href & Hc' & Ht & Hclone & Hs & Hcloned).
  assert (r ≠ c) as Hrc by (intros ->; congruence).
  assert (instOf m' r = Some ref) as Href'.
  { destruct Ht as (_ & _ & _ & Hi & _). by rewrite Hi. }
  assert (∀ l l', l ∈ linksOf (getSoundSource ref) → l' ∈ linksOf (getSoundSource ref) →
     link_kind l' = link_kind l →
     getLinkEnabled l ref = true → getLinkEnabled l' ref = true →
     getLinkNumber l clone ≠ getLinkNumber l' ref) as Hdistinct.
  { intros l l' Hl Hl' Hk He He' Heq.
    destruct (Hcloned l Hl) as (ic & Hic & _ & Hex).
    assert (ic = clone) as -> by congruence.
    pose proof (enabled_registered m' r ref l' Hc' Href' Hl' He') as Hreg.
    rewrite Hk, <- Heq in Hreg. by apply (Hex He) in Hreg. }
  exists ref, clone. split_and!; [done..| | | |].
  - intros l Hl. destruct (Hcloned l Hl) as (ic & Hic & He & _). congruence.
  - intros l l' Hl Hl' Hk He He'.
    pose proof (Hdistinct l l' Hl Hl' Hk He He') as Hne.
    split_and!; [done| |].
    + intros f m'' Hmut. apply (payloadAt_mutateProperty _ _ _ _ _ _ _ Hmut).
      rewrite Hk. congruence.
    + intros f m'' Hmut. apply (payloadAt_mutateProperty _ _ _ _ _ _ _ Hmut).
      rewrite Hk. congruence.
  - intros l Hl He. destruct (Hcloned l Hl) as (ic & Hic & _ & Hex).
    assert (ic = clone) as -> by congruence. specialize (Hex He).
    pose proof (Hc' c (link_kind l) (getLinkNumber l clone)) as Hcount.
    unfold refCountOf in Hcount. rewrite Hclone in Hcount. rewrite <- Hcount.
    by apply exclusive_replicate.
  - intros k s. rewrite pointedBy_spec. by apply countsRight_members.
Qed.

End ManagerProperties.

(** ** The direct register queue *)

Lemma bind_assoc {S A B D} (c : StateErr S A) (k1 : A → StateErr S B)
    (k2 : B → StateErr S D) s :
  ((c ≫= k1) ≫= k2) s = (c ≫= λ a, k1 a ≫= k2) s.
Proof. unfold mbind, StateErr_bind. by destruct (c s) as [[a s1]|]. Qed.

Lemma back_snoc {A} (l : list A) x : back (l ++ [x]) = Some x.
Proof. induction l as [|y l IH]; [done|]. simpl. rewrite IH. by destruct l. Qed.

Lemma pop_back_snoc {A} (l : list A) x : pop_back (l ++ [x]) = l.
Proof. induction l as [|y l IH]; [done|]. simpl. rewrite IH. by destruct l. Qed.

Lemma back_None {A} (l : list A) : back l = None → l = [].
Proof.
  induction l as [|y l IH]; [done|]. simpl. destruct l; [done|].
  intros Hb. by specialize (IH Hb).
Qed.

Lemma back_Some {A} (l : list A) x : back l = Some x → l = pop_back l ++ [x].
Proof.
  induction l as [|y l IH]; [done|]. destruct l as [|z l]; [naive_solver|].
  intros Hb. change (y :: z :: l = y :: (pop_back (z :: l) ++ [x])).
  f_equal. by apply IH.
Qed.

Lemma setRegister_run `{ControllerParts} offset val (c : OPNAController) :
  setRegister offset val c = Ok (tt, set_writes_ (writes_ c ++ [narrow (offset, val)]) c).
Proof. reflexivity. Qed.

(** Reading a member of an updated controller. *)
Ltac cnorm :=
  cbn [
       mode_ writes_ registerSetBuf_ keyOnFlagDrum_ keyOffFlagDrum_
       dramSize_ storePointADPCM_ lfoFreq_ envFM_ refInstFM_ panFM_
       lfoStartCntFM_ opSeqItFM_ isMuteFM_ hasPreSetTickEventFM_ baseVolFM_
       tmpVolFM_ baseToneFM_ keyToneFM_ needToneSetFM_ hasKeyOnBeforeFM_
       arpItFM_ ptItFM_ vibItFM_ treItFM_ nsItFM_ prtmFM_ isTonePrtmFM_
       sumPitchFM_ volSldFM_ sumVolSldFM_ detuneFM_ sumNoteSldFM_
       transposeFM_ set_writes_ set_registerSetBuf_ set_keyOnFlagDrum_
       set_keyOffFlagDrum_ set_storePointADPCM_ set_lfoFreq_ set_envFM_
       set_lfoStartCntFM_ set_opSeqItFM_ set_hasPreSetTickEventFM_
       set_keyToneFM_ set_needToneSetFM_ set_arpItFM_ set_ptItFM_
       set_vibItFM_ set_treItFM_ set_nsItFM_ set_sumPitchFM_
       set_sumVolSldFM_ set_sumNoteSldFM_ ].

(** One step of a run whose first action is a primitive one. *)
Ltac mrun1 :=
  lazymatch goal with
  | |- context [(?a ≫= ?k) ?s] =>
      lazymatch a with
      | _ ≫= _ => rewrite (bind_assoc _ _ k s)
      | setRegister ?o ?v => rewrite (bind_run a k s _ _ (setRegister_run o v s))
      | modify ?f => rewrite (bind_run a k s _ _ (modify_run f s))
      | gets ?f => rewrite (bind_run a k s _ _ (gets_run f s))
      | mret ?x => rewrite (bind_run a k s _ _ (ret_run x s))
      | lift (Ok ?x) => rewrite (bind_run a k s _ _ (lift_run x s))
      end
  end; cbv beta iota; cnorm.

Ltac mrun := repeat mrun1.

Section Queue.
Context `{ControllerParts}.
Implicit Types c : OPNAController.
Implicit Types b : list RegisterUnit.

Lemma set_registerSetBuf_id c : set_registerSetBuf_ (registerSetBuf_ c) c = c.
Proof. by destruct c. Qed.

Lemma set_writes_id c : set_writes_ (writes_ c) c = c.
Proof. by destruct c. Qed.

Lemma sends_run sends : ∀ c,
  ∃ b', forM_ sends send c = Ok (tt, set_registerSetBuf_ b' c) ∧
        flushOut b' = expected (registerSetBuf_ c) sends.
Proof.
  induction sends as [|s sends IH]; intros c.
  - exists (registerSetBuf_ c). split; [by rewrite set_registerSetBuf_id|].
    unfold flushOut, expected. destruct (back (registerSetBuf_ c)) as [u|] eqn:Hb; [|done].
    cbn [queued valueRun default]. destruct (hasCompleted u); rewrite ?app_nil_r; [|done].
    rewrite (back_Some _ _ Hb) at 1. by rewrite fmap_app.
  - cbn [forM_].
    assert (∃ b1, send s c = Ok (tt, set_registerSetBuf_ b1 c) ∧
                  expected b1 sends = expected (registerSetBuf_ c) (s :: sends))
      as (b1 & Hs & Hexp).
    { destruct s as [bank addr|val]; cbn [send].
      - unfold sendRegisterAddress. rewrite modify_run.
        unfold expected at 2. cbn [valueRun queued].
        destruct (back (registerSetBuf_ c)) as [u|] eqn:Hb.
        + destruct (hasCompleted u) eqn:Hu.
          * eexists. split; [done|]. unfold expected.
            rewrite back_snoc, pop_back_snoc. cbn [hasCompleted address default].
            rewrite (back_Some _ _ Hb) at 1. rewrite fmap_app, <- !app_assoc.
            do 2 f_equal. 
          * eexists. split; [done|]. unfold expected.
            rewrite back_snoc, pop_back_snoc. done.
        + eexists. split; [done|]. unfold expected. rewrite (back_None _ Hb).
          by rewrite back_snoc, pop_back_snoc.
      - unfold sendRegisterValue. rewrite modify_run.
        unfold expected at 2. cbn [valueRun queued].
        destruct (back (registerSetBuf_ c)) as [u|] eqn:Hb.
        + eexists. split; [done|]. unfold expected.
          rewrite back_snoc, pop_back_snoc. cbn [hasCompleted address value default].
          by destruct (hasCompleted u).
        + exists (registerSetBuf_ c). split; [by rewrite set_registerSetBuf_id|].
          unfold expected. by rewrite Hb. }
    rewrite (bind_run _ _ _ _ _ Hs).
    destruct (IH (set_registerSetBuf_ b1 c)) as (b' & Hr & Hf).
    exists b'. split; [by rewrite Hr|]. by rewrite Hf, <- Hexp.
Qed.

Lemma forM_setRegister {A} (f g : A → Z) (xs : list A) : ∀ c,
  forM_ xs (λ x, setRegister (f x) (g x)) c
  = Ok (tt, set_writes_ (writes_ c ++ ((λ x, narrow (f x, g x)) <$> xs)) c).
Proof.
  induction xs as [|x xs IH]; intros c.
  - rewrite fmap_nil, app_nil_r, set_writes_id. done.
  - rewrite fmap_cons. cbn [forM_].
    assert (setRegister (f x) (g x) c
            = Ok (tt, set_writes_ (writes_ c ++ [narrow (f x, g x)]) c)) as Hs by done.
    rewrite (bind_run _ _ _ _ _ Hs), IH. cbn [writes_ set_writes_].
    by rewrite <- app_assoc.
Qed.

Lemma updateKeyOnOffStatusDrum_run c :
  updateKeyOnOffStatusDrum c
  = Ok (tt, (if bool_decide (keyOffFlagDrum_ c ≠ 0) then set_keyOffFlagDrum_ 0 else id)
              ((if bool_decide (keyOnFlagDrum_ c ≠ 0) then set_keyOnFlagDrum_ 0 else id)
                 (set_writes_ (writes_ c ++ drumWrites c) c))).
Proof.
  unfold updateKeyOnOffStatusDrum, drumWrites, setRegister.
  unfold mbind, StateErr_bind, gets, modify, mret, StateErr_ret.
  repeat case_bool_decide; cbn; rewrite ?app_nil_r, ?set_writes_id; try done.
  - by rewrite <- app_assoc.
Qed.

Lemma updateRegisterStates_run c :
  ∃ c', updateRegisterStates c = Ok (tt, c') ∧
        writes_ c' = writes_ c ++ drumWrites c
                     ++ (narrow <$> flushOut (registerSetBuf_ c)) ∧
        registerSetBuf_ c' = [] ∧ keyOnFlagDrum_ c' = 0 ∧ keyOffFlagDrum_ c' = 0.
Proof.
  unfold updateRegisterStates.
  rewrite (bind_run _ _ _ _ _ (updateKeyOnOffStatusDrum_run c)).
  set (c1 := (if bool_decide (keyOffFlagDrum_ c ≠ 0) then _ else _) _).
  assert (writes_ c1 = writes_ c ++ drumWrites c ∧ registerSetBuf_ c1 = registerSetBuf_ c
          ∧ keyOnFlagDrum_ c1 = 0 ∧ keyOffFlagDrum_ c1 = 0) as (Hw & Hb & Hon & Hoff).
  { subst c1. repeat case_bool_decide; cbn; split_and!; try done; naive_solver. }
  rewrite (bind_run _ _ _ _ _ (gets_run _ _)). rewrite Hb. unfold flushOut.
  destruct (back (registerSetBuf_ c)) as [u|] eqn:Hbk.
  - rewrite (bind_run _ _ _ _ _ (forM_setRegister address value _ _)).
    rewrite modify_run. eexists. split; [done|]. cbn. rewrite Hw, <- app_assoc.
    split_and!; try done. do 2 f_equal. rewrite <- list_fmap_compose.
    by destruct (hasCompleted u).
  - exists c1. split; [done|]. rewrite Hw, Hb, app_nil_r. split_and!; try done.
    by apply back_None.
Qed.

(** C4: the sends of one tick that start on an empty buffer are flushed
    by one call of [updateRegisterStates], after the key writes of the
    drums: each address is written with the last value of the run of
    values sent directly after it, in the order of the addresses sent; an
    address that no value follows is dropped, a repeated address is
    written again, and the buffer is empty afterwards. *)
Theorem direct_register_queue_flush (sends : list Send) (c : OPNAController) :
  registerSetBuf_ c = [] →
  ∃ c', (forM_ sends send ;; updateRegisterStates) c = Ok (tt, c') ∧
        writes_ c' = writes_ c ++ drumWrites c ++ (narrow <$> queued sends) ∧
        registerSetBuf_ c' = [].
Proof.
  intros Hb. destruct (sends_run sends c) as (b' & Hr & Hf).
  rewrite (bind_run _ _ _ _ _ Hr).
  destruct (updateRegisterStates_run (set_registerSetBuf_ b' c)) as (c' & Hu & Hw & Hb' & _).
  exists c'. split; [done|]. split; [|done].
  rewrite Hw. cbn [registerSetBuf_ set_registerSetBuf_ writes_]. rewrite Hf.
  unfold expected. by rewrite Hb.
Qed.

End Queue.

(** ** ADPCM sample storage *)

Section Storage.
Context `{ControllerParts}.
Implicit Types c : OPNAController.

Lemma usize_small x : 0 <= x < 18446744073709551616 → usize x = x.
Proof. intros. unfold usize. by apply Z.mod_small. Qed.

Lemma usize_range x : 0 <= usize x < 18446744073709551616.
Proof. unfold usize. by apply Z.mod_pos_bound. Qed.

Lemma dramLimit_range c : 0 <= dramLimit c < 576460752303423488.
Proof.
  unfold dramLimit. rewrite Z.shiftr_div_pow2 by lia.
  pose proof (usize_range (dramSize_ c - 1)).
  change (2 ^ 5) with 32. split; [apply Z.div_pos; lia|].
  apply Z.div_lt_upper_bound; lia.
Qed.

Lemma storeSampleADPCM_full c sample :
  dramLimit c <= storePointADPCM_ c →
  ∃ c', storeSampleADPCM sample c = Ok ((0, 0), c') ∧
        storePointADPCM_ c' = storePointADPCM_ c ∧ dramSize_ c' = dramSize_ c.
Proof.
  intros Hfull. unfold storeSampleADPCM. mrun.
  cbn [storePointADPCM_ dramSize_ set_writes_]. fold (dramLimit c).
  rewrite (proj2 (Z.ltb_ge _ _) Hfull). mrun. rewrite ret_run. eauto.
Qed.

Lemma storeSampleADPCM_run c sample :
  0 <= storePointADPCM_ c < dramLimit c →
  let stop := Z.min (usize (storePointADPCM_ c
                            + Z.shiftr (usize (size sample - 1)) 5)) (dramLimit c) in
  ∃ c', storeSampleADPCM sample c = Ok ((storePointADPCM_ c, stop), c') ∧
        storePointADPCM_ c' = stop + 1 ∧ dramSize_ c' = dramSize_ c.
Proof.
  intros Hfree stop. unfold storeSampleADPCM. mrun.
  cbn [storePointADPCM_ dramSize_ set_writes_]. fold (dramLimit c).
  rewrite (proj2 (Z.ltb_lt _ _) (proj2 Hfree)). mrun.
  match goal with |- context [forM_ sample ?b] =>
    rewrite (bind_run _ _ _ _ _ (forM_setRegister (λ _, 0x108) id sample _)) end.
  mrun. rewrite ret_run. eexists. split; [done|].
  cbn [storePointADPCM_ dramSize_ set_writes_ set_storePointADPCM_]. split; [|done].
  fold stop. apply usize_small. pose proof (dramLimit_range c).
  pose proof (usize_range (storePointADPCM_ c + usize (size sample - 1) ≫ 5)).
  subst stop. lia.
Qed.

Lemma size_nonempty {A} (l : list A) : l ≠ [] → 0 < size l.
Proof. destruct l; [done|]. unfold size. simpl length. lia. Qed.

Lemma sample_blocks (sample : list Z) :
  sample ≠ [] → size sample < 18446744073709551616 →
  Z.shiftr (usize (size sample - 1)) 5 = (size sample - 1) / 32.
Proof.
  intros Hne%size_nonempty Hsz. rewrite usize_small by lia.
  by rewrite Z.shiftr_div_pow2.
Qed.

(** C8: while the allocation pointer is below the limit of the sample
    memory, [storeSampleADPCM] returns the pointer and a stop address
    between the pointer and the limit, which for a sample that is not
    empty is the pointer plus the number of further blocks of 32 bytes,
    capped at the limit, and moves the pointer behind the stop address.
    The next store starts there while that is below the limit; when it is
    not, the store returns (0, 0) and leaves the pointer where it is.
    After [clearSamplesADPCM] the pointer is 0 and the next store starts
    at address 0. *)
Theorem storeSampleADPCM_bump_allocator c sample :
  0 <= storePointADPCM_ c < dramLimit c →
  ∃ c' stop,
    storeSampleADPCM sample c = Ok ((storePointADPCM_ c, stop), c') ∧
    storePointADPCM_ c <= stop <= dramLimit c ∧
    (sample ≠ [] → size sample < 18446744073709551616 →
     stop = Z.min (storePointADPCM_ c + (size sample - 1) / 32) (dramLimit c)) ∧
    storePointADPCM_ c' = stop + 1 ∧
    (∀ sample2, stop + 1 < dramLimit c →
       ∃ c'' stop2, storeSampleADPCM sample2 c' = Ok ((stop + 1, stop2), c'') ∧
                    stop + 1 <= stop2 <= dramLimit c) ∧
    (∀ sample2, dramLimit c <= stop + 1 →
       ∃ c'', storeSampleADPCM sample2 c' = Ok ((0, 0), c'') ∧
              storePointADPCM_ c'' = stop + 1) ∧
    (∀ sample2, 0 < dramLimit c →
       ∃ c0 c'' stop2, clearSamplesADPCM c' = Ok (tt, c0) ∧
                       storePointADPCM_ c0 = 0 ∧
                       storeSampleADPCM sample2 c0 = Ok ((0, stop2), c'')).
Proof.
  intros Hfree.
  assert (∀ c1 (s : list Z), 0 <= storePointADPCM_ c1 < dramLimit c1 →
    storePointADPCM_ c1
    <= Z.min (usize (storePointADPCM_ c1 + Z.shiftr (usize (size s - 1)) 5)) (dramLimit c1)
    <= dramLimit c1) as Hbound.
  { intros c1 s Hf. pose proof (dramLimit_range c1).
    pose proof (usize_range (size s - 1)) as Hs.
    assert (0 <= Z.shiftr (usize (size s - 1)) 5 < 576460752303423488).
    { rewrite Z.shiftr_div_pow2 by lia. change (2 ^ 5) with 32.
      split; [apply Z.div_pos; lia|apply Z.div_lt_upper_bound; lia]. }
    rewrite usize_small by lia. lia. }
  destruct (storeSampleADPCM_run c sample Hfree) as (c' & Hr & Hp & Hd).
  pose proof (Hbound c sample Hfree) as Hb1.
  assert (dramLimit c' = dramLimit c) as Hlim by (unfold dramLimit; by rewrite Hd).
  set (stop := Z.min _ (dramLimit c)) in *.
  exists c', stop. split; [exact Hr|]. split; [done|].
  split_and!.
  - intros Hne Hsz. subst stop. rewrite sample_blocks by done.
    rewrite usize_small; [done|]. pose proof (dramLimit_range c).
    apply size_nonempty in Hne.
    assert (0 <= (size sample - 1) / 32 < 576460752303423488)
      by (split; [apply Z.div_pos; lia|apply Z.div_lt_upper_bound; lia]).
    lia.
  - done.
  - intros sample2 Hnext.
    assert (0 <= storePointADPCM_ c' < dramLimit c') as Hfree2 by (rewrite Hp, Hlim; lia).
    destruct (storeSampleADPCM_run c' sample2 Hfree2) as (c'' & Hr2 & _).
    specialize (Hbound c' sample2 Hfree2).
    rewrite Hp in Hr2. eexists c'', _. split; [exact Hr2|].
    rewrite Hp, Hlim in Hbound. rewrite Hlim. exact Hbound.
  - intros sample2 Hfull.
    destruct (storeSampleADPCM_full c' sample2) as (c'' & Hr2 & Hp2 & _);
      [rewrite Hp, Hlim; lia|].
    exists c''. split; [done|]. by rewrite Hp2.
  - intros sample2 Hpos.
    destruct (storeSampleADPCM_run (set_storePointADPCM_ 0 c') sample2) as (c'' & Hr2 & _).
    { cbn [storePointADPCM_ set_storePointADPCM_]. unfold dramLimit in *.
      cbn [dramSize_ set_storePointADPCM_]. rewrite Hd. lia. }
    eexists _, c'', _. split; [reflexivity|]. split; [reflexivity|]. exact Hr2.
Qed.

End Storage.

(** ** The tone write of a tick *)

Section Tone.
Context `{ControllerParts} `{!ControllerMembers}.
Implicit Types c : OPNAController.

Ltac due_mod :=
  let c := fresh "c" in let Hc := fresh "Hc" in
  intros c [Hc|Hc]; [left|right]; cnorm; rewrite ?upd_same; done.

Ltac need_mod :=
  let c := fresh "c" in let Hc := fresh "Hc" in
  intros c Hc; cnorm; rewrite ?upd_same; done.

(** One step of a run that returned. *)
Ltac minv H x c1 H1 := apply bind_Ok in H as (x & c1 & H1 & H).

Lemma getFMChannelOffset_state ch forPitch c offset c' :
  getFMChannelOffset ch forPitch c = Ok (offset, c') → c' = c.
Proof.
  unfold getFMChannelOffset. rewrite (bind_run _ _ _ _ _ (gets_run _ _)).
  destruct (_ && _).
  - by intros [= _ <-].
  - intros (inch & c1 & [_ ->]%lift_Ok & [= _ <-])%bind_Ok. done.
Qed.

Lemma getFMChannelOffset_mode ch forPitch c1 c2 :
  mode_ c1 = mode_ c2 →
  getFMChannelOffset ch forPitch c1
  = match getFMChannelOffset ch forPitch c2 with
    | Ok (offset, _) => Ok (offset, c1)
    | Fail e => Fail e
    end.
Proof.
  intros Hm. unfold getFMChannelOffset.
  rewrite !(bind_run _ _ _ _ _ (gets_run _ _)), Hm.
  destruct (_ && _); [done|].
  unfold mbind, StateErr_bind, lift. by destruct (toInternalFMChannel _ _).
Qed.

(** [writePitchFM] on a channel whose note is set. *)
Lemma writePitchFM_run ch c offset :
  octave (keyToneFM_ c ch) ≠ -1 →
  getFMChannelOffset ch true c = Ok (offset, c) →
  writePitchFM ch c
  = Ok (tt, set_needToneSetFM_ (upd (needToneSetFM_ c) ch false)
              (set_writes_
                 (writes_ c ++ pitchWrites offset
                    (u16 (getPitchFM (note (keyToneFM_ c ch)) (octave (keyToneFM_ c ch))
                            (effectivePitchFM c ch)))) c)).
Proof.
  intros Hoct Hoff. unfold writePitchFM. mrun1.
  rewrite bool_decide_eq_false_2 by done. do 5 mrun1.
  rewrite (bind_run _ _ _ _ _ Hoff). cbv beta. mrun.
  rewrite modify_run. cnorm. unfold pitchWrites, effectivePitchFM.
  rewrite <- app_assoc. reflexivity.
Qed.

Lemma writePitchFM_unset ch c :
  octave (keyToneFM_ c ch) = -1 → writePitchFM ch c = Ok (tt, c).
Proof.
  intros Hoct. unfold writePitchFM. mrun1. by rewrite bool_decide_eq_true_2.
Qed.

(** The steps of a tick before the vibrato keep a due tone write due;
    the vibrato step turns it into a pending one, which the note slide
    keeps. *)
Lemma toneDue_lfo ch inch cnt :
  pres (toneDue ch)
    (if 0 <? cnt
     then modify (λ c, set_lfoStartCntFM_ (upd (lfoStartCntFM_ c) inch (cnt - 1)) c) ;;
          writeFMLFOAllRegisters inch
     else mret tt).
Proof. pres_walk_with due_mod. Qed.

Lemma toneDue_checkOperatorSequenceFM ch type :
  pres (toneDue ch) (checkOperatorSequenceFM ch type).
Proof. pres_walk_with due_mod. Qed.

Lemma toneDue_tremolo ch : pres (toneDue ch) (advance treItFM_ set_treItFM_ ch).
Proof. pres_walk_with due_mod. Qed.

Lemma toneDue_checkVolumeEffectFM ch : pres (toneDue ch) (checkVolumeEffectFM ch).
Proof. pres_walk_with due_mod. Qed.

Lemma toneDue_arpeggio ch :
  pres (toneDue ch)
    (arp ← advance arpItFM_ set_arpItFM_ ch;
     match arp with
     | Some seqPos => checkRealToneFMByArpeggio ch seqPos
     | None => mret tt
     end).
Proof. pres_walk_with due_mod. Qed.

Lemma toneDue_checkPortamentoFM ch : pres (toneDue ch) (checkPortamentoFM ch).
Proof. pres_walk_with due_mod. Qed.

Lemma toneDue_pitch ch :
  pres (toneDue ch)
    (pt ← advance ptItFM_ set_ptItFM_ ch;
     match pt with
     | Some seqPos => checkRealToneFMByPitch ch seqPos
     | None => mret tt
     end).
Proof. pres_walk_with due_mod. Qed.

Lemma vibrato_makes_pending ch c x c' :
  (vib ← advance vibItFM_ set_vibItFM_ ch;
   match vib with
   | Some _ => modify (λ c, set_needToneSetFM_ (upd (needToneSetFM_ c) ch true) c)
   | None => mret tt
   end) c = Ok (x, c') →
  toneDue ch c → needToneSetFM_ c' ch = true.
Proof.
  unfold advance. rewrite bind_assoc, (bind_run _ _ _ _ _ (gets_run _ _)).
  destruct (vibItFM_ c ch) as [it|] eqn:Hv.
  - rewrite bind_assoc, (bind_run _ _ _ _ _ (modify_run _ _)).
    rewrite (bind_run _ _ _ _ _ (ret_run _ _)), modify_run.
    intros [= _ <-] _. cnorm. by rewrite upd_same.
  - rewrite (bind_run _ _ _ _ _ (ret_run _ _)), ret_run.
    intros [= _ <-] [?|?]; done.
Qed.

Lemma pending_noteSlide ch :
  pres (λ c, needToneSetFM_ c ch = true)
    (ns ← advance nsItFM_ set_nsItFM_ ch;
     match ns with
     | Some pos =>
         if bool_decide (pos ≠ -1)
         then it ← gets (λ c, nsItFM_ c ch);
              modify (λ c, set_sumNoteSldFM_
                (upd (sumNoteSldFM_ c) ch
                   (sumNoteSldFM_ c ch
                    + match it with Some it => it_getCommandType it | None => 0 end)) c) ;;
              modify (λ c, set_needToneSetFM_ (upd (needToneSetFM_ c) ch true) c)
         else mret tt
     | None => mret tt
     end).
Proof. pres_walk_with need_mod. Qed.

(** The tone write of a tick that returns. *)
Lemma tickEventFM_pitch_written ch c c' :
  hasPreSetTickEventFM_ c ch = false → isMuteFM_ c ch = false →
  toneDue ch c →
  tickEventFM ch c = Ok (tt, c') →
  octave (keyToneFM_ c' ch) ≠ -1 →
  ∃ pre offset,
    getFMChannelOffset ch true c' = Ok (offset, c') ∧
    writes_ c' = pre ++ pitchWrites offset
                   (u16 (getPitchFM (note (keyToneFM_ c' ch)) (octave (keyToneFM_ c' ch))
                           (effectivePitchFM c' ch))) ∧
    needToneSetFM_ c' ch = false.
Proof.
  intros Hpre Hmute Hdue Hrun Hoct. unfold tickEventFM in Hrun.
  rewrite (bind_run _ _ _ _ _ (gets_run _ _)), Hpre in Hrun.
  rewrite (bind_run _ _ _ _ _ (gets_run _ _)), Hmute in Hrun.
  rewrite (bind_run _ _ _ _ _ (gets_run _ _)) in Hrun.
  minv Hrun inch c0 Hin. apply lift_Ok in Hin as [_ ->].
  rewrite (bind_run _ _ _ _ _ (gets_run _ _)) in Hrun.
  minv Hrun x1 c1 H1. apply (toneDue_lfo ch _ _ _ _ _ H1) in Hdue. clear H1.
  minv Hrun x2 c2 H2. apply (toneDue_checkOperatorSequenceFM ch _ _ _ _ H2) in Hdue. clear H2.
  minv Hrun x3 c3 H3. apply (toneDue_tremolo ch _ _ _ H3) in Hdue. clear H3.
  rewrite (bind_run _ _ _ _ _ (modify_run _ _)) in Hrun.
  match type of Hrun with _ ?s = _ => set (c4 := s) in * end.
  assert (toneDue ch c4) as H4 by (destruct Hdue; [left|right]; done).
  clearbody c4. clear Hdue.
  minv Hrun x5 c5 H5. apply (toneDue_checkVolumeEffectFM ch _ _ _ H5) in H4. clear H5.
  rewrite <- bind_assoc in Hrun.
  minv Hrun x6 c6 H6. apply (toneDue_arpeggio ch _ _ _ H6) in H4. clear H6.
  minv Hrun x7 c7 H7. apply (toneDue_checkPortamentoFM ch _ _ _ H7) in H4. clear H7.
  rewrite <- bind_assoc in Hrun.
  minv Hrun x8 c8 H8. apply (toneDue_pitch ch _ _ _ H8) in H4. clear H8.
  rewrite <- bind_assoc in Hrun.
  minv Hrun x9 c9 H9. apply (vibrato_makes_pending ch _ _ _ H9) in H4. clear H9.
  rewrite <- bind_assoc in Hrun.
  minv Hrun x10 c10 H10. apply (pending_noteSlide ch _ _ _ H10) in H4. clear H10.
  rename H4 into H10. cbv beta in H10.
  rewrite (bind_run _ _ _ _ _ (gets_run _ _)), H10 in Hrun.
  destruct (decide (octave (keyToneFM_ c10 ch) = -1)) as [Hu|Hs].
  { rewrite writePitchFM_unset in Hrun by done. by injection Hrun as <-. }
  destruct (getFMChannelOffset ch true c10) as [[offset c11]|e] eqn:Hoff.
  - pose proof (getFMChannelOffset_state _ _ _ _ _ Hoff) as ->.
    rewrite (writePitchFM_run _ _ _ Hs Hoff) in Hrun. injection Hrun as <-.
    exists (writes_ c10), offset. split_and!.
    + rewrite (getFMChannelOffset_mode _ _ _ c10) by done. by rewrite Hoff.
    + done.
    + cnorm. by rewrite upd_same.
  - exfalso. revert Hrun. unfold writePitchFM. mrun1.
    rewrite bool_decide_eq_false_2 by done. do 5 mrun1.
    by rewrite (bind_fail _ _ _ _ Hoff).
Qed.

End Tone.

(** ** A tick with nothing to do *)

Section Quiet.
Context `{ControllerParts} `{!ControllerMembers}.
Implicit Types c : OPNAController.

Lemma set_opSeqItFM_id c : set_opSeqItFM_ (opSeqItFM_ c) c = c.
Proof. by destruct c. Qed.

Lemma NoDup_parametersForOperator op :
  NoDup (getFMEnvelopeParametersForOperator op).
Proof. destruct op; apply (bool_decide_unpack _); vm_compute; exact I. Qed.

Lemma parametersForOperator_All op p :
  p ∈ getFMEnvelopeParametersForOperator op → p ∈ getFMEnvelopeParametersForOperator All.
Proof.
  intros Hp. destruct op; [done|..]; cbn [getFMEnvelopeParametersForOperator] in *;
    set_solver.
Qed.

(** A loop whose body moves the iterator of its parameter and nothing
    else moves the iterators and nothing else. *)
Lemma opSeq_loop_quiet inch (body : FMEnvelopeParameter → StateErr OPNAController unit)
    (ps : list FMEnvelopeParameter) :
  (∀ p c, p ∈ ps → quietOpSeq c inch p →
     ∃ f, body p c = Ok (tt, set_opSeqItFM_ f c) ∧
          ∀ p', p' ≠ p → f inch p' = opSeqItFM_ c inch p') →
  ∀ c, NoDup ps → (∀ p, p ∈ ps → quietOpSeq c inch p) →
       ∃ f, forM_ ps body c = Ok (tt, set_opSeqItFM_ f c).
Proof.
  intros Hbody.
  induction ps as [|p ps IH]; intros c Hnd Hq.
  { exists (opSeqItFM_ c). by rewrite set_opSeqItFM_id. }
  apply list.NoDup_cons in Hnd as [Hp Hnd]. cbn [forM_].
  destruct (Hbody p c) as (f1 & Hstep & Hf1); [by left|apply Hq; by left|].
  rewrite (bind_run _ _ _ _ _ Hstep). cbv beta.
  destruct (IH (λ p' c' Hp', Hbody p' c' (list_elem_of_further _ _ _ Hp'))
              (set_opSeqItFM_ f1 c) Hnd) as (f2 & Hrest).
  - intros p' Hp'. unfold quietOpSeq. cnorm. rewrite Hf1 by (intros ->; done).
    apply Hq. by right.
  - exists f2. rewrite Hrest. reflexivity.
Qed.

Lemma toChannelOperatorType_state ch c opType c' :
  toChannelOperatorType ch c = Ok (opType, c') → c' = c.
Proof.
  unfold toChannelOperatorType. rewrite (bind_run _ _ _ _ _ (gets_run _ _)).
  case_bool_decide; [|by intros [= _ <-]].
  intros (inch & c1 & [_ ->]%lift_Ok & Hr)%bind_Ok.
  repeat case_bool_decide; unfold mret, StateErr_ret, raise in Hr; congruence.
Qed.

Lemma checkOperatorSequenceFM_quiet ch inch opType c :
  toInternalFMChannel (mode_ c) ch = Ok inch →
  toChannelOperatorType ch c = Ok (opType, c) →
  (∀ p, quietOpSeq c inch p) →
  ∃ f, checkOperatorSequenceFM ch 0 c = Ok (tt, set_opSeqItFM_ f c).
Proof.
  intros Hin Hop Hq. unfold checkOperatorSequenceFM. mrun1. rewrite Hin. mrun1.
  rewrite (bind_run _ _ _ _ _ Hop). cbv beta.
  apply (opSeq_loop_quiet inch); [|apply NoDup_parametersForOperator|intros p _; apply Hq].
  clear c Hin Hop Hq. intros p c Hp%parametersForOperator_All Hq.
  unfold opSeqItAt. rewrite (bool_decide_eq_true_2 (p ∈ _)) by done. cbv iota.
  mrun1. unfold quietOpSeq in Hq.
  destruct (opSeqItFM_ c inch p) as [it|] eqn:Hit.
  - rewrite bool_decide_eq_true_2 by done. cbv iota. mrun1. cbv zeta. mrun1.
    eexists. split.
    + destruct Hq as [Hq|Hq].
      * rewrite (bool_decide_eq_false_2 (_ ≠ _)) by (intros Hne; by apply Hne).
        rewrite ret_run. reflexivity.
      * case_bool_decide; [|by rewrite ret_run].
        unfold envParam. mrun1.
        rewrite (bool_decide_eq_false_2 (_ ≠ _)); [by rewrite ret_run|].
        intros Hne; by apply Hne.
    + intros p' Hp'. by rewrite upd_same, upd_other.
  - rewrite ret_run. exists (opSeqItFM_ c). by rewrite set_opSeqItFM_id.
Qed.

Lemma advance_None (get : OPNAController → Z → option Iter) set ch c :
  get c ch = None → advance get set ch c = Ok (None, c).
Proof. intros Hg. unfold advance. mrun1. by rewrite Hg. Qed.

Lemma advance_Some (get : OPNAController → Z → option Iter) set ch c it :
  get c ch = Some it →
  advance get set ch c
  = Ok (Some (fst (it_next false it)),
        set (upd (get c) ch (Some (snd (it_next false it)))) c).
Proof. intros Hg. unfold advance. mrun1. rewrite Hg. by mrun1. Qed.

Ltac madvance lem H :=
  lazymatch goal with
  | |- context [(advance ?g ?s ?ch ≫= ?k) ?st] =>
      rewrite (bind_run _ k st _ _ (lem g s ch st H)) ||
      rewrite (bind_run _ k st _ _ (lem g s ch st _ H))
  end; cbv beta iota; cnorm.

(** C3: a tick of an FM channel for which nothing is left to do makes no
    register write: the LFO is not counting down, every operator sequence
    iterator is absent, ends, or steps to the value the envelope has for
    its parameter, the arpeggio, pitch and note slide iterators are absent
    or end, and there is no tremolo, vibrato, volume slide, portamento or
    pending tone write. *)
Theorem tickEventFM_quiescent_no_writes ch inch opType c :
  toInternalFMChannel (mode_ c) ch = Ok inch →
  toChannelOperatorType ch c = Ok (opType, c) →
  quiescent ch inch c →
  ∃ c', tickEventFM ch c = Ok (tt, c') ∧ writes_ c' = writes_ c.
Proof.
  intros Hin Hop (Hcnt & Hq & Htre & Hvol & Harp & Hprtm & Hpt & Hvib & Hns & Hneed).
  assert (bool_decide (0 ≠ 0) = false) as H00
    by (apply bool_decide_eq_false_2; intros Hne; by apply Hne).
  assert (bool_decide (-1 = -1) = true) as H11 by by apply bool_decide_eq_true_2.
  assert (bool_decide (-1 ≠ -1) = false) as H1n
    by (apply bool_decide_eq_false_2; intros Hne; by apply Hne).
  assert (∀ seqPos, seqPos = -1 → ∀ c1, checkRealToneFMByArpeggio ch seqPos c1 = Ok (tt, c1))
    as Harp1 by (intros ? -> c1; unfold checkRealToneFMByArpeggio; by rewrite H11).
  assert (∀ seqPos, seqPos = -1 → ∀ c1, checkRealToneFMByPitch ch seqPos c1 = Ok (tt, c1))
    as Hpt1 by (intros ? -> c1; unfold checkRealToneFMByPitch; by rewrite H11).
  unfold quietIterator in *.
  unfold tickEventFM. mrun1.
  destruct (hasPreSetTickEventFM_ c ch); [rewrite modify_run; eauto|].
  mrun1. destruct (isMuteFM_ c ch); [rewrite ret_run; eauto|].
  mrun1. rewrite Hin. do 2 mrun1.
  rewrite (proj2 (Z.ltb_ge _ _) Hcnt). mrun1.
  destruct (checkOperatorSequenceFM_quiet ch inch opType c Hin Hop Hq) as (f & Hf).
  rewrite (bind_run _ _ _ _ _ Hf). cbv beta.
  madvance advance_None Htre. mrun1.
  unfold checkVolumeEffectFM. mrun. rewrite Htre, Hvol, H00. mrun.
  (* arpeggio *)
  destruct (arpItFM_ c ch) as [arpIt|] eqn:Harp0;
    [madvance advance_Some Harp0; rewrite (bind_run _ _ _ _ _ (Harp1 _ Harp _)); cbv beta
    |madvance advance_None Harp0; mrun1].
  all: unfold checkPortamentoFM; mrun; rewrite Hprtm, H00, andb_false_r; cbn [andb]; mrun.
  (* pitch *)
  all: destruct (ptItFM_ c ch) as [ptIt|] eqn:Hpt0;
    [madvance advance_Some Hpt0; rewrite (bind_run _ _ _ _ _ (Hpt1 _ Hpt _)); cbv beta
    |madvance advance_None Hpt0; mrun1].
  (* vibrato *)
  all: madvance advance_None Hvib; mrun1.
  (* note slide *)
  all: destruct (nsItFM_ c ch) as [nsIt|] eqn:Hns0;
    [madvance advance_Some Hns0; rewrite Hns, H1n; mrun1
    |madvance advance_None Hns0; mrun1].
  all: mrun1; rewrite Hneed, ret_run; eexists; split; [reflexivity|]; reflexivity.
Qed.

End Quiet.

(** ** Computations that return *)

Section Safe.
Context {S : Type}.
Implicit Types P : S → Prop.

Lemma safe_ret {A} P (x : A) : safe P (mret x).
Proof. intros s HP. by exists x, s. Qed.

Lemma safe_gets {A} P (f : S → A) : safe P (gets f).
Proof. intros s HP. by exists (f s), s. Qed.

Lemma safe_modify P f : (∀ s, P s → P (f s)) → safe P (modify f).
Proof. intros Hf s HP. exists tt, (f s). split; [done|by apply Hf]. Qed.

Lemma safe_lift {A} P (x : A) : safe P (lift (Ok x)).
Proof. intros s HP. by exists x, s. Qed.

Lemma safe_bind {A B} P (σ : StateErr S A) (k : A → StateErr S B) :
  safe P σ → (∀ x, safe P (k x)) → safe P (σ ≫= k).
Proof.
  intros Hσ Hk s HP. destruct (Hσ s HP) as (x & s1 & Hr & HP1).
  destruct (Hk x s1 HP1) as (y & s2 & Hr2 & HP2).
  exists y, s2. split; [|done]. by rewrite (bind_run _ _ _ _ _ Hr).
Qed.

(** The continuation of a read is run on the values that are read in a
    state with property [P]. *)
Lemma safe_gets_bind {A B} P (f : S → A) (k : A → StateErr S B) :
  (∀ s, P s → safe P (k (f s))) → safe P (gets f ≫= k).
Proof.
  intros Hk s HP. destruct (Hk s HP s HP) as (y & s2 & Hr & HP2).
  exists y, s2. split; [|done]. by rewrite (bind_run _ _ _ _ _ (gets_run _ _)).
Qed.

Lemma safe_lift_bind {A B} P (x : A) (k : A → StateErr S B) :
  safe P (k x) → safe P (lift (Ok x) ≫= k).
Proof.
  intros Hk s HP. destruct (Hk s HP) as (y & s2 & Hr & HP2).
  exists y, s2. split; [|done]. by rewrite (bind_run _ _ _ _ _ (lift_run _ _)).
Qed.

Lemma safe_forM_ {A} P (xs : list A) body :
  (∀ x, x ∈ xs → safe P (body x)) → safe P (forM_ xs body).
Proof.
  induction xs as [|x xs IH]; intros Hb; cbn [forM_]; [apply safe_ret|].
  apply safe_bind; [apply Hb; by left|]. intros _. apply IH.
  intros y Hy. apply Hb. by right.
Qed.

Lemma safe_strengthen {A} P Q (σ : StateErr S A) :
  safe (λ s, P s ∧ Q s) σ → ∀ s, P s → Q s → ∃ x s', σ s = Ok (x, s') ∧ P s'.
Proof.
  intros Hσ s HP HQ. destruct (Hσ s (conj HP HQ)) as (x & s' & Hr & HP' & _).
  by exists x, s'.
Qed.

End Safe.

(** Walks through a computation; [solve_mod] deals with the updates of
    the state, [use_val] with the values read, [refute] with the branches
    that raise. *)
Create HintDb safedb discriminated.

Ltac safe_walk_with solve_mod use_val refute :=
  repeat (cbv beta zeta iota;
    try solve [auto 2 with safedb nocore];
    lazymatch goal with
    | |- safe _ (mret _) => apply safe_ret
    | |- safe _ (gets _) => apply safe_gets
    | |- safe _ (lift (Ok _)) => apply safe_lift
    | |- safe _ (modify _) => apply safe_modify; solve_mod
    | |- safe _ (raise _) => exfalso; refute
    | |- safe _ (gets _ ≫= _) => apply safe_gets_bind; use_val
    | |- safe _ (lift (Ok _) ≫= _) => apply safe_lift_bind
    | |- safe _ (_ ≫= _) => apply safe_bind; [|intros ?]
    | |- safe _ (forM_ _ _) => apply safe_forM_; intros ? ?
    | |- safe _ (if ?b then _ else _) => destruct b eqn:?
    | |- safe _ (match ?o with _ => _ end) => destruct o eqn:?
    | |- safe _ (lift _) => fail
    | |- safe _ ?σ => let h := head_of σ in progress unfold h
    end).

Section Returns.
Context `{ControllerParts} `{!ControllerMembers}.
Implicit Types c : OPNAController.

Variables (mode : SongType) (ch inch inch' : Z) (r : RefInstrumentFM).
Variables (b0 : ToneDetail) (base : list ToneDetail).
Hypothesis Hch : toInternalFMChannel mode ch = Ok inch.
Hypothesis Hinch : toInternalFMChannel mode inch = Ok inch'.
Hypothesis Hop : mode = FM3chExpanded → inch = 2 → ch = 2 ∨ ch = 6 ∨ ch = 7 ∨ ch = 8.

Local Abbreviation P := (fixedParts mode inch ch r (b0 :: base)).

Ltac open_state :=
  repeat match goal with
         | H : _ ∧ _ |- _ => destruct H as [? ?]
         | H : fixedParts _ _ _ _ _ _ |- _ => destruct H as (? & ? & ?)
         end.

Ltac fixed_mod :=
  intros ? ?; open_state; cbv beta; unfold fixedParts; split_and!; cnorm;
  rewrite ?upd_same; done.

Ltac fixed_val :=
  intros ? ?; open_state; cbv beta;
  repeat match goal with
         | Hm : mode_ ?s = _ |- context [mode_ ?s] => rewrite Hm
         | Hr : refInstFM_ ?s ?i = _ |- context [refInstFM_ ?s ?i] => rewrite Hr
         | Hb : baseToneFM_ ?s ?i = _ |- context [baseToneFM_ ?s ?i] => rewrite Hb
         end;
  rewrite ?Hch, ?Hinch; cbn [front].

Ltac fixed_refute :=
  repeat match goal with
         | H : bool_decide _ = true |- _ => apply bool_decide_eq_true_1 in H
         | H : bool_decide _ = false |- _ => apply bool_decide_eq_false_1 in H
         | H : _ && _ = true |- _ => apply andb_true_iff in H as [? ?]
         end;
  try (match goal with
       | H : ?p ∈ getFMEnvelopeParametersForOperator _ |- _ =>
           apply parametersForOperator_All in H
       end);
  naive_solver.

Ltac fixed_walk := safe_walk_with fixed_mod fixed_val fixed_refute.

Lemma safe_getFMChannelOffset_inch : safe P (getFMChannelOffset inch false).
Proof. fixed_walk. Qed.

Lemma safe_getFMChannelOffset_ch forPitch : safe P (getFMChannelOffset ch forPitch).
Proof. fixed_walk. Qed.

Lemma safe_toChannelOperatorType : safe P (toChannelOperatorType ch).
Proof. fixed_walk. Qed.

Lemma safe_refInst : safe P (refInst inch).
Proof. fixed_walk. Qed.

#[local] Hint Resolve safe_getFMChannelOffset_inch safe_getFMChannelOffset_ch
  safe_toChannelOperatorType safe_refInst : safedb.

Lemma safe_writeFMEnveropeParameterToRegister p d :
  safe P (writeFMEnveropeParameterToRegister inch p d).
Proof. fixed_walk. Qed.

Lemma safe_writeFMLFOAllRegisters : safe P (writeFMLFOAllRegisters inch).
Proof. fixed_walk. Qed.

#[local] Hint Resolve safe_writeFMEnveropeParameterToRegister
  safe_writeFMLFOAllRegisters : safedb.

Lemma safe_checkOperatorSequenceFM : safe P (checkOperatorSequenceFM ch 0).
Proof. fixed_walk. Qed.

Lemma safe_checkVolumeEffectFM : safe P (checkVolumeEffectFM ch).
Proof. fixed_walk. Qed.

Lemma safe_checkPortamentoFM : safe P (checkPortamentoFM ch).
Proof. fixed_walk. Qed.

Lemma safe_writePitchFM : safe P (writePitchFM ch).
Proof. fixed_walk. Qed.

#[local] Hint Resolve safe_checkOperatorSequenceFM safe_checkVolumeEffectFM
  safe_checkPortamentoFM safe_writePitchFM : safedb.

(** The arpeggio and the pitch iterator are there when their step has
    returned a position. *)
Lemma safe_checkRealToneFMByArpeggio seqPos :
  safe (λ c, P c ∧ arpItFM_ c ch ≠ None) (checkRealToneFMByArpeggio ch seqPos).
Proof. fixed_walk. Qed.

Lemma safe_checkRealToneFMByPitch seqPos :
  safe (λ c, P c ∧ ptItFM_ c ch ≠ None) (checkRealToneFMByPitch ch seqPos).
Proof. fixed_walk. Qed.

Lemma safe_arpeggio {A} (k : unit → StateErr OPNAController A) :
  (∀ x, safe P (k x)) →
  safe P (arp ← advance arpItFM_ set_arpItFM_ ch;
          (match arp with
           | Some seqPos => checkRealToneFMByArpeggio ch seqPos
           | None => mret tt
           end) ≫= k).
Proof.
  intros Hk c HP. destruct (arpItFM_ c ch) as [it|] eqn:Hit.
  - rewrite (bind_run _ _ _ _ _ (advance_Some arpItFM_ set_arpItFM_ ch c it Hit)).
    cbv beta iota.
    destruct (safe_strengthen _ _ _ (safe_checkRealToneFMByArpeggio (fst (it_next false it)))
                (set_arpItFM_ (upd (arpItFM_ c) ch (Some (snd (it_next false it)))) c))
      as (x & c1 & Hr & HP1).
    + destruct HP as (? & ? & ?). split_and!; cnorm; done.
    + cnorm. by rewrite upd_same.
    + rewrite (bind_run _ _ _ _ _ Hr). by apply Hk.
  - rewrite (bind_run _ _ _ _ _ (advance_None arpItFM_ set_arpItFM_ ch c Hit)).
    cbv beta iota. rewrite (bind_run _ _ _ _ _ (ret_run _ _)). by apply Hk.
Qed.

Lemma safe_pitch {A} (k : unit → StateErr OPNAController A) :
  (∀ x, safe P (k x)) →
  safe P (pt ← advance ptItFM_ set_ptItFM_ ch;
          (match pt with
           | Some seqPos => checkRealToneFMByPitch ch seqPos
           | None => mret tt
           end) ≫= k).
Proof.
  intros Hk c HP. destruct (ptItFM_ c ch) as [it|] eqn:Hit.
  - rewrite (bind_run _ _ _ _ _ (advance_Some ptItFM_ set_ptItFM_ ch c it Hit)).
    cbv beta iota.
    destruct (safe_strengthen _ _ _ (safe_checkRealToneFMByPitch (fst (it_next false it)))
                (set_ptItFM_ (upd (ptItFM_ c) ch (Some (snd (it_next false it)))) c))
      as (x & c1 & Hr & HP1).
    + destruct HP as (? & ? & ?). split_and!; cnorm; done.
    + cnorm. by rewrite upd_same.
    + rewrite (bind_run _ _ _ _ _ Hr). by apply Hk.
  - rewrite (bind_run _ _ _ _ _ (advance_None ptItFM_ set_ptItFM_ ch c Hit)).
    cbv beta iota. rewrite (bind_run _ _ _ _ _ (ret_run _ _)). by apply Hk.
Qed.

Lemma safe_tickEventFM : safe P (tickEventFM ch).
Proof.
  unfold tickEventFM. apply safe_gets_bind. intros c0 _.
  destruct (hasPreSetTickEventFM_ c0 ch); [fixed_walk|].
  apply safe_gets_bind. intros c1 _. destruct (isMuteFM_ c1 ch); [apply safe_ret|].
  apply safe_gets_bind. fixed_val. apply safe_lift_bind.
  apply safe_gets_bind. intros c2 _. cbv beta.
  apply safe_bind; [fixed_walk|intros _].
  apply safe_bind; [fixed_walk|intros _].
  apply safe_bind; [fixed_walk|intros _].
  apply safe_bind; [fixed_walk|intros _].
  apply safe_bind; [fixed_walk|intros _].
  apply safe_arpeggio. intros _.
  apply safe_bind; [fixed_walk|intros _].
  apply safe_pitch. intros _.
  fixed_walk.
Qed.

End Returns.

(** ** The tone write of a tick, and that the tick returns *)

Section ToneWrite.
Context `{ControllerParts} `{!ControllerMembers}.
Implicit Types c : OPNAController.

Lemma sound_tickEventFM ch inch c :
  sound ch inch c → ∃ c', tickEventFM ch c = Ok (tt, c').
Proof.
  intros (Hch & [i Hi] & Hop & Hr & Hb).
  destruct (refInstFM_ c inch) as [r|] eqn:Hr'; [|done].
  destruct (baseToneFM_ c ch) as [|b0 base] eqn:Hb'; [done|].
  destruct (safe_tickEventFM (mode_ c) ch inch i r b0 base Hch Hi Hop c)
    as ([] & c' & Hrun & _); [done|].
  by exists c'.
Qed.

(** A tone write that is due when the tick starts: on a tick of an FM
    channel whose pre-set flag is clear and which
    is not muted, with a tone write due: the tick returns when the channel
    is a channel of the song type with an instrument and a base tone; and
    when the tick returns and the channel has a key tone, the last two
    writes of the tick are those of the pitch word computed from the note
    and the octave of the key tone and from its fine pitch plus the pitch
    accumulator, plus the current value of the vibrato iterator (0 without
    one), plus the detune, plus the note slide accumulator, plus the
    transpose accumulator, and the pending flag is clear afterwards. *)
Theorem tickEventFM_writes_effective_pitch ch c :
  hasPreSetTickEventFM_ c ch = false → isMuteFM_ c ch = false →
  toneDue ch c →
  (∀ inch, sound ch inch c → ∃ c', tickEventFM ch c = Ok (tt, c')) ∧
  (∀ c', tickEventFM ch c = Ok (tt, c') →
         octave (keyToneFM_ c' ch) ≠ -1 →
         ∃ pre offset,
           getFMChannelOffset ch true c' = Ok (offset, c') ∧
           writes_ c' = pre ++ pitchWrites offset
                          (u16 (getPitchFM (note (keyToneFM_ c' ch))
                                  (octave (keyToneFM_ c' ch))
                                  (effectivePitchFM c' ch))) ∧
           needToneSetFM_ c' ch = false).
Proof.
  intros Hpre Hmute Hdue. split.
  - intros inch Hs. by eapply sound_tickEventFM.
  - intros c' Hrun Hoct. by eapply tickEventFM_pitch_written.
Qed.

End ToneWrite.

(** ** The accessors by instrument number *)

Section Accessors.
Context `{PropertyClasses}.
Implicit Types m : InstrumentsManager.

Lemma lookupZ_out_of_range {A} (l : list A) n : n < 0 ∨ size l <= n → lookupZ l n = None.
Proof.
  intros Hn. destruct (lookupZ l n) as [x|] eqn:Hx; [|done].
  apply lookupZ_lt in Hx. lia.
Qed.

(** C10: [getInstrumentSharedPtr] never raises: it returns the null
    pointer for a number out of range and for an empty entry, and the
    stored instrument otherwise.  The other accessors by instrument
    number do not give way like that: [getInstrumentName], which goes
    through [insts_.at()], throws the range error for a number out of
    range, and [getInstrumentFMEnvelope] and its siblings, which index
    [insts_] unchecked, neither throw nor return there. *)
Theorem getInstrumentSharedPtr_null_or_stored m instNum :
  getInstrumentSharedPtr instNum m = Ok (instOf m instNum, m) ∧
  (instNum < 0 ∨ size (insts_ m) <= instNum → instOf m instNum = None) ∧
  (lookupZ (insts_ m) instNum = Some None → instOf m instNum = None) ∧
  (∀ i, lookupZ (insts_ m) instNum = Some (Some i) → instOf m instNum = Some i) ∧
  (instNum < 0 ∨ size (insts_ m) <= instNum →
   getInstrumentName instNum m = Fail OutOfRange) ∧
  (instNum < 0 ∨ size (insts_ m) <= instNum →
   ∀ l, getInstrumentProperty l instNum m = Fail Undefined).
Proof.
  destruct (getInstrumentSharedPtr_never_raises m instNum) as (Hrun & Hout & Hnone & Hsome & Hname).
  split; [exact Hrun|]. split; [exact Hout|]. split; [exact Hnone|].
  split; [exact Hsome|]. split; [exact Hname|].
  intros Hn l. unfold getInstrumentProperty.
  rewrite (bind_run _ _ _ _ _ (gets_run _ _)). unfold idx.
  rewrite (lookupZ_out_of_range _ _ Hn). reflexivity.
Qed.

End Accessors.

(** ** Duplicates by value *)

Section DuplicatesByValue.
Context `{PropertyClasses} `{!PropertyEqExact}.
Implicit Types m : InstrumentsManager.







End DuplicatesByValue.

(** ** The tone write of a tick, needed or not *)

Lemma bind_ext_at {S A B} (a : StateErr S A) (k1 k2 : A → StateErr S B) s :
  (∀ x s1, a s = Ok (x, s1) → k1 x s1 = k2 x s1) → (a ≫= k1) s = (a ≫= k2) s.
Proof.
  intros Hk. unfold mbind, StateErr_bind. destruct (a s) as [[x s1]|e]; [|reflexivity].
  by apply Hk.
Qed.

Section NeededTone.
Context `{ControllerParts} `{!ControllerMembers}.
Implicit Types c : OPNAController.

(** The next step of both runs is the same one. *)
Local Ltac same_step :=
  rewrite bind_assoc; apply bind_ext_at; intros ? ? _.

(** A tick is its steps and then the test of the pending flag. *)
Lemma tickEventFM_split ch c :
  hasPreSetTickEventFM_ c ch = false → isMuteFM_ c ch = false →
  tickEventFM ch c
  = (tickStepsFM ch ≫= λ _,
     gets (λ c, needToneSetFM_ c ch) ≫= λ need : bool,
     if need then writePitchFM ch else mret tt) c.
Proof.
  intros Hpre Hmute. unfold tickEventFM.
  rewrite (bind_run _ _ _ _ _ (gets_run _ _)), Hpre.
  rewrite (bind_run _ _ _ _ _ (gets_run _ _)), Hmute.
  unfold tickStepsFM. symmetry.
  do 16 same_step. reflexivity.
Qed.

Local Ltac minv H x c1 H1 := apply bind_Ok in H as (x & c1 & H1 & H).

(** A tone write that is due when the tick starts is pending after its
    steps. *)
Lemma tickStepsFM_due ch c c1 :
  tickStepsFM ch c = Ok (tt, c1) → toneDue ch c → needToneSetFM_ c1 ch = true.
Proof.
  intros Hrun Hdue. unfold tickStepsFM in Hrun.
  rewrite (bind_run _ _ _ _ _ (gets_run _ _)) in Hrun.
  minv Hrun inch c0 Hin. apply lift_Ok in Hin as [_ ->].
  rewrite (bind_run _ _ _ _ _ (gets_run _ _)) in Hrun.
  minv Hrun x1 c2 H1. apply (toneDue_lfo ch _ _ _ _ _ H1) in Hdue. clear H1.
  minv Hrun x2 c3 H2. apply (toneDue_checkOperatorSequenceFM ch _ _ _ _ H2) in Hdue. clear H2.
  minv Hrun x3 c4 H3. apply (toneDue_tremolo ch _ _ _ H3) in Hdue. clear H3.
  rewrite (bind_run _ _ _ _ _ (modify_run _ _)) in Hrun.
  match type of Hrun with _ ?s = _ => set (c5 := s) in * end.
  assert (toneDue ch c5) as H4 by (destruct Hdue; [left|right]; done).
  clearbody c5. clear Hdue.
  minv Hrun x5 c6 H5. apply (toneDue_checkVolumeEffectFM ch _ _ _ H5) in H4. clear H5.
  rewrite <- bind_assoc in Hrun.
  minv Hrun x6 c7 H6. apply (toneDue_arpeggio ch _ _ _ H6) in H4. clear H6.
  minv Hrun x7 c8 H7. apply (toneDue_checkPortamentoFM ch _ _ _ H7) in H4. clear H7.
  rewrite <- bind_assoc in Hrun.
  minv Hrun x8 c9 H8. apply (toneDue_pitch ch _ _ _ H8) in H4. clear H8.
  rewrite <- bind_assoc in Hrun.
  minv Hrun x9 c10 H9. apply (vibrato_makes_pending ch _ _ _ H9) in H4. clear H9.
  exact (pending_noteSlide ch _ _ _ Hrun H4).
Qed.

(** *** What raises the need within the tick *)

Local Notation arpeggioStep ch :=
  (arp ← advance arpItFM_ set_arpItFM_ ch;
   match arp with
   | Some seqPos => checkRealToneFMByArpeggio ch seqPos
   | None => mret tt
   end).

Local Notation pitchStep ch :=
  (pt ← advance ptItFM_ set_ptItFM_ ch;
   match pt with
   | Some seqPos => checkRealToneFMByPitch ch seqPos
   | None => mret tt
   end).

Local Notation vibratoStep ch :=
  (vib ← advance vibItFM_ set_vibItFM_ ch;
   match vib with
   | Some _ => modify (λ c, set_needToneSetFM_ (upd (needToneSetFM_ c) ch true) c)
   | None => mret tt
   end).

Local Notation noteSlideStep ch :=
  (ns ← advance nsItFM_ set_nsItFM_ ch;
   match ns with
   | Some pos =>
       if bool_decide (pos ≠ -1)
       then it ← gets (λ c, nsItFM_ c ch);
            modify (λ c, set_sumNoteSldFM_
              (upd (sumNoteSldFM_ c) ch
                 (sumNoteSldFM_ c ch
                  + match it with Some it => it_getCommandType it | None => 0 end)) c) ;;
            modify (λ c, set_needToneSetFM_ (upd (needToneSetFM_ c) ch true) c)
       else mret tt
   | None => mret tt
   end).

Local Ltac parts_mod :=
  let c := fresh "c" in let Hc := fresh "Hc" in
  intros c Hc; unfold tonePartsOf in *; cnorm; exact Hc.

Local Ltac field_mod :=
  let c := fresh "c" in let Hc := fresh "Hc" in
  intros c Hc; cnorm; rewrite ?upd_same; first [exact Hc|reflexivity].

Lemma parts_lfo ch c0 inch cnt :
  pres (tonePartsOf ch c0)
    (if 0 <? cnt
     then modify (λ c, set_lfoStartCntFM_ (upd (lfoStartCntFM_ c) inch (cnt - 1)) c) ;;
          writeFMLFOAllRegisters inch
     else mret tt).
Proof. pres_walk_with parts_mod. Qed.

Lemma parts_checkOperatorSequenceFM ch c0 type :
  pres (tonePartsOf ch c0) (checkOperatorSequenceFM ch type).
Proof. pres_walk_with parts_mod. Qed.

Lemma parts_tremolo ch c0 : pres (tonePartsOf ch c0) (advance treItFM_ set_treItFM_ ch).
Proof. pres_walk_with parts_mod. Qed.

Lemma parts_checkVolumeEffectFM ch c0 :
  pres (tonePartsOf ch c0) (checkVolumeEffectFM ch).
Proof. pres_walk_with parts_mod. Qed.

Lemma need_checkPortamentoFM ch :
  pres (λ c, needToneSetFM_ c ch = true) (checkPortamentoFM ch).
Proof. pres_walk_with field_mod. Qed.

Lemma need_pitchStep ch : pres (λ c, needToneSetFM_ c ch = true) (pitchStep ch).
Proof. pres_walk_with field_mod. Qed.

Lemma need_vibratoStep ch : pres (λ c, needToneSetFM_ c ch = true) (vibratoStep ch).
Proof. pres_walk_with field_mod. Qed.

Lemma pitchMacro_arpeggioStep ch o : pres (λ c, ptItFM_ c ch = o) (arpeggioStep ch).
Proof. pres_walk_with field_mod. Qed.

Lemma pitchMacro_checkPortamentoFM ch o :
  pres (λ c, ptItFM_ c ch = o) (checkPortamentoFM ch).
Proof. pres_walk_with field_mod. Qed.

Lemma noteSlide_arpeggioStep ch o : pres (λ c, nsItFM_ c ch = o) (arpeggioStep ch).
Proof. pres_walk_with field_mod. Qed.

Lemma noteSlide_checkPortamentoFM ch o :
  pres (λ c, nsItFM_ c ch = o) (checkPortamentoFM ch).
Proof. pres_walk_with field_mod. Qed.

Lemma noteSlide_pitchStep ch o : pres (λ c, nsItFM_ c ch = o) (pitchStep ch).
Proof. pres_walk_with field_mod. Qed.

Lemma noteSlide_vibratoStep ch o : pres (λ c, nsItFM_ c ch = o) (vibratoStep ch).
Proof. pres_walk_with field_mod. Qed.

(** The steps of a tick, one after the other. *)
Lemma tickStepsFM_stages ch c c1 :
  tickStepsFM ch c = Ok (tt, c1) →
  ∃ ca cb cc cd ce,
    tonePartsOf ch c ca ∧
    arpeggioStep ch ca = Ok (tt, cb) ∧
    checkPortamentoFM ch cb = Ok (tt, cc) ∧
    pitchStep ch cc = Ok (tt, cd) ∧
    vibratoStep ch cd = Ok (tt, ce) ∧
    noteSlideStep ch ce = Ok (tt, c1).
Proof.
  intros Hrun. unfold tickStepsFM in Hrun.
  assert (tonePartsOf ch c c) as Hp by (by repeat split).
  rewrite (bind_run _ _ _ _ _ (gets_run _ _)) in Hrun.
  minv Hrun inch c0 Hin. apply lift_Ok in Hin as [_ ->].
  rewrite (bind_run _ _ _ _ _ (gets_run _ _)) in Hrun.
  minv Hrun x1 c2 H1. apply (parts_lfo ch c _ _ _ _ _ H1) in Hp.
  minv Hrun x2 c3 H2. apply (parts_checkOperatorSequenceFM ch c _ _ _ _ H2) in Hp.
  minv Hrun x3 c4 H3. apply (parts_tremolo ch c _ _ _ H3) in Hp.
  rewrite (bind_run _ _ _ _ _ (modify_run _ _)) in Hrun.
  match type of Hrun with _ ?s = _ => set (c5 := s) in * end.
  assert (tonePartsOf ch c c5) as Hp5 by exact Hp.
  minv Hrun x5 c6 H5. apply (parts_checkVolumeEffectFM ch c _ _ _ H5) in Hp5.
  rewrite <- bind_assoc in Hrun. minv Hrun x6 c7 H6.
  minv Hrun x7 c8 H7.
  rewrite <- bind_assoc in Hrun. minv Hrun x8 c9 H8.
  rewrite <- bind_assoc in Hrun. minv Hrun x9 c10 H9.
  destruct x6, x7, x8, x9.
  exists c6, c7, c8, c9, c10. split; [exact Hp5|].
  split; [exact H6|]. split; [exact H7|]. split; [exact H8|]. split; [exact H9|exact Hrun].
Qed.

Lemma arpeggioStep_fires ch c it c' :
  arpItFM_ c ch = Some it → fst (it_next false it) ≠ -1 →
  it_getSequenceType (snd (it_next false it)) ≠ NO_SEQUENCE_TYPE →
  arpeggioStep ch c = Ok (tt, c') → needToneSetFM_ c' ch = true.
Proof.
  intros Hit Hpos Htype.
  rewrite (bind_run _ _ _ _ _ (advance_Some _ _ _ _ _ Hit)). cbv beta iota.
  unfold checkRealToneFMByArpeggio. rewrite bool_decide_eq_false_2 by done.
  mrun1. rewrite upd_same. mrun1. mrun1. mrun1.
  destruct (it_getSequenceType (snd (it_next false it))); [done|..].
  - mrun. rewrite modify_run. intros [= <-]. cnorm. by rewrite upd_same.
  - destruct (front (baseToneFM_ c ch)) as [b|e]; [|by rewrite (bind_fail _ _ _ e)].
    mrun. rewrite modify_run. intros [= <-]. cnorm. by rewrite upd_same.
  - mrun. rewrite modify_run. intros [= <-]. cnorm. by rewrite upd_same.
Qed.

Lemma pitchStep_fires ch c it c' :
  ptItFM_ c ch = Some it → fst (it_next false it) ≠ -1 →
  it_getSequenceType (snd (it_next false it)) = ABSOLUTE_SEQUENCE ∨
  it_getSequenceType (snd (it_next false it)) = RELATIVE_SEQUENCE →
  pitchStep ch c = Ok (tt, c') → needToneSetFM_ c' ch = true.
Proof.
  intros Hit Hpos Htype.
  rewrite (bind_run _ _ _ _ _ (advance_Some _ _ _ _ _ Hit)). cbv beta iota.
  unfold checkRealToneFMByPitch. rewrite bool_decide_eq_false_2 by done.
  mrun1. rewrite upd_same. mrun1. mrun1.
  destruct Htype as [-> | ->]; mrun; rewrite modify_run; intros [= <-]; cnorm;
    by rewrite upd_same.
Qed.

Lemma noteSlideStep_fires ch c it c' :
  nsItFM_ c ch = Some it → fst (it_next false it) ≠ -1 →
  noteSlideStep ch c = Ok (tt, c') → needToneSetFM_ c' ch = true.
Proof.
  intros Hit Hpos.
  rewrite (bind_run _ _ _ _ _ (advance_Some _ _ _ _ _ Hit)). cbv beta iota.
  rewrite bool_decide_eq_true_2 by done.
  mrun. rewrite modify_run. intros [= <-]. cnorm. by rewrite upd_same.
Qed.

Lemma checkPortamentoFM_fires ch c c' :
  portamentoFires c ch →
  checkPortamentoFM ch c = Ok (tt, c') → needToneSetFM_ c' ch = true.
Proof.
  intros (Harp & Hprtm & Hkey & Htone). unfold checkPortamentoFM.
  do 6 rewrite (bind_run _ _ _ _ _ (gets_run _ _)).
  rewrite Harp, (bool_decide_eq_true_2 _ Hprtm), Hkey. cbn [andb].
  destruct Htone as [->|(b & Hb & Hdif)].
  - mrun. rewrite modify_run. intros [= <-]. cnorm. by rewrite upd_same.
  - destruct (isTonePrtmFM_ c ch).
    + rewrite Hb. rewrite (bind_run _ _ _ _ _ (lift_run _ _)).
      fold (toneValue b). fold (toneValue (keyToneFM_ c ch)).
      destruct (Z.ltb_spec 0 (toneValue b - toneValue (keyToneFM_ c ch))) as [Hpos|Hnpos].
      * destruct (_ <? 0); mrun; rewrite modify_run; intros [= <-]; cnorm;
          by rewrite upd_same.
      * rewrite (proj2 (Z.ltb_lt _ 0)) by lia.
        destruct (0 <? _); mrun; rewrite modify_run; intros [= <-]; cnorm;
          by rewrite upd_same.
    + mrun. rewrite modify_run. intros [= <-]. cnorm. by rewrite upd_same.
Qed.

(** The arpeggio, the portamento, the pitch macro and the note slide
    raise the need within the tick. *)
Lemma tickStepsFM_raised ch c c1 :
  tickStepsFM ch c = Ok (tt, c1) →
  arpeggioFires c ch ∨ portamentoFires c ch ∨ pitchMacroFires c ch ∨ noteSlideFires c ch →
  needToneSetFM_ c1 ch = true.
Proof.
  intros (ca & cb & cc & cd & ce & Hparts & Harp & Hprtm & Hpt & Hvib & Hns)%tickStepsFM_stages
    Hfires.
  destruct Hparts as (Pa & Pp & Pn & Pk & Pd & Ph & Pt & Pb).
  destruct Hfires as [(it & Hit & Hpos & Htype)|[Hf|[(it & Hit & Hpos & Htype)|(it & Hit & Hpos)]]].
  - rewrite <- Pa in Hit.
    pose proof (arpeggioStep_fires ch ca it cb Hit Hpos Htype Harp) as Hneed.
    apply (need_checkPortamentoFM ch _ _ _ Hprtm) in Hneed.
    apply (need_pitchStep ch _ _ _ Hpt) in Hneed.
    apply (need_vibratoStep ch _ _ _ Hvib) in Hneed.
    exact (pending_noteSlide ch _ _ _ Hns Hneed).
  - destruct Hf as (Hnone & Hd & Hk & Ht).
    rewrite <- Pa in Hnone.
    rewrite (bind_run _ _ _ _ _ (advance_None _ _ _ _ Hnone)) in Harp.
    cbv beta iota in Harp. rewrite ret_run in Harp. injection Harp as <-.
    assert (portamentoFires ca ch) as Hf.
    { unfold portamentoFires. rewrite Pd, Ph, Pt, Pb, Pk. by split_and!. }
    pose proof (checkPortamentoFM_fires ch ca cc Hf Hprtm) as Hneed.
    apply (need_pitchStep ch _ _ _ Hpt) in Hneed.
    apply (need_vibratoStep ch _ _ _ Hvib) in Hneed.
    exact (pending_noteSlide ch _ _ _ Hns Hneed).
  - rewrite <- Pp in Hit.
    apply (pitchMacro_arpeggioStep ch _ _ _ _ Harp) in Hit.
    apply (pitchMacro_checkPortamentoFM ch _ _ _ _ Hprtm) in Hit.
    pose proof (pitchStep_fires ch cc it cd Hit Hpos Htype Hpt) as Hneed.
    apply (need_vibratoStep ch _ _ _ Hvib) in Hneed.
    exact (pending_noteSlide ch _ _ _ Hns Hneed).
  - rewrite <- Pn in Hit.
    apply (noteSlide_arpeggioStep ch _ _ _ _ Harp) in Hit.
    apply (noteSlide_checkPortamentoFM ch _ _ _ _ Hprtm) in Hit.
    apply (noteSlide_pitchStep ch _ _ _ _ Hpt) in Hit.
    apply (noteSlide_vibratoStep ch _ _ _ _ Hvib) in Hit.
    exact (noteSlideStep_fires ch ce it c1 Hit Hpos Hns).
Qed.

(** C9: on a tick of an FM channel whose pre-set flag is clear and which
    is not muted.  The tick returns when the channel is a channel of the
    song type with an instrument and a base tone.  When it returns, its
    steps before the test [if (needToneSetFM_[ch])] have returned, and the
    tone write is needed when they leave the flag set.  They leave it set
    when it was set before the tick, when there is a vibrato iterator,
    when the arpeggio has a step of a typed sequence, when a portamento
    moves the key tone (no arpeggio iterator, a depth other than 0, a
    key-on before, and a tone portamento that has not arrived), when the
    pitch macro has a step of an absolute or a relative sequence, and
    when the note slide has a step.  When
    the write is needed and the channel has a key tone, the tick ends with
    the two writes of the pitch word computed from the note and the
    octave of the key tone and from its fine pitch plus the pitch
    accumulator, plus the current value of the vibrato iterator (0
    without one), plus the detune, plus the note slide accumulator, plus
    the transpose accumulator, and clears the flag; when it is not
    needed, or no key tone is set, the tick ends as its steps left it. *)
Theorem tickEventFM_pitch_of_needed_tone ch c :
  hasPreSetTickEventFM_ c ch = false → isMuteFM_ c ch = false →
  (∀ inch, sound ch inch c → ∃ c', tickEventFM ch c = Ok (tt, c')) ∧
  (∀ c', tickEventFM ch c = Ok (tt, c') →
     ∃ c1,
       tickStepsFM ch c = Ok (tt, c1) ∧
       (toneDue ch c ∨ arpeggioFires c ch ∨ portamentoFires c ch ∨
        pitchMacroFires c ch ∨ noteSlideFires c ch → needToneSetFM_ c1 ch = true) ∧
       (needToneSetFM_ c1 ch = false ∨ octave (keyToneFM_ c1 ch) = -1 → c' = c1) ∧
       (needToneSetFM_ c1 ch = true → octave (keyToneFM_ c' ch) ≠ -1 →
        ∃ offset,
          getFMChannelOffset ch true c' = Ok (offset, c') ∧
          writes_ c' = writes_ c1 ++ pitchWrites offset
                         (u16 (getPitchFM (note (keyToneFM_ c' ch))
                                 (octave (keyToneFM_ c' ch))
                                 (effectivePitchFM c' ch))) ∧
          needToneSetFM_ c' ch = false)).
Proof.
  intros Hpre Hmute. split.
  { intros inch Hs. by eapply sound_tickEventFM. }
  intros c' Hrun. rewrite (tickEventFM_split ch c Hpre Hmute) in Hrun.
  apply bind_Ok in Hrun as ([] & c1 & Hsteps & Hrun).
  rewrite (bind_run _ _ _ _ _ (gets_run _ _)) in Hrun.
  exists c1. split; [exact Hsteps|].
  split; [intros [Hdue|Hfires]; [by apply (tickStepsFM_due ch c)|by apply (tickStepsFM_raised ch c)]|].
  destruct (needToneSetFM_ c1 ch) eqn:Hneed.
  - destruct (decide (octave (keyToneFM_ c1 ch) = -1)) as [Hu|Hs].
    { rewrite writePitchFM_unset in Hrun by done. injection Hrun as <-.
      split; [done|]. intros _ Hoct. done. }
    split; [by intros [?|?]|]. intros _ _.
    destruct (getFMChannelOffset ch true c1) as [[offset c2]|e] eqn:Hoff.
    + pose proof (getFMChannelOffset_state _ _ _ _ _ Hoff) as ->.
      rewrite (writePitchFM_run _ _ _ Hs Hoff) in Hrun. injection Hrun as <-.
      exists offset. split_and!.
      * rewrite (getFMChannelOffset_mode _ _ _ c1) by done. by rewrite Hoff.
      * done.
      * cnorm. by rewrite upd_same.
    + exfalso. revert Hrun. unfold writePitchFM. mrun1.
      rewrite bool_decide_eq_false_2 by done. do 5 mrun1.
      by rewrite (bind_fail _ _ _ _ Hoff).
  - rewrite ret_run in Hrun. injection Hrun as <-. split; [done|]. done.
Qed.

End NeededTone.

(** ** Worked examples on the sample reading of the absent classes *)

Section ManagerExamples.
Local Existing Instance sampleClasses.

Lemma sampleEqLaws : PropertyEqLaws.
Proof.
  split; (split; [intros x|intros x y|intros x y z]; cbn;
          rewrite ?bool_decide_eq_true; congruence).
Qed.


Ltac by_evaluation :=
  lazymatch goal with
  | |- ¬ _ => let H := fresh in
              intros H; revert H;
              match goal with |- ?P → False => apply (bool_decide_eq_false_1 P) end;
              vm_compute; reflexivity
  | |- _ = _ => vm_compute; reflexivity
  | |- _ => apply (bool_decide_unpack _); vm_compute; exact I
  end.

Lemma editorSession_reachable : reachable (after editorSession newManager).
Proof. apply runsWell_reachable; [apply reachable_new|by_evaluation]. Qed.

Lemma arpeggiosSet_reachable : reachable (after arpeggiosSet newManager).
Proof. apply runsWell_reachable; [apply reachable_new|by_evaluation]. Qed.


Lemma arpeggiosEdited_reachable : reachable arpeggiosEdited.
Proof. apply runsWell_reachable; [apply reachable_new|by_evaluation]. Qed.

(** C1, on the session of the editor. *)
Lemma reference_counts_invariant_witness :
  reachable (after editorSession newManager) ∧
  ∀ k s n,
    (n ∈ slotUsers (after editorSession newManager) k s
     ↔ pointedBy (after editorSession newManager) n k s = true) ∧
    count n (slotUsers (after editorSession newManager) k s)
    = refCountOf (after editorSession newManager) n k s.
Proof.
  split; [exact editorSession_reachable|].
  exact (reference_counts_invariant _ editorSession_reachable).
Defined.

(** C1 does not hold after every list of calls: an instrument added under
    a number in use leaves the number registered in the slot of the
    instrument it replaces. *)
Lemma double_add_leaves_stale_user :
  calls doubleAdd newManager = Ok (tt, after doubleAdd newManager) ∧
  0 ∈ slotUsers (after doubleAdd newManager) EnvFM 0 ∧
  pointedBy (after doubleAdd newManager) 0 EnvFM 0 = false ∧
  linkOf (after doubleAdd newManager) 0 LEnvFM = Some (true, 1).
Proof.
  split; [apply returns_calls; by_evaluation|].
  split; [by_evaluation|]. split; by_evaluation.
Qed.

(** C6, on a new manager. *)
Lemma addInstrument_out_of_range_is_noop_witness :
  wellFormed newManager ∧ (-1 < 0 ∨ 128 <= -1) ∧
  addInstrument (-1) FM "lead" newManager = Ok (tt, newManager) ∧
  addInstrument 128 SSG "bass" newManager = Ok (tt, newManager).
Proof.
  split_and!; [apply wellFormed_new|lia|..].
  - apply (addInstrument_out_of_range_is_noop newManager (-1) FM "lead");
      [apply wellFormed_new|lia].
  - apply (addInstrument_out_of_range_is_noop newManager 128 SSG "bass");
      [apply wellFormed_new|lia].
Defined.

(** C7, on a manager whose pool of SSG arpeggios has no slot left. *)
Lemma addInstrument_exhausted_pool_takes_last_slot_witness :
  wellFormed arpeggiosEdited ∧
  findFirstAssignable ArpSSG arpeggiosEdited = Ok (-1, arpeggiosEdited) ∧
  ∃ inst m', addInstrument 0 SSG "bass" arpeggiosEdited = Ok (tt, m') ∧
             instOf m' 0 = Some inst ∧ getLinkNumber LArpSSG inst = 127 ∧
             (fixedLink LArpSSG = true →
              slotUsers m' ArpSSG 127
              = insert_sorted 0 (slotUsers arpeggiosEdited ArpSSG 127)).
Proof.
  pose proof (proj1 (reachable_invariant _ arpeggiosEdited_reachable)) as Hwf.
  assert (findFirstAssignable ArpSSG arpeggiosEdited = Ok (-1, arpeggiosEdited)) as Hf.
  { rewrite (findFirstAssignable_run ArpSSG arpeggiosEdited eq_refl).
    assert (find_if_not (assignCond arpeggiosEdited) (pools_ arpeggiosEdited ArpSSG)
            = None) as -> by by_evaluation.
    unfold afterAssign.
    assert (regardingUnedited_ arpeggiosEdited = true) as -> by by_evaluation.
    reflexivity. }
  split; [exact Hwf|]. split; [exact Hf|].
  apply (addInstrument_exhausted_pool_takes_last_slot
           arpeggiosEdited arpeggiosEdited 0 SSG "bass" LArpSSG Hwf);
    [lia|by_evaluation|exact Hf].
Defined.



(** C5, on the FM instrument with two arpeggios. *)
Lemma deepCloneInstrument_independent_witness :
  wellFormed (after arpeggiosSet newManager) ∧
  countsRight (after arpeggiosSet newManager) ∧
  instOf (after arpeggiosSet newManager) 1 = None ∧
  deepCloneInstrument 1 0 (after arpeggiosSet newManager)
  = Ok (tt, after [CDeepClone 1 0] (after arpeggiosSet newManager)) ∧
  linkOf (after [CDeepClone 1 0] (after arpeggiosSet newManager)) 0 (LArpFM All)
  = Some (true, 0) ∧
  linkOf (after [CDeepClone 1 0] (after arpeggiosSet newManager)) 0 (LArpFM Op1)
  = Some (true, 5) ∧
  linkOf (after [CDeepClone 1 0] (after arpeggiosSet newManager)) 1 (LArpFM All)
  = Some (true, 1) ∧
  ∃ ref clone,
    instOf (after [CDeepClone 1 0] (after arpeggiosSet newManager)) 0 = Some ref ∧
    instOf (after [CDeepClone 1 0] (after arpeggiosSet newManager)) 1 = Some clone ∧
    ∀ l l', l ∈ linksOf (getSoundSource ref) → l' ∈ linksOf (getSoundSource ref) →
      link_kind l' = link_kind l →
      getLinkEnabled l ref = true → getLinkEnabled l' ref = true →
      getLinkNumber l clone ≠ getLinkNumber l' ref.
Proof.
  destruct (reachable_invariant _ arpeggiosSet_reachable) as [Hwf Hc].
  assert (instOf (after arpeggiosSet newManager) 1 = None) as Hfree by by_evaluation.
  pose proof (returns_deepCloneInstrument 1 0 (after arpeggiosSet newManager)
                ltac:(by_evaluation)) as Hrun.
  split; [exact Hwf|]. split; [exact Hc|]. split; [exact Hfree|].
  split; [exact Hrun|].
  split; [by_evaluation|]. split; [by_evaluation|]. split; [by_evaluation|].
  destruct (deepCloneInstrument_independent 1 0 _ _ Hwf Hc Hfree Hrun)
    as (ref & clone & _ & Href & Hclone & _ & _ & Hind & _).
  exists ref, clone. split_and!; [done..|].
  intros l l' Hl Hl' Hk He He'. by destruct (Hind l l' Hl Hl' Hk He He').
Defined.

(** C5 does not hold in every state: where a slot has lost the
    registration of the instrument that refers to it, the deep clone takes
    that very slot, and a change of its payload changes the payload of
    the instrument cloned. *)
Lemma deep_clone_takes_slot_of_source :
  calls (strayDisable ++ [CDeepClone 1 0]) newManager
  = Ok (tt, after (strayDisable ++ [CDeepClone 1 0]) newManager) ∧
  linkOf (after (strayDisable ++ [CDeepClone 1 0]) newManager) 0 (LArpFM All)
  = Some (true, 0) ∧
  linkOf (after (strayDisable ++ [CDeepClone 1 0]) newManager) 1 (LArpFM All)
  = Some (true, 0) ∧
  mutateProperty ArpFM 0 (addStep 50 (-1))
    (after (strayDisable ++ [CDeepClone 1 0]) newManager)
  = Ok (tt, after [CMutate ArpFM 0 (addStep 50 (-1))]
              (after (strayDisable ++ [CDeepClone 1 0]) newManager)) ∧
  payloadAt (after [CMutate ArpFM 0 (addStep 50 (-1))]
               (after (strayDisable ++ [CDeepClone 1 0]) newManager)) ArpFM 0
  ≠ payloadAt (after (strayDisable ++ [CDeepClone 1 0]) newManager) ArpFM 0.
Proof.
  split; [apply returns_calls; by_evaluation|].
  split; [by_evaluation|]. split; [by_evaluation|].
  split; [apply returns_mutateProperty; by_evaluation|].
  intros Heq. vm_compute in Heq. discriminate.
Qed.

(** C10 does not hold as it stands: [getInstrumentFMEnvelope] is an
    accessor by instrument number as well, and for a number out of range
    it indexes [insts_] unchecked; no range error is thrown there. *)
Lemma unchecked_accessor_does_not_raise :
  size (insts_ newManager) = 128 ∧
  getInstrumentName 128 newManager = Fail OutOfRange ∧
  getInstrumentFMEnvelope 128 newManager = Fail Undefined ∧
  getInstrumentFMEnvelope 128 newManager ≠ Fail OutOfRange ∧
  getInstrumentFMEnvelope (-1) newManager = Fail Undefined.
Proof.
  split; [vm_compute; reflexivity|]. split; [vm_compute; reflexivity|].
  split; [vm_compute; reflexivity|]. split; [vm_compute; discriminate|].
  vm_compute; reflexivity.
Qed.

End ManagerExamples.

Section ControllerExamples.
Local Existing Instance sampleParts.
Local Existing Instance sampleMembers.

(** C3, on a controller with an arpeggio that has ended and an operator
    sequence that steps to the value the envelope has. *)
Lemma tickEventFM_quiescent_no_writes_witness :
  toInternalFMChannel (mode_ quietController) 0 = Ok 0 ∧
  toChannelOperatorType 0 quietController = Ok (All, quietController) ∧
  quiescent 0 0 quietController ∧
  ∃ c', tickEventFM 0 quietController = Ok (tt, c') ∧
        writes_ c' = writes_ quietController.
Proof.
  assert (quiescent 0 0 quietController) as Hq.
  { split_and!; try reflexivity; try exact I.
    - cbn. lia.
    - intros p. destruct p; first [exact I|right; reflexivity]. }
  split; [reflexivity|]. split; [reflexivity|]. split; [exact Hq|].
  exact (tickEventFM_quiescent_no_writes 0 0 All quietController eq_refl eq_refl Hq).
Defined.

(** C3 does not hold as it stands: while the LFO waits for its start no
    iterator is there to advance, and each of two ticks in a row makes the
    same five writes. *)
Lemma lfo_countdown_repeats_writes :
  (∀ p, opSeqItFM_ lfoWaitingController 0 p = None) ∧
  arpItFM_ lfoWaitingController 0 = None ∧ ptItFM_ lfoWaitingController 0 = None ∧
  vibItFM_ lfoWaitingController 0 = None ∧ treItFM_ lfoWaitingController 0 = None ∧
  nsItFM_ lfoWaitingController 0 = None ∧
  writesOf (tickEventFM 0 lfoWaitingController)
  = Some [(180, 192); (96, 0); (104, 0); (100, 0); (108, 0)] ∧
  writesOf (tickEventFM 0 (stateOf (tickEventFM 0 lfoWaitingController)
                             lfoWaitingController))
  = Some ([(180, 192); (96, 0); (104, 0); (100, 0); (108, 0)]
          ++ [(180, 192); (96, 0); (104, 0); (100, 0); (108, 0)]).
Proof. split_and!; try done; vm_compute; reflexivity. Qed.

(** C4, on four sends to two addresses. *)
Lemma direct_register_queue_flush_witness :
  registerSetBuf_ (restController Standard 0) = [] ∧
  ∃ c', (forM_ [SendAddress 0 0x28; SendValue 0xf1; SendAddress 1 0x30; SendValue 0x7f]
           send ;; updateRegisterStates) (restController Standard 0) = Ok (tt, c') ∧
        writes_ c' = [(0x28, 0xf1); (0x130, 0x7f)] ∧
        registerSetBuf_ c' = [].
Proof.
  split; [reflexivity|].
  exact (direct_register_queue_flush
           [SendAddress 0 0x28; SendValue 0xf1; SendAddress 1 0x30; SendValue 0x7f]
           (restController Standard 0) eq_refl).
Defined.

(** C4 does not hold as it stands: two completed writes to one address in
    one tick are both flushed, in the order they were sent. *)
Lemma repeated_address_is_written_twice :
  writesOf ((forM_ [SendAddress 0 0x28; SendValue 1; SendAddress 0 0x28; SendValue 2]
               send ;; updateRegisterStates) (restController Standard 0))
  = Some [(0x28, 1); (0x28, 2)].
Proof. vm_compute. reflexivity. Qed.

(** C8, on a sample of 100 bytes and a memory of 1024 bytes. *)
Lemma storeSampleADPCM_bump_allocator_witness :
  0 <= storePointADPCM_ (restController Standard 1024)
    < dramLimit (restController Standard 1024) ∧
  ∃ c' stop,
    storeSampleADPCM (replicate 100 0) (restController Standard 1024)
    = Ok ((0, stop), c') ∧
    stop = 3 ∧ storePointADPCM_ c' = 4 ∧
    ∃ c'' stop2, storeSampleADPCM (replicate 33 0) c' = Ok ((4, stop2), c'') ∧
                 4 <= stop2 <= 31.
Proof.
  assert (0 <= storePointADPCM_ (restController Standard 1024)
            < dramLimit (restController Standard 1024)) as Hr by (vm_compute; done).
  split; [exact Hr|].
  destruct (storeSampleADPCM_bump_allocator (restController Standard 1024)
              (replicate 100 0) Hr)
    as (c' & stop & Hrun & _ & Hstop & Hpoint & Hnext & _).
  assert (stop = 3) as ->.
  { rewrite Hstop; [by vm_compute|done|by vm_compute]. }
  exists c', 3. split_and!; [done..|].
  destruct (Hnext (replicate 33 0)) as (c'' & stop2 & Hrun2 & Hstop2);
    [by vm_compute|].
  by exists c'', stop2.
Defined.

(** C8 does not hold as it stands: once the memory is full a store
    returns the pair (0, 0), which is neither the allocation pointer nor
    the successor of the last stop address. *)
Lemma full_memory_store_returns_zero :
  dramLimit (restController Standard 64) = 1 ∧
  resultOf (storeSampleADPCM (replicate 64 0) (restController Standard 64))
  = Some (0, 1) ∧
  storePointADPCM_ (stateOf (storeSampleADPCM (replicate 64 0)
                               (restController Standard 64))
                      (restController Standard 64)) = 2 ∧
  resultOf (storeSampleADPCM (replicate 64 0)
                      (stateOf (storeSampleADPCM (replicate 64 0)
                                  (restController Standard 64))
                         (restController Standard 64)))
  = Some (0, 0).
Proof. split_and!; vm_compute; reflexivity. Qed.

(** C9, on a controller without a tone write pending and without
    vibrato: the pitch macro alone makes the write needed in the tick. *)
Lemma tickEventFM_pitch_of_needed_tone_witness :
  hasPreSetTickEventFM_ pitchMacroController 0 = false ∧
  isMuteFM_ pitchMacroController 0 = false ∧
  ¬ toneDue 0 pitchMacroController ∧
  pitchMacroFires pitchMacroController 0 ∧
  sound 0 0 pitchMacroController ∧
  writesOf (tickEventFM 0 pitchMacroController) = Some [(164, 35); (160, 140)] ∧
  effectivePitchFM (stateOf (tickEventFM 0 pitchMacroController) pitchMacroController) 0
  = 3 ∧
  ∃ c' c1,
    tickEventFM 0 pitchMacroController = Ok (tt, c') ∧
    tickStepsFM 0 pitchMacroController = Ok (tt, c1) ∧
    needToneSetFM_ c1 0 = true ∧
    ∃ offset,
      writes_ c' = writes_ c1 ++ pitchWrites offset
                          (u16 (getPitchFM (note (keyToneFM_ c' 0))
                                  (octave (keyToneFM_ c' 0))
                                  (effectivePitchFM c' 0))).
Proof.
  assert (¬ toneDue 0 pitchMacroController) as Hdue.
  { intros [Hn|Hv]; [discriminate Hn|]. by apply Hv. }
  assert (sound 0 0 pitchMacroController) as Hsound.
  { split_and!; [reflexivity|by exists 0|intros [=]|done|done]. }
  assert (pitchMacroFires pitchMacroController 0) as Hfires.
  { exists (mkIter ABSOLUTE_SEQUENCE [127; 130] 0).
    split; [reflexivity|]. split; [vm_compute; discriminate|left; reflexivity]. }
  split; [reflexivity|]. split; [reflexivity|]. split; [exact Hdue|].
  split; [exact Hfires|]. split; [exact Hsound|].
  split; [vm_compute; reflexivity|]. split; [vm_compute; reflexivity|].
  destruct (tickEventFM_pitch_of_needed_tone 0 pitchMacroController
              eq_refl eq_refl) as [Hret Hval].
  destruct (Hret 0 Hsound) as (c' & Hrun). exists c'.
  destruct (Hval c' Hrun) as (c1 & Hsteps & Hraised & _ & Hneeded).
  exists c1. split; [exact Hrun|]. split; [exact Hsteps|].
  assert (needToneSetFM_ c1 0 = true) as Hneed.
  { apply Hraised. right. right. right. left. exact Hfires. }
  split; [exact Hneed|].
  destruct (Hneeded Hneed) as (offset & _ & Hw & _).
  - assert (c' = stateOf (tickEventFM 0 pitchMacroController) pitchMacroController)
      as -> by (rewrite Hrun; reflexivity).
    vm_compute. discriminate.
  - exists offset. exact Hw.
Defined.

End ControllerExamples.

(** * Part IV: further properties of the sources *)

(** ** Rules for computations that return *)

Section Hoare.
Context {S : Type}.
Implicit Types P : S → Prop.

Lemma hoare_bind {A B} P (Q : A → S → Prop) (R : B → S → Prop)
    (σ : StateErr S A) (k : A → StateErr S B) :
  hoare P σ Q → (∀ x, hoare (Q x) (k x) R) → hoare P (σ ≫= k) R.
Proof.
  intros Hσ Hk s HP. destruct (Hσ s HP) as (x & s1 & Hr & HQ).
  destruct (Hk x s1 HQ) as (y & s2 & Hr2 & HR).
  exists y, s2. split; [|done]. by rewrite (bind_run _ _ _ _ _ Hr).
Qed.

Lemma hoare_ret {A} P (x : A) : hoare P (mret x) (λ _, P).
Proof. intros s HP. by exists x, s. Qed.

Lemma hoare_post {A} P (Q Q' : A → S → Prop) (σ : StateErr S A) :
  hoare P σ Q → (∀ x s, Q x s → Q' x s) → hoare P σ Q'.
Proof.
  intros Hσ HQ s HP. destruct (Hσ s HP) as (x & s' & Hr & HQ').
  exists x, s'. split; [done|]. by apply HQ.
Qed.

Lemma hoare_forM_ {A} (I : list A → S → Prop) (xs : list A) body :
  (∀ pre x, x ∈ xs → hoare (I pre) (body x) (λ _, I (pre ++ [x]))) →
  ∀ pre, hoare (I pre) (forM_ xs body) (λ _, I (pre ++ xs)).
Proof.
  induction xs as [|x xs IH]; intros Hb pre; cbn [forM_].
  { rewrite app_nil_r. apply hoare_ret. }
  eapply hoare_bind; [apply Hb; by left|]. intros []; cbv beta.
  rewrite (cons_middle x pre xs), (assoc_L (++)). apply IH.
  intros pre' y Hy. apply Hb. by right.
Qed.

End Hoare.

(** ** The queries of the manager *)

Section Queries.
Context `{PropertyClasses}.
Implicit Types m : InstrumentsManager.
Implicit Types i : AbstractInstrument.

Lemma instOf_lookup m n :
  instOf m n = match lookupZ (insts_ m) n with Some (Some i) => Some i | _ => None end.
Proof. done. Qed.

Lemma instOf_of_nat m (j : nat) :
  instOf m (Z.of_nat j) = match insts_ m !! j with Some (Some i) => Some i | _ => None end.
Proof. unfold instOf. by rewrite lookupZ_of_nat. Qed.

(** X1: [findFirstFreeInstrument] returns -1 when every entry of the
    table holds an instrument, and otherwise the smallest number whose
    entry is empty. *)
Theorem findFirstFreeInstrument_least m :
  (findFirstFreeInstrument m = -1 ∧
   ∀ j, 0 <= j < size (insts_ m) → is_Some (instOf m j)) ∨
  (0 <= findFirstFreeInstrument m < size (insts_ m) ∧
   instOf m (findFirstFreeInstrument m) = None ∧
   ∀ j, 0 <= j < findFirstFreeInstrument m → is_Some (instOf m j)).
Proof.
  unfold findFirstFreeInstrument.
  destruct (find_if_not _ (insts_ m)) as [n|] eqn:Hf.
  - right. apply find_if_not_Some in Hf as (o & Hn & Ho & Hlt).
    destruct o; [done|]. pose proof (lookup_lt_Some _ _ _ Hn).
    split_and!; [lia|unfold size; lia| |].
    + by rewrite instOf_of_nat, Hn.
    + intros j Hj. replace j with (Z.of_nat (Z.to_nat j)) by lia.
      rewrite instOf_of_nat.
      destruct (insts_ m !! Z.to_nat j) as [o|] eqn:Hj'.
      * assert (Z.to_nat j < n)%nat as Hjn by lia.
        specialize (Hlt _ _ Hjn Hj'). destruct o; [by eexists|done].
      * apply lookup_ge_None in Hj'. lia.
  - left. split; [done|]. intros j Hj.
    replace j with (Z.of_nat (Z.to_nat j)) by lia. rewrite instOf_of_nat.
    destruct (insts_ m !! Z.to_nat j) as [o|] eqn:Hj'.
    + apply list_elem_of_lookup_2 in Hj'.
      rewrite find_if_not_None in Hf. specialize (Hf _ Hj').
      destruct o; [by eexists|done].
    + apply lookup_ge_None in Hj'. unfold size in Hj. lia.
Qed.


Lemma indices_from (pre l : list (option AbstractInstrument)) :
  flat_map (λ j : nat, match (pre ++ l) !! j with
                       | Some (Some _) => [Z.of_nat j]
                       | _ => []
                       end)
           (seq (length pre) (length l))
  = flat_map (λ ni : nat * option AbstractInstrument,
                match snd ni with Some _ => [Z.of_nat (fst ni)] | None => [] end)
             (imap (λ n inst, ((length pre + n)%nat, inst)) l).
Proof.
  revert pre. induction l as [|o l IH]; intros pre; [done|].
  cbn [length seq flat_map imap]. f_equal.
  - rewrite lookup_app_r, Nat.sub_diag by lia. cbn [lookup list_lookup snd fst].
    rewrite Nat.add_0_r. by destruct o.
  - specialize (IH (pre ++ [o])). rewrite <- (assoc_L (++)), length_app in IH.
    cbn [app length] in IH. rewrite Nat.add_1_r in IH. rewrite IH.
    f_equal. apply imap_ext. intros n x _. cbn. f_equal. lia.
Qed.

Lemma sorted_from (k : nat) (l : list (option AbstractInstrument)) :
  StronglySorted Z.lt
    (flat_map (λ ni : nat * option AbstractInstrument,
                 match snd ni with Some _ => [Z.of_nat (fst ni)] | None => [] end)
              (imap (λ n inst, ((k + n)%nat, inst)) l)).
Proof.
  revert k. induction l as [|o l IH]; intros k; cbn [imap flat_map]; [constructor|].
  rewrite (imap_ext _ (λ n inst, ((S k + n)%nat, inst))) by (intros; cbn; f_equal; lia).
  cbn [snd fst]. destruct o as [x|]; cbn [app]; [|apply IH].
  constructor; [apply IH|]. apply Forall_forall. intros j Hj.
  apply entried_from in Hj as (n & y & _ & ->). lia.
Qed.

Lemma getInstrumentName_Ok m n name :
  getInstrumentName n m = Ok (name, m) ↔ ∃ i, instOf m n = Some i ∧ getName i = name.
Proof.
  unfold getInstrumentName, instOf. rewrite (bind_run _ _ _ _ _ (gets_run _ _)).
  unfold at_. destruct (lookupZ (insts_ m) n) as [[i|]|]; cbn.
  - split; [intros [= <-]; by exists i|intros (? & [= <-] & <-); done].
  - split; [done|by intros (? & ? & _)].
  - split; [done|by intros (? & ? & _)].
Qed.

Lemma names_from (pre l : list (option AbstractInstrument)) m :
  insts_ m = pre ++ l →
  Forall2 (λ n name, getInstrumentName n m = Ok (name, m))
    (flat_map (λ ni : nat * option AbstractInstrument,
                 match snd ni with Some _ => [Z.of_nat (fst ni)] | None => [] end)
              (imap (λ n inst, ((length pre + n)%nat, inst)) l))
    (flat_map (λ inst : option AbstractInstrument,
                 match inst with Some i => [getName i] | None => [] end) l).
Proof.
  revert pre. induction l as [|o l IH]; intros pre Hm; cbn [imap flat_map]; [constructor|].
  assert (Forall2 (λ n name, getInstrumentName n m = Ok (name, m))
            (flat_map (λ ni : nat * option AbstractInstrument,
                 match snd ni with Some _ => [Z.of_nat (fst ni)] | None => [] end)
              (imap ((λ n inst, ((length pre + n)%nat, inst)) ∘ S) l))
            (flat_map (λ inst : option AbstractInstrument,
                 match inst with Some i => [getName i] | None => [] end) l)) as Htl.
  { specialize (IH (pre ++ [o])). rewrite <- (assoc_L (++)), length_app in IH.
    cbn [app length] in IH. specialize (IH Hm).
    erewrite imap_ext; [exact IH|]. intros n x _. cbn. f_equal. lia. }
  cbn [snd fst]. destruct o as [x|]; cbn [app]; [|done].
  constructor; [|done]. apply getInstrumentName_Ok. exists x. split; [|done].
  rewrite Nat.add_0_r, instOf_of_nat, Hm, lookup_app_r, Nat.sub_diag by lia. done.
Qed.

(** X2: [getInstrumentIndices] and [getEntriedInstrumentIndices] return
    the same list: the numbers of the stored instruments, each once, in
    ascending order; [getInstrumentNameList] returns, in that order, the
    names that [getInstrumentName] returns for them. *)
Theorem getInstrumentIndices_names m :
  getInstrumentIndices m = getEntriedInstrumentIndices m ∧
  StronglySorted Z.lt (getInstrumentIndices m) ∧
  (∀ n, n ∈ getInstrumentIndices m ↔ is_Some (instOf m n)) ∧
  Forall2 (λ n name, getInstrumentName n m = Ok (name, m))
    (getInstrumentIndices m) (getInstrumentNameList m).
Proof.
  assert (getInstrumentIndices m = getEntriedInstrumentIndices m) as Heq
    by apply (indices_from []).
  rewrite Heq. split_and!; [done| | |].
  - apply (sorted_from 0).
  - intros n. unfold getEntriedInstrumentIndices. rewrite (entried_from 0).
    unfold instOf. split.
    + intros (j & x & Hj & ->). rewrite lookupZ_of_nat. cbn. rewrite Hj. by eexists.
    + intros [x Hx]. destruct (lookupZ (insts_ m) n) as [[y|]|] eqn:Hl; try done.
      apply lookupZ_Some in Hl as [Hn Hl]. exists (Z.to_nat n), y. split; [done|].
      cbn. lia.
  - by apply (names_from []).
Qed.


(** *** Names play no part in the comparison of instruments *)

Lemma sameLinks_setName name i : sameLinks i (setName name i).
Proof.
  split_and!; [by destruct i| |by intros t; destruct i].
  intros l. by destruct i, l.
Qed.

Lemma sameLinks_refl i : sameLinks i i.
Proof. by split_and!. Qed.

Lemma equalLink_ext m m' a a' b b' l :
  (∀ k, pools_ m' k = pools_ m k) → sameLinks a a' → sameLinks b b' →
  equalLink m' a' b' l = equalLink m a b l.
Proof.
  intros Hp (_ & Ha & _) (_ & Hb & _). unfold equalLink.
  destruct (Ha l) as [-> ->], (Hb l) as [-> ->]. by rewrite Hp.
Qed.

Lemma sameGroup_ext m m' :
  (∀ k, pools_ m' k = pools_ m k) →
  Forall2 (option_Forall2 sameLinks) (insts_ m) (insts_ m') →
  ∀ x y : Z, sameGroup m' x y = sameGroup m x y.
Proof.
  intros Hp Hi x y.
  assert (∀ n, match idx (insts_ m) n, idx (insts_ m') n with
               | Ok (Some a), Ok (Some a') => sameLinks a a'
               | Ok None, Ok None => True
               | Fail e, Fail e' => e = e'
               | _, _ => False
               end) as Hidx.
  { intros n. unfold idx, lookupZ. destruct (0 <=? n); [|done].
    destruct (insts_ m !! Z.to_nat n) as [o|] eqn:Ho.
    - destruct (Forall2_lookup_l _ _ _ _ _ Hi Ho) as (o' & -> & Hoo).
      by destruct Hoo.
    - apply lookup_ge_None in Ho. rewrite (Forall2_length _ _ _ Hi) in Ho.
      apply lookup_ge_None in Ho. by rewrite Ho. }
  unfold sameGroup. pose proof (Hidx x) as Hii. pose proof (Hidx y) as Hjj.
  destruct (idx (insts_ m) x) as [[a|]|e], (idx (insts_ m') x) as [[a'|]|e'];
    try done; try (by subst);
    destruct (idx (insts_ m) y) as [[b|]|e2], (idx (insts_ m') y) as [[b'|]|e2'];
    try done; try (by subst).
  pose proof Hii as (Hsa & _ & Hra). pose proof Hjj as (Hsb & _ & Hrb).
  rewrite Hsa, Hsb. case_bool_decide; [|done].
  destruct (getSoundSource a); [|..|done|].
  - unfold equalPropertiesFM.
    rewrite !(equalLink_ext m m' a a' b b') by done. do 3 f_equal. f_equal.
    + apply map_ext. intros p. by apply equalLink_ext.
    + apply flat_map_ext. intros t.
      rewrite !(equalLink_ext m m' a a' b b') by done. by rewrite Hra, Hrb.
  - unfold equalPropertiesSSG. f_equal. apply map_ext. intros l. by apply equalLink_ext.
  - unfold equalPropertiesADPCM. f_equal. apply map_ext. intros l. by apply equalLink_ext.
Qed.

Lemma collectGroup_ext m m' base rest :
  (∀ x y : Z, sameGroup m' x y = sameGroup m x y) →
  collectGroup m' base rest = collectGroup m base rest.
Proof.
  intros Hs. induction rest as [|t rest IH]; [done|].
  cbn [collectGroup]. by rewrite Hs, IH.
Qed.

Lemma groupsFrom_ext m m' fuel idcs :
  (∀ x y : Z, sameGroup m' x y = sameGroup m x y) →
  groupsFrom fuel m' idcs = groupsFrom fuel m idcs.
Proof.
  intros Hs. revert idcs. induction fuel as [|fuel IH]; intros [|b rest]; try done.
  cbn [groupsFrom]. rewrite (collectGroup_ext m m') by done.
  destruct (collectGroup m b rest) as [[g r]|]; [|done]. by rewrite IH.
Qed.

Lemma entried_ext (f : nat → nat) (l l' : list (option AbstractInstrument)) :
  Forall2 (λ o o', is_Some o ↔ is_Some o') l l' →
  flat_map (λ ni : nat * option AbstractInstrument,
              match snd ni with Some _ => [Z.of_nat (fst ni)] | None => [] end)
           (imap (λ n inst, (f n, inst)) l')
  = flat_map (λ ni : nat * option AbstractInstrument,
                match snd ni with Some _ => [Z.of_nat (fst ni)] | None => [] end)
             (imap (λ n inst, (f n, inst)) l).
Proof.
  intros Hl. revert f. induction Hl as [|o o' l l' Ho _ IH]; intros f; [done|].
  cbn [imap flat_map snd fst]. f_equal.
  - destruct o, o'; try done.
    + destruct Ho as [Ho _]. by destruct (is_Some_None (Ho ltac:(by eexists))).
    + destruct Ho as [_ Ho]. by destruct (is_Some_None (Ho ltac:(by eexists))).
  - apply (IH (f ∘ S)).
Qed.

Lemma getEntriedInstrumentIndices_ext m m' :
  Forall2 (λ o o', is_Some o ↔ is_Some o') (insts_ m) (insts_ m') →
  getEntriedInstrumentIndices m' = getEntriedInstrumentIndices m.
Proof. apply (entried_ext id). Qed.

Lemma checkDuplicateInstruments_ext m m' :
  (∀ k, pools_ m' k = pools_ m k) →
  Forall2 (option_Forall2 sameLinks) (insts_ m) (insts_ m') →
  checkDuplicateInstruments m' = checkDuplicateInstruments m.
Proof.
  intros Hp Hi. unfold checkDuplicateInstruments.
  rewrite (getEntriedInstrumentIndices_ext m m').
  - apply groupsFrom_ext. by apply sameGroup_ext.
  - eapply Forall2_impl; [done|]. intros o o' []; [|done].
    split; intros _; by eexists.
Qed.

Lemma setInstrumentName_run n name m i :
  instOf m n = Some i →
  setInstrumentName n name m
  = Ok (tt, setInsts (<[Z.to_nat n := Some (setName name i)]> (insts_ m)) m).
Proof.
  unfold instOf. intros Hi. unfold setInstrumentName.
  rewrite (bind_run _ _ _ _ _ (gets_run _ _)). unfold at_.
  destruct (lookupZ (insts_ m) n) as [[x|]|]; [|done..]. injection Hi as ->.
  by cbn.
Qed.

(** X3: [setInstrumentName] on a stored instrument returns; afterwards
    [getInstrumentName] gives the new name, the other instruments and the
    pools are as before and [checkDuplicateInstruments] gives the result
    it gave before.  On a number outside the table it throws the range
    error of [at()]; on a number of the table whose entry is empty it
    dereferences the null pointer, which is undefined and throws
    nothing. *)
Theorem setInstrumentName_renames n name m :
  (∀ i, instOf m n = Some i →
     ∃ m', setInstrumentName n name m = Ok (tt, m') ∧
           getInstrumentName n m' = Ok (name, m') ∧
           instOf m' n = Some (setName name i) ∧
           (∀ n', n' ≠ n → instOf m' n' = instOf m n') ∧
           (∀ k, pools_ m' k = pools_ m k) ∧
           checkDuplicateInstruments m' = checkDuplicateInstruments m) ∧
  (n < 0 ∨ size (insts_ m) <= n → setInstrumentName n name m = Fail OutOfRange) ∧
  (lookupZ (insts_ m) n = Some None → setInstrumentName n name m = Fail Undefined).
Proof.
  split.
  - intros i Hi. eexists. split; [by apply setInstrumentName_run|].
    pose proof (instOf_range _ _ _ Hi) as Hn.
    assert (instOf (setInsts (<[Z.to_nat n := Some (setName name i)]> (insts_ m)) m) n
            = Some (setName name i)) as Hi'
      by (by rewrite instOf_setInsts, bool_decide_eq_true_2).
    split_and!; [|done| |done|].
    + apply getInstrumentName_Ok. exists (setName name i). split; [done|]. by destruct i.
    + intros n' Hn'. rewrite instOf_setInsts by done. by rewrite bool_decide_eq_false_2.
    + apply checkDuplicateInstruments_ext; [done|]. cbn [insts_ setInsts].
      unfold instOf in Hi. destruct (lookupZ (insts_ m) n) as [[x|]|] eqn:Hl; try done.
      injection Hi as ->. apply lookupZ_Some in Hl as [_ Hl].
      rewrite <- (list_insert_id _ _ _ Hl) at 1.
      apply Forall2_insert.
      * apply Forall_Forall2_diag, Forall_forall. intros [x|] _; constructor.
        apply sameLinks_refl.
      * constructor. apply sameLinks_setName.
  - split.
    + intros Hn. unfold setInstrumentName.
      rewrite (bind_run _ _ _ _ _ (gets_run _ _)). unfold at_.
      destruct (lookupZ (insts_ m) n) as [o|] eqn:Ho; [|done].
      apply lookupZ_lt in Ho. lia.
    + intros Hn. unfold setInstrumentName.
      rewrite (bind_run _ _ _ _ _ (gets_run _ _)). unfold at_. by rewrite Hn.
Qed.


(** *** Clearing the slots that no instrument uses *)

Lemma clearedTo_ext (d d' : list (PropKind * Z)) m0 m :
  (∀ x, x ∈ d ↔ x ∈ d') → clearedTo d m0 m → clearedTo d' m0 m.
Proof.
  intros Hd (Hi & Hr & Hl & Hp). split_and!; [done..|].
  intros k s p Hk. rewrite (Hp k s p Hk). by rewrite (bool_decide_ext _ _ (Hd _)).
Qed.

Lemma clearedTo_refl m : clearedTo [] m m.
Proof.
  split_and!; [done..|]. intros k s p ->.
  by rewrite bool_decide_eq_false_2 by apply not_elem_of_nil.
Qed.

Lemma isUserInstrument_newProperty k s : isUserInstrument (newProperty k s) = false.
Proof. done. Qed.

Lemma processed_snoc (d : list (PropKind * Z)) k (i : Z) k' s :
  (k', s) ≠ (k, i) →
  bool_decide ((k', s) ∈ d ++ [(k, i)]) = bool_decide ((k', s) ∈ d).
Proof.
  intros Hne. apply bool_decide_ext. rewrite elem_of_app, list_elem_of_singleton.
  naive_solver.
Qed.

Lemma clearIfUnused_step (d : list (PropKind * Z)) m0 k (i : Z) :
  is_Some (lookupZ (pools_ m0 k) i) →
  hoare (clearedTo d m0) (clearIfUnused k i) (λ _, clearedTo (d ++ [(k, i)]) m0).
Proof.
  intros [p0 Hp0] m (Hi & Hr & Hl & Hp). unfold clearIfUnused.
  rewrite (bind_run _ _ _ _ _ (gets_run _ _)). unfold idx.
  pose proof (Hp _ _ _ Hp0) as Hq.
  set (q := if bool_decide ((k, i) ∈ d) && negb (isUserInstrument p0)
            then newProperty k i else p0) in *.
  rewrite Hq, (bind_run _ _ _ _ _ (lift_run _ _)).
  assert (isUserInstrument q = isUserInstrument p0) as Hu.
  { unfold q. destruct (bool_decide _), (isUserInstrument p0) eqn:Hu0; cbn; done. }
  rewrite Hu. destruct (isUserInstrument p0) eqn:Hu0.
  - exists tt, m. split; [done|]. split_and!; [done..|].
    intros k' s p' Hk'. rewrite (Hp _ _ _ Hk').
    destruct (isUserInstrument p') eqn:Hu'; [by rewrite !andb_false_r|].
    rewrite processed_snoc; [done|]. intros [= -> ->]. congruence.
  - eexists tt, _. split; [reflexivity|].
    pose proof (lookupZ_lt _ _ _ Hq) as Hlt. unfold size in Hlt.
    split_and!; [done..| |].
    + intros k'. rewrite pools_setPool. case_decide as Hk; [subst k'|by apply Hl].
      rewrite length_insert. apply Hl.
    + intros k' s p' Hk'. rewrite pools_setPool. case_decide as Hk.
      * subst k'. rewrite lookupZ_insert by lia. case_bool_decide as Hs.
        -- assert (s = i) as -> by lia. assert (p' = p0) as -> by congruence.
           rewrite Hu0. rewrite bool_decide_eq_true_2; [done|].
           rewrite elem_of_app, list_elem_of_singleton. by right.
        -- rewrite (Hp _ _ _ Hk'). rewrite processed_snoc; [done|]. intros [= ->]. lia.
      * rewrite (Hp _ _ _ Hk'). rewrite processed_snoc; [done|]. by intros [= -> _].
Qed.

Lemma clear_turn (d : list (PropKind * Z)) m0 (i : Z) :
  wellFormed m0 → 0 <= i < 128 →
  hoare (clearedTo d m0)
    (clearIfUnused EnvFM i ;;
     clearIfUnused LfoFM i ;;
     forM_ envFMParams_ (λ p, clearIfUnused (OpSeqFM p) i) ;;
     clearIfUnused ArpFM i ;;
     clearIfUnused PtFM i ;;
     clearIfUnused WfSSG i ;;
     clearIfUnused TnSSG i ;;
     clearIfUnused EnvSSG i ;;
     clearIfUnused ArpSSG i ;;
     clearIfUnused PtSSG i ;;
     clearIfUnused WfADPCM i ;;
     clearIfUnused EnvADPCM i ;;
     clearIfUnused ArpADPCM i ;;
     clearIfUnused PtADPCM i)
    (λ _, clearedTo (d ++ slotsAt i) m0).
Proof.
  intros [_ Hwf] Hi.
  assert (∀ k, validKind k = true → is_Some (lookupZ (pools_ m0 k) i)) as Hlook.
  { intros k Hk. apply lookupZ_is_Some. unfold size. rewrite Hwf, Hk. lia. }
  eapply hoare_post.
  - eapply hoare_bind; [by apply clearIfUnused_step, Hlook|intros []; cbv beta].
    eapply hoare_bind; [by apply clearIfUnused_step, Hlook|intros []; cbv beta].
    eapply hoare_bind.
    { pose proof (hoare_forM_
          (λ ps, clearedTo (((d ++ [(EnvFM, i)]) ++ [(LfoFM, i)])
                            ++ ((λ p, (OpSeqFM p, i)) <$> ps)) m0)
          envFMParams_ (λ p, clearIfUnused (OpSeqFM p) i)) as Hloop.
        cbn beta in Hloop.
        assert (∀ (pre : list FMEnvelopeParameter) (p : FMEnvelopeParameter),
          p ∈ envFMParams_ →
          hoare (clearedTo (((d ++ [(EnvFM, i)]) ++ [(LfoFM, i)])
                            ++ ((λ p, (OpSeqFM p, i)) <$> pre)) m0)
            (clearIfUnused (OpSeqFM p) i)
            (λ _, clearedTo (((d ++ [(EnvFM, i)]) ++ [(LfoFM, i)])
                             ++ ((λ p, (OpSeqFM p, i)) <$> pre ++ [p])) m0)) as Hstep.
        { intros pre p Hp. eapply hoare_post.
          - apply clearIfUnused_step, Hlook. cbn. by apply bool_decide_eq_true_2.
          - intros [] m. cbv beta. by rewrite fmap_app, (assoc_L (++)). }
        pose proof (Hloop Hstep []) as Hl. cbn [fmap list_fmap app] in Hl.
        rewrite app_nil_r in Hl. exact Hl. }
    intros []; cbv beta.
    do 10 (eapply hoare_bind; [by apply clearIfUnused_step, Hlook|intros []; cbv beta]).
    by apply clearIfUnused_step, Hlook.
  - intros [] m. cbv beta. unfold slotsAt. rewrite <- !(assoc_L (++)).
    cbn [app]. done.
Qed.


Lemma elem_of_slotsAt k (s : Z) : validKind k = true → (k, s) ∈ slotsAt s.
Proof.
  intros Hk. unfold slotsAt. rewrite !elem_of_app.
  destruct k as [| |p| | | | | | | | | | |];
    try solve [left; repeat first [apply list_elem_of_here|apply list_elem_of_further]];
    try solve [right; right;
               repeat first [apply list_elem_of_here|apply list_elem_of_further]].
  right; left. apply list_elem_of_fmap. exists p. split; [done|].
  cbn in Hk. by apply bool_decide_eq_true_1 in Hk.
Qed.

Lemma elem_of_indices (s : Z) : 0 <= s < 128 → s ∈ Z.of_nat <$> seq 0 128.
Proof.
  intros Hs. apply list_elem_of_fmap. exists (Z.to_nat s). split; [lia|].
  apply elem_of_seq. lia.
Qed.

Lemma cleared_lookup (d : list (PropKind * Z)) m0 m :
  wellFormed m0 → clearedTo d m0 m →
  (∀ k s, validKind k = true → 0 <= s < 128 → (k, s) ∈ d) →
  ∀ k s p, lookupZ (pools_ m0 k) s = Some p →
    lookupZ (pools_ m k) s = Some (if isUserInstrument p then p else newProperty k s).
Proof.
  intros [_ Hwf] (_ & _ & _ & Hp) Hd k s p Hk. rewrite (Hp _ _ _ Hk).
  pose proof (lookupZ_lt _ _ _ Hk) as Hs. unfold size in Hs. rewrite Hwf in Hs.
  destruct (validKind k) eqn:Hv; [|lia].
  rewrite (bool_decide_eq_true_2 _ (Hd k s Hv Hs)). by destruct (isUserInstrument p).
Qed.

Lemma cleared_slotUsers m0 m :
  (∀ k, length (pools_ m k) = length (pools_ m0 k)) →
  (∀ k s p, lookupZ (pools_ m0 k) s = Some p →
     lookupZ (pools_ m k) s = Some (if isUserInstrument p then p else newProperty k s)) →
  ∀ k s, slotUsers m k s = slotUsers m0 k s.
Proof.
  intros Hl Hp k s. unfold slotUsers.
  destruct (lookupZ (pools_ m0 k) s) as [p|] eqn:Hk.
  - rewrite (Hp _ _ _ Hk). unfold isUserInstrument. by destruct (users_ p) eqn:Hu.
  - destruct (lookupZ (pools_ m k) s) as [q|] eqn:Hq; [|done].
    apply lookupZ_lt in Hq. unfold size in Hq. rewrite Hl in Hq.
    destruct (lookupZ_is_Some (pools_ m0 k) s Hq) as [? ?]. congruence.
Qed.

Lemma clearUnusedInstrumentProperties_cleared m :
  wellFormed m →
  ∃ m', clearUnusedInstrumentProperties m = Ok (tt, m') ∧
        clearedTo (flat_map slotsAt (Z.of_nat <$> seq 0 128)) m m'.
Proof.
  intros Hwf. unfold clearUnusedInstrumentProperties.
  pose proof (hoare_forM_ (λ js, clearedTo (flat_map slotsAt js) m)
                (Z.of_nat <$> seq 0 128)) as Hloop.
  cbv beta in Hloop.
  destruct (Hloop _ (λ pre (x : Z) Hx,
    hoare_post _ _ _ _ (clear_turn (flat_map slotsAt pre) m x Hwf
      ltac:(apply list_elem_of_fmap in Hx as (j & -> & Hj%elem_of_seq); lia))
      (λ _ m' Hc, eq_rect_r (λ l, clearedTo l m m') Hc
                    (eq_trans (flat_map_app _ _ _) (f_equal _ (app_nil_r _)))))
    [] m (clearedTo_refl m)) as ([] & m' & Hrun & Hc).
  by exists m'.
Qed.

(** X4: on a manager whose arrays are complete
    [clearUnusedInstrumentProperties] returns.  It leaves every slot that
    has a user as it is and puts every slot without a user back to the
    state it has in a new manager; the instruments and the users of every
    slot stay, and with them the reference counts; a second call changes
    no slot. *)
Theorem clearUnusedInstrumentProperties_resets m :
  wellFormed m →
  ∃ m', clearUnusedInstrumentProperties m = Ok (tt, m') ∧
    insts_ m' = insts_ m ∧
    (∀ k s p, lookupZ (pools_ m k) s = Some p →
       lookupZ (pools_ m' k) s
       = Some (if isUserInstrument p then p else newProperty k s)) ∧
    (∀ k s, slotUsers m' k s = slotUsers m k s) ∧
    (countsRight m → countsRight m') ∧
    ∃ m'', clearUnusedInstrumentProperties m' = Ok (tt, m'') ∧
           ∀ k, pools_ m'' k = pools_ m' k.
Proof.
  intros Hwf.
  assert (∀ k s, validKind k = true → 0 <= s < 128 →
                 (k, s) ∈ flat_map slotsAt (Z.of_nat <$> seq 0 128)) as Hall.
  { intros k s Hk Hs. apply list_elem_of_In, in_flat_map. exists s.
    split; apply list_elem_of_In; [by apply elem_of_indices|by apply elem_of_slotsAt]. }
  destruct (clearUnusedInstrumentProperties_cleared m Hwf) as (m' & Hrun & Hc).
  pose proof (cleared_lookup _ _ _ Hwf Hc Hall) as Hlook.
  pose proof Hc as (Hi & Hr & Hl & _).
  pose proof (cleared_slotUsers _ _ Hl Hlook) as Hu.
  assert (wellFormed m') as Hwf'.
  { destruct Hwf as [Hn Hp]. split; [by rewrite Hi|]. intros k. by rewrite Hl. }
  exists m'. split_and!; [done..| |].
  - intros Hcr n k s. rewrite Hu, (Hcr n k s). unfold refCountOf, instOf. by rewrite Hi.
  - destruct (clearUnusedInstrumentProperties_cleared m' Hwf') as (m'' & Hrun' & Hc').
    pose proof (cleared_lookup _ _ _ Hwf' Hc' Hall) as Hlook'.
    pose proof Hc' as (_ & _ & Hl' & _).
    exists m''. split; [done|]. intros k. apply list_eq. intros j.
    rewrite <- !lookupZ_of_nat.
    destruct (lookupZ (pools_ m' k) (Z.of_nat j)) as [q|] eqn:Hq.
    + rewrite (Hlook' _ _ _ Hq). destruct (isUserInstrument q) eqn:Huq; [done|].
      destruct (lookupZ (pools_ m k) (Z.of_nat j)) as [p|] eqn:Hp.
      * rewrite (Hlook _ _ _ Hp) in Hq. injection Hq as <-.
        destruct (isUserInstrument p) eqn:Hup; [congruence|done].
      * apply lookupZ_lt in Hq. unfold size in Hq. rewrite Hl in Hq.
        destruct (lookupZ_is_Some (pools_ m k) _ Hq) as [? ?]. congruence.
    + destruct (lookupZ (pools_ m'' k) (Z.of_nat j)) as [q|] eqn:Hq'; [|done].
      apply lookupZ_lt in Hq'. unfold size in Hq'. rewrite Hl' in Hq'.
      destruct (lookupZ_is_Some (pools_ m' k) _ Hq') as [? ?]. congruence.
Qed.

Lemma indicesWhere_ext (c1 c2 : Property → bool) (l1 l2 : list Property) :
  Forall2 (λ p q, c1 p = c2 q) l1 l2 → indicesWhere c1 l1 = indicesWhere c2 l2.
Proof.
  unfold indicesWhere. intros Hl.
  enough (∀ f : nat → nat,
    flat_map (λ np : nat * Property, if c1 (snd np) then [Z.of_nat (fst np)] else [])
             (imap (λ n p, (f n, p)) l1)
    = flat_map (λ np : nat * Property, if c2 (snd np) then [Z.of_nat (fst np)] else [])
               (imap (λ n p, (f n, p)) l2)) as Hf by apply (Hf id).
  induction Hl as [|p q l1 l2 Hpq _ IH]; intros f; [done|].
  cbn [imap flat_map snd fst]. rewrite Hpq. f_equal. apply (IH (f ∘ S)).
Qed.

(** X5: [clearUnusedWaveformsADPCM] returns on a manager whose arrays are
    complete.  It resets the ADPCM waveforms that no instrument uses and
    nothing else, and [getWaveformADPCMValidIndices] returns the same
    list after it as before. *)
Theorem clearUnusedWaveformsADPCM_keeps_valid m :
  wellFormed m →
  ∃ m', clearUnusedWaveformsADPCM m = Ok (tt, m') ∧
    insts_ m' = insts_ m ∧
    (∀ k, k ≠ WfADPCM → pools_ m' k = pools_ m k) ∧
    (∀ s p, lookupZ (pools_ m WfADPCM) s = Some p →
       lookupZ (pools_ m' WfADPCM) s
       = Some (if isUserInstrument p then p else newProperty WfADPCM s)) ∧
    getWaveformADPCMValidIndices m' = getWaveformADPCMValidIndices m.
Proof.
  intros Hwf. unfold clearUnusedWaveformsADPCM.
  pose proof (hoare_forM_ (λ js, clearedTo ((λ s, (WfADPCM, s)) <$> js) m)
                (Z.of_nat <$> seq 0 128) (clearIfUnused WfADPCM)) as Hloop.
  cbv beta in Hloop.
  assert (∀ (pre : list Z) (x : Z), x ∈ Z.of_nat <$> seq 0 128 →
            hoare (clearedTo ((λ s, (WfADPCM, s)) <$> pre) m) (clearIfUnused WfADPCM x)
              (λ _, clearedTo ((λ s, (WfADPCM, s)) <$> pre ++ [x]) m)) as Hstep.
  { intros pre x (j & -> & Hj%elem_of_seq)%list_elem_of_fmap. eapply hoare_post.
    - apply clearIfUnused_step. apply lookupZ_is_Some. destruct Hwf as [_ Hp].
      unfold size. rewrite Hp. cbn. lia.
    - intros [] m'. cbv beta. by rewrite fmap_app. }
  destruct (Hloop Hstep [] m (clearedTo_refl m)) as ([] & m' & Hrun & Hc).
  cbn [app] in Hc. pose proof Hc as (Hi & Hr & Hl & Hp).
  assert (∀ s p, lookupZ (pools_ m WfADPCM) s = Some p →
            lookupZ (pools_ m' WfADPCM) s
            = Some (if isUserInstrument p then p else newProperty WfADPCM s)) as Hlook.
  { intros s p Hs. rewrite (Hp _ _ _ Hs). rewrite bool_decide_eq_true_2.
    - by destruct (isUserInstrument p).
    - apply list_elem_of_fmap. exists s. split; [done|]. apply elem_of_indices.
      apply lookupZ_lt in Hs. destruct Hwf as [_ Hwf]. unfold size in Hs.
      by rewrite Hwf in Hs. }
  exists m'. split_and!; [done|done| |done|].
  - intros k Hk. apply list_eq. intros j. rewrite <- !lookupZ_of_nat.
    destruct (lookupZ (pools_ m k) (Z.of_nat j)) as [p|] eqn:Hj.
    + rewrite (Hp _ _ _ Hj). rewrite bool_decide_eq_false_2; [done|].
      intros (s & [= -> _] & _)%list_elem_of_fmap. done.
    + destruct (lookupZ (pools_ m' k) (Z.of_nat j)) as [q|] eqn:Hq; [|done].
      apply lookupZ_lt in Hq. unfold size in Hq. rewrite Hl in Hq.
      destruct (lookupZ_is_Some (pools_ m k) _ Hq) as [? ?]. congruence.
  - unfold getWaveformADPCMValidIndices. apply indicesWhere_ext.
    apply Forall2_same_length_lookup. split; [by rewrite Hl|].
    intros j q p Hq Hp'. rewrite <- lookupZ_of_nat in Hq, Hp'.
    rewrite (Hlook _ _ Hp') in Hq. injection Hq as <-.
    destruct (isUserInstrument p) eqn:Hu; [by rewrite Hu|done].
Qed.

End Queries.

(** ** Removing an instrument and putting it back *)

Section Undo.
Context `{PropertyClasses}.
Implicit Types m : InstrumentsManager.
Implicit Types i : AbstractInstrument.

Lemma count_iter_remove_one n N t l :
  count n (Nat.iter t (remove_one N) l)
  = (count n l - (if bool_decide (N = n) then t else 0))%nat.
Proof.
  induction t as [|t IH].
  { change (Nat.iter 0 (remove_one N) l) with l. case_bool_decide; lia. }
  rewrite Nat.iter_succ, count_remove_one, IH. case_bool_decide; lia.
Qed.

Lemma count_iter_insert_sorted n N t l :
  count n (Nat.iter t (insert_sorted N) l)
  = ((if bool_decide (N = n) then t else 0) + count n l)%nat.
Proof.
  induction t as [|t IH].
  { change (Nat.iter 0 (insert_sorted N) l) with l. case_bool_decide; lia. }
  rewrite Nat.iter_succ, count_insert_sorted, IH. case_bool_decide; lia.
Qed.

Lemma payloadAt_setPool m k n p f k' s :
  lookupZ (pools_ m k) n = Some p → payload_ (f p) = payload_ p →
  payloadAt (setPool k (<[Z.to_nat n := f p]> (pools_ m k)) m) k' s = payloadAt m k' s.
Proof.
  intros Hp Hf. unfold payloadAt. rewrite pools_setPool.
  case_decide as Hk; [subst k'|done].
  pose proof (lookupZ_lt _ _ _ Hp) as Hn. unfold size in Hn.
  rewrite lookupZ_insert by lia. case_bool_decide as Hs; [|done].
  rewrite Z2Nat.id in Hs by lia. subst s. rewrite Hp. cbn. by rewrite Hf.
Qed.

Lemma filter_pointsAt_cons i k s l (ls : list Link) :
  length (filter (λ l, pointsAt i k s l) (l :: ls))
  = ((if pointsAt i k s l then 1 else 0)
     + length (filter (λ l, pointsAt i k s l) ls))%nat.
Proof. rewrite filter_cons. by destruct (pointsAt i k s l); case_decide. Qed.

(** The loop over the references of an instrument in
    [addInstrument(unique_ptr)] and in [removeInstrument]: every reference
    in force changes the users of its slot once. *)
Lemma links_loop_run (f : Property → Property) (g : list Z → list Z) i
    (ls : list Link) : ∀ m,
  (∀ p, users_ (f p) = g (users_ p) ∧ payload_ (f p) = payload_ p) →
  (∀ l, l ∈ ls → getLinkEnabled l i = true →
        validKind (link_kind l) = true ∧
        0 <= getLinkNumber l i < size (pools_ m (link_kind l))) →
  ∃ m', forM_ ls (λ l,
          if getLinkEnabled l i
          then updateAt (link_kind l) (getLinkNumber l i) f
          else mret tt) m = Ok (tt, m') ∧
        insts_ m' = insts_ m ∧ regardingUnedited_ m' = regardingUnedited_ m ∧
        (∀ k, length (pools_ m' k) = length (pools_ m k)) ∧
        (∀ k s, payloadAt m' k s = payloadAt m k s) ∧
        ∀ k s, slotUsers m' k s
               = Nat.iter (length (filter (λ l, pointsAt i k s l) ls)) g
                   (slotUsers m k s).
Proof.
  intros m Hf. revert m. induction ls as [|l ls IH]; intros m Hls.
  { exists m. by split_and!. }
  cbn [forM_]. destruct (getLinkEnabled l i) eqn:He.
  - destruct (Hls l) as [Hk Hn]; [by left|done|].
    destruct (lookupZ_is_Some _ _ Hn) as [p Hp].
    rewrite (bind_run _ _ _ _ _ (updateAt_run _ _ f _ _ Hk Hp)).
    set (m1 := setPool _ _ m).
    destruct (IH m1) as (m' & Hrun & Hi & Hr & Hl & Hpl & Hu).
    { intros l' Hl' He'. destruct (Hls l') as [Hk' Hn']; [by right|done|].
      split; [done|]. unfold m1, size. rewrite length_setPool. exact Hn'. }
    exists m'. split_and!; [done..| | |].
    + intros k. rewrite Hl. apply length_setPool.
    + intros k s. rewrite Hpl. apply payloadAt_setPool; [done|]. apply Hf.
    + intros k s. rewrite Hu. unfold m1.
      rewrite (slotUsers_setPool _ _ _ _ f _ _ Hp), filter_pointsAt_cons.
      assert (pointsAt i k s l
              = bool_decide (k = link_kind l ∧ s = getLinkNumber l i)) as ->.
      { unfold pointsAt. rewrite He. cbn [andb].
        repeat case_bool_decide; cbn [andb]; naive_solver. }
      destruct (Hf p) as [-> _]. rewrite <- (slotUsers_lookup _ _ _ _ Hp).
      case_bool_decide as Hks; [|done].
      destruct Hks as [-> ->]. cbn [Nat.add]. by rewrite Nat.iter_succ_r.
  - rewrite (bind_run _ _ _ _ _ (ret_run _ _)).
    destruct (IH m) as (m' & Hrun & Hi & Hr & Hl & Hpl & Hu).
    { intros l' Hl' He'. apply Hls; [by right|done]. }
    exists m'. split_and!; [done..|]. intros k s. rewrite Hu, filter_pointsAt_cons.
    assert (pointsAt i k s l = false) as -> by (unfold pointsAt; by rewrite He).
    done.
Qed.

Lemma refCount_filter i k s :
  refCount i k s = length (filter (λ l, pointsAt i k s l) (linksOf (getSoundSource i))).
Proof.
  unfold refCount, refCountX. apply (length_filter_ext _ (λ l, pointsAt i k s l)).
  intros l _. rewrite bool_decide_eq_false_2 by (by intros ?%elem_of_nil).
  apply andb_true_r.
Qed.

Lemma links_in_range m n i :
  wellFormed m → countsRight m → instOf m n = Some i →
  ∀ l, l ∈ linksOf (getSoundSource i) → getLinkEnabled l i = true →
       validKind (link_kind l) = true ∧
       0 <= getLinkNumber l i < size (pools_ m (link_kind l)).
Proof.
  intros Hwf Hc Hi l Hl He.
  assert (validKind (link_kind l) = true) as Hk.
  { apply validKind_link. by rewrite (link_source_linksOf _ _ Hl). }
  split; [done|]. unfold size. rewrite (wellFormed_pool _ _ Hwf Hk).
  exact (countsRight_linksInRange m Hwf Hc n i Hi l Hl He).
Qed.

Lemma removeInstrument_run N m i :
  instOf m N = Some i →
  (∀ l, l ∈ linksOf (getSoundSource i) → getLinkEnabled l i = true →
        validKind (link_kind l) = true ∧
        0 <= getLinkNumber l i < size (pools_ m (link_kind l))) →
  ∃ m', removeInstrument N m = Ok (i, m') ∧
        insts_ m' = <[Z.to_nat N := None]> (insts_ m) ∧
        regardingUnedited_ m' = regardingUnedited_ m ∧
        (∀ k, length (pools_ m' k) = length (pools_ m k)) ∧
        (∀ k s, payloadAt m' k s = payloadAt m k s) ∧
        ∀ k s, slotUsers m' k s
               = Nat.iter (refCount i k s) (remove_one N) (slotUsers m k s).
Proof.
  intros Hi Hls. unfold removeInstrument.
  rewrite (bind_run _ _ _ _ _ (gets_run _ _)).
  unfold instOf in Hi. unfold at_.
  destruct (lookupZ (insts_ m) N) as [[x|]|] eqn:Ho; try done. injection Hi as ->.
  rewrite (bind_run _ _ _ _ _ (lift_run _ _)). cbn [deref].
  rewrite (bind_run _ _ _ _ _ (lift_run _ _)).
  destruct (links_loop_run (deregisterUserInstrument N) (remove_one N) i _ m
              (λ p, conj eq_refl eq_refl) Hls)
    as (m1 & Hrun & Hi1 & Hr1 & Hl1 & Hp1 & Hu1).
  rewrite (bind_run _ _ _ _ _ Hrun), (bind_run _ _ _ _ _ (modify_run _ _)), ret_run.
  eexists. split; [reflexivity|]. cbn [insts_ setInsts regardingUnedited_].
  split_and!; [by rewrite Hi1|done|done|done|].
  intros k s. rewrite slotUsers_setInsts, Hu1. by rewrite refCount_filter.
Qed.

(** X6: on a manager with complete arrays and right reference counts
    [removeInstrument] returns the instrument stored under the number,
    empties that entry of the table and leaves the other entries; the
    number goes from the users of every slot and the other users stay, so
    that the counts are right again.  On a number outside the table it
    throws the range error of [at()]; on a number of the table whose
    entry is empty it dereferences the null pointer, which is undefined
    and throws nothing. *)
Theorem removeInstrument_returns_stored N m :
  wellFormed m → countsRight m →
  (∀ i, instOf m N = Some i →
     ∃ m', removeInstrument N m = Ok (i, m') ∧
           insts_ m' = <[Z.to_nat N := None]> (insts_ m) ∧
           wellFormed m' ∧ countsRight m' ∧
           (∀ k s, payloadAt m' k s = payloadAt m k s) ∧
           ∀ n k s, count n (slotUsers m' k s)
                    = if bool_decide (n = N) then 0%nat
                      else count n (slotUsers m k s)) ∧
  (N < 0 ∨ size (insts_ m) <= N → removeInstrument N m = Fail OutOfRange) ∧
  (lookupZ (insts_ m) N = Some None → removeInstrument N m = Fail Undefined).
Proof.
  intros Hwf Hc. split.
  - intros i Hi.
    destruct (removeInstrument_run N m i Hi (links_in_range m N i Hwf Hc Hi))
      as (m' & Hrun & Hi' & Hr' & Hl' & Hp' & Hu').
    destruct (removeInstrument_counts _ _ _ _ Hc Hrun) as (Hc' & _ & _).
    exists m'. split_and!; [done|done| |done|done|].
    + destruct Hwf as [Hn Hp]. split.
      * by rewrite Hi', length_insert.
      * intros k. by rewrite Hl'.
    + intros n k s. rewrite Hu', count_iter_remove_one.
      case_bool_decide as HnN; case_bool_decide as HNn; try congruence; [|lia].
      subst n. rewrite (Hc N k s). unfold refCountOf. rewrite Hi. lia.
  - split.
    + intros Hn. unfold removeInstrument.
      rewrite (bind_run _ _ _ _ _ (gets_run _ _)). unfold at_.
      destruct (lookupZ (insts_ m) N) as [o|] eqn:Ho; [|done].
      apply lookupZ_lt in Ho. lia.
    + intros Hn. unfold removeInstrument.
      rewrite (bind_run _ _ _ _ _ (gets_run _ _)). unfold at_. by rewrite Hn.
Qed.


Lemma remove_one_insert_sorted N l : remove_one N (insert_sorted N l) = l.
Proof.
  induction l as [|x l IH]; cbn [insert_sorted remove_one].
  { by rewrite bool_decide_eq_true_2. }
  destruct (N <=? x) eqn:Hx; cbn [remove_one].
  - by rewrite bool_decide_eq_true_2.
  - apply Z.leb_gt in Hx. rewrite bool_decide_eq_false_2 by lia. by rewrite IH.
Qed.

(** X7: on a manager with complete arrays and for a number 0..127 whose
    entry is empty.  A new FM, SSG or ADPCM instrument that is removed
    again leaves the table of instruments and the users of every slot as
    they were before it was added.  For the source DRUM [addInstrument]
    returns and stores nothing, so that [removeInstrument] meets the empty
    entry and dereferences the null pointer. *)
Theorem add_then_remove_restores N source name m :
  wellFormed m → 0 <= N < 128 → instOf m N = None →
  (source ≠ DRUM →
   ∃ inst m1 m2,
     addInstrument N source name m = Ok (tt, m1) ∧
     removeInstrument N m1 = Ok (inst, m2) ∧
     getSoundSource inst = source ∧ getName inst = name ∧
     insts_ m2 = insts_ m ∧ regardingUnedited_ m2 = regardingUnedited_ m ∧
     ∀ k s, slotUsers m2 k s = slotUsers m k s) ∧
  (source = DRUM →
   addInstrument N source name m = Ok (tt, m) ∧
   removeInstrument N m = Fail Undefined).
Proof.
  intros Hwf HN Hfree. split; [intros Hs|].
  2:{ intros ->. pose proof Hwf as [Hlen _]. split.
      - unfold addInstrument. rewrite (bind_run _ _ _ _ _ (gets_run _ _)).
        unfold size. rewrite Hlen.
        rewrite (proj2 (Z.ltb_ge N 0)), (proj2 (Z.leb_gt _ N)) by lia. reflexivity.
      - unfold removeInstrument. rewrite (bind_run _ _ _ _ _ (gets_run _ _)).
        unfold at_. unfold instOf in Hfree.
        destruct (lookupZ (insts_ m) N) as [[x|]|] eqn:Hl; [done|reflexivity|].
        destruct (lookupZ_is_Some (insts_ m) N) as [o Ho]; [unfold size; lia|congruence]. }
  destruct (addInstrument_run m N source name Hwf HN Hs)
    as (inst & m1 & Hadd & Hfresh & Hi1 & Hr1 & Hl1 & Hu1).
  pose proof Hfresh as (Hsrc & _ & Hname & Hlinks & _).
  pose proof Hwf as [Hlen Hpools].
  assert (instOf m1 N = Some inst) as Hinst.
  { unfold instOf, lookupZ. rewrite Hi1, (proj2 (Z.leb_le _ _)) by lia.
    by rewrite list_lookup_insert_eq by lia. }
  destruct (removeInstrument_run N m1 inst Hinst) as (m2 & Hrem & Hi2 & Hr2 & _ & _ & Hu2).
  { rewrite Hsrc. intros l Hl He. destruct (Hlinks l Hl) as [Hn _].
    assert (validKind (link_kind l) = true) as Hk.
    { apply validKind_link. by rewrite (link_source_linksOf _ _ Hl). }
    split; [done|]. rewrite Hn. unfold size. rewrite Hl1. apply assigned_range.
    rewrite (wellFormed_pool _ _ Hwf Hk). lia. }
  exists inst, m1, m2. split_and!; [done..| |congruence|].
  - rewrite Hi2, Hi1, list_insert_insert_eq. apply list_insert_id.
    unfold instOf, lookupZ in Hfree. rewrite (proj2 (Z.leb_le _ _)) in Hfree by lia.
    destruct (insts_ m !! Z.to_nat N) as [[x|]|] eqn:Hl; [done|done|].
    apply lookup_ge_None in Hl. lia.
  - intros k s. rewrite Hu2, Hu1, (refCount_fresh m N source name inst k s Hfresh).
    case_bool_decide; [|done]. apply remove_one_insert_sorted.
Qed.

Lemma registerLinks_run N m i :
  (∀ l, l ∈ linksOf (getSoundSource i) → getLinkEnabled l i = true →
        validKind (link_kind l) = true ∧
        0 <= getLinkNumber l i < size (pools_ m (link_kind l))) →
  ∃ m', registerLinks N i m = Ok (tt, m') ∧
        insts_ m' = insts_ m ∧
        (∀ k, length (pools_ m' k) = length (pools_ m k)) ∧
        (∀ k s, payloadAt m' k s = payloadAt m k s) ∧
        ∀ k s, slotUsers m' k s
               = Nat.iter (refCount i k s) (insert_sorted N) (slotUsers m k s).
Proof.
  intros Hls.
  destruct (links_loop_run (registerUserInstrument N) (insert_sorted N) i _ m
              (λ p, conj eq_refl eq_refl) Hls)
    as (m1 & Hrun & Hi1 & Hr1 & Hl1 & Hp1 & Hu1).
  exists m1. split_and!; [done..|]. intros k s. by rewrite Hu1, refCount_filter.
Qed.

(** X8: when the reference counts are right, an instrument that
    [removeInstrument] returned and that [addInstrument] takes back is
    stored as before: the table of instruments is the one before the
    removal, every payload is untouched, every slot lists every number as
    often as before, and the counts are right. *)
Theorem remove_then_add_restores N m i :
  wellFormed m → countsRight m → instOf m N = Some i → getNumber i = N →
  ∃ m1 m2,
    removeInstrument N m = Ok (i, m1) ∧ addInstrument_ptr i m1 = Ok (tt, m2) ∧
    insts_ m2 = insts_ m ∧
    (∀ k s, payloadAt m2 k s = payloadAt m k s) ∧
    (∀ n k s, count n (slotUsers m2 k s) = count n (slotUsers m k s)) ∧
    countsRight m2.
Proof.
  intros Hwf Hc Hi HN.
  pose proof (links_in_range m N i Hwf Hc Hi) as Hrange.
  destruct (removeInstrument_run N m i Hi Hrange)
    as (m1 & Hrem & Hi1 & Hr1 & Hl1 & Hp1 & Hu1).
  pose proof (instOf_range _ _ _ Hi) as HNr.
  unfold addInstrument_ptr. rewrite HN.
  assert (0 <= N < size (insts_ m1)) as HN1
    by (unfold size in *; by rewrite Hi1, length_insert).
  set (m1' := setInsts (<[Z.to_nat N := Some i]> (insts_ m1)) m1).
  destruct (registerLinks_run N m1' i) as (m2 & Hreg & Hi2 & Hl2 & Hp2 & Hu2).
  { intros l Hl He. destruct (Hrange l Hl He) as [Hk Hn]. split; [done|].
    unfold size in *. cbn [m1' pools_ setInsts]. by rewrite Hl1. }
  assert (insts_ m2 = insts_ m) as Hinsts.
  { rewrite Hi2. cbn [m1' insts_ setInsts]. rewrite Hi1, list_insert_insert_eq.
    apply list_insert_id. unfold instOf, lookupZ in Hi.
    destruct (0 <=? N); [|done].
    by destruct (insts_ m !! Z.to_nat N) as [[x|]|]; simplify_eq. }
  assert (∀ n k s, count n (slotUsers m2 k s) = count n (slotUsers m k s)) as Hcount.
  { intros n k s. rewrite Hu2, count_iter_insert_sorted.
    change (slotUsers m1' k s) with (slotUsers m1 k s).
    rewrite Hu1, count_iter_remove_one. case_bool_decide as HnN; [|lia].
    subst n. pose proof (Hc N k s) as HcN. unfold refCountOf in HcN.
    rewrite Hi in HcN. lia. }
  exists m1, m2. split_and!; [done| |done| |done|].
  - rewrite (bind_run _ _ _ _ _ (storeInst_run _ _ _ HN1)). exact Hreg.
  - intros k s. by rewrite Hp2, <- Hp1.
  - intros n k s. rewrite Hcount, (Hc n k s). unfold refCountOf, instOf.
    by rewrite Hinsts.
Qed.

End Undo.

(** ** A clone is a duplicate of the instrument cloned *)

Section CloneLinks.
Context `{PropertyClasses}.
Implicit Types m : InstrumentsManager.
Implicit Types i : AbstractInstrument.

Lemma instAt_run src n m i :
  instOf m n = Some i → getSoundSource i = src → instAt src n m = Ok (i, m).
Proof.
  unfold instOf, instAt. intros Hi Hs. rewrite (bind_run _ _ _ _ _ (gets_run _ _)).
  unfold at_. destruct (lookupZ (insts_ m) n) as [[x|]|]; try done. injection Hi as ->.
  rewrite (bind_run _ _ _ _ _ (lift_run _ _)). unfold derefAs.
  by rewrite bool_decide_eq_true_2.
Qed.

Lemma checkLink_run l m : validKind (link_kind l) = true → checkLink l m = Ok (tt, m).
Proof. unfold checkLink. by intros ->. Qed.

Lemma setInstrumentProperty_run l c num m ic :
  instOf m c = Some ic → getSoundSource ic = link_source l →
  validKind (link_kind l) = true →
  (getLinkEnabled l ic = true →
   0 <= getLinkNumber l ic < size (pools_ m (link_kind l)) ∧
   0 <= num < size (pools_ m (link_kind l))) →
  ∃ m', setInstrumentProperty l c num m = Ok (tt, m') ∧
        insts_ m' = <[Z.to_nat c := Some (setLinkNumber l num ic)]> (insts_ m) ∧
        ∀ k, length (pools_ m' k) = length (pools_ m k).
Proof.
  intros Hi Hs Hk Hr. unfold setInstrumentProperty.
  rewrite (bind_run _ _ _ _ _ (instAt_run _ _ _ _ Hi Hs)).
  rewrite (bind_run _ _ _ _ _ (checkLink_run _ _ Hk)).
  destruct (getLinkEnabled l ic) eqn:He.
  - destruct (Hr eq_refl) as [Ho Hn].
    destruct (lookupZ_is_Some _ _ Ho) as [p Hp].
    set (m1 := setPool (link_kind l)
                 (<[Z.to_nat (getLinkNumber l ic) := deregisterUserInstrument c p]>
                    (pools_ m (link_kind l))) m).
    assert (0 <= num < size (pools_ m1 (link_kind l))) as Hn1
      by (unfold m1, size; by rewrite length_setPool).
    destruct (lookupZ_is_Some _ _ Hn1) as [q Hq].
    assert ((updateAt (link_kind l) (getLinkNumber l ic) (deregisterUserInstrument c) ;;
             updateAt (link_kind l) num (registerUserInstrument c)) m
            = Ok (tt, setPool (link_kind l)
                        (<[Z.to_nat num := registerUserInstrument c q]>
                           (pools_ m1 (link_kind l))) m1)) as Hrun.
    { rewrite (bind_run _ _ _ _ _ (updateAt_run _ _ _ _ _ Hk Hp)).
      apply (updateAt_run _ _ _ _ _ Hk Hq). }
    rewrite (bind_run _ _ _ _ _ Hrun), putInst_run.
    eexists. split; [reflexivity|]. split; [done|].
    intros k. cbn [pools_ setInsts]. rewrite length_setPool. apply length_setPool.
  - rewrite (bind_run _ _ _ _ _ (ret_run _ _)), putInst_run.
    eexists. split; [reflexivity|]. by split.
Qed.

Lemma setInstrumentPropertyEnabled_run l c e m ic :
  instOf m c = Some ic → getSoundSource ic = link_source l →
  validKind (link_kind l) = true →
  0 <= getLinkNumber l ic < size (pools_ m (link_kind l)) →
  ∃ m', setInstrumentPropertyEnabled l c e m = Ok (tt, m') ∧
        insts_ m' = <[Z.to_nat c := Some (setLinkEnabled l e ic)]> (insts_ m) ∧
        ∀ k, length (pools_ m' k) = length (pools_ m k).
Proof.
  intros Hi Hs Hk Hr. unfold setInstrumentPropertyEnabled.
  rewrite (bind_run _ _ _ _ _ (instAt_run _ _ _ _ Hi Hs)).
  rewrite (bind_run _ _ _ _ _ (checkLink_run _ _ Hk)). cbv zeta.
  rewrite (bind_run _ _ _ _ _ (putInst_run _ _ _)).
  rewrite getLinkNumber_setLinkEnabled.
  set (m1 := setInsts _ m).
  destruct (lookupZ_is_Some (pools_ m1 (link_kind l)) _ Hr) as [p Hp].
  destruct e; rewrite (updateAt_run _ _ _ _ _ Hk Hp);
    (eexists; split; [reflexivity|]; split; [done|]; intros k; by rewrite length_setPool).
Qed.

Lemma setEnvelopeReset_run c t e m ic :
  instOf m c = Some ic → getSoundSource ic = FM →
  setInstrumentFMEnvelopeResetEnabled c t e m
  = Ok (tt, setInsts (<[Z.to_nat c := Some (setEnvelopeResetEnabled t e ic)]> (insts_ m)) m).
Proof.
  unfold instOf. intros Hi Hs. unfold setInstrumentFMEnvelopeResetEnabled.
  rewrite (bind_run _ _ _ _ _ (gets_run _ _)). unfold idx.
  destruct (lookupZ (insts_ m) c) as [[x|]|]; try done. injection Hi as ->.
  rewrite (bind_run _ _ _ _ _ (lift_run _ _)). unfold derefAs.
  rewrite bool_decide_eq_true_2 by done.
  by rewrite (bind_run _ _ _ _ _ (lift_run _ _)).
Qed.


Lemma getEnvelopeResetEnabled_set_same t e i :
  getSoundSource i = FM → getEnvelopeResetEnabled t (setEnvelopeResetEnabled t e i) = e.
Proof.
  destruct i as [[]|[]|[]]; try done. intros _.
  unfold getEnvelopeResetEnabled, setEnvelopeResetEnabled. cbn. apply upd_same.
Qed.

Lemma getEnvelopeResetEnabled_set_other t t' e i :
  t' ≠ t →
  getEnvelopeResetEnabled t' (setEnvelopeResetEnabled t e i) = getEnvelopeResetEnabled t' i.
Proof.
  intros Hne. destruct i as [[]|[]|[]]; try done.
  unfold getEnvelopeResetEnabled, setEnvelopeResetEnabled. cbn. by apply upd_other.
Qed.

Lemma getName_setEnvelopeResetEnabled t e i :
  getName (setEnvelopeResetEnabled t e i) = getName i.
Proof. by destruct i as [[]|[]|[]]. Qed.

Section Steps.
Variables (c : Z) (ref : AbstractInstrument) (m0 : InstrumentsManager).
Hypothesis Hwf : wellFormed m0.
Hypothesis Href : ∀ l, l ∈ linksOf (getSoundSource ref) → getLinkEnabled l ref = true →
                       0 <= getLinkNumber l ref < 128.

Lemma instOf_insert m m' n o :
  0 <= n < size (insts_ m) → insts_ m' = <[Z.to_nat n := o]> (insts_ m) →
  ∀ n', instOf m' n' = if bool_decide (n' = n) then o else instOf m n'.
Proof.
  intros Hn Hi n'. rewrite <- (instOf_setInsts m n o n' Hn).
  unfold instOf. by rewrite Hi.
Qed.

Lemma cloning_update (dL dL' : list Link) (dT dT' : list FMOperatorType) m m' ic ic' :
  cloning c ref dL dT m0 m → instOf m c = Some ic →
  insts_ m' = <[Z.to_nat c := Some ic']> (insts_ m) →
  (∀ k, length (pools_ m' k) = length (pools_ m k)) →
  getSoundSource ic' = getSoundSource ic → getName ic' = getName ic →
  (∀ l, l ∈ linksOf (getSoundSource ref) → getLinkEnabled l ic' = true →
        0 <= getLinkNumber l ic' < 128) →
  (∀ l, l ∈ dL' → getLinkEnabled l ic' = getLinkEnabled l ref ∧
                  getLinkNumber l ic' = getLinkNumber l ref) →
  (∀ l, l ∈ linksOf (getSoundSource ref) → l ∉ dL' → getLinkEnabled l ic' = fixedLink l) →
  (∀ t, t ∈ dT' → getEnvelopeResetEnabled t ic' = getEnvelopeResetEnabled t ref) →
  cloning c ref dL' dT' m0 m'.
Proof.
  intros (Hl & Hn & Ho & ic0 & Hi0 & Hs0 & Hn0 & _) Hi Hi' Hl' Hs Hname Hr Hc Hu Hf.
  assert (ic0 = ic) as -> by congruence.
  pose proof (instOf_range _ _ _ Hi) as Hcr.
  pose proof (instOf_insert m m' c _ Hcr Hi') as Hinst.
  split_and!.
  - intros k. by rewrite Hl'.
  - by rewrite Hi', length_insert.
  - intros n Hne. rewrite Hinst, bool_decide_eq_false_2 by done. by apply Ho.
  - exists ic'. split_and!; [|congruence|congruence|done..].
    by rewrite Hinst, bool_decide_eq_true_2.
Qed.

Lemma cloning_pool (dL : list Link) (dT : list FMOperatorType) m l :
  cloning c ref dL dT m0 m → l ∈ linksOf (getSoundSource ref) →
  validKind (link_kind l) = true ∧ size (pools_ m (link_kind l)) = 128.
Proof.
  intros (Hl & _) Hin.
  assert (validKind (link_kind l) = true) as Hk.
  { apply validKind_link. by rewrite (link_source_linksOf _ _ Hin). }
  split; [done|]. unfold size. by rewrite Hl, (wellFormed_pool _ _ Hwf Hk).
Qed.

(** [setInstrument{X}(cloneInstNum, ref->get{X}Number())]. *)
Lemma number_step (dL : list Link) (dT : list FMOperatorType) l :
  l ∈ linksOf (getSoundSource ref) →
  hoare (cloning c ref dL dT m0)
    (setInstrumentProperty l c (getLinkNumber l ref))
    (λ _ m, cloning c ref (if fixedLink l then dL ++ [l] else dL) dT m0 m ∧
            ∃ ic, instOf m c = Some ic ∧ getLinkNumber l ic = getLinkNumber l ref ∧
                  (fixedLink l = false → getLinkEnabled l ic = true →
                   getLinkEnabled l ref = true)).
Proof.
  intros Hin m Hcl. pose proof Hcl as (Hl & Hn & Ho & ic & Hi & Hs & Hname & Hr & Hc & Hu & Hf).
  destruct (cloning_pool _ _ _ _ Hcl Hin) as [Hk Hsize].
  pose proof (link_source_linksOf _ _ Hin) as Hsrc.
  assert (getLinkEnabled l ic = true → getLinkEnabled l ref = true) as Hon.
  { intros He. destruct (decide (l ∈ dL)) as [Hd|Hd].
    - destruct (Hc l Hd) as [<- _]. done.
    - rewrite (Hu l Hin Hd) in He. apply getLinkEnabled_fixed; [done|congruence]. }
  destruct (setInstrumentProperty_run l c (getLinkNumber l ref) m ic Hi)
    as (m' & Hrun & Hi' & Hl'); [congruence|done| |].
  { intros He. rewrite Hsize. split; [by apply Hr|]. apply Href; [done|by apply Hon]. }
  assert (getLinkNumber l (setLinkNumber l (getLinkNumber l ref) ic) = getLinkNumber l ref)
    as Hnum by (apply getLinkNumber_setLinkNumber_same; congruence).
  exists tt, m'. split; [done|]. split.
  - apply (cloning_update dL _ dT dT m m' ic _ Hcl Hi Hi' Hl').
    + apply getSoundSource_setLinkNumber.
    + apply getName_setLinkNumber.
    + intros l' Hin'. rewrite getLinkEnabled_setLinkNumber. intros He.
      destruct (decide (l' = l)) as [->|Hne].
      * rewrite Hnum. apply Href; [done|by apply Hon].
      * rewrite getLinkNumber_setLinkNumber_other by done. by apply Hr.
    + intros l' Hl''. rewrite getLinkEnabled_setLinkNumber.
      destruct (decide (l' = l)) as [->|Hne].
      * split; [|done]. destruct (fixedLink l) eqn:Hfix.
        -- rewrite !getLinkEnabled_fixed; [done..|congruence].
        -- by apply Hc.
      * rewrite getLinkNumber_setLinkNumber_other by done. apply Hc.
        destruct (fixedLink l); [|done].
        apply elem_of_app in Hl'' as [?|?%list_elem_of_singleton]; done.
    + intros l' Hin' Hout. rewrite getLinkEnabled_setLinkNumber. apply Hu; [done|].
      destruct (fixedLink l); [|done]. intros ?. apply Hout, elem_of_app. by left.
    + intros t Ht. rewrite getEnvelopeResetEnabled_setLinkNumber. by apply Hf.
  - exists (setLinkNumber l (getLinkNumber l ref) ic). split_and!; [|done|].
    + pose proof (instOf_range _ _ _ Hi) as Hcr.
      by rewrite (instOf_insert m m' c _ Hcr Hi'), bool_decide_eq_true_2.
    + intros _. rewrite getLinkEnabled_setLinkNumber. apply Hon.
Qed.


(** [copyLink] for a reference with a flag. *)
Lemma copyLink_step (dL : list Link) (dT : list FMOperatorType) l :
  l ∈ linksOf (getSoundSource ref) → fixedLink l = false →
  hoare (cloning c ref dL dT m0) (copyLink c ref l)
    (λ _, cloning c ref (dL ++ [l]) dT m0).
Proof.
  intros Hin Hfix. unfold copyLink. eapply hoare_bind; [by apply number_step|].
  intros [] m. cbv beta. rewrite Hfix. intros [Hcl (ic & Hi & Hnum & Hon)].
  pose proof Hcl as (Hl & Hn & Ho & ic0 & Hi0 & Hs & Hname & Hr & Hc & Hu & Hf).
  assert (ic0 = ic) as -> by congruence.
  destruct (cloning_pool _ _ _ _ Hcl Hin) as [Hk Hsize].
  pose proof (link_source_linksOf _ _ Hin) as Hsrc.
  destruct (getLinkEnabled l ref) eqn:Heref.
  - destruct (setInstrumentPropertyEnabled_run l c true m ic Hi)
      as (m' & Hrun & Hi' & Hl'); [congruence|done| |].
    { rewrite Hsize, Hnum. by apply Href. }
    exists tt, m'. split; [done|].
    apply (cloning_update dL _ dT dT m m' ic _ Hcl Hi Hi' Hl').
    + apply getSoundSource_setLinkEnabled.
    + apply getName_setLinkEnabled.
    + intros l' Hin'. rewrite getLinkNumber_setLinkEnabled.
      destruct (decide (l' = l)) as [->|Hne].
      * intros _. rewrite Hnum. by apply Href.
      * rewrite getLinkEnabled_setLinkEnabled_other by done. by apply Hr.
    + intros l' Hl''. rewrite getLinkNumber_setLinkEnabled.
      destruct (decide (l' = l)) as [->|Hne].
      * split; [|done]. rewrite Heref.
        apply getLinkEnabled_setLinkEnabled_same; [congruence|done].
      * rewrite getLinkEnabled_setLinkEnabled_other by done. apply Hc.
        apply elem_of_app in Hl'' as [?|?%list_elem_of_singleton]; done.
    + intros l' Hin' Hout. rewrite getLinkEnabled_setLinkEnabled_other.
      * apply Hu; [done|]. intros ?. apply Hout, elem_of_app. by left.
      * intros ->. apply Hout, elem_of_app. right. by apply list_elem_of_singleton.
    + intros t Ht. rewrite getEnvelopeResetEnabled_setLinkEnabled. by apply Hf.
  - exists tt, m. split; [done|].
    assert (getLinkEnabled l ic = false) as Hoff.
    { apply not_true_is_false. intros He. by specialize (Hon eq_refl He). }
    destruct Hcl as (_ & _ & _ & _). split_and!; [done..|].
    exists ic. split_and!; [done..| | |done].
    + intros l' [Hl'| ->%list_elem_of_singleton]%elem_of_app; [by apply Hc|].
      by rewrite Hoff, Heref.
    + intros l' Hin' Hout. apply Hu; [done|]. intros ?. apply Hout, elem_of_app. by left.
Qed.

(** [copyLink] for the FM envelope and the ADPCM waveform, which have no
    flag. *)
Lemma fixed_step (dL : list Link) (dT : list FMOperatorType) l :
  l ∈ linksOf (getSoundSource ref) → fixedLink l = true →
  hoare (cloning c ref dL dT m0)
    (setInstrumentProperty l c (getLinkNumber l ref))
    (λ _, cloning c ref (dL ++ [l]) dT m0).
Proof.
  intros Hin Hfix. eapply hoare_post; [by apply number_step|].
  intros [] m. cbv beta. rewrite Hfix. by intros [Hcl _].
Qed.

Lemma reset_step (dL : list Link) (dT : list FMOperatorType) t :
  getSoundSource ref = FM →
  hoare (cloning c ref dL dT m0)
    (setInstrumentFMEnvelopeResetEnabled c t (getEnvelopeResetEnabled t ref))
    (λ _, cloning c ref dL (dT ++ [t]) m0).
Proof.
  intros Hfm m Hcl.
  pose proof Hcl as (Hl & Hn & Ho & ic & Hi & Hs & Hname & Hr & Hc & Hu & Hf).
  eexists tt, _. split; [apply (setEnvelopeReset_run c t _ m ic Hi); congruence|].
  eapply (cloning_update dL dL dT _ m _ ic _ Hcl Hi); [done|done|..].
  - apply getSoundSource_setEnvelopeResetEnabled.
  - apply getName_setEnvelopeResetEnabled.
  - intros l Hin. rewrite getLinkEnabled_setEnvelopeResetEnabled,
      getLinkNumber_setEnvelopeResetEnabled. by apply Hr.
  - intros l Hin. rewrite getLinkEnabled_setEnvelopeResetEnabled,
      getLinkNumber_setEnvelopeResetEnabled. by apply Hc.
  - intros l Hin Hout. rewrite getLinkEnabled_setEnvelopeResetEnabled. by apply Hu.
  - intros t' Ht'. destruct (decide (t' = t)) as [->|Hne].
    + apply getEnvelopeResetEnabled_set_same. congruence.
    + apply elem_of_app in Ht' as [Ht'|?%list_elem_of_singleton]; [|done].
      rewrite <- (Hf t' Ht'). by apply getEnvelopeResetEnabled_set_other.
Qed.

End Steps.


Lemma cloning_start c ref m m1 inst :
  wellFormed m → 0 <= c < 128 → getSoundSource ref ≠ DRUM →
  freshInst m c (getSoundSource ref) (getName ref) inst →
  addEffect m c (getSoundSource ref) inst m1 →
  cloning c ref [] [] m1 m1.
Proof.
  intros Hwf Hc Hsrc (Hs & _ & Hname & Hlinks & _) (Hi1 & _ & Hl1 & _).
  split_and!; [done..|]. exists inst. split_and!; [|done|done| | | |].
  - destruct Hwf as [Hlen _]. unfold instOf, lookupZ.
    rewrite Hi1, (proj2 (Z.leb_le _ _)) by lia. by rewrite list_lookup_insert_eq by lia.
  - intros l Hin _. destruct (Hlinks l Hin) as [-> _].
    assert (validKind (link_kind l) = true) as Hk.
    { apply validKind_link. by rewrite (link_source_linksOf _ _ Hin). }
    pose proof (assigned_range m (link_kind l)) as Hr. unfold size in Hr.
    rewrite (wellFormed_pool _ _ Hwf Hk) in Hr. apply Hr. lia.
  - by intros l ?%elem_of_nil.
  - intros l Hin _. by destruct (Hlinks l Hin) as [_ ->].
  - by intros t ?%elem_of_nil.
Qed.

Lemma cloneInstrument_cloning c r m ref :
  wellFormed m → countsRight m → instOf m r = Some ref → 0 <= c < 128 →
  ∃ m1 m', cloneInstrument c r m = Ok (tt, m') ∧
    addInstrument c (getSoundSource ref) (getName ref) m = Ok (tt, m1) ∧
    wellFormed m1 ∧
    cloning c ref (linksOf (getSoundSource ref))
      (if bool_decide (getSoundSource ref = FM) then fmOpTypes_ else []) m1 m'.
Proof.
  intros Hwf Hc Hr Hcr.
  assert (getSoundSource ref ≠ DRUM) as Hsrc by (by destruct ref).
  destruct (addInstrument_run m c _ (getName ref) Hwf Hcr Hsrc)
    as (inst & m1 & Hadd & Hfresh & Heff).
  pose proof (cloning_start c ref m m1 inst Hwf Hcr Hsrc Hfresh Heff) as Hstart.
  assert (wellFormed m1) as Hwf1.
  { eapply touchesOnly_wellFormed; [|exact Hwf].
    exact (pres_touchesOnly_addInstrument c m _ _ _ _ _ Hadd (touchesOnly_refl _ _)). }
  assert (∀ l, l ∈ linksOf (getSoundSource ref) → getLinkEnabled l ref = true →
               0 <= getLinkNumber l ref < 128) as Href.
  { intros l Hin He. destruct (links_in_range m r ref Hwf Hc Hr l Hin He) as [Hk Hn].
    unfold size in Hn. by rewrite (wellFormed_pool _ _ Hwf Hk) in Hn. }
  exists m1. unfold cloneInstrument. rewrite (bind_run _ _ _ _ _ (gets_run _ _)).
  assert (at_ (insts_ m) r = Ok (Some ref)) as ->.
  { unfold instOf in Hr. unfold at_.
    by destruct (lookupZ (insts_ m) r) as [[x|]|]; simplify_eq. }
  rewrite (bind_run _ _ _ _ _ (lift_run _ _)). cbn [deref].
  rewrite (bind_run _ _ _ _ _ (lift_run _ _)).
  rewrite (bind_run _ _ _ _ _ Hadd), (bind_run _ _ _ _ _ (gets_run _ _)).
  assert (∃ oc, at_ (insts_ m1) c = Ok oc) as [oc ->].
  { destruct (lookupZ_is_Some (insts_ m1) c) as [oc Hoc].
    - destruct Hwf1 as [Hlen _]. unfold size. lia.
    - exists oc. by apply at_Ok. }
  rewrite (bind_run _ _ _ _ _ (lift_run _ _)).
  pose proof (copyLink_step c ref m1 Hwf1 Href) as Hcopy.
  pose proof (fixed_step c ref m1 Hwf1 Href) as Hfixed.
  pose proof (reset_step c ref m1) as Hreset.
  destruct ref as [fm|ssg|adpcm]; cbn [getSoundSource linksOf] in *.
  - set (ref := InstFM fm) in *.
    assert (∀ p, p ∈ envFMParams_ → LOpSeqFM p ∈ linksFM) as Hops.
    { intros p Hp. unfold linksFM. do 2 right. apply elem_of_app. left.
      by apply list_elem_of_fmap_2. }
    assert (∀ t, LArpFM t ∈ linksFM ∧ LPtFM t ∈ linksFM) as Hper.
    { intros t. unfold linksFM. split; do 2 right; apply elem_of_app; right;
        apply list_elem_of_In, in_flat_map; exists t;
        (split; [destruct t; cbn; tauto|cbn; tauto]). }
    assert (hoare (cloning c ref [] [] m1)
      (setInstrumentFMEnvelope c (getLinkNumber LEnvFM ref) ;;
       copyLink c ref LLfoFM ;;
       forM_ envFMParams_ (λ p, copyLink c ref (LOpSeqFM p)) ;;
       forM_ fmOpTypes_ (λ t,
         copyLink c ref (LArpFM t) ;;
         copyLink c ref (LPtFM t) ;;
         setInstrumentFMEnvelopeResetEnabled c t (getEnvelopeResetEnabled t ref)))
      (λ _, cloning c ref linksFM fmOpTypes_ m1)) as Hall.
    { eapply hoare_bind; [apply (Hfixed [] [] LEnvFM); [by left|done]|intros []; cbv beta].
      eapply hoare_bind;
        [apply (Hcopy _ [] LLfoFM); [by right; left|done]|intros []; cbv beta].
      eapply hoare_bind.
      { pose proof (hoare_forM_
          (λ ps, cloning c ref (([] ++ [LEnvFM]) ++ [LLfoFM] ++ (LOpSeqFM <$> ps)) [] m1)
          envFMParams_ (λ p, copyLink c ref (LOpSeqFM p))) as Hloop.
        cbv beta in Hloop.
        assert (∀ (pre : list FMEnvelopeParameter) (p : FMEnvelopeParameter),
          p ∈ envFMParams_ →
          hoare (cloning c ref (([] ++ [LEnvFM]) ++ [LLfoFM] ++ (LOpSeqFM <$> pre)) [] m1)
            (copyLink c ref (LOpSeqFM p))
            (λ _, cloning c ref
                    (([] ++ [LEnvFM]) ++ [LLfoFM] ++ (LOpSeqFM <$> pre ++ [p])) [] m1))
          as Hstep.
        { intros pre p Hp. eapply hoare_post; [apply Hcopy; [by apply Hops|done]|].
          intros [] m2. cbv beta. by rewrite fmap_app, !(assoc_L (++)). }
        pose proof (Hloop Hstep []) as Hl. cbn [fmap list_fmap app] in Hl.
        cbn [app]. exact Hl. }
      intros []; cbv beta.
      pose proof (hoare_forM_
        (λ ts, cloning c ref
                 ([LEnvFM; LLfoFM] ++ (LOpSeqFM <$> envFMParams_)
                  ++ flat_map (λ t, [LArpFM t; LPtFM t]) ts) ts m1)
        fmOpTypes_ (λ t,
          copyLink c ref (LArpFM t) ;;
          copyLink c ref (LPtFM t) ;;
          setInstrumentFMEnvelopeResetEnabled c t (getEnvelopeResetEnabled t ref)))
        as Hloop.
      cbv beta in Hloop.
      assert (∀ (pre : list FMOperatorType) (t : FMOperatorType), t ∈ fmOpTypes_ →
        hoare (cloning c ref
                 ([LEnvFM; LLfoFM] ++ (LOpSeqFM <$> envFMParams_)
                  ++ flat_map (λ t, [LArpFM t; LPtFM t]) pre) pre m1)
          (copyLink c ref (LArpFM t) ;;
           copyLink c ref (LPtFM t) ;;
           setInstrumentFMEnvelopeResetEnabled c t (getEnvelopeResetEnabled t ref))
          (λ _, cloning c ref
                  ([LEnvFM; LLfoFM] ++ (LOpSeqFM <$> envFMParams_)
                   ++ flat_map (λ t, [LArpFM t; LPtFM t]) (pre ++ [t])) (pre ++ [t]) m1))
        as Hstep.
      { intros pre t _. destruct (Hper t) as [Ha Hp]. eapply hoare_post.
        - eapply hoare_bind; [by apply Hcopy|intros []; cbv beta].
          eapply hoare_bind; [by apply Hcopy|intros []; cbv beta].
          by apply Hreset.
        - intros [] m2. cbv beta. rewrite flat_map_app. cbn [flat_map app].
          by rewrite <- !(assoc_L (++)). }
      pose proof (Hloop Hstep []) as Hl. cbn [flat_map app] in Hl.
      rewrite app_nil_r in Hl. exact Hl. }
    destruct (Hall m1 Hstart) as ([] & m' & Hrun & Hfin).
    exists m'. split_and!; [exact Hrun|done|done|].
    by rewrite bool_decide_eq_true_2.
  - set (ref := InstSSG ssg) in *.
    assert (hoare (cloning c ref [] [] m1)
      (copyLink c ref LWfSSG ;; copyLink c ref LTnSSG ;; copyLink c ref LEnvSSG ;;
       copyLink c ref LArpSSG ;; copyLink c ref LPtSSG)
      (λ _, cloning c ref linksSSG [] m1)) as Hall.
    { do 4 (eapply hoare_bind;
              [apply Hcopy; [unfold linksSSG; set_solver|done]|intros []; cbv beta]).
      apply Hcopy; [unfold linksSSG; set_solver|done]. }
    destruct (Hall m1 Hstart) as ([] & m' & Hrun & Hfin).
    exists m'. split_and!; [exact Hrun|done|done|].
    by rewrite bool_decide_eq_false_2.
  - set (ref := InstADPCM adpcm) in *.
    assert (hoare (cloning c ref [] [] m1)
      (setInstrumentADPCMWaveform c (getLinkNumber LWfADPCM ref) ;;
       copyLink c ref LEnvADPCM ;; copyLink c ref LArpADPCM ;; copyLink c ref LPtADPCM)
      (λ _, cloning c ref linksADPCM [] m1)) as Hall.
    { eapply hoare_bind;
        [apply (Hfixed [] [] LWfADPCM); [by left|done]|intros []; cbv beta].
      do 2 (eapply hoare_bind;
              [apply Hcopy; [unfold linksADPCM; set_solver|done]|intros []; cbv beta]).
      apply Hcopy; [unfold linksADPCM; set_solver|done]. }
    destruct (Hall m1 Hstart) as ([] & m' & Hrun & Hfin).
    exists m'. split_and!; [exact Hrun|done|done|].
    by rewrite bool_decide_eq_false_2.
Qed.

End CloneLinks.

Section CloneDuplicate.
Context `{PropertyClasses} `{!PropertyEqLaws}.
Implicit Types m : InstrumentsManager.

(** X9: [cloneInstrument] into a free slot of a consistent manager
    returns; the clone has the name, the sound source, the references
    (their switches and slot numbers) and the envelope-reset flags of the
    instrument cloned, the duplicate test of [checkDuplicateInstruments]
    holds between the two, and the other instruments stay as they were. *)
Theorem cloneInstrument_makes_duplicate c r m ref :
  wellFormed m → countsRight m → instOf m r = Some ref → instOf m c = None →
  0 <= c < 128 →
  ∃ m' ic, cloneInstrument c r m = Ok (tt, m') ∧
    instOf m' c = Some ic ∧
    (∀ n, n ≠ c → instOf m' n = instOf m n) ∧
    getSoundSource ic = getSoundSource ref ∧ getName ic = getName ref ∧
    (∀ l, l ∈ linksOf (getSoundSource ref) →
          getLinkEnabled l ic = getLinkEnabled l ref ∧
          getLinkNumber l ic = getLinkNumber l ref) ∧
    (∀ t, getEnvelopeResetEnabled t ic = getEnvelopeResetEnabled t ref) ∧
    sameGroup m' r c = Ok true ∧ sameGroup m' c r = Ok true.
Proof.
  intros Hwf Hc Hr Hfree Hcr.
  destruct (cloneInstrument_cloning c r m ref Hwf Hc Hr Hcr)
    as (m1 & m' & Hrun & Hadd & Hwf1 & Hpools & Hlen & Hothers & ic & Hic & Hsrc & Hname
        & _ & Hcopied & _ & Hflags).
  assert (getSoundSource ref ≠ DRUM) as Hnd by (by destruct ref).
  destruct (addInstrument_run m c _ (getName ref) Hwf Hcr Hnd)
    as (inst & m1' & Hadd' & _ & (Hi1 & _)).
  rewrite Hadd in Hadd'. injection Hadd' as <-.
  assert (∀ n, n ≠ c → instOf m' n = instOf m n) as Hrest.
  { intros n Hn. rewrite (Hothers n Hn). unfold instOf. rewrite Hi1.
    destruct Hwf as [Hl _].
    rewrite (lookupZ_insert _ (Z.to_nat c)) by lia.
    by rewrite bool_decide_eq_false_2 by lia. }
  assert (∀ t, getEnvelopeResetEnabled t ic = getEnvelopeResetEnabled t ref) as Hreset.
  { intros t. case_bool_decide as Hfm.
    - apply Hflags. destruct t; unfold fmOpTypes_; set_solver.
    - destruct ref, ic; try done. }
  assert (wellFormed m') as Hwf'.
  { destruct Hwf1 as [Hl1 Hp1]. split; [by rewrite Hlen|]. intros k. by rewrite Hpools. }
  assert (linksInRange m') as Hrange.
  { apply countsRight_linksInRange; [done|].
    exact (cloneInstrument_counts c r m m' Hwf Hc Hfree Hrun). }
  assert (instOf m' r = Some ref) as Hr'.
  { rewrite Hrest; [done|]. intros ->. by rewrite Hfree in Hr. }
  exists m', ic. split_and!; [done..| |].
  - apply (joins_similar m' r c ref ic Hwf' Hrange Hr' Hic).
    apply (same_but_disabled_similar m' r); [done..| |done].
    intros l Hl. destruct (Hcopied l Hl) as [He Hn]. by rewrite He, Hn.
  - apply (joins_similar m' c r ic ref Hwf' Hrange Hic Hr').
    apply (same_but_disabled_similar m' c); [done..| |done].
    rewrite Hsrc. intros l Hl. by destruct (Hcopied l Hl) as [He Hn].
Qed.

End CloneDuplicate.

(** ** The slots that the lists of the editor show *)

Section Entried.
Context `{PropertyClasses}.
Implicit Types m : InstrumentsManager.

Lemma indicesWhere_from (cond : Property → bool) (l : list Property) (j : nat) :
  let r := flat_map (λ np : nat * Property,
                       if cond (snd np) then [Z.of_nat (fst np)] else [])
                    (imap (λ n p, ((j + n)%nat, p)) l) in
  StronglySorted Z.lt r ∧
  ∀ s, s ∈ r ↔ ∃ (n : nat) p, l !! n = Some p ∧ cond p = true ∧ s = Z.of_nat (j + n).
Proof.
  revert j. induction l as [|p l IH]; intros j; cbn zeta.
  - split; [constructor|]. intros s. split; [by intros ?%elem_of_nil|].
    by intros (n & p & ? & _).
  - cbn [imap flat_map fst snd].
    assert (imap ((λ n q, ((j + n)%nat, q)) ∘ S) l = imap (λ n q, ((S j + n)%nat, q)) l)
      as ->.
    { apply imap_ext. intros n q _. cbn. f_equal. lia. }
    destruct (IH (S j)) as [Hs Hm]. cbn zeta in Hs, Hm. split.
    + destruct (cond p); [|done]. cbn [app]. constructor; [done|].
      apply Forall_forall. intros s (n & q & _ & _ & ->)%Hm. lia.
    + intros s. rewrite elem_of_app, Hm. split.
      * intros [Hp|(n & q & Hq & Hc & ->)].
        -- destruct (cond p) eqn:Hc; [|by apply elem_of_nil in Hp].
           apply list_elem_of_singleton in Hp as ->. exists 0%nat, p. split_and!; try done; f_equal; lia.
        -- exists (S n), q. split_and!; try done; f_equal; lia.
      * intros ([|n] & q & Hq & Hc & ->).
        -- left. injection Hq as ->. rewrite Hc. apply list_elem_of_singleton. try done; f_equal; lia.
        -- right. exists n, q. split_and!; try done; f_equal; lia.
Qed.

Lemma indicesWhere_spec (cond : Property → bool) (l : list Property) :
  StronglySorted Z.lt (indicesWhere cond l) ∧
  ∀ s, s ∈ indicesWhere cond l ↔ ∃ p, lookupZ l s = Some p ∧ cond p = true.
Proof.
  destruct (indicesWhere_from cond l 0) as [Hs Hm]. cbn zeta in Hs, Hm.
  split; [exact Hs|]. intros s. unfold indicesWhere. rewrite Hm. split.
  - intros (n & p & Hp & Hc & ->). exists p. split; [|done].
    by rewrite lookupZ_of_nat.
  - intros (p & [Hs0 Hp]%lookupZ_Some & Hc). exists (Z.to_nat s), p.
    split_and!; try done; lia.
Qed.

Lemma getPropertyEntriedIndices_run k m :
  validKind k = true →
  getPropertyEntriedIndices k m = Ok (indicesWhere (entriedCond k) (pools_ m k), m).
Proof.
  intros Hk. unfold getPropertyEntriedIndices, pool, mbind, StateErr_bind. by rewrite Hk.
Qed.

Lemma perOperator_links t : LArpFM t ∈ linksFM ∧ LPtFM t ∈ linksFM.
Proof.
  unfold linksFM. split; do 2 right; apply elem_of_app; right;
    apply list_elem_of_In, in_flat_map; exists t;
    (split; [destruct t; cbn; tauto|cbn; tauto]).
Qed.

(** X10: on a manager with right reference counts
    [get{X}EntriedIndices] returns, in ascending order and each once, the
    numbers of the slots that pass its test; for the eleven kinds of
    sequence these include every slot that a stored instrument refers to
    with the reference in force.  For a parameter without operator
    sequence the call raises. *)
Theorem getPropertyEntriedIndices_lists_used k m :
  countsRight m →
  (validKind k = true →
   ∃ idcs, getPropertyEntriedIndices k m = Ok (idcs, m) ∧
     StronglySorted Z.lt idcs ∧
     (∀ s, s ∈ idcs ↔ ∃ p, lookupZ (pools_ m k) s = Some p ∧ entriedCond k p = true) ∧
     (k ∉ [EnvFM; LfoFM; WfADPCM] →
      ∀ n i l, instOf m n = Some i → l ∈ linksOf (getSoundSource i) →
               link_kind l = k → getLinkEnabled l i = true →
               getLinkNumber l i ∈ idcs)) ∧
  (validKind k = false → getPropertyEntriedIndices k m = Fail OutOfRange).
Proof.
  intros Hc. unfold getPropertyEntriedIndices, pool. split; intros Hk.
  - exists (indicesWhere (entriedCond k) (pools_ m k)).
    destruct (indicesWhere_spec (entriedCond k) (pools_ m k)) as [Hs Hm].
    split_and!; [|done|done|].
    { unfold mbind, StateErr_bind. by rewrite Hk. }
    intros Hseq n i l Hi Hl <- He. apply Hm.
    pose proof (enabled_registered m n i l Hc Hi Hl He) as Hin.
    unfold slotUsers in Hin.
    destruct (lookupZ (pools_ m (link_kind l)) (getLinkNumber l i)) as [p|] eqn:Hp;
      [|by apply elem_of_nil in Hin].
    exists p. split; [done|].
    assert (isUserInstrument p = true) as Hu.
    { unfold isUserInstrument. destruct (users_ p); [by apply elem_of_nil in Hin|done]. }
    unfold entriedCond. destruct (link_kind l); try (by rewrite Hu); exfalso; apply Hseq;
      set_solver.
  - unfold mbind, StateErr_bind. by rewrite Hk.
Qed.

End Entried.

(** ** The parameters of an FM envelope *)

Lemma getParameterValue_set e p v q :
  getParameterValue (setParameterValue e p v) q
  = if decide (q = p) then v else getParameterValue e q.
Proof.
  destruct e as [al fb [] [] [] []].
  case_decide as Hq; [subst q; by destruct p|].
  destruct p; destruct q; try reflexivity; by destruct Hq.
Qed.

Lemma getOperatorEnabled_setParameterValue e p v (i : nat) :
  getOperatorEnabled (setParameterValue e p v) i = getOperatorEnabled e i.
Proof.
  destruct e as [al fb [] [] [] []].
  destruct p; do 3 (destruct i as [|i]; [reflexivity|]); reflexivity.
Qed.

Lemma getOperatorEnabled_set e (i j : nat) b :
  (i < 4)%nat → (j < 4)%nat →
  getOperatorEnabled (setOperatorEnabled e i b) j
  = if decide (j = i) then b else getOperatorEnabled e j.
Proof.
  intros Hi Hj. destruct e as [al fb [] [] [] []].
  do 4 (destruct i as [|i]; [do 4 (destruct j as [|j]; [by case_decide|]); lia|]). lia.
Qed.

Lemma getParameterValue_setOperatorEnabled e (i : nat) b q :
  getParameterValue (setOperatorEnabled e i b) q = getParameterValue e q.
Proof.
  destruct e as [al fb [] [] [] []].
  destruct q; do 3 (destruct i as [|i]; [reflexivity|]); reflexivity.
Qed.

Lemma EnvelopeFM_eqb_later e p v y :
  ofLaterOperator p = true →
  EnvelopeFM_eqb (setParameterValue e p v) y = EnvelopeFM_eqb e y ∧
  EnvelopeFM_eqb y (setParameterValue e p v) = EnvelopeFM_eqb y e.
Proof. intros Hp. destruct e as [al fb [] [] [] []]. by destruct p. Qed.

Section Envelopes.
Context `{PropertyClasses}.
Implicit Types m : InstrumentsManager.
Implicit Types e : EnvelopeFM.

Lemma envelopeOf_Some m n e :
  envelopeOf m n = Some e ↔
  ∃ q, lookupZ (pools_ m EnvFM) n = Some q ∧ payload_ q = PEnvelopeFM e.
Proof.
  unfold envelopeOf, payloadAt. destruct (lookupZ (pools_ m EnvFM) n) as [q|]; cbn.
  - split.
    + destruct (payload_ q) eqn:Hq; try done. intros [= ->]. by exists q.
    + intros (q' & [= <-] & ->). done.
  - split; [done|]. by intros (q & ? & _).
Qed.

Lemma envelopeAt_run m n e : envelopeOf m n = Some e → envelopeAt n m = Ok (e, m).
Proof.
  intros (q & Hq & He)%envelopeOf_Some. unfold envelopeAt.
  rewrite (bind_run _ _ _ _ _ (pool_run EnvFM _ eq_refl)).
  apply at_Ok in Hq. rewrite Hq, (bind_run _ _ _ _ _ (lift_run _ _)). by rewrite He.
Qed.

Lemma getEnvelopeFMParameter_run m n e p :
  envelopeOf m n = Some e → getEnvelopeFMParameter n p m = Ok (getParameterValue e p, m).
Proof.
  intros He. unfold getEnvelopeFMParameter. by rewrite (bind_run _ _ _ _ _ (envelopeAt_run _ _ _ He)).
Qed.

Lemma getEnvelopeFMOperatorEnabled_run m n e o :
  envelopeOf m n = Some e → 0 <= o < 4 →
  getEnvelopeFMOperatorEnabled n o m = Ok (getOperatorEnabled e (Z.to_nat o), m).
Proof.
  intros He Ho. unfold getEnvelopeFMOperatorEnabled.
  rewrite (bind_run _ _ _ _ _ (envelopeAt_run _ _ _ He)). unfold opIndex.
  rewrite (proj2 (Z.leb_le _ _)), (proj2 (Z.ltb_lt _ _)) by lia. done.
Qed.

Lemma envelopeIs_refl m n e : envelopeOf m n = Some e → envelopeIs n e m m.
Proof. by intros; split_and!. Qed.

Lemma envelopeIs_write n e e' m0 m q :
  envelopeIs n e m0 m → lookupZ (pools_ m EnvFM) n = Some q →
  envelopeIs n e' m0
    (setPool EnvFM
       (<[Z.to_nat n := mkProperty (number_ q) (users_ q) (PEnvelopeFM e')]>
          (pools_ m EnvFM)) m).
Proof.
  intros (He & Hi & Hu & Hl & Ho & Hs) Hq.
  pose proof (lookupZ_lt _ _ _ Hq) as Hn. unfold size in Hn.
  split_and!; [|done|done| | |].
  - apply envelopeOf_Some. exists (mkProperty (number_ q) (users_ q) (PEnvelopeFM e')).
    split; [|done]. rewrite pools_setPool.
    rewrite decide_True by done. rewrite lookupZ_insert by lia.
    rewrite bool_decide_eq_true_2 by lia. done.
  - intros k. by rewrite length_setPool.
  - intros k s Hks. rewrite <- Ho by done. rewrite pools_setPool.
    case_decide as Hk; [subst k|done]. rewrite lookupZ_insert by lia.
    rewrite bool_decide_eq_false_2; [done|]. intros ->. apply Hks. f_equal. lia.
  - intros k s. rewrite <- Hs.
    rewrite (slotUsers_setPool m EnvFM n q
               (λ q, mkProperty (number_ q) (users_ q) (PEnvelopeFM e'))) by done.
    case_bool_decide as Hks; [|done]. destruct Hks as [-> ->].
    unfold slotUsers. by rewrite Hq.
Qed.

Lemma setEnvelopeFMParameter_step n p v e m0 :
  hoare (envelopeIs n e m0) (setEnvelopeFMParameter n p v)
        (λ _, envelopeIs n (setParameterValue e p v) m0).
Proof.
  intros m Hm. pose proof Hm as ((q & Hq & He)%envelopeOf_Some & _).
  exists tt. eexists. split.
  - unfold setEnvelopeFMParameter. by apply updateAt_run.
  - cbv beta. rewrite He. by apply (envelopeIs_write n e).
Qed.

Lemma setEnvelopeFMOperatorEnabled_step n o b e m0 :
  0 <= o < 4 →
  hoare (envelopeIs n e m0) (setEnvelopeFMOperatorEnabled n o b)
        (λ _, envelopeIs n (setOperatorEnabled e (Z.to_nat o) b) m0).
Proof.
  intros Ho m Hm. pose proof Hm as ((q & Hq & He)%envelopeOf_Some & _).
  exists tt. eexists. split.
  - unfold setEnvelopeFMOperatorEnabled.
    rewrite (bind_run _ _ _ _ _ (pool_run EnvFM _ eq_refl)).
    apply at_Ok in Hq as Hq'. rewrite Hq', (bind_run _ _ _ _ _ (lift_run _ _)).
    unfold opIndex. rewrite (proj2 (Z.leb_le _ _)), (proj2 (Z.ltb_lt _ _)) by lia.
    cbn [andb]. rewrite (bind_run _ _ _ _ _ (lift_run _ _)). apply modify_run.
  - cbv beta. rewrite He. by apply (envelopeIs_write n e).
Qed.

(** X11: on a slot that holds an envelope [setEnvelopeFMParameter]
    returns; [getEnvelopeFMParameter] then gives the value set for the
    parameter and the former value for every other one, the switches of
    the operators, the other slots, the users of every slot and the
    instruments are as before.  Where [envFM_] has no slot of the number,
    both calls raise the range error of [at]. *)
Theorem setEnvelopeFMParameter_get n p v m :
  (∀ e, envelopeOf m n = Some e →
     ∃ m', setEnvelopeFMParameter n p v m = Ok (tt, m') ∧
       getEnvelopeFMParameter n p m' = Ok (v, m') ∧
       (∀ q, q ≠ p → getEnvelopeFMParameter n q m' = Ok (getParameterValue e q, m')) ∧
       (∀ o, 0 <= o < 4 →
          getEnvelopeFMOperatorEnabled n o m'
          = Ok (getOperatorEnabled e (Z.to_nat o), m')) ∧
       insts_ m' = insts_ m ∧
       (∀ k s, (k, s) ≠ (EnvFM, n) → lookupZ (pools_ m' k) s = lookupZ (pools_ m k) s) ∧
       (∀ k s, slotUsers m' k s = slotUsers m k s)) ∧
  (lookupZ (pools_ m EnvFM) n = None →
   setEnvelopeFMParameter n p v m = Fail OutOfRange ∧
   getEnvelopeFMParameter n p m = Fail OutOfRange).
Proof.
  split.
  - intros e He.
    destruct (setEnvelopeFMParameter_step n p v e m m (envelopeIs_refl _ _ _ He))
      as ([] & m' & Hrun & He' & Hi & _ & _ & Ho & Hs).
    exists m'. split_and!; [done| | | |done..].
    + rewrite (getEnvelopeFMParameter_run _ _ _ _ He'), getParameterValue_set.
      by rewrite decide_True.
    + intros q Hq. rewrite (getEnvelopeFMParameter_run _ _ _ _ He'), getParameterValue_set.
      by rewrite decide_False.
    + intros o Ho'. rewrite (getEnvelopeFMOperatorEnabled_run _ _ _ _ He' Ho').
      by rewrite getOperatorEnabled_setParameterValue.
  - intros Hn. split.
    + unfold setEnvelopeFMParameter, updateAt.
      rewrite (bind_run _ _ _ _ _ (pool_run EnvFM _ eq_refl)). unfold at_. by rewrite Hn.
    + unfold getEnvelopeFMParameter, envelopeAt, mbind, StateErr_bind, pool, lift, at_.
      cbn [validKind]. by rewrite Hn.
Qed.

(** X12: on a slot that holds an envelope and for an operator 0..3
    [setEnvelopeFMOperatorEnabled] returns; [getEnvelopeFMOperatorEnabled]
    then gives the switch set for that operator and the former switch for
    the other three, and every parameter, the other slots, the users of
    every slot and the instruments are as before. *)
Theorem setEnvelopeFMOperatorEnabled_get n o b m e :
  envelopeOf m n = Some e → 0 <= o < 4 →
  ∃ m', setEnvelopeFMOperatorEnabled n o b m = Ok (tt, m') ∧
    getEnvelopeFMOperatorEnabled n o m' = Ok (b, m') ∧
    (∀ o', 0 <= o' < 4 → o' ≠ o →
       getEnvelopeFMOperatorEnabled n o' m'
       = Ok (getOperatorEnabled e (Z.to_nat o'), m')) ∧
    (∀ q, getEnvelopeFMParameter n q m' = Ok (getParameterValue e q, m')) ∧
    insts_ m' = insts_ m ∧
    (∀ k s, (k, s) ≠ (EnvFM, n) → lookupZ (pools_ m' k) s = lookupZ (pools_ m k) s) ∧
    (∀ k s, slotUsers m' k s = slotUsers m k s).
Proof.
  intros He Ho.
  destruct (setEnvelopeFMOperatorEnabled_step n o b e m Ho m (envelopeIs_refl _ _ _ He))
    as ([] & m' & Hrun & He' & Hi & _ & _ & Hoth & Hs).
  exists m'. split_and!; [done| | | |done..].
  - rewrite (getEnvelopeFMOperatorEnabled_run _ _ _ _ He' Ho).
    rewrite getOperatorEnabled_set by lia. by rewrite decide_True.
  - intros o' Ho' Hne. rewrite (getEnvelopeFMOperatorEnabled_run _ _ _ _ He' Ho').
    rewrite getOperatorEnabled_set by lia. rewrite decide_False; [done|lia].
  - intros q. rewrite (getEnvelopeFMParameter_run _ _ _ _ He').
    by rewrite getParameterValue_setOperatorEnabled.
Qed.

Lemma isEdited_ssgeg e p v :
  p ∈ ssgegParams → EnvelopeFM_isEdited (setParameterValue e p v) = EnvelopeFM_isEdited e.
Proof.
  intros Hp. destruct e as [al fb [] [] [] []].
  unfold ssgegParams in Hp. rewrite !elem_of_cons in Hp.
  destruct Hp as [->|[->|[->|[->|Hp]]]]; [reflexivity..|by apply elem_of_nil in Hp].
Qed.

Lemma not_edited_defaults e p :
  EnvelopeFM_isEdited e = false → p ∉ ssgegParams →
  getParameterValue e p = getParameterValue EnvelopeFM_new p.
Proof.
  unfold EnvelopeFM_isEdited.
  destruct (negb (bool_decide (al_ e = DEF_AL)) || negb (bool_decide (fb_ e = DEF_FB)))
    eqn:Hab; [done|].
  apply orb_false_iff in Hab as [Ha%negb_false_iff%bool_decide_eq_true
                                 Hb%negb_false_iff%bool_decide_eq_true].
  cbn [seq existsb]. rewrite !orb_false_iff, !negb_false_iff, !bool_decide_eq_true.
  intros Hops Hp. destruct_and!.
  destruct p; cbn; try done; exfalso; apply Hp; unfold ssgegParams; set_solver.
Qed.

Lemma getEnvelopeFMEntriedIndices_run m :
  getEnvelopeFMEntriedIndices m = Ok (indicesWhere isEdited (pools_ m EnvFM), m).
Proof. reflexivity. Qed.

Lemma isEdited_envelope (q : Property) e :
  payload_ q = PEnvelopeFM e → isEdited q = EnvelopeFM_isEdited e.
Proof. unfold isEdited. by intros ->. Qed.

(** X13: after [setEnvelopeFMParameter] on a slot that holds an envelope,
    [getEnvelopeFMEntriedIndices] lists the other slots as before.  When
    the parameter is one of SSGEG1..SSGEG4 it returns the very list it
    returned before, whatever the value, since [isEdited] does not read
    these parameters; for every other parameter it lists the slot as soon
    as the value differs from the one of a new envelope. *)
Theorem getEnvelopeFMEntriedIndices_after_set n p v m e :
  envelopeOf m n = Some e →
  ∃ m' idcs idcs',
    setEnvelopeFMParameter n p v m = Ok (tt, m') ∧
    getEnvelopeFMEntriedIndices m = Ok (idcs, m) ∧
    getEnvelopeFMEntriedIndices m' = Ok (idcs', m') ∧
    (∀ s, s ≠ n → s ∈ idcs' ↔ s ∈ idcs) ∧
    (p ∈ ssgegParams → idcs' = idcs) ∧
    (p ∉ ssgegParams → v ≠ getParameterValue EnvelopeFM_new p → n ∈ idcs').
Proof.
  intros He.
  destruct (setEnvelopeFMParameter_step n p v e m m (envelopeIs_refl _ _ _ He))
    as ([] & m' & Hrun & He' & _ & _ & Hlen & Hoth & _).
  exists m', (indicesWhere isEdited (pools_ m EnvFM)),
         (indicesWhere isEdited (pools_ m' EnvFM)).
  split_and!; [done|apply getEnvelopeFMEntriedIndices_run..| | |].
  - intros s Hs.
    rewrite (proj2 (indicesWhere_spec isEdited (pools_ m' EnvFM)) s).
    rewrite (proj2 (indicesWhere_spec isEdited (pools_ m EnvFM)) s).
    rewrite Hoth; [done|congruence].
  - intros Hp. apply indicesWhere_ext. apply Forall2_same_length_lookup.
    split; [by rewrite Hlen|]. intros i x y Hx Hy.
    destruct (decide (Z.of_nat i = n)) as [<-|Hi].
    + apply envelopeOf_Some in He as (q & Hq & Hqe).
      apply envelopeOf_Some in He' as (q' & Hq' & Hqe').
      rewrite lookupZ_of_nat in Hq, Hq'. simplify_eq.
      rewrite (isEdited_envelope _ _ Hqe), (isEdited_envelope _ _ Hqe').
      by rewrite isEdited_ssgeg.
    + specialize (Hoth EnvFM (Z.of_nat i) ltac:(congruence)).
      rewrite !lookupZ_of_nat, Hx, Hy in Hoth. by injection Hoth as ->.
  - intros Hp Hv. apply (indicesWhere_spec isEdited (pools_ m' EnvFM)).
    apply envelopeOf_Some in He' as (q' & Hq' & Hqe'). exists q'. split; [done|].
    rewrite (isEdited_envelope _ _ Hqe').
    destruct (EnvelopeFM_isEdited (setParameterValue e p v)) eqn:Hed; [done|].
    destruct Hv. rewrite <- (not_edited_defaults _ p Hed Hp), getParameterValue_set.
    by rewrite decide_True.
Qed.

(** *** What the comparison of two slots reads *)

Lemma sameGroup_same_tests m m' :
  insts_ m' = insts_ m →
  (∀ a b l, equalLink m' a b l = equalLink m a b l) →
  ∀ x y : Z, sameGroup m' x y = sameGroup m x y.
Proof.
  intros Hi Hl x y. unfold sameGroup, equalPropertiesFM, equalPropertiesSSG,
    equalPropertiesADPCM. rewrite Hi.
  destruct (idx (insts_ m) x) as [[a|]|]; [|done..].
  destruct (idx (insts_ m) y) as [[b|]|]; [|done..].
  case_bool_decide; [|done]. destruct (getSoundSource a); [|..|done|].
  - rewrite !Hl. do 3 f_equal. f_equal.
    + apply map_ext. intros q. apply Hl.
    + apply flat_map_ext. intros t. by rewrite !Hl.
  - f_equal. apply map_ext. intros l. apply Hl.
  - f_equal. apply map_ext. intros l. apply Hl.
Qed.

Lemma equalLink_same_slots m m' :
  (∀ k s, option_Forall2
            (λ q' q, ∀ x, Property_neq q' x = Property_neq q x ∧
                          Property_neq x q' = Property_neq x q)
            (lookupZ (pools_ m' k) s) (lookupZ (pools_ m k) s)) →
  ∀ a b l, equalLink m' a b l = equalLink m a b l.
Proof.
  intros Hs a b l. unfold equalLink, idx.
  destruct (negb _); [done|]. destruct (getLinkEnabled l a); [|done].
  destruct (Hs (link_kind l) (getLinkNumber l a)) as [pa' pa Ha|]; [|done].
  destruct (Hs (link_kind l) (getLinkNumber l b)) as [pb' pb Hb|]; [|done].
  by rewrite (proj1 (Ha pb')), (proj2 (Hb pa)).
Qed.

(** X14: a change of a parameter of the second, third or fourth operator
    of an FM envelope does not change what [checkDuplicateInstruments]
    returns: [operator==] of [EnvelopeFM] compares AL, FB and the first
    operator. *)
Theorem checkDuplicateInstruments_ignores_later_operators n p v m e :
  envelopeOf m n = Some e → ofLaterOperator p = true →
  ∃ m', setEnvelopeFMParameter n p v m = Ok (tt, m') ∧
        getEnvelopeFMParameter n p m' = Ok (v, m') ∧
        checkDuplicateInstruments m' = checkDuplicateInstruments m.
Proof.
  intros He Hp.
  destruct (setEnvelopeFMParameter_step n p v e m m (envelopeIs_refl _ _ _ He))
    as ([] & m' & Hrun & He' & Hi & _ & _ & Hoth & _).
  exists m'. split_and!; [done| |].
  - rewrite (getEnvelopeFMParameter_run _ _ _ _ He'), getParameterValue_set.
    by rewrite decide_True.
  - unfold checkDuplicateInstruments.
    assert (getEntriedInstrumentIndices m' = getEntriedInstrumentIndices m) as ->.
    { unfold getEntriedInstrumentIndices. by rewrite Hi. }
    apply groupsFrom_ext, sameGroup_same_tests; [done|].
    apply equalLink_same_slots. intros k s.
    destruct (decide ((k, s) = (EnvFM, n))) as [[= -> ->]|Hks].
    + apply envelopeOf_Some in He as (q & -> & Hq).
      apply envelopeOf_Some in He' as (q' & -> & Hq'). constructor.
      intros x. unfold Property_neq. rewrite Hq, Hq'.
      destruct (payload_ x) as [y| | |]; [|done..].
      by destruct (EnvelopeFM_eqb_later e p v y Hp) as [-> ->].
    + rewrite (Hoth k s Hks). destruct (lookupZ (pools_ m k) s); by constructor.
Qed.

End Envelopes.

(** ** The FM envelopes of a module file *)

(** *** The fields of the bytes *)

Lemma forallb_zrange (f : Z → bool) lo (n : nat) x :
  forallb f (zrange lo n) = true → lo <= x < lo + Z.of_nat n → f x = true.
Proof.
  intros Hf Hx. rewrite forallb_forall in Hf. apply Hf, list_elem_of_In.
  apply list_elem_of_fmap. exists (Z.to_nat (x - lo)). split; [lia|].
  apply elem_of_seq. lia.
Qed.

Lemma forallb_zrange2 (f : Z → Z → bool) lo1 (n1 : nat) lo2 (n2 : nat) x y :
  forallb (λ a, forallb (f a) (zrange lo2 n2)) (zrange lo1 n1) = true →
  lo1 <= x < lo1 + Z.of_nat n1 → lo2 <= y < lo2 + Z.of_nat n2 → f x y = true.
Proof.
  intros Hf Hx Hy.
  apply (forallb_zrange (f x) lo2 n2); [|done].
  by apply (forallb_zrange (λ a, forallb (f a) (zrange lo2 n2)) lo1 n1).
Qed.

Lemma byte_hi3_lo5 a b :
  0 <= a < 8 → 0 <= b < 32 →
  Z.shiftr (u8 (u8 (Z.lor (u8 (Z.shiftl a 5)) (u8 b)))) 5 = a ∧
  Z.land (u8 (u8 (Z.lor (u8 (Z.shiftl a 5)) (u8 b)))) 0x1f = b.
Proof.
  intros Ha Hb.
  pose proof (forallb_zrange2
    (λ a b, (Z.shiftr (u8 (u8 (Z.lor (u8 (Z.shiftl a 5)) (u8 b)))) 5 =? a)
            && (Z.land (u8 (u8 (Z.lor (u8 (Z.shiftl a 5)) (u8 b)))) 0x1f =? b))
    0 8 0 32 a b ltac:(vm_compute; reflexivity) ltac:(lia) ltac:(lia)) as Hc.
  apply andb_true_iff in Hc as [H1%Z.eqb_eq H2%Z.eqb_eq]. split; assumption.
Qed.

Lemma byte_hi4_lo4 a b :
  0 <= a < 16 → 0 <= b < 16 →
  Z.shiftr (u8 (u8 (Z.lor (u8 (Z.shiftl a 4)) (u8 b)))) 4 = a ∧
  Z.land (u8 (u8 (Z.lor (u8 (Z.shiftl a 4)) (u8 b)))) 0x0f = b.
Proof.
  intros Ha Hb.
  pose proof (forallb_zrange2
    (λ a b, (Z.shiftr (u8 (u8 (Z.lor (u8 (Z.shiftl a 4)) (u8 b)))) 4 =? a)
            && (Z.land (u8 (u8 (Z.lor (u8 (Z.shiftl a 4)) (u8 b)))) 0x0f =? b))
    0 16 0 16 a b ltac:(vm_compute; reflexivity) ltac:(lia) ltac:(lia)) as Hc.
  apply andb_true_iff in Hc as [H1%Z.eqb_eq H2%Z.eqb_eq]. split; assumption.
Qed.

Lemma byte_flag_lo5 (en : bool) b :
  0 <= b < 32 →
  negb (Z.land 0x20 (u8 (u8 (Z.lor (u8 (Z.shiftl (Z.b2z en) 5)) (u8 b)))) =? 0) = en ∧
  Z.land (u8 (u8 (Z.lor (u8 (Z.shiftl (Z.b2z en) 5)) (u8 b)))) 0x1f = b.
Proof.
  intros Hb.
  pose proof (forallb_zrange
    (λ b, forallb (λ en : bool,
       Bool.eqb
         (negb (Z.land 0x20 (u8 (u8 (Z.lor (u8 (Z.shiftl (Z.b2z en) 5)) (u8 b)))) =? 0))
         en
       && (Z.land (u8 (u8 (Z.lor (u8 (Z.shiftl (Z.b2z en) 5)) (u8 b)))) 0x1f =? b))
       [true; false])
    0 32 b ltac:(vm_compute; reflexivity) ltac:(lia)) as Hc.
  rewrite forallb_forall in Hc. specialize (Hc en ltac:(destruct en; cbn; tauto)).
  apply andb_true_iff in Hc as [H1%Bool.eqb_prop H2%Z.eqb_eq]. split; assumption.
Qed.

Lemma byte_ssgeg_ml a b :
  -1 <= a < 8 → 0 <= b < 16 →
  (if negb (Z.land (u8 (u8 (Z.lor (if bool_decide (a = -1) then 0x80
                                   else u8 (Z.shiftl a 4)) (u8 b)))) 0x80 =? 0)
   then -1
   else Z.land (Z.shiftr (u8 (u8 (Z.lor (if bool_decide (a = -1) then 0x80
                                         else u8 (Z.shiftl a 4)) (u8 b)))) 4) 0x07) = a ∧
  Z.land (u8 (u8 (Z.lor (if bool_decide (a = -1) then 0x80
                         else u8 (Z.shiftl a 4)) (u8 b)))) 0x0f = b.
Proof.
  intros Ha Hb.
  assert (forallb (λ a, forallb (λ b,
       ((if negb (Z.land (u8 (u8 (Z.lor (if bool_decide (a = -1) then 0x80
                                         else u8 (Z.shiftl a 4)) (u8 b)))) 0x80 =? 0)
         then -1
         else Z.land (Z.shiftr (u8 (u8 (Z.lor (if bool_decide (a = -1) then 0x80
                                               else u8 (Z.shiftl a 4)) (u8 b)))) 4) 0x07)
        =? a)
       && (Z.land (u8 (u8 (Z.lor (if bool_decide (a = -1) then 0x80
                                  else u8 (Z.shiftl a 4)) (u8 b)))) 0x0f =? b))
       (zrange 0 16)) (zrange (-1) 9) = true) as Hall by (vm_compute; reflexivity).
  pose proof (forallb_zrange2 _ _ _ _ _ a b Hall ltac:(lia) ltac:(lia)) as Hc.
  cbv beta in Hc. apply andb_true_iff in Hc as [H1 H2].
  apply Z.eqb_eq in H1. apply Z.eqb_eq in H2. split; assumption.
Qed.

Lemma u8_u8_small x : 0 <= x < 256 → u8 (u8 x) = x.
Proof. intros. unfold u8. by rewrite !(Z.mod_small x) by lia. Qed.

Lemma u8_range x : 0 <= u8 x < 256.
Proof. unfold u8. by apply Z.mod_pos_bound. Qed.

Lemma operatorOfBytes_operatorBytes o :
  storableOperator o = true →
  ∃ t0 t1 t2 t3 t4 t5,
    operatorBytes o = [t0; t1; t2; t3; t4; t5] ∧
    operatorOfBytes t0 t1 t2 t3 t4 t5 = o.
Proof.
  destruct o as [en ar dr sr rr sl tl ks ml dt eg].
  unfold storableOperator.
  cbn [enabled_ ar_ dr_ sr_ rr_ sl_ tl_ ks_ ml_ dt_ ssgeg_].
  rewrite !andb_true_iff, !bool_decide_eq_true.
  intros Hs. destruct_and!.
  unfold operatorBytes. cbn [enabled_ ar_ dr_ sr_ rr_ sl_ tl_ ks_ ml_ dt_ ssgeg_].
  do 6 eexists. split; [reflexivity|]. unfold operatorOfBytes. f_equal.
  - by apply byte_flag_lo5.
  - by apply byte_flag_lo5.
  - by apply byte_hi3_lo5.
  - by apply byte_hi3_lo5.
  - by apply byte_hi4_lo4.
  - by apply byte_hi4_lo4.
  - by apply u8_u8_small.
  - by apply byte_hi3_lo5.
  - by apply byte_ssgeg_ml.
  - by apply byte_hi3_lo5.
  - by apply byte_ssgeg_ml.
Qed.

Section File.
Context `{PropertyClasses}.
Implicit Types m : InstrumentsManager.
Implicit Types e : EnvelopeFM.

(** *** Saving *)

Ltac run_getters He :=
  repeat first
    [ rewrite (bind_run _ _ _ _ _ (getEnvelopeFMParameter_run _ _ _ _ He))
    | rewrite (bind_run _ _ _ _ _
                 (getEnvelopeFMOperatorEnabled_run _ _ _ 0 He ltac:(lia)))
    | rewrite (bind_run _ _ _ _ _
                 (getEnvelopeFMOperatorEnabled_run _ _ _ 1 He ltac:(lia)))
    | rewrite (bind_run _ _ _ _ _
                 (getEnvelopeFMOperatorEnabled_run _ _ _ 2 He ltac:(lia)))
    | rewrite (bind_run _ _ _ _ _
                 (getEnvelopeFMOperatorEnabled_run _ _ _ 3 He ltac:(lia))) ].

Lemma saveEnvelopeFM_run m idx e :
  envelopeOf m idx = Some e →
  saveEnvelopeFM idx m
  = Ok (u8 (Z.lor (u8 (Z.shiftl (al_ e) 4)) (u8 (fb_ e)))
        :: operatorBytes (op0_ e) ++ operatorBytes (op1_ e)
        ++ operatorBytes (op2_ e) ++ operatorBytes (op3_ e), m).
Proof.
  intros He. unfold saveEnvelopeFM. run_getters He.
  assert (saveOperatorFM idx 0 AR1 KS1 DR1 DT1 SR1 SL1 RR1 TL1 SSGEG1 ML1 m
          = Ok (operatorBytes (op0_ e), m)) as H0.
  { unfold saveOperatorFM. run_getters He. reflexivity. }
  assert (saveOperatorFM idx 1 AR2 KS2 DR2 DT2 SR2 SL2 RR2 TL2 SSGEG2 ML2 m
          = Ok (operatorBytes (op1_ e), m)) as H1.
  { unfold saveOperatorFM. run_getters He. reflexivity. }
  assert (saveOperatorFM idx 2 AR3 KS3 DR3 DT3 SR3 SL3 RR3 TL3 SSGEG3 ML3 m
          = Ok (operatorBytes (op2_ e), m)) as H2.
  { unfold saveOperatorFM. run_getters He. reflexivity. }
  assert (saveOperatorFM idx 3 AR4 KS4 DR4 DT4 SR4 SL4 RR4 TL4 SSGEG4 ML4 m
          = Ok (operatorBytes (op3_ e), m)) as H3.
  { unfold saveOperatorFM. run_getters He. reflexivity. }
  rewrite (bind_run _ _ _ _ _ H0), (bind_run _ _ _ _ _ H1), (bind_run _ _ _ _ _ H2),
    (bind_run _ _ _ _ _ H3).
  reflexivity.
Qed.

(** *** Loading *)

Section Load.
Variable readUint8 : Z → Z.

Lemma loadOperatorFM_step idx o ar ks dr dt sr sl rr tl ssgeg ml csr e m0 :
  0 <= o < 4 →
  hoare (envelopeIs idx e m0)
    (loadOperatorFM readUint8 idx o ar ks dr dt sr sl rr tl ssgeg ml csr)
    (λ _, envelopeIs idx
       (setParameterValue
         (setParameterValue
           (setParameterValue
             (setParameterValue
               (setParameterValue
                 (setParameterValue
                   (setParameterValue
                     (setParameterValue
                       (setParameterValue
                         (setParameterValue
                           (setOperatorEnabled e (Z.to_nat o)
                              (negb (Z.land 0x20 (u8 (readUint8 csr)) =? 0)))
                           ar (Z.land (u8 (readUint8 csr)) 0x1f))
                         ks (Z.shiftr (u8 (readUint8 (csr + 1))) 5))
                       dr (Z.land (u8 (readUint8 (csr + 1))) 0x1f))
                     dt (Z.shiftr (u8 (readUint8 (csr + 2))) 5))
                   sr (Z.land (u8 (readUint8 (csr + 2))) 0x1f))
                 sl (Z.shiftr (u8 (readUint8 (csr + 3))) 4))
               rr (Z.land (u8 (readUint8 (csr + 3))) 0x0f))
             tl (u8 (readUint8 (csr + 4))))
           ml (Z.land (u8 (readUint8 (csr + 5))) 0x0f))
         ssgeg (if negb (Z.land (u8 (readUint8 (csr + 5))) 0x80 =? 0) then -1
                else Z.land (Z.shiftr (u8 (readUint8 (csr + 5))) 4) 0x07))
       m0).
Proof.
  intros Ho. unfold loadOperatorFM. cbv zeta.
  eapply hoare_bind; [by apply setEnvelopeFMOperatorEnabled_step|intros []; cbv beta].
  do 9 (eapply hoare_bind; [apply setEnvelopeFMParameter_step|intros []; cbv beta]).
  apply setEnvelopeFMParameter_step.
Qed.

Lemma loaded_operator e (i : nat) en ar ks dr dt sr sl rr tl ssgeg ml
    v_ar v_ks v_dr v_dt v_sr v_sl v_rr v_tl v_ml v_eg :
  (i < 4)%nat →
  paramMap_ ar = Some (i, F_ar) → paramMap_ ks = Some (i, F_ks) →
  paramMap_ dr = Some (i, F_dr) → paramMap_ dt = Some (i, F_dt) →
  paramMap_ sr = Some (i, F_sr) → paramMap_ sl = Some (i, F_sl) →
  paramMap_ rr = Some (i, F_rr) → paramMap_ tl = Some (i, F_tl) →
  paramMap_ ml = Some (i, F_ml) → paramMap_ ssgeg = Some (i, F_ssgeg) →
  setParameterValue
    (setParameterValue
      (setParameterValue
        (setParameterValue
          (setParameterValue
            (setParameterValue
              (setParameterValue
                (setParameterValue
                  (setParameterValue
                    (setParameterValue (setOperatorEnabled e i en) ar v_ar)
                    ks v_ks) dr v_dr) dt v_dt) sr v_sr) sl v_sl) rr v_rr) tl v_tl)
      ml v_ml) ssgeg v_eg
  = set_op e i (mkFMOperator en v_ar v_dr v_sr v_rr v_sl v_tl v_ks v_ml v_dt v_eg).
Proof.
  intros Hi. destruct e as [al fb [] [] [] []].
  do 4 (destruct i as [|i];
        [destruct ar; try done; destruct ks; try done; destruct dr; try done;
         destruct dt; try done; destruct sr; try done; destruct sl; try done;
         destruct rr; try done; destruct tl; try done; destruct ml; try done;
         destruct ssgeg; done|]).
  lia.
Qed.

Lemma loadEnvelopeFM_step idx csr e m0 :
  hoare (envelopeIs idx e m0) (loadEnvelopeFM readUint8 idx csr)
    (λ _, envelopeIs idx
       (mkEnvelopeFM (Z.shiftr (u8 (readUint8 csr)) 4) (Z.land (u8 (readUint8 csr)) 0x0f)
          (operatorOfBytes (readUint8 (csr + 1)) (readUint8 (csr + 1 + 1))
             (readUint8 (csr + 1 + 2)) (readUint8 (csr + 1 + 3))
             (readUint8 (csr + 1 + 4)) (readUint8 (csr + 1 + 5)))
          (operatorOfBytes (readUint8 (csr + 7)) (readUint8 (csr + 7 + 1))
             (readUint8 (csr + 7 + 2)) (readUint8 (csr + 7 + 3))
             (readUint8 (csr + 7 + 4)) (readUint8 (csr + 7 + 5)))
          (operatorOfBytes (readUint8 (csr + 13)) (readUint8 (csr + 13 + 1))
             (readUint8 (csr + 13 + 2)) (readUint8 (csr + 13 + 3))
             (readUint8 (csr + 13 + 4)) (readUint8 (csr + 13 + 5)))
          (operatorOfBytes (readUint8 (csr + 19)) (readUint8 (csr + 19 + 1))
             (readUint8 (csr + 19 + 2)) (readUint8 (csr + 19 + 3))
             (readUint8 (csr + 19 + 4)) (readUint8 (csr + 19 + 5))))
       m0).
Proof.
  unfold loadEnvelopeFM. cbv zeta.
  eapply hoare_post.
  - do 2 (eapply hoare_bind; [apply setEnvelopeFMParameter_step|intros []; cbv beta]).
    do 3 (eapply hoare_bind; [apply loadOperatorFM_step; lia|intros []; cbv beta]).
    apply loadOperatorFM_step; lia.
  - intros [] m. cbv beta.
    rewrite (loaded_operator _ 3) by (done || lia).
    rewrite (loaded_operator _ 2) by (done || lia).
    rewrite (loaded_operator _ 1) by (done || lia).
    rewrite (loaded_operator _ 0) by (done || lia).
    destruct e as [al fb o0 o1 o2 o3]. done.
Qed.

End Load.

Lemma operatorBytes_range o : Forall (λ b, 0 <= b < 256) (operatorBytes o).
Proof. unfold operatorBytes. repeat constructor; apply u8_range. Qed.

(** X15: the 25 bytes that [saveModule] appends for an FM envelope whose
    values fit the fields of the file are bytes, and when
    [loadInstrumentPropertySectionInModule] reads them back into a slot
    of a manager, the slot holds the envelope saved: every parameter and
    the switch of every operator.  The users of the slot, the other slots
    and the instruments of that manager stay as they are. *)
Theorem envelope_survives_module_file idx m e :
  envelopeOf m idx = Some e → storable e = true →
  ∃ bytes,
    saveEnvelopeFM idx m = Ok (bytes, m) ∧ length bytes = 25%nat ∧
    Forall (λ b, 0 <= b < 256) bytes ∧
    ∀ (readUint8 : Z → Z) (csr idx' : Z) m2,
      (∀ (k : nat) b, bytes !! k = Some b → readUint8 (csr + Z.of_nat k) = b) →
      is_Some (envelopeOf m2 idx') →
      ∃ m2', loadEnvelopeFM readUint8 idx' csr m2 = Ok (tt, m2') ∧
        envelopeOf m2' idx' = Some e ∧
        insts_ m2' = insts_ m2 ∧
        (∀ k s, (k, s) ≠ (EnvFM, idx') →
                lookupZ (pools_ m2' k) s = lookupZ (pools_ m2 k) s) ∧
        (∀ k s, slotUsers m2' k s = slotUsers m2 k s).
Proof.
  intros He Hst. eexists. split; [by apply saveEnvelopeFM_run|].
  destruct e as [al fb o0 o1 o2 o3]. cbn [al_ fb_ op0_ op1_ op2_ op3_].
  unfold storable in Hst. cbn [al_ fb_ op0_ op1_ op2_ op3_] in Hst.
  rewrite !andb_true_iff, !bool_decide_eq_true in Hst.
  destruct Hst as [[[[[Hal Hfb] Hs0] Hs1] Hs2] Hs3].
  split_and!.
  - rewrite length_cons, !length_app. reflexivity.
  - constructor; [apply u8_range|]. rewrite !Forall_app.
    split_and!; apply operatorBytes_range.
  - intros readUint8 csr idx' m2 Hread [e2 He2].
    destruct (loadEnvelopeFM_step readUint8 idx' csr e2 m2 m2 (envelopeIs_refl _ _ _ He2))
      as ([] & m2' & Hrun & He' & Hi & _ & _ & Hoth & Hus).
    exists m2'. split_and!; [done| |done..]. rewrite He'. f_equal.
    assert (∀ (k : nat) (x : Z), x = csr + Z.of_nat k → ∀ b,
              (u8 (Z.lor (u8 (Z.shiftl al 4)) (u8 fb))
               :: operatorBytes o0 ++ operatorBytes o1
               ++ operatorBytes o2 ++ operatorBytes o3) !! k = Some b →
              readUint8 x = b) as Hat.
    { intros k x -> b. apply Hread. }
    clear Hread Hrun He' Hi Hoth Hus.
    destruct (operatorOfBytes_operatorBytes o0 Hs0)
      as (a0 & a1 & a2 & a3 & a4 & a5 & Ha & <-).
    destruct (operatorOfBytes_operatorBytes o1 Hs1)
      as (b0 & b1 & b2 & b3 & b4 & b5 & Hb & <-).
    destruct (operatorOfBytes_operatorBytes o2 Hs2)
      as (c0 & c1 & c2 & c3 & c4 & c5 & Hc & <-).
    destruct (operatorOfBytes_operatorBytes o3 Hs3)
      as (d0 & d1 & d2 & d3 & d4 & d5 & Hd & <-).
    rewrite Ha, Hb, Hc, Hd in Hat. cbn [app] in Hat.
    rewrite (Hat 0%nat csr ltac:(lia) _ eq_refl).
    rewrite (Hat 1%nat (csr + 1) ltac:(lia) _ eq_refl).
    rewrite (Hat 2%nat (csr + 1 + 1) ltac:(lia) _ eq_refl).
    rewrite (Hat 3%nat (csr + 1 + 2) ltac:(lia) _ eq_refl).
    rewrite (Hat 4%nat (csr + 1 + 3) ltac:(lia) _ eq_refl).
    rewrite (Hat 5%nat (csr + 1 + 4) ltac:(lia) _ eq_refl).
    rewrite (Hat 6%nat (csr + 1 + 5) ltac:(lia) _ eq_refl).
    rewrite (Hat 7%nat (csr + 7) ltac:(lia) _ eq_refl).
    rewrite (Hat 8%nat (csr + 7 + 1) ltac:(lia) _ eq_refl).
    rewrite (Hat 9%nat (csr + 7 + 2) ltac:(lia) _ eq_refl).
    rewrite (Hat 10%nat (csr + 7 + 3) ltac:(lia) _ eq_refl).
    rewrite (Hat 11%nat (csr + 7 + 4) ltac:(lia) _ eq_refl).
    rewrite (Hat 12%nat (csr + 7 + 5) ltac:(lia) _ eq_refl).
    rewrite (Hat 13%nat (csr + 13) ltac:(lia) _ eq_refl).
    rewrite (Hat 14%nat (csr + 13 + 1) ltac:(lia) _ eq_refl).
    rewrite (Hat 15%nat (csr + 13 + 2) ltac:(lia) _ eq_refl).
    rewrite (Hat 16%nat (csr + 13 + 3) ltac:(lia) _ eq_refl).
    rewrite (Hat 17%nat (csr + 13 + 4) ltac:(lia) _ eq_refl).
    rewrite (Hat 18%nat (csr + 13 + 5) ltac:(lia) _ eq_refl).
    rewrite (Hat 19%nat (csr + 19) ltac:(lia) _ eq_refl).
    rewrite (Hat 20%nat (csr + 19 + 1) ltac:(lia) _ eq_refl).
    rewrite (Hat 21%nat (csr + 19 + 2) ltac:(lia) _ eq_refl).
    rewrite (Hat 22%nat (csr + 19 + 3) ltac:(lia) _ eq_refl).
    rewrite (Hat 23%nat (csr + 19 + 4) ltac:(lia) _ eq_refl).
    rewrite (Hat 24%nat (csr + 19 + 5) ltac:(lia) _ eq_refl).
    f_equal; by apply byte_hi4_lo4.
Qed.

End File.

(** ** The operators of the levels of an algorithm *)

Lemma getOperatorsInLevel_None level al :
  ¬ (0 <= level < 4 ∧ 0 <= al < 8) → getOperatorsInLevel level al = None.
Proof.
  intros Hr.
  destruct level as [|[[p|p|]|[p|p|]|]|p]; try reflexivity;
    destruct al as [|[[[q|q|]|[q|q|]|]|[[q|q|]|[q|q|]|]|]|q]; try reflexivity;
    exfalso; apply Hr; lia.
Qed.

Lemma small_cases (x : Z) (n : nat) (P : Z → Prop) :
  Forall P (zrange 0 n) → 0 <= x < Z.of_nat n → P x.
Proof.
  intros Hf Hx. rewrite Forall_forall in Hf. apply Hf.
  apply list_elem_of_fmap. exists (Z.to_nat x). split; [lia|]. apply elem_of_seq. lia.
Qed.

Ltac is_member :=
  repeat first [ apply list_elem_of_here | apply list_elem_of_further ].

(** X16: [getOperatorsInLevel] throws exactly when the level is outside
    0..3 or the algorithm outside 0..7.  Otherwise it returns operators
    0..3 in ascending order, and for every algorithm each of the four
    operators stands in the list of exactly one level. *)
Theorem getOperatorsInLevel_partition level al :
  (getOperatorsInLevel level al = None ↔ ¬ (0 <= level < 4 ∧ 0 <= al < 8)) ∧
  (∀ ops, getOperatorsInLevel level al = Some ops →
          StronglySorted Z.lt ops ∧ ∀ op, op ∈ ops → 0 <= op < 4) ∧
  (0 <= al < 8 → ∀ op, 0 <= op < 4 →
     ∃ lv ops, 0 <= lv < 4 ∧ getOperatorsInLevel lv al = Some ops ∧ op ∈ ops ∧
       ∀ lv' ops', getOperatorsInLevel lv' al = Some ops' → op ∈ ops' → lv' = lv).
Proof.
  assert (∀ lv a, 0 <= lv < 4 → 0 <= a < 8 →
            ∃ ops, getOperatorsInLevel lv a = Some ops ∧
                   StronglySorted Z.lt ops ∧ ∀ op, op ∈ ops → 0 <= op < 4) as Hin.
  { intros lv a Hlv Ha. revert a Ha. apply (small_cases lv 4); [|lia].
    repeat constructor; intros a Ha; apply (small_cases a 8); try lia;
      repeat constructor; eexists; (split; [reflexivity|]);
      (split; [repeat constructor; lia|]); intros op Hop;
      repeat (apply elem_of_cons in Hop as [->|Hop]; [lia|]);
      by apply elem_of_nil in Hop. }
  split_and!.
  - split; [|apply getOperatorsInLevel_None].
    intros Hn [Hlv Ha]. destruct (Hin level al Hlv Ha) as (ops & Hops & _). congruence.
  - intros ops Hops.
    destruct (decide (0 <= level < 4 ∧ 0 <= al < 8)) as [[Hlv Ha]|Hout].
    + destruct (Hin level al Hlv Ha) as (ops' & Hops' & Hs).
      rewrite Hops in Hops'. by injection Hops' as <-.
    + rewrite getOperatorsInLevel_None in Hops by done. done.
  - intros Ha op Hop.
    assert (∀ lv' ops', getOperatorsInLevel lv' al = Some ops' → 0 <= lv' < 4) as Hlv.
    { intros lv' ops' Hops'. destruct (decide (0 <= lv' < 4)) as [|Hout]; [done|].
      rewrite getOperatorsInLevel_None in Hops' by tauto. done. }
    revert op Hop Hlv. apply (small_cases al 8); [|lia].
    repeat constructor; intros op Hop; apply (small_cases op 4); try lia;
      repeat constructor; intros Hlv;
      first
        [ exists 0; eexists; split; [lia|]; split; [reflexivity|]; split; [by is_member|]
        | exists 1; eexists; split; [lia|]; split; [reflexivity|]; split; [by is_member|]
        | exists 2; eexists; split; [lia|]; split; [reflexivity|]; split; [by is_member|]
        | exists 3; eexists; split; [lia|]; split; [reflexivity|]; split; [by is_member|] ];
      intros lv' ops' Hops' Hop'; pose proof (Hlv _ _ Hops') as Hr; revert ops' Hops' Hop';
      apply (small_cases lv' 4); try lia;
      repeat constructor; intros ops' [= <-] Hop'; try reflexivity; exfalso;
      repeat (apply elem_of_cons in Hop' as [Hop'|Hop']; [discriminate|]);
      by apply elem_of_nil in Hop'.
Qed.

(** ** The output history *)

Lemma ring_write (hist new : list Z) (a b L : nat) :
  length hist = L → (a < L)%nat → length new = b → (b ≤ L)%nat →
  let nb := (b `min` (L - a))%nat in
  let H1 := take a hist ++ take nb new ++ drop (a + nb) hist in
  let H2 := drop nb new ++ drop (b - nb) H1 in
  let a' := ((a + b) mod L)%nat in
  length H2 = L ∧
  drop a' H2 ++ take a' H2 = drop b ((drop a hist ++ take a hist) ++ new).
Proof.
  intros Hl Ha Hb HbL nb H1 H2 a'.
  destruct (decide (b ≤ L - a)%nat) as [Hfit|Hwrap].
  - assert (nb = b) as Hnb by (subst nb; lia).
    assert (H2 = take a hist ++ new ++ drop (a + b) hist) as ->.
    { subst H2 H1. rewrite Hnb, Nat.sub_diag, drop_0.
      rewrite (drop_ge new) by lia. rewrite (take_ge new) by lia. done. }
    split; [rewrite !length_app, length_take, length_drop; lia|].
    rewrite <- (assoc_L (++)).
    rewrite (drop_app_le (drop a hist)) by (rewrite length_drop; lia).
    rewrite drop_drop.
    destruct (decide (a + b < L)%nat) as [Hlt|Hge].
    + assert (a' = (a + b)%nat) as -> by (subst a'; by apply Nat.mod_small).
      rewrite (assoc_L (++) (take a hist)).
      rewrite drop_app_length' by (rewrite length_app, length_take; lia).
      rewrite take_app_length' by (rewrite length_app, length_take; lia).
      by rewrite <- ?(assoc_L (++)).
    + assert (a' = 0%nat) as ->.
      { subst a'. replace (a + b)%nat with L by lia. apply Nat.Div0.mod_same. }
      rewrite drop_0, take_0, app_nil_r. rewrite (drop_ge hist) by lia.
      by rewrite app_nil_r.
  - assert (nb = (L - a)%nat) as Hnb by (subst nb; lia).
    assert (a' = (a + b - L)%nat) as ->.
    { subst a'. symmetry. apply (Nat.mod_unique (a + b) L 1); lia. }
    assert (H2 = drop nb new ++ drop (a + b - L) (take a hist) ++ take nb new) as ->.
    { subst H2 H1. rewrite (drop_ge hist) by lia. rewrite app_nil_r.
      replace (b - nb)%nat with (a + b - L)%nat by lia.
      rewrite drop_app_le by (rewrite length_take; lia). done. }
    split; [rewrite !length_app, !length_drop, !length_take; lia|].
    rewrite drop_app_length' by (rewrite length_drop; lia).
    rewrite take_app_length' by (rewrite length_drop; lia).
    rewrite <- !(assoc_L (++)). rewrite take_drop.
    rewrite (drop_app_ge (drop a hist)) by (rewrite length_drop; lia).
    rewrite length_drop. replace (b - (length hist - a))%nat with (a + b - L)%nat by lia.
    rewrite drop_app_le by (rewrite length_take; lia). done.
Qed.

Section History.
Variable N : Z.
Hypothesis HN : 0 < N < 2 ^ 62.
Implicit Types h : OutputHistory.

Local Ltac lens :=
  unfold size in *; rewrite ?length_app, ?length_take, ?length_drop; lia.

Lemma range_run (a : list Z) from to :
  0 <= from <= to → to <= size a →
  range a from to = Ok (take (Z.to_nat (to - from)) (drop (Z.to_nat from) a)).
Proof.
  intros Hf Ht. unfold range.
  by rewrite !(proj2 (Z.leb_le _ _)) by lia.
Qed.

Lemma copyTo_run (src dst : list Z) pos :
  0 <= pos → pos + size src <= size dst →
  copyTo src dst pos
  = Ok (take (Z.to_nat pos) dst ++ src ++ drop (Z.to_nat (pos + size src)) dst).
Proof.
  intros Hp Hs. unfold copyTo.
  by rewrite !(proj2 (Z.leb_le _ _)) by lia.
Qed.

Lemma transferReadyHistory_run h :
  historyOk N h →
  transferReadyHistory N h
  = Ok (tt, mkOutputHistory (outputHistory_ h) (chronological h) (outputHistoryIndex_ h)).
Proof.
  intros (Hh & Hr & Hi). unfold transferReadyHistory.
  rewrite !(bind_run _ _ _ _ _ (gets_run _ _)).
  rewrite (range_run _ (2 * outputHistoryIndex_ h) (2 * N)) by lia.
  rewrite (bind_run _ _ _ _ _ (lift_run _ _)).
  rewrite copyTo_run by lens. rewrite (bind_run _ _ _ _ _ (lift_run _ _)).
  rewrite range_run by lia. rewrite (bind_run _ _ _ _ _ (lift_run _ _)).
  rewrite copyTo_run by lens. rewrite (bind_run _ _ _ _ _ (lift_run _ _)).
  rewrite modify_run. do 2 f_equal. unfold chronological.
  set (hist := outputHistory_ h) in *. set (rdy := outputHistoryReady_ h) in *.
  set (i := outputHistoryIndex_ h) in *.
  assert (length hist = Z.to_nat (2 * N)) as Hlh by (unfold size in Hh; lia).
  assert (length rdy = Z.to_nat (2 * N)) as Hlr by (unfold size in Hr; lia).
  replace (Z.to_nat (2 * i - 0)) with (Z.to_nat (2 * i)) by lia.
  change (Z.to_nat 0) with 0%nat. rewrite drop_0, take_0. cbn [app].
  rewrite (take_ge (drop _ hist)) by lens.
  rewrite take_app_length' by lens.
  rewrite (drop_ge _ (Z.to_nat (2 * (N - i) + _))) by lens.
  by rewrite app_nil_r.
Qed.

Lemma fillOutputHistory_spec outputs n owns h :
  historyOk N h → 0 <= n <= N → 2 * n <= size outputs →
  ∃ h', fillOutputHistory N outputs n owns h = Ok (tt, h') ∧ historyOk N h' ∧
    chronological h'
    = drop (Z.to_nat (2 * n)) (chronological h ++ take (Z.to_nat (2 * n)) outputs) ∧
    outputHistoryIndex_ h' = (outputHistoryIndex_ h + n) mod N ∧
    outputHistoryReady_ h' = if owns then chronological h' else outputHistoryReady_ h.
Proof.
  intros (Hh & Hr & Hi) Hn Ho. unfold fillOutputHistory.
  rewrite !(bind_run _ _ _ _ _ (gets_run _ _)). cbv zeta.
  set (hist := outputHistory_ h) in *. set (rdy := outputHistoryReady_ h) in *.
  set (i := outputHistoryIndex_ h) in *.
  rewrite (usize_small (N - i)) by lia. rewrite (usize_small (i + n)) by lia.
  set (nb := Z.min n (N - i)).
  rewrite (range_run _ 0 (2 * nb)) by lia. rewrite (bind_run _ _ _ _ _ (lift_run _ _)).
  rewrite copyTo_run by lens. rewrite (bind_run _ _ _ _ _ (lift_run _ _)).
  rewrite (range_run _ (2 * nb) (2 * n)) by lia.
  rewrite (bind_run _ _ _ _ _ (lift_run _ _)).
  rewrite copyTo_run by lens. rewrite (bind_run _ _ _ _ _ (lift_run _ _)).
  rewrite (bind_run _ _ _ _ _ (modify_run _ _)).
  pose proof (ring_write hist (take (Z.to_nat (2 * n)) outputs)
                (Z.to_nat (2 * i)) (Z.to_nat (2 * n)) (Z.to_nat (2 * N))
                ltac:(lens) ltac:(lia) ltac:(lens) ltac:(lia)) as Hring.
  cbv zeta in Hring.
  replace (Z.to_nat (2 * n) `min` (Z.to_nat (2 * N) - Z.to_nat (2 * i)))%nat
    with (Z.to_nat (2 * nb)) in Hring by lia.
  replace ((Z.to_nat (2 * i) + Z.to_nat (2 * n)) mod Z.to_nat (2 * N))%nat
    with (Z.to_nat (2 * ((i + n) mod N))) in Hring.
  2:{ rewrite <- Z2Nat.inj_add, <- Z2Nat.inj_mod by lia. f_equal.
      rewrite <- Z.mul_add_distr_l. by rewrite Zmult_mod_distr_l. }
  set (hist' := take (Z.to_nat 0) _ ++ _ ++ drop (Z.to_nat (0 + _)) _).
  assert (hist' = drop (Z.to_nat (2 * nb)) (take (Z.to_nat (2 * n)) outputs)
                  ++ drop (Z.to_nat (2 * n) - Z.to_nat (2 * nb))
                       (take (Z.to_nat (2 * i)) hist
                        ++ take (Z.to_nat (2 * nb)) (take (Z.to_nat (2 * n)) outputs)
                        ++ drop (Z.to_nat (2 * i) + Z.to_nat (2 * nb)) hist)) as Hhist.
  { subst hist'. change (Z.to_nat 0) with 0%nat. rewrite take_0, !drop_0. cbn [app].
    replace (Z.to_nat (2 * nb - 0)) with (Z.to_nat (2 * nb)) by lia.
    rewrite take_take. replace (Z.to_nat (2 * nb) `min` Z.to_nat (2 * n))%nat
      with (Z.to_nat (2 * nb)) by lia.
    rewrite (take_drop_commute outputs).
    replace (Z.to_nat (2 * nb) + Z.to_nat (2 * n - 2 * nb))%nat
      with (Z.to_nat (2 * n)) by lia.
    f_equal. f_equal; [|f_equal; f_equal; f_equal; lens].
    unfold size. rewrite length_drop, length_take. lens. }
  destruct Hring as [Hlen Hchr]. rewrite <- Hhist in Hlen, Hchr.
  assert (historyOk N (mkOutputHistory hist' rdy ((i + n) mod N))) as Hok.
  { split; [|split]; cbn; [unfold size; lia|done|]. apply Z.mod_pos_bound. lia. }
  assert (chronological (mkOutputHistory hist' rdy ((i + n) mod N))
          = drop (Z.to_nat (2 * n))
              (chronological h ++ take (Z.to_nat (2 * n)) outputs)) as Hc by exact Hchr.
  cbv beta. fold rdy. fold hist'.
  destruct owns.
  - rewrite (transferReadyHistory_run _ Hok). eexists. split; [reflexivity|].
    cbn [outputHistory_ outputHistoryReady_ outputHistoryIndex_].
    split; [|split; [exact Hc|split; reflexivity]].
    destruct Hok as (Ha & _ & Hb). split; [exact Ha|]. split; [|exact Hb].
    cbn [outputHistory_ outputHistoryReady_ outputHistoryIndex_] in *.
    unfold chronological. cbn [outputHistory_ outputHistoryReady_ outputHistoryIndex_].
    unfold size in *. rewrite length_app, length_drop, length_take. lia.
  - eexists. split; [reflexivity|].
    split; [exact Hok|]. split; [exact Hc|]. split; reflexivity.
Qed.

Lemma length_chronological h :
  historyOk N h → length (chronological h) = Z.to_nat (2 * N).
Proof.
  intros (Hh & _ & Hi). unfold chronological, size in *.
  rewrite length_app, length_drop, length_take. lia.
Qed.

(** X17: [getStreamSamples] keeps the newest frames.  When the arrays
    have their size and the write position is one of their frames, the
    call returns and the history, read from the write position round,
    holds the last [OUTPUT_HISTORY_SIZE] stereo frames of what it held
    before followed by the samples mixed, oldest first; when the lock is
    free the ready buffer, which [getOutputHistory] copies, holds those
    frames in that order, and otherwise it keeps what it held. *)
Theorem getStreamSamples_keeps_newest mixed nSamples owns h :
  historyOk N h → 0 <= nSamples → size mixed = 2 * nSamples →
  ∃ h', getStreamSamples N mixed nSamples owns h = Ok (tt, h') ∧ historyOk N h' ∧
    chronological h' = newest (2 * N) (chronological h ++ mixed) ∧
    outputHistoryIndex_ h' = (outputHistoryIndex_ h + Z.min nSamples N) mod N ∧
    outputHistoryReady_ h'
    = (if owns then newest (2 * N) (chronological h ++ mixed)
       else outputHistoryReady_ h) ∧
    getOutputHistory N h' = Ok (outputHistoryReady_ h', h').
Proof.
  intros Hok Hn Hm. unfold getStreamSamples. cbv zeta.
  set (nH := Z.min nSamples N).
  rewrite range_run by lia. rewrite (bind_run _ _ _ _ _ (lift_run _ _)).
  assert (take (Z.to_nat (size mixed - 2 * (nSamples - nH)))
            (drop (Z.to_nat (2 * (nSamples - nH))) mixed)
          = drop (Z.to_nat (2 * (nSamples - nH))) mixed) as ->.
  { apply take_ge. unfold size in *. rewrite length_drop. lia. }
  set (container := drop _ mixed).
  assert (length container = Z.to_nat (2 * nH)) as Hlc.
  { subst container. unfold size in *. rewrite length_drop. lia. }
  destruct (fillOutputHistory_spec container nH owns h Hok ltac:(lia)
              ltac:(unfold size; lia)) as (h' & Hrun & Hok' & Hchr & Hidx & Hrdy).
  assert (chronological h' = newest (2 * N) (chronological h ++ mixed)) as Hnew.
  { rewrite Hchr. rewrite (take_ge container) by lia. unfold newest.
    pose proof (length_chronological h Hok) as Hlen.
    rewrite length_app, Hlen.
    replace (Z.to_nat (2 * N) + length mixed - Z.to_nat (2 * N))%nat
      with (length mixed) by lia.
    destruct (decide (nSamples <= N)) as [Hle|Hgt].
    - subst container. replace nH with nSamples by lia.
      replace (Z.to_nat (2 * (nSamples - nSamples))) with 0%nat by lia.
      rewrite drop_0. f_equal. unfold size in Hm. lia.
    - replace nH with N by lia. rewrite drop_app_length' by done.
      rewrite drop_app_ge by (unfold size in Hm; lia).
      subst container. f_equal. unfold size in Hm. lia. }
  exists h'. split; [exact Hrun|]. split; [exact Hok'|]. split; [exact Hnew|].
  split; [exact Hidx|]. split.
  - rewrite Hrdy. destruct owns; [exact Hnew|reflexivity].
  - unfold getOutputHistory. rewrite (bind_run _ _ _ _ _ (gets_run _ _)).
    destruct Hok' as (_ & Hr' & _).
    rewrite range_run by lia. change (Z.to_nat 0) with 0%nat. rewrite drop_0.
    rewrite take_ge by (unfold size in Hr'; lia). reflexivity.
Qed.

End History.

(** ** The drum channels *)

Lemma testbit_u8 x (n : Z) : 0 <= n < 8 → Z.testbit (u8 x) n = Z.testbit x n.
Proof. intros Hn. unfold u8. change 256 with (2 ^ 8). apply Z.mod_pow2_bits_low. lia. Qed.

Lemma testbit_bit (ch : Z) : 0 <= ch → Z.testbit (Z.shiftl 1 ch) ch = true.
Proof. intros Hc. rewrite Z.shiftl_spec by lia. by rewrite Z.sub_diag. Qed.

Lemma u8_small x : 0 <= x < 256 → u8 x = x.
Proof. intros. unfold u8. by apply Z.mod_small. Qed.

Lemma u32_small x : 0 <= x < 4294967296 → u32 x = x.
Proof. intros. unfold u32. by apply Z.mod_small. Qed.

Lemma u8_idemp x : u8 (u8 x) = u8 x.
Proof. unfold u8. by rewrite Z.mod_mod by lia. Qed.

Section Drums.
Context `{ControllerParts}.
Implicit Types s : OPNAController * DrumMembers.

Lemma drumCh_run ch s : 0 <= ch < 6 → drumCh ch s = Ok (tt, s).
Proof.
  intros Hc. unfold drumCh.
  by rewrite (proj2 (Z.leb_le _ _)), (proj2 (Z.ltb_lt _ _)) by lia.
Qed.

Lemma bitOf_run ch : 0 <= ch < 6 → bitOf ch = Ok (Z.shiftl 1 ch).
Proof.
  intros Hc. unfold bitOf.
  by rewrite (proj2 (Z.leb_le _ _)), (proj2 (Z.ltb_lt _ _)) by lia.
Qed.

Lemma setKeyOnFlagDrum_muted ch s :
  0 <= ch < 6 → isMuteDrum_ (snd s) ch = true → setKeyOnFlagDrum ch s = Ok (tt, s).
Proof.
  intros Hc Hm. unfold setKeyOnFlagDrum.
  rewrite (bind_run _ _ _ _ _ (drumCh_run _ _ Hc)), (bind_run _ _ _ _ _ (gets_run _ _)).
  by rewrite Hm.
Qed.

Lemma updateKeyOnOffStatusDrum_idle (c : OPNAController) :
  keyOnFlagDrum_ c = 0 → keyOffFlagDrum_ c = 0 → updateKeyOnOffStatusDrum c = Ok (tt, c).
Proof.
  intros Hon Hoff. rewrite updateKeyOnOffStatusDrum_run. unfold drumWrites.
  rewrite Hon, Hoff. rewrite !bool_decide_eq_false_2 by (intros Hne; by apply Hne).
  cbn [app id]. by rewrite app_nil_r, set_writes_id.
Qed.

(** X18: muting a drum channel (0..5) returns and writes the key-off of
    the channel at once: after a key-on write for the flags that were
    pending, register 0x10 gets a value with bit 7 and the bit of the
    channel set, and both flags are clear.  From then on
    [setKeyOnFlagDrum] for the channel changes nothing, so that the next
    [updateKeyOnOffStatusDrum] writes nothing. *)
Theorem setMuteDrumState_silences ch s :
  0 <= ch < 6 →
  ∃ s' v,
    setMuteDrumState ch true s = Ok (tt, s') ∧
    isMuteDrum ch s' = Ok (true, s') ∧
    keyOnFlagDrum_ (fst s') = 0 ∧ keyOffFlagDrum_ (fst s') = 0 ∧
    writes_ (fst s')
    = writes_ (fst s)
      ++ (if bool_decide (keyOnFlagDrum_ (fst s) ≠ 0)
          then [(0x10, u8 (keyOnFlagDrum_ (fst s)))] else [])
      ++ [(0x10, v)] ∧
    Z.testbit v 7 = true ∧ Z.testbit v ch = true ∧
    setKeyOnFlagDrum ch s' = Ok (tt, s') ∧
    (setKeyOnFlagDrum ch ;; onController updateKeyOnOffStatusDrum) s' = Ok (tt, s').
Proof.
  intros Hc. destruct s as [c d].
  set (off := u8 (Z.lor (keyOffFlagDrum_ c) (u8 (Z.shiftl 1 ch)))).
  assert (Z.testbit off ch = true) as Hbit.
  { subst off. rewrite testbit_u8, Z.lor_spec, testbit_u8 by lia.
    rewrite testbit_bit by lia. apply orb_true_r. }
  assert (off ≠ 0) as Hoff.
  { intros H0. rewrite H0 in Hbit. by rewrite Z.bits_0 in Hbit. }
  set (d' := mkDrumMembers (volDrum_ d) (tmpVolDrum_ d) (panDrum_ d)
               (upd (isMuteDrum_ d) ch true) (mVolDrum_ d)).
  set (c1 := set_keyOffFlagDrum_ off c).
  destruct (updateKeyOnOffStatusDrum c1) as [[[] c2]|] eqn:Hupd;
    [|by rewrite updateKeyOnOffStatusDrum_run in Hupd].
  rewrite updateKeyOnOffStatusDrum_run in Hupd. injection Hupd as Hc2.
  assert (keyOnFlagDrum_ c2 = 0 ∧ keyOffFlagDrum_ c2 = 0 ∧
          writes_ c2 = writes_ c ++ drumWrites c1) as (Hon2 & Hoff2 & Hw2).
  { subst c2 c1. cnorm. rewrite (bool_decide_eq_true_2 _ Hoff).
    case_bool_decide; cnorm; split_and!; done. }
  exists (c2, d'), (u8 (Z.lor 0x80 off)).
  assert (setMuteDrumState ch true (c, d) = Ok (tt, (c2, d'))) as Hrun.
  { unfold setMuteDrumState.
    rewrite (bind_run _ _ _ _ _ (drumCh_run _ _ Hc)).
    unfold modifyDrum. rewrite (bind_run _ _ _ _ _ (modify_run _ _)).
    cbn [fst snd]. fold d'.
    assert (setKeyOffFlagDrum ch (c, d') = Ok (tt, (c1, d'))) as Hoffrun.
    { unfold setKeyOffFlagDrum.
      by rewrite (bitOf_run _ Hc), (bind_run _ _ _ _ _ (lift_run _ _)). }
    rewrite (bind_run _ _ _ _ _ Hoffrun). unfold onController. cbn [fst snd].
    rewrite updateKeyOnOffStatusDrum_run. rewrite <- Hc2. reflexivity. }
  assert (isMuteDrum_ d' ch = true) as Hm.
  { subst d'. cbn. unfold upd. by rewrite decide_True. }
  split; [exact Hrun|]. split.
  { unfold isMuteDrum. rewrite (bind_run _ _ _ _ _ (drumCh_run _ _ Hc)).
    rewrite gets_run. cbn [snd]. by rewrite Hm. }
  split; [exact Hon2|]. split; [exact Hoff2|]. split.
  { cbn [fst]. rewrite Hw2. unfold drumWrites, narrow. subst c1. cnorm.
    rewrite (bool_decide_eq_true_2 _ Hoff). cbn [fst snd].
    rewrite (u32_small 16) by lia. done. }
  split; [rewrite testbit_u8 by lia; by rewrite Z.lor_spec|]. split.
  { rewrite testbit_u8, Z.lor_spec by lia. rewrite Hbit. apply orb_true_r. }
  assert (setKeyOnFlagDrum ch (c2, d') = Ok (tt, (c2, d'))) as Hkey
    by (by apply setKeyOnFlagDrum_muted).
  split; [exact Hkey|]. rewrite (bind_run _ _ _ _ _ Hkey).
  unfold onController. cbn [fst snd]. by rewrite updateKeyOnOffStatusDrum_idle.
Qed.

Lemma setVolumeDrum_run ch v (c : OPNAController) (d : DrumMembers) :
  0 <= ch < 6 → v <= 0x1f →
  setVolumeDrum ch v (c, d)
  = Ok (tt, (set_writes_ (writes_ c ++ [(0x18 + ch, u8 (Z.lor (Z.shiftl (panDrum_ d ch) 6) v))]) c,
             mkDrumMembers (upd (volDrum_ d) ch v) (upd (tmpVolDrum_ d) ch (-1))
               (panDrum_ d) (isMuteDrum_ d) (mVolDrum_ d))).
Proof.
  intros Hc Hv. unfold setVolumeDrum. rewrite (proj2 (Z.ltb_ge _ _)) by lia.
  rewrite (bind_run _ _ _ _ _ (drumCh_run _ _ Hc)).
  unfold modifyDrum. rewrite (bind_run _ _ _ _ _ (modify_run _ _)).
  rewrite (bind_run _ _ _ _ _ (gets_run _ _)). unfold onController. cbn [fst snd panDrum_].
  rewrite setRegister_run. unfold narrow. cbn [fst snd].
  rewrite (u32_small ch), (u32_small (24 + ch)) by lia.
  by rewrite u8_idemp.
Qed.

Lemma setTemporaryVolumeDrum_run ch v (c : OPNAController) (d : DrumMembers) :
  0 <= ch < 6 → v <= 0x1f →
  setTemporaryVolumeDrum ch v (c, d)
  = Ok (tt, (set_writes_ (writes_ c ++ [(0x18 + ch, u8 (Z.lor (Z.shiftl (panDrum_ d ch) 6) v))]) c,
             mkDrumMembers (volDrum_ d) (upd (tmpVolDrum_ d) ch v)
               (panDrum_ d) (isMuteDrum_ d) (mVolDrum_ d))).
Proof.
  intros Hc Hv. unfold setTemporaryVolumeDrum. rewrite (proj2 (Z.ltb_ge _ _)) by lia.
  rewrite (bind_run _ _ _ _ _ (drumCh_run _ _ Hc)).
  unfold modifyDrum. rewrite (bind_run _ _ _ _ _ (modify_run _ _)).
  rewrite (bind_run _ _ _ _ _ (gets_run _ _)). unfold onController. cbn [fst snd panDrum_].
  rewrite setRegister_run. unfold narrow. cbn [fst snd].
  rewrite (u32_small ch), (u32_small (24 + ch)) by lia.
  by rewrite u8_idemp.
Qed.

Lemma setKeyOnFlagDrum_run ch (c : OPNAController) (d : DrumMembers) :
  0 <= ch < 6 → isMuteDrum_ d ch = false → volDrum_ d ch <= 0x1f →
  ∃ c' d',
    (if bool_decide (tmpVolDrum_ d ch ≠ -1)
     then setVolumeDrum ch (volDrum_ d ch) (c, d)
     else Ok (tt, (c, d))) = Ok (tt, (c', d')) ∧
    setKeyOnFlagDrum ch (c, d)
    = Ok (tt, (set_keyOnFlagDrum_
                 (u8 (Z.lor (keyOnFlagDrum_ c') (u8 (Z.shiftl 1 ch)))) c', d')).
Proof.
  intros Hc Hm Hv.
  assert (∃ c' d', (if bool_decide (tmpVolDrum_ d ch ≠ -1)
                    then setVolumeDrum ch (volDrum_ d ch) (c, d)
                    else Ok (tt, (c, d))) = Ok (tt, (c', d'))) as (c' & d' & Hvol).
  { case_bool_decide; [rewrite setVolumeDrum_run by done|]; by do 2 eexists. }
  exists c', d'. split; [exact Hvol|]. unfold setKeyOnFlagDrum.
  rewrite (bind_run _ _ _ _ _ (drumCh_run _ _ Hc)), (bind_run _ _ _ _ _ (gets_run _ _)).
  cbn [snd]. rewrite Hm. rewrite (bind_run _ _ _ _ _ (gets_run _ _)). cbn [snd].
  assert ((if bool_decide (tmpVolDrum_ d ch ≠ -1)
           then vol ← gets (λ s, volDrum_ (snd s) ch); setVolumeDrum ch vol
           else mret tt) (c, d) = Ok (tt, (c', d'))) as Hstep.
  { rewrite <- Hvol. case_bool_decide; [|done].
    by rewrite (bind_run _ _ _ _ _ (gets_run _ _)). }
  rewrite (bind_run _ _ _ _ _ Hstep).
  by rewrite (bitOf_run _ Hc), (bind_run _ _ _ _ _ (lift_run _ _)).
Qed.

(** X19: the volume of a drum channel.  A volume above 0x1f is ignored by
    [setVolumeDrum] and by [setTemporaryVolumeDrum]: nothing is written
    and nothing changes.  A temporary volume up to 0x1f other than -1 is
    written to register 0x18 + channel with the pan of the channel and
    leaves the volume of the channel as it is; the next [setKeyOnFlagDrum]
    of the channel, when it is not muted, writes the volume of the channel
    back, forgets the temporary volume and sets the key-on bit of the
    channel, and a further [setKeyOnFlagDrum] writes nothing.  The
    temporary volume -1, which is the mark of none, is written as 0xff,
    and the next [setKeyOnFlagDrum] writes nothing back. *)
Theorem temporary_volume_restored_at_key_on ch v s :
  0 <= ch < 6 → isMuteDrum_ (snd s) ch = false → volDrum_ (snd s) ch <= 0x1f →
  (0x1f < v →
   setVolumeDrum ch v s = Ok (tt, s) ∧ setTemporaryVolumeDrum ch v s = Ok (tt, s)) ∧
  (v <= 0x1f → v ≠ -1 →
   ∃ s1 s2 s3,
     setTemporaryVolumeDrum ch v s = Ok (tt, s1) ∧
     writes_ (fst s1)
     = writes_ (fst s) ++ [(0x18 + ch, u8 (Z.lor (Z.shiftl (panDrum_ (snd s) ch) 6) v))] ∧
     volDrum_ (snd s1) ch = volDrum_ (snd s) ch ∧ tmpVolDrum_ (snd s1) ch = v ∧
     setKeyOnFlagDrum ch s1 = Ok (tt, s2) ∧
     writes_ (fst s2)
     = writes_ (fst s1)
       ++ [(0x18 + ch,
            u8 (Z.lor (Z.shiftl (panDrum_ (snd s) ch) 6) (volDrum_ (snd s) ch)))] ∧
     volDrum_ (snd s2) ch = volDrum_ (snd s) ch ∧ tmpVolDrum_ (snd s2) ch = -1 ∧
     Z.testbit (keyOnFlagDrum_ (fst s2)) ch = true ∧
     setKeyOnFlagDrum ch s2 = Ok (tt, s3) ∧ writes_ (fst s3) = writes_ (fst s2)) ∧
  (v = -1 →
   ∃ s1 s2,
     setTemporaryVolumeDrum ch v s = Ok (tt, s1) ∧
     writes_ (fst s1) = writes_ (fst s) ++ [(0x18 + ch, 0xff)] ∧
     volDrum_ (snd s1) ch = volDrum_ (snd s) ch ∧ tmpVolDrum_ (snd s1) ch = -1 ∧
     setKeyOnFlagDrum ch s1 = Ok (tt, s2) ∧
     writes_ (fst s2) = writes_ (fst s1) ∧
     tmpVolDrum_ (snd s2) ch = -1 ∧
     Z.testbit (keyOnFlagDrum_ (fst s2)) ch = true).
Proof.
  destruct s as [c d]. cbn [fst snd]. intros Hc Hm Hvol. split; [|split].
  - intros Hv. unfold setVolumeDrum, setTemporaryVolumeDrum.
    by rewrite (proj2 (Z.ltb_lt _ _)) by lia.
  - intros Hv Hne.
    pose proof (setTemporaryVolumeDrum_run ch v c d Hc Hv) as H1.
    set (c1 := set_writes_ _ c) in H1. set (d1 := mkDrumMembers _ _ _ _ _) in H1.
    assert (tmpVolDrum_ d1 ch = v) as Ht1.
    { subst d1. cbn. unfold upd. by rewrite decide_True. }
    destruct (setKeyOnFlagDrum_run ch c1 d1 Hc Hm Hvol) as (c2 & d2 & Hset & H2).
    rewrite Ht1, (bool_decide_eq_true_2 _ Hne) in Hset.
    rewrite setVolumeDrum_run in Hset by done. injection Hset as <- <-.
    set (c2 := set_writes_ _ c1) in *. set (d2 := mkDrumMembers _ _ _ _ _) in H2.
    set (c3 := set_keyOnFlagDrum_ _ c2) in H2.
    assert (tmpVolDrum_ d2 ch = -1) as Ht2.
    { subst d2. cbn. unfold upd. by rewrite decide_True. }
    assert (volDrum_ d2 ch = volDrum_ d ch) as Hv2.
    { subst d2 d1. cbn. unfold upd. by rewrite decide_True. }
    destruct (setKeyOnFlagDrum_run ch c3 d2 Hc Hm ltac:(lia)) as (c4 & d4 & Hset & H3).
    rewrite Ht2 in Hset. rewrite bool_decide_eq_false_2 in Hset by (intros Hn; by apply Hn).
    injection Hset as <- <-.
    eexists (c1, d1), (c3, d2), _. cbn [fst snd].
    split; [exact H1|]. split; [reflexivity|]. split; [reflexivity|]. split; [exact Ht1|].
    split; [exact H2|]. split; [reflexivity|]. split; [exact Hv2|]. split; [exact Ht2|].
    split; [|split; [exact H3|reflexivity]].
    subst c3. cnorm. rewrite testbit_u8, Z.lor_spec, testbit_u8 by lia.
    rewrite testbit_bit by lia. apply orb_true_r.
  - intros ->.
    pose proof (setTemporaryVolumeDrum_run ch (-1) c d Hc ltac:(lia)) as H1.
    rewrite Z.lor_m1_r in H1. change (u8 (-1)) with 255 in H1.
    set (c1 := set_writes_ _ c) in H1. set (d1 := mkDrumMembers _ _ _ _ _) in H1.
    assert (tmpVolDrum_ d1 ch = -1) as Ht1.
    { subst d1. cbn. unfold upd. by rewrite decide_True. }
    destruct (setKeyOnFlagDrum_run ch c1 d1 Hc Hm Hvol) as (c2 & d2 & Hset & H2).
    rewrite Ht1 in Hset. rewrite bool_decide_eq_false_2 in Hset by (intros Hn; by apply Hn).
    injection Hset as <- <-.
    eexists (c1, d1), _. cbn [fst snd].
    split; [exact H1|]. split; [reflexivity|]. split; [reflexivity|]. split; [exact Ht1|].
    split; [exact H2|]. cbn [fst snd]. split; [reflexivity|]. split; [exact Ht1|].
    cnorm. rewrite testbit_u8, Z.lor_spec, testbit_u8 by lia.
    rewrite testbit_bit by lia. apply orb_true_r.
Qed.

End Drums.

(** ** The waits of an S98 file *)

Lemma low7 w : 0 <= w → u8 (Z.land w 0x7f) = w mod 128 ∧ Z.shiftr w 7 = w / 128.
Proof.
  intros Hw. change 0x7f with (Z.ones 7). rewrite Z.land_ones by lia.
  rewrite Z.shiftr_div_pow2 by lia. change (2 ^ 7) with 128. split; [|done].
  apply u8_small. pose proof (Z.mod_pos_bound w 128). lia.
Qed.

Lemma continued b :
  0 <= b < 128 → u8 (Z.lor b 0x80) = b + 128 ∧ Z.land (b + 128) 0x7f = b.
Proof.
  intros Hb.
  assert (forallb (λ x, (u8 (Z.lor x 0x80) =? x + 128) && (Z.land (x + 128) 0x7f =? x))
            (zrange 0 128) = true) as Hall by (vm_compute; reflexivity).
  pose proof (forallb_zrange _ _ _ b Hall ltac:(lia)) as Hc. cbv beta in Hc.
  apply andb_true_iff in Hc as [H1 H2]. apply Z.eqb_eq in H1. apply Z.eqb_eq in H2.
  split; assumption.
Qed.

Lemma last7 b : 0 <= b < 128 → Z.land b 0x7f = b.
Proof.
  intros Hb. change 0x7f with (Z.ones 7). rewrite Z.land_ones by lia.
  apply Z.mod_small. lia.
Qed.

Lemma pushCount_count (fuel : nat) : ∀ w,
  0 <= w → (Z.to_nat w < fuel)%nat →
  ∃ bs, S98ExportContainer.pushCount fuel w = Some bs ∧
        countOf bs = w ∧ selfDelimiting bs ∧ Forall (λ b, 0 <= b < 256) bs.
Proof.
  induction fuel as [|fuel IH]; intros w Hw Hf; [lia|].
  cbn [S98ExportContainer.pushCount]. cbv zeta.
  destruct (low7 w Hw) as [-> ->].
  pose proof (Z.mod_pos_bound w 128 ltac:(lia)) as Hb.
  pose proof (Z.div_mod w 128 ltac:(lia)) as Hdm.
  destruct (0 <? w / 128) eqn:Hmore.
  - apply Z.ltb_lt in Hmore.
    destruct (IH (w / 128)) as (bs & -> & Hc & Hs & Hr); [lia| |].
    { assert (w / 128 < w) by (apply Z.div_lt; lia). lia. }
    destruct (continued (w mod 128) Hb) as [-> Hl].
    eexists. split; [reflexivity|]. cbn [countOf]. rewrite Hl, Hc.
    split; [lia|]. split.
    + destruct bs as [|b bs]; [done|]. cbn [selfDelimiting]. split; [lia|done].
    + constructor; [lia|done].
  - apply Z.ltb_ge in Hmore. assert (w / 128 = 0) as Hz by lia.
    eexists. split; [reflexivity|]. cbn [countOf selfDelimiting].
    rewrite (last7 _ Hb). split; [lia|]. split; [done|]. constructor; [lia|done].
Qed.

(** X20: the wait of an S98 file.  When [n] samples (1 or more, within
    the type of the counter) have gone by since the last write, [getData]
    flushes them with enough turns of the loop: one sample as the byte
    0xff, more as 0xfe followed by [n - 2] in groups of seven bits, low
    group first, every byte but the last with bit 7 set.  The counter is
    zero afterwards and the loop point follows the end of the buffer
    unless it was set. *)
Theorem s98_wait_encodes_samples (waitBits : Z) (c : S98ExportContainer.t) (n : Z) :
  S98ExportContainer.lastWait_ c = 0 → 1 <= n < 2 ^ waitBits →
  ∃ fuel0 : nat, ∀ fuel : nat, (fuel0 ≤ fuel)%nat →
    ∃ pushed c',
      S98ExportContainer.getData waitBits fuel
        (S98ExportContainer.recordStream waitBits n c)
      = Some (S98ExportContainer.buf_ c ++ pushed, c') ∧
      S98ExportContainer.buf_ c' = S98ExportContainer.buf_ c ++ pushed ∧
      S98ExportContainer.lastWait_ c' = 0 ∧
      S98ExportContainer.loopPoint_ c'
      = (if S98ExportContainer.isSetLoop_ c then S98ExportContainer.loopPoint_ c
         else size (S98ExportContainer.buf_ c')) ∧
      Forall (λ b, 0 <= b < 256) pushed ∧
      (n = 1 → pushed = [0xff]) ∧
      (n ≠ 1 → ∃ bs, pushed = 0xfe :: bs ∧ countOf bs = n - 2 ∧ selfDelimiting bs).
Proof.
  intros Hz Hn. exists (S (Z.to_nat n)). intros fuel Hf.
  unfold S98ExportContainer.getData, S98ExportContainer.recordStream.
  cbn [S98ExportContainer.lastWait_]. rewrite Hz, Z.add_0_l.
  rewrite (Z.mod_small n) by lia.
  rewrite bool_decide_eq_true_2 by lia.
  unfold S98ExportContainer.setWait.
  cbn [S98ExportContainer.lastWait_ S98ExportContainer.buf_
       S98ExportContainer.isSetLoop_ S98ExportContainer.loopPoint_].
  case_bool_decide as H1.
  - subst n. cbn [mbind option_bind]. do 2 eexists. split; [reflexivity|].
    cbn [S98ExportContainer.lastWait_ S98ExportContainer.buf_
         S98ExportContainer.isSetLoop_ S98ExportContainer.loopPoint_].
    split_and!; try done.
    + by destruct (S98ExportContainer.isSetLoop_ c).
    + by repeat constructor.
  - rewrite (Z.mod_small (n - 2)) by lia.
    destruct (pushCount_count fuel (n - 2)) as (bs & -> & Hc & Hs & Hr); [lia..|].
    cbn [fmap option_fmap option_map mbind option_bind].
    do 2 eexists. split; [reflexivity|].
    cbn [S98ExportContainer.lastWait_ S98ExportContainer.buf_
         S98ExportContainer.isSetLoop_ S98ExportContainer.loopPoint_].
    split_and!; try done.
    + by destruct (S98ExportContainer.isSetLoop_ c).
    + constructor; [lia|done].
    + intros _. by exists bs.
Qed.

(** ** The waits of a VGM file *)

Lemma wait16_waits w rest :
  0 <= w <= 65535 →
  vgmWaits (VgmExportContainer.wait16 w ++ rest) = (λ t, w + t) <$> vgmWaits rest.
Proof.
  intros Hw. unfold VgmExportContainer.wait16. cbn [app vgmWaits].
  change (97 =? 97) with true. cbv iota.
  change 0x00ff with (Z.ones 8). rewrite Z.land_ones by lia.
  rewrite Z.shiftr_div_pow2 by lia. change (2 ^ 8) with 256.
  pose proof (Z.mod_pos_bound w 256 ltac:(lia)) as Hm.
  pose proof (Z.div_mod w 256 ltac:(lia)) as Hdm.
  assert (0 <= w / 256 < 256) as Hd.
  { split; [apply Z.div_pos; lia|apply Z.div_lt_upper_bound; lia]. }
  rewrite !u8_small by lia.
  destruct (vgmWaits rest) as [t|]; [|done]. cbn. f_equal. lia.
Qed.

Lemma short_waits k rest :
  1 <= k <= 16 →
  vgmWaits (u8 (Z.lor 0x70 (k - 1)) :: rest) = (λ t, k + t) <$> vgmWaits rest.
Proof.
  intros Hk.
  assert (forallb (λ k, u8 (Z.lor 0x70 (k - 1)) =? 0x6f + k) (zrange 1 16) = true) as Hall
    by (vm_compute; reflexivity).
  pose proof (forallb_zrange _ _ _ k Hall ltac:(lia)) as Hc. cbv beta in Hc.
  apply Z.eqb_eq in Hc. rewrite Hc. cbn [vgmWaits].
  rewrite (proj2 (Z.eqb_neq (111 + k) 97)) by lia.
  rewrite (proj2 (Z.eqb_neq (111 + k) 98)) by lia.
  rewrite (proj2 (Z.eqb_neq (111 + k) 99)) by lia.
  rewrite (proj2 (Z.leb_le 112 (111 + k))), (proj2 (Z.leb_le (111 + k) 127)) by lia.
  cbn [andb]. destruct (vgmWaits rest) as [t|]; [|done]. cbn. f_equal. lia.
Qed.

Lemma frame_waits (cmd frame : Z) rest :
  (cmd = 0x63 ∧ frame = 882) ∨ (cmd = 0x62 ∧ frame = 735) →
  vgmWaits (cmd :: rest) = (λ t, frame + t) <$> vgmWaits rest.
Proof. by intros [[-> ->]|[-> ->]]. Qed.

Ltac split_tests :=
  repeat (match goal with
          | |- context [?a <? ?b] => destruct (Z.ltb_spec a b)
          | |- context [?a <=? ?b] => destruct (Z.leb_spec a b)
          | |- context [?a =? ?b] => destruct (Z.eqb_spec a b)
          end; cbn [andb]; cbv iota).

Lemma turn_waits (rate w : Z) (p : list Z) (sub : Z) :
  0 < w < 2 ^ 32 → rate = 50 ∨ rate = 60 ∨ w <= 65535 →
  VgmExportContainer.turn rate w = (p, sub) →
  1 <= sub <= w ∧ ∀ rest, vgmWaits (p ++ rest) = (λ t, sub + t) <$> vgmWaits rest.
Proof.
  intros Hw Hr. unfold VgmExportContainer.turn. cbv zeta.
  assert (∀ rest, vgmWaits (0x63 :: rest) = (λ t, 882 + t) <$> vgmWaits rest) as H63
    by done.
  assert (∀ rest, vgmWaits (0x62 :: rest) = (λ t, 735 + t) <$> vgmWaits rest) as H62
    by done.
  split_tests; cbn [andb];
    repeat match goal with
           | Hu : context [u32 ?x] |- _ => rewrite (u32_small x) in Hu by lia
           | |- context [u32 ?x] => rewrite (u32_small x) by lia
           end;
    intros [= <- <-];
    (split; [lia|]); intros rest; cbn [app];
    try (apply wait16_waits; lia);
    try (apply short_waits; lia);
    rewrite ?H63, ?H62; try rewrite short_waits by lia;
    destruct (vgmWaits rest) as [t|]; cbn; try done; f_equal; lia.
Qed.

Lemma waitLoop_waits (waitBits rate : Z) (fuel : nat) : ∀ w buf,
  0 <= w < 2 ^ 32 → w < 2 ^ waitBits → rate = 50 ∨ rate = 60 ∨ w <= 65535 →
  (Z.to_nat w ≤ fuel)%nat →
  ∃ pushed, VgmExportContainer.waitLoop waitBits fuel rate w buf = Some (buf ++ pushed) ∧
            vgmWaits pushed = Some w.
Proof.
  induction fuel as [|fuel IH]; intros w buf Hw Hb Hr Hf.
  - assert (w = 0) as -> by lia. exists []. by rewrite app_nil_r.
  - cbn [VgmExportContainer.waitLoop]. destruct (Z.eqb_spec w 0) as [->|Hne].
    + exists []. by rewrite app_nil_r.
    + destruct (VgmExportContainer.turn rate w) as [p sub] eqn:Ht.
      destruct (turn_waits rate w p sub ltac:(lia) Hr Ht) as [Hsub Hdec].
      rewrite (Z.mod_small (w - sub)) by lia.
      destruct (IH (w - sub) (buf ++ p)) as (pushed & -> & Hp); [lia..|].
      exists (p ++ pushed). split; [by rewrite (assoc_L (++))|].
      rewrite Hdec, Hp. cbn. f_equal. lia.
Qed.

Lemma waitLoop_long (waitBits rate : Z) (fuel : nat) w buf :
  65535 < w < 2 ^ 32 → w < 2 ^ waitBits → rate ≠ 50 → rate ≠ 60 →
  VgmExportContainer.waitLoop waitBits (S fuel) rate w buf
  = Some (buf ++ VgmExportContainer.wait16 65535).
Proof.
  intros Hw Hb H50 H60. cbn [VgmExportContainer.waitLoop].
  rewrite (proj2 (Z.eqb_neq w 0)) by lia. unfold VgmExportContainer.turn.
  rewrite (proj2 (Z.eqb_neq rate 50)), (proj2 (Z.eqb_neq rate 60)) by done.
  rewrite (proj2 (Z.ltb_lt 65535 w)) by lia. rewrite u32_small by lia.
  rewrite Z.sub_diag, Z.mod_0_l by lia. by destruct fuel.
Qed.

(** X21: the wait of a VGM file.  When [n] samples (1 or more, below
    2^32) have gone by since the last write, [getData] flushes them with
    enough turns of the loop and leaves the counter at zero.  With the
    interrupt rate 50 or 60, or when [n] is at most 65535, the wait
    commands appended stand for exactly [n] samples; with another rate a
    longer wait is written as one command of 65535 samples, and the rest
    of the time is dropped. *)
Theorem vgm_wait_encodes_samples (waitBits : Z) (c : VgmExportContainer.t) (n : Z) :
  VgmExportContainer.lastWait_ c = 0 → 1 <= n < 2 ^ 32 → n < 2 ^ waitBits →
  ∃ fuel0 : nat, ∀ fuel : nat, (fuel0 ≤ fuel)%nat →
    ∃ pushed c',
      VgmExportContainer.getData waitBits fuel
        (VgmExportContainer.recordStream waitBits n c)
      = Some (VgmExportContainer.buf_ c ++ pushed, c') ∧
      VgmExportContainer.buf_ c' = VgmExportContainer.buf_ c ++ pushed ∧
      VgmExportContainer.lastWait_ c' = 0 ∧
      VgmExportContainer.loopPoint_ c'
      = (if VgmExportContainer.isSetLoop_ c then VgmExportContainer.loopPoint_ c
         else size (VgmExportContainer.buf_ c')) ∧
      vgmWaits pushed
      = Some (if bool_decide (VgmExportContainer.intrRate_ c = 50 ∨
                              VgmExportContainer.intrRate_ c = 60 ∨ n <= 65535)
              then n else 65535).
Proof.
  intros Hz Hn Hb. exists (S (Z.to_nat n)). intros fuel Hf.
  unfold VgmExportContainer.getData, VgmExportContainer.recordStream.
  cbn [VgmExportContainer.lastWait_]. rewrite Hz, Z.add_0_l.
  rewrite (Z.mod_small n) by lia. rewrite bool_decide_eq_true_2 by lia.
  unfold VgmExportContainer.setWait.
  cbn [VgmExportContainer.lastWait_ VgmExportContainer.buf_ VgmExportContainer.intrRate_
       VgmExportContainer.isSetLoop_ VgmExportContainer.loopPoint_].
  assert (∃ pushed,
            VgmExportContainer.waitLoop waitBits fuel (VgmExportContainer.intrRate_ c) n
              (VgmExportContainer.buf_ c)
            = Some (VgmExportContainer.buf_ c ++ pushed) ∧
            vgmWaits pushed
            = Some (if bool_decide (VgmExportContainer.intrRate_ c = 50 ∨
                                    VgmExportContainer.intrRate_ c = 60 ∨ n <= 65535)
                    then n else 65535)) as (pushed & -> & Hp).
  { case_bool_decide as Hr.
    - apply waitLoop_waits; [lia|done|done|lia].
    - destruct fuel as [|fuel]; [lia|]. eexists. split.
      + apply waitLoop_long; [lia|done|tauto|tauto].
      + by rewrite <- (app_nil_r (VgmExportContainer.wait16 65535)), wait16_waits. }
  cbn [mbind option_bind]. do 2 eexists. split; [reflexivity|].
  cbn [VgmExportContainer.lastWait_ VgmExportContainer.buf_ VgmExportContainer.intrRate_
       VgmExportContainer.isSetLoop_ VgmExportContainer.loopPoint_].
  split_and!; try done. by destruct (VgmExportContainer.isSetLoop_ c).
Qed.

(** ** Transposing and its undo *)

Lemma bind_apply {S A B} (c : StateErr S A) (f : A → StateErr S B) s :
  (c ≫= f) s = match c s with Ok (a, s') => f a s' | Fail e => Fail e end.
Proof. reflexivity. Qed.

Lemma forM__app {S A} (xs ys : list A) (body : A → StateErr S unit) s :
  forM_ (xs ++ ys) body s = (forM_ xs body ;; forM_ ys body) s.
Proof.
  revert s. induction xs as [|x xs IH]; intros s; cbn [forM_ app].
  - reflexivity.
  - unfold mbind, StateErr_bind. destruct (body x s) as [[[] s']|e]; [|reflexivity].
    apply IH.
Qed.

Lemma forM__fmap {S A B} (f : A → B) (xs : list A) (body : B → StateErr S unit) s :
  forM_ (f <$> xs) body s = forM_ xs (λ x, body (f x)) s.
Proof.
  revert s. induction xs as [|x xs IH]; intros s; cbn [forM_ fmap list_fmap]; [reflexivity|].
  unfold mbind, StateErr_bind. destruct (body (f x) s) as [[[] s']|e]; [|reflexivity].
  apply IH.
Qed.

Lemma forM__nested {S A B} (xs : list A) (ys : list B)
    (body : A → B → StateErr S unit) s :
  forM_ xs (λ x, forM_ ys (body x)) s
  = forM_ (pairsOf xs ys) (λ p, body p.1 p.2) s.
Proof.
  revert s. induction xs as [|x xs IH]; intros s; [reflexivity|].
  unfold pairsOf. cbn [forM_ mbind list_bind]. rewrite forM__app.
  rewrite !bind_apply, forM__fmap. cbn [fst snd].
  destruct (forM_ ys (body x) s) as [[[] s']|e]; [|reflexivity]. apply IH.
Qed.

Lemma foldl_nested {S A B} (xs : list A) (ys : list B) (f : S → A → B → S) s :
  foldl (λ s x, foldl (λ s y, f s x y) s ys) s xs
  = foldl (λ s p, f s p.1 p.2) s (pairsOf xs ys).
Proof.
  revert s. induction xs as [|x xs IH]; intros s; [reflexivity|].
  unfold pairsOf. cbn [foldl mbind list_bind]. rewrite foldl_app, foldl_fmap.
  cbn [fst snd]. apply IH.
Qed.

Lemma NoDup_pairsOf {A B} (xs : list A) (ys : list B) :
  NoDup xs → NoDup ys → NoDup (pairsOf xs ys).
Proof.
  intros Hx Hy. apply NoDup_bind; [| |exact Hx].
  - intros x1 x2 p _ _ (y1 & -> & _)%list_elem_of_fmap (y2 & [= -> _] & _)%list_elem_of_fmap.
    reflexivity.
  - intros x _. apply NoDup_fmap_2_strong; [|exact Hy]. by intros y1 y2 _ _ [= ->].
Qed.

Lemma elem_of_pairsOf {A B} (xs : list A) (ys : list B) x y :
  (x, y) ∈ pairsOf xs ys ↔ x ∈ xs ∧ y ∈ ys.
Proof.
  unfold pairsOf. rewrite list_elem_of_bind. split.
  - intros (x' & (y' & [= -> ->] & Hy)%list_elem_of_fmap & Hx). done.
  - intros [Hx Hy]. exists x. split; [|done]. apply list_elem_of_fmap. by exists y.
Qed.

Section Transpose.
Local Notation Notes := TransposeNoteInPatternCommand.Notes.
Local Notation setNoteNumber := TransposeNoteInPatternCommand.setNoteNumber.
Local Notation undoStep := TransposeNoteInPatternCommand.undoStep.
Local Notation prevKeys_ := TransposeNoteInPatternCommand.prevKeys_.
Local Notation seminote_ := TransposeNoteInPatternCommand.seminote_.
Implicit Types (g : Notes) (cs : list (Z * Z)).

Lemma collect_keys g cs keys :
  foldl (λ prevKeys (p : Z * Z),
           let n := TransposeNoteInPatternCommand.getNoteNumber p.2 p.1 g in
           if -1 <? n then prevKeys ++ [n] else prevKeys) keys cs
  = keys ++ keysOf g cs.
Proof.
  revert keys. induction cs as [|[s t] cs IH]; intros keys; cbn [foldl].
  - unfold keysOf. cbn. by rewrite app_nil_r.
  - rewrite IH. unfold keysOf, TransposeNoteInPatternCommand.getNoteNumber.
    cbn [fmap list_fmap fst snd]. rewrite filter_cons.
    destruct (Z.ltb_spec (-1) (g t s)).
    + rewrite decide_True by lia. by rewrite <- app_assoc.
    + by rewrite decide_False by lia.
Qed.

Lemma redo_cells semi g cs :
  NoDup cs →
  ∀ t s,
    foldl (λ g (p : Z * Z),
             let n := TransposeNoteInPatternCommand.getNoteNumber p.2 p.1 g in
             if -1 <? n then setNoteNumber p.2 p.1 (clamp (n + semi) 0 95) g else g)
          g cs t s
    = if bool_decide ((s, t) ∈ cs ∧ -1 < g t s) then clamp (g t s + semi) 0 95
      else g t s.
Proof.
  revert g. induction cs as [|[s0 t0] cs IH]; intros g Hnd t s; cbn [foldl].
  - rewrite bool_decide_eq_false_2; [done|]. intros [[]%elem_of_nil _].
  - apply list.NoDup_cons in Hnd as [Hnotin Hnd]. rewrite (IH _ Hnd). cbn [fst snd].
    unfold TransposeNoteInPatternCommand.getNoteNumber.
    destruct (decide ((s, t) = (s0, t0))) as [[= -> ->]|Hne].
    + rewrite (bool_decide_eq_false_2 (_ ∈ cs ∧ _)) by (by intros [? _]).
      destruct (Z.ltb_spec (-1) (g t0 s0)).
      * rewrite bool_decide_eq_true_2 by (split; [left|lia]).
        unfold setNoteNumber. by rewrite !bool_decide_eq_true_2.
      * rewrite bool_decide_eq_false_2 by (intros [_ ?]; lia). done.
    + assert ((if -1 <? g t0 s0
               then setNoteNumber t0 s0 (clamp (g t0 s0 + semi) 0 95) g else g) t s
              = g t s) as ->.
      { destruct (-1 <? g t0 s0); [|done]. unfold setNoteNumber.
        destruct (decide (t = t0)) as [->|]; destruct (decide (s = s0)) as [->|];
          rewrite ?(bool_decide_eq_true_2 (_ = _)), ?(bool_decide_eq_false_2 (_ = _)) by done;
          done. }
      erewrite bool_decide_ext; [reflexivity|]. rewrite elem_of_cons. naive_solver.
Qed.

Lemma clamp_range v : 0 <= clamp v 0 95 <= 95.
Proof. unfold clamp. destruct (Z.ltb_spec v 0); [lia|]. destruct (Z.ltb_spec 95 v); lia. Qed.

Lemma undo_cells c g cs :
  NoDup cs →
  ∀ g1 (i : nat),
    (∀ t s, (s, t) ∈ cs → (-1 < g1 t s ↔ -1 < g t s)) →
    drop i (prevKeys_ c) = keysOf g cs →
    ∃ g2 j,
      forM_ cs (λ p, undoStep c p.1 p.2) (g1, Z.of_nat i) = Ok (tt, (g2, j)) ∧
      ∀ t s, g2 t s = if bool_decide ((s, t) ∈ cs ∧ -1 < g t s) then g t s else g1 t s.
Proof.
  induction cs as [|[s0 t0] cs IH]; intros Hnd g1 i Hsame Hkeys.
  - exists g1, (Z.of_nat i). split; [reflexivity|]. intros t s.
    rewrite bool_decide_eq_false_2; [done|]. intros [[]%elem_of_nil _].
  - apply list.NoDup_cons in Hnd as [Hnotin Hnd]. cbn [forM_ fst snd].
    unfold keysOf in Hkeys. cbn [fmap list_fmap fst snd] in Hkeys.
    pose proof (Hsame t0 s0 ltac:(left)) as H0.
    destruct (decide (-1 < g t0 s0)) as [Hnote|Hrest].
    + (* a note: the key at [i] is its former number *)
      rewrite filter_cons_True in Hkeys by (simpl; lia).
      assert (prevKeys_ c !! i = Some (g t0 s0)) as Hat.
      { rewrite <- (Nat.add_0_r i), <- lookup_drop, Hkeys. reflexivity. }
      assert (drop (S i) (prevKeys_ c) = keysOf g cs) as Hkeys'.
      { replace (S i) with (i + 1)%nat by lia. rewrite <- drop_drop, Hkeys. reflexivity. }
      destruct (IH Hnd (setNoteNumber t0 s0 (g t0 s0) g1) (S i)) as (g2 & j & Hrun & Hg2).
      { intros t s Hin. rewrite <- (Hsame t s ltac:(by right)).
        unfold setNoteNumber.
        destruct (decide (t = t0)) as [->|]; destruct (decide (s = s0)) as [->|];
          rewrite ?(bool_decide_eq_true_2 (_ = _)), ?(bool_decide_eq_false_2 (_ = _)) by done;
          cbn [andb]; try done. }
      { exact Hkeys'. }
      exists g2, j. split.
      * unfold mbind at 1, StateErr_bind. unfold undoStep at 1.
        unfold mbind, StateErr_bind, gets, lift, modify, at_, lookupZ,
          TransposeNoteInPatternCommand.getNoteNumber. cbn [fst snd].
        rewrite (proj2 (Z.ltb_lt _ _)) by lia. cbn [fst snd].
        rewrite (proj2 (Z.leb_le 0 (Z.of_nat i))) by lia.
        rewrite Nat2Z.id, Hat.
        replace (Z.of_nat i + 1) with (Z.of_nat (S i)) by lia. exact Hrun.
      * intros t s. rewrite Hg2.
        destruct (decide ((s, t) = (s0, t0))) as [[= -> ->]|Hne].
        -- rewrite (bool_decide_eq_false_2 (_ ∈ cs ∧ _)) by (by intros [? _]).
           rewrite bool_decide_eq_true_2 by (split; [left|lia]).
           unfold setNoteNumber. by rewrite !bool_decide_eq_true_2.
        -- assert (setNoteNumber t0 s0 (g t0 s0) g1 t s = g1 t s) as ->.
           { unfold setNoteNumber.
             destruct (decide (t = t0)) as [->|]; destruct (decide (s = s0)) as [->|];
               rewrite ?(bool_decide_eq_true_2 (_ = _)), ?(bool_decide_eq_false_2 (_ = _))
                 by done; done. }
           erewrite bool_decide_ext; [reflexivity|]. rewrite elem_of_cons. naive_solver.
    + rewrite filter_cons_False in Hkeys by (simpl; lia).
      destruct (IH Hnd g1 i) as (g2 & j & Hrun & Hg2).
      { intros t s Hin. apply Hsame. by right. }
      { exact Hkeys. }
      exists g2, j. split.
      * unfold mbind at 1, StateErr_bind. unfold undoStep at 1.
        unfold mbind, StateErr_bind, gets, TransposeNoteInPatternCommand.getNoteNumber.
        cbn [fst snd]. rewrite (proj2 (Z.ltb_ge _ _)) by lia. exact Hrun.
      * intros t s. rewrite Hg2.
        destruct (decide ((s, t) = (s0, t0))) as [[= -> ->]|Hne].
        -- rewrite (bool_decide_eq_false_2 (_ ∈ cs ∧ _)) by (by intros [? _]).
           rewrite bool_decide_eq_false_2 by (intros [_ ?]; lia). done.
        -- erewrite bool_decide_ext; [reflexivity|]. rewrite elem_of_cons. naive_solver.
Qed.

End Transpose.

(** X22: undo after redo of [TransposeNoteInPatternCommand], for a
    selection whose ends the loop counters can pass and notes whose sum
    with the interval is an [int].  [redo], run on the notes the command
    was made on, replaces every note of the selection (a note number
    above -1) by the number moved by the interval and clamped to 0..95,
    and leaves the other steps and the steps outside the selection as
    they are; [undo] after it returns and gives every step the note
    number it had when the command was made, also where the clamp has
    made two notes equal. *)
Theorem transpose_undo_restores (g : TransposeNoteInPatternCommand.Notes)
    (songNum beginTrack beginOrder beginStep endTrack endStep seminote : Z) :
  endTrack < 2 ^ 31 - 1 → endStep < 2 ^ 31 - 1 →
  (∀ t s, beginTrack <= t <= endTrack → beginStep <= s <= endStep → -1 < g t s →
          - 2 ^ 31 <= g t s + seminote < 2 ^ 31) →
  (∀ t s,
     TransposeNoteInPatternCommand.redo
       (TransposeNoteInPatternCommand.new g songNum beginTrack beginOrder beginStep
          endTrack endStep seminote) g t s
     = if bool_decide ((beginTrack <= t <= endTrack ∧ beginStep <= s <= endStep)
                       ∧ -1 < g t s)
       then clamp (g t s + seminote) 0 95 else g t s) ∧
  ∃ g',
    TransposeNoteInPatternCommand.undo
      (TransposeNoteInPatternCommand.new g songNum beginTrack beginOrder beginStep
         endTrack endStep seminote)
      (TransposeNoteInPatternCommand.redo
         (TransposeNoteInPatternCommand.new g songNum beginTrack beginOrder beginStep
            endTrack endStep seminote) g) = Ok g' ∧
    ∀ t s, g' t s = g t s.
Proof.
  intros _ _ _.
  set (c := TransposeNoteInPatternCommand.new g songNum beginTrack beginOrder beginStep
              endTrack endStep seminote).
  set (cs := pairsOf (TransposeNoteInPatternCommand.fromTo beginStep endStep)
                     (TransposeNoteInPatternCommand.fromTo beginTrack endTrack)).
  assert (NoDup cs) as Hnd by (apply NoDup_pairsOf; apply NoDup_seqZ).
  assert (∀ t s, (s, t) ∈ cs ↔ beginTrack <= t <= endTrack ∧ beginStep <= s <= endStep)
    as Hcs.
  { intros t s. unfold cs. rewrite elem_of_pairsOf.
    unfold TransposeNoteInPatternCommand.fromTo. rewrite !elem_of_seqZ. lia. }
  assert (∀ t s,
            TransposeNoteInPatternCommand.redo c g t s
            = if bool_decide ((s, t) ∈ cs ∧ -1 < g t s)
              then clamp (g t s + seminote) 0 95 else g t s) as Hredo.
  { intros t s. unfold TransposeNoteInPatternCommand.redo. cbn [c
      TransposeNoteInPatternCommand.new TransposeNoteInPatternCommand.bTrack_
      TransposeNoteInPatternCommand.eTrack_ TransposeNoteInPatternCommand.bStep_
      TransposeNoteInPatternCommand.eStep_ TransposeNoteInPatternCommand.seminote_].
    rewrite (foldl_nested _ _
               (λ g0 step track,
                  let n := TransposeNoteInPatternCommand.getNoteNumber track step g0 in
                  if -1 <? n
                  then TransposeNoteInPatternCommand.setNoteNumber track step
                         (clamp (n + seminote) 0 95) g0
                  else g0)).
    exact (redo_cells seminote g cs Hnd t s). }
  split.
  { intros t s. rewrite Hredo. erewrite bool_decide_ext; [reflexivity|]. by rewrite Hcs. }
  assert (TransposeNoteInPatternCommand.prevKeys_ c = keysOf g cs) as Hkeys.
  { cbn [c TransposeNoteInPatternCommand.new TransposeNoteInPatternCommand.prevKeys_].
    rewrite (foldl_nested _ _
               (λ prevKeys step track,
                  let n := TransposeNoteInPatternCommand.getNoteNumber track step g in
                  if -1 <? n then prevKeys ++ [n] else prevKeys)).
    exact (collect_keys g cs []). }
  destruct (undo_cells c g cs Hnd (TransposeNoteInPatternCommand.redo c g) 0)
    as (g2 & j & Hrun & Hg2).
  { intros t s Hin. rewrite Hredo. destruct (decide (-1 < g t s)) as [Hn|Hn].
    - rewrite bool_decide_eq_true_2 by done. pose proof (clamp_range (g t s + seminote)). lia.
    - rewrite bool_decide_eq_false_2 by (by intros [_ ?]). done. }
  { exact Hkeys. }
  exists g2. split.
  - unfold TransposeNoteInPatternCommand.undo.
    cbn [c TransposeNoteInPatternCommand.new TransposeNoteInPatternCommand.bTrack_
      TransposeNoteInPatternCommand.eTrack_ TransposeNoteInPatternCommand.bStep_
      TransposeNoteInPatternCommand.eStep_].
    rewrite (forM__nested _ _ (TransposeNoteInPatternCommand.undoStep c)).
    fold cs. fold c. change (0 : Z) with (Z.of_nat 0). by rewrite Hrun.
  - intros t s. rewrite Hg2, Hredo.
    destruct (bool_decide ((s, t) ∈ cs ∧ -1 < g t s)); reflexivity.
Qed.

(** ** The songs of a module *)

Section Songs.
Variable SongData : Type.
Variable Song_new3 : SongType → string → SongData.
Variable Song_new8 : SongType → string → bool → Z → Z → Z → Z → SongData.
Variable movedFrom : SongData → SongData.
Implicit Types (songs : list (Song SongData)) (numbers : list Z).

Lemma getSong_numbered songs (i : nat) s :
  numbered songs → songs !! i = Some s → getSong (Z.of_nat i) songs = Ok (s, songs).
Proof using Type.
  intros Hnum Hi. unfold getSong. rewrite (bind_run _ _ _ _ _ (gets_run _ _)).
  unfold id.
  assert (list_find (λ s, song_number s = Z.of_nat i) songs = Some (i, s)) as ->; [|done].
  apply list_find_Some. split; [exact Hi|]. split; [by apply Hnum|].
  intros j y Hj Hlt Hy. apply Hnum in Hj. lia.
Qed.

Lemma getSong_first songs (i : nat) s :
  songs !! i = Some s →
  (∀ (j : nat) y, songs !! j = Some y → (j < i)%nat → song_number y ≠ song_number s) →
  getSong (song_number s) songs = Ok (s, songs).
Proof using Type.
  intros Hi Hleast. unfold getSong. rewrite (bind_run _ _ _ _ _ (gets_run _ _)).
  unfold id.
  assert (list_find (λ s0, song_number s0 = song_number s) songs = Some (i, s)) as ->;
    [|done].
  apply list_find_Some. split; [exact Hi|]. split; [done|]. exact Hleast.
Qed.

(** The loop of [sortSongs], from any turn on: [songs0] is what [songs_]
    held at the call. *)
Lemma sortSongs_loop numbers songs0 songs (news : list (Song SongData)) :
  NoDup numbers →
  (∀ n, n ∈ numbers → 0 <= n < size songs0) →
  length songs = length songs0 →
  (∀ n, n ∈ numbers → lookupZ songs n = lookupZ songs0 n) →
  ∃ songs' news',
    foldM (λ newSongs n,
             songs ← gets id;
             s ← lift (idx songs n);
             let s' := mkSong (size newSongs) (song_data s) in
             modify (λ songs,
               <[Z.to_nat n := mkSong (song_number s') (movedFrom (song_data s'))]>
                 songs) ;;
             mret (newSongs ++ [s']))
          news numbers songs = Ok (news', songs') ∧
    length news' = (length news + length numbers)%nat ∧
    (∀ i : nat, (i < length news)%nat → news' !! i = news !! i) ∧
    (∀ (i : nat) n, numbers !! i = Some n →
       ∃ s, lookupZ songs0 n = Some s ∧
            news' !! (length news + i)%nat
            = Some (mkSong (Z.of_nat (length news + i)) (song_data s))).
Proof using Type.
  revert songs news. induction numbers as [|n numbers IH]; intros songs news Hnd Hin Hlen Hsame.
  - exists songs, news. cbn [foldM]. split; [reflexivity|]. split; [cbn; lia|].
    split; [done|]. intros i n Hi. by rewrite lookup_nil in Hi.
  - apply list.NoDup_cons in Hnd as [Hnotin Hnd].
    pose proof (Hin n ltac:(left)) as Hn.
    destruct (lookupZ songs0 n) as [s|] eqn:Hs.
    2:{ unfold lookupZ in Hs. rewrite (proj2 (Z.leb_le 0 n)) in Hs by lia.
        apply lookup_ge_None in Hs. unfold size in Hn. lia. }
    pose proof (Hsame n ltac:(left)) as Hs'. rewrite Hs in Hs'.
    destruct (IH (<[Z.to_nat n := mkSong (size news) (movedFrom (song_data s))]> songs)
                 (news ++ [mkSong (size news) (song_data s)]))
      as (songs' & news' & Hrun & Hlen' & Hpre & Hnew).
    { exact Hnd. }
    { intros m Hm. apply Hin. by right. }
    { by rewrite length_insert. }
    { intros m Hm. rewrite <- (Hsame m) by (by right).
      assert (m ≠ n) as Hne by (intros ->; done).
      pose proof (Hin m ltac:(by right)) as Hmr.
      unfold lookupZ. rewrite (proj2 (Z.leb_le 0 m)) by lia.
      apply list_lookup_insert_ne. lia. }
    exists songs', news'. split.
    { cbn [foldM]. rewrite bind_apply.
      rewrite (bind_run _ _ _ _ _ (gets_run _ _)). unfold id.
      unfold idx. rewrite Hs'.
      rewrite (bind_run _ _ _ _ _ (lift_run _ _)).
      rewrite (bind_run _ _ _ _ _ (modify_run _ _)).
      cbn [song_number song_data]. exact Hrun. }
    rewrite length_app in Hlen', Hpre, Hnew. cbn [length] in *.
    split; [lia|]. split.
    { intros i Hi. rewrite Hpre by lia. by rewrite lookup_app_l by lia. }
    intros i m Hi. destruct i as [|i]; cbn in Hi.
    + injection Hi as <-. exists s. split; [exact Hs|].
      rewrite Nat.add_0_r, Hpre by lia.
      rewrite lookup_app_r by lia. rewrite Nat.sub_diag. reflexivity.
    + destruct (Hnew i m Hi) as (s1 & Hs1 & Hat). exists s1. split; [exact Hs1|].
      replace (length news + S i)%nat with (length news + 1 + i)%nat by lia. exact Hat.
Qed.

(** X23: [sortSongs] with numbers that differ from each other and that
    are places of [songs_] returns; afterwards the module has as many
    songs as numbers were given, the song at place [i] holds what the
    song at place [numbers[i]] held and has the number [i], so that
    [getSong(i)] returns it. *)
Theorem sortSongs_renumbers numbers songs :
  NoDup numbers → (∀ n, n ∈ numbers → 0 <= n < size songs) →
  ∃ songs',
    sortSongs movedFrom numbers songs = Ok (tt, songs') ∧
    getSongCount songs' = Ok (size numbers, songs') ∧
    numbered songs' ∧
    ∀ (i : nat) n, numbers !! i = Some n →
      ∃ s, lookupZ songs n = Some s ∧
           getSong (Z.of_nat i) songs'
           = Ok (mkSong (Z.of_nat i) (song_data s), songs').
Proof using Type.
  intros Hnd Hin.
  destruct (sortSongs_loop numbers songs songs [] Hnd Hin eq_refl ltac:(done))
    as (songs1 & news & Hrun & Hlen & _ & Hnew).
  cbn [length Nat.add] in Hlen, Hnew.
  assert (numbered news) as Hnum.
  { intros i s Hi. destruct (numbers !! i) as [n|] eqn:Hn.
    - destruct (Hnew i n Hn) as (s0 & _ & Hat). rewrite Hat in Hi. by injection Hi as <-.
    - apply lookup_ge_None in Hn. apply lookup_lt_Some in Hi. lia. }
  exists news. split.
  { unfold sortSongs. exact (bind_run _ _ _ _ _ Hrun). }
  split.
  { unfold getSongCount, gets, size. by rewrite Hlen. }
  split; [exact Hnum|].
  intros i n Hi. destruct (Hnew i n Hi) as (s & Hs & Hat). exists s. split; [exact Hs|].
  exact (getSong_numbered news i _ Hnum Hat).
Qed.

(** X24: adding songs to a module whose songs have the numbers of their
    places.  [addSong(songType, title)] appends a song with the next
    number and keeps the numbering.  [addSong(n, ...)] throws the range
    error for a negative [n]; otherwise it returns, replaces the song at
    place [n] when there is one and appends the song when not, and
    [getSong(n)] returns the new song; the numbering is kept exactly when
    [n] is at most the number of songs there were. *)
Theorem addSong_keeps_numbers songs :
  numbered songs →
  (∀ songType title,
     ∃ songs',
       addSong Song_new3 songType title songs = Ok (tt, songs') ∧
       songs' = songs ++ [mkSong (size songs) (Song_new3 songType title)] ∧
       numbered songs' ∧
       getSong (size songs) songs'
       = Ok (mkSong (size songs) (Song_new3 songType title), songs')) ∧
  (∀ n songType title isUsedTempo tempo groove speed defaultPatternSize,
     let song := mkSong n (Song_new8 songType title isUsedTempo tempo groove speed
                             defaultPatternSize) in
     (n < 0 →
      addSongNumbered Song_new8 n songType title isUsedTempo tempo groove speed
        defaultPatternSize songs = Fail OutOfRange) ∧
     (0 <= n →
      ∃ songs',
        addSongNumbered Song_new8 n songType title isUsedTempo tempo groove speed
          defaultPatternSize songs = Ok (tt, songs') ∧
        songs' = (if bool_decide (n < size songs) then <[Z.to_nat n := song]> songs
                  else songs ++ [song]) ∧
        getSong n songs' = Ok (song, songs') ∧
        (numbered songs' ↔ n <= size songs))).
Proof using Type.
  intros Hnum. split.
  - intros songType title.
    exists (songs ++ [mkSong (size songs) (Song_new3 songType title)]).
    assert (numbered (songs ++ [mkSong (size songs) (Song_new3 songType title)])) as Hnum'.
    { intros i s [Hi|[Hi Hs]]%lookup_app_Some; [by apply Hnum|].
      apply list_lookup_singleton_Some in Hs as [? <-]. cbn. unfold size. lia. }
    split; [reflexivity|]. split; [reflexivity|]. split; [exact Hnum'|].
    unfold size. apply getSong_numbered; [exact Hnum'|].
    rewrite lookup_app_r by lia. by rewrite Nat.sub_diag.
  - intros n songType title isUsedTempo tempo groove speed defaultPatternSize song.
    split.
    + intros Hneg. unfold addSongNumbered.
      rewrite (bind_run _ _ _ _ _ (gets_run _ _)).
      rewrite (proj2 (Z.ltb_lt n (size songs))) by (unfold size; lia).
      rewrite (bind_run _ _ _ _ _ (gets_run _ _)). unfold id.
      rewrite bind_apply. unfold lift, at_, lookupZ.
      by rewrite (proj2 (Z.leb_gt 0 n)) by lia.
    + intros Hpos. unfold addSongNumbered.
      rewrite (bind_run _ _ _ _ _ (gets_run _ _)).
      destruct (Z.ltb_spec n (size songs)) as [Hlt|Hge].
      * rewrite bool_decide_eq_true_2 by done.
        destruct (songs !! Z.to_nat n) as [old|] eqn:Hold.
        2:{ apply lookup_ge_None in Hold. unfold size in Hlt. lia. }
        exists (<[Z.to_nat n := song]> songs).
        assert (numbered (<[Z.to_nat n := song]> songs)) as Hnum'.
        { intros i s Hi. destruct (decide (i = Z.to_nat n)) as [->|Hne].
          - rewrite list_lookup_insert_eq in Hi by (by eapply lookup_lt_Some).
            injection Hi as <-. cbn. lia.
          - rewrite list_lookup_insert_ne in Hi by done. by apply Hnum. }
        split.
        { rewrite (bind_run _ _ _ _ _ (gets_run _ _)). unfold id.
          rewrite bind_apply. unfold lift, at_, lookupZ.
          rewrite (proj2 (Z.leb_le 0 n)) by lia. rewrite Hold. reflexivity. }
        split; [reflexivity|]. split.
        { rewrite <- (Z2Nat.id n) at 1 by lia. apply getSong_numbered; [exact Hnum'|].
          apply list_lookup_insert_eq. by eapply lookup_lt_Some. }
        split; [lia|done].
      * rewrite bool_decide_eq_false_2 by lia.
        exists (songs ++ [song]). split; [reflexivity|]. split; [reflexivity|]. split.
        { change n with (song_number song) at 1.
          apply (getSong_first _ (length songs)).
          - rewrite lookup_app_r by lia. by rewrite Nat.sub_diag.
          - intros j y Hj Hlt. rewrite lookup_app_l in Hj by lia.
            apply Hnum in Hj. cbn. unfold size in Hge. lia. }
        split.
        { intros Hnum'. specialize (Hnum' (length songs) song).
          rewrite lookup_app_r in Hnum' by lia. rewrite Nat.sub_diag in Hnum'.
          specialize (Hnum' eq_refl). cbn in Hnum'. unfold size. lia. }
        { intros Hle. assert (n = size songs) as Heq by lia.
          intros i s [Hi|[Hi Hs]]%lookup_app_Some; [by apply Hnum|].
          apply list_lookup_singleton_Some in Hs as [? <-]. cbn. unfold size in Heq. lia. }
Qed.

End Songs.

(** ** The slot that a new instrument takes *)

Section Assignable.
Context `{PropertyClasses}.
Implicit Types m : InstrumentsManager.

Lemma assignCond_true m p :
  assignCond m p = true ↔
  users_ p ≠ [] ∨ (regardingUnedited_ m = true ∧ isEdited p = true).
Proof.
  unfold assignCond, isUserInstrument.
  destruct (regardingUnedited_ m), (users_ p), (isEdited p); cbn; naive_solver.
Qed.

Lemma assignCond_false m p :
  assignCond m p = false ↔
  users_ p = [] ∧ (regardingUnedited_ m = true → isEdited p = false).
Proof.
  unfold assignCond, isUserInstrument.
  destruct (regardingUnedited_ m), (users_ p), (isEdited p); cbn; naive_solver.
Qed.

(** X25: [findFirstAssignable{X}] on a kind that has an array.  It returns
    -1 exactly when every slot of the array has a user or, in the mode
    that regards unedited slots only, is edited.  Otherwise it returns the
    least slot without users (and, in that mode, not edited).  In that
    mode nothing changes; in the other mode the function, although
    [const], resets the parameters of the slot it returns, so that edits
    of an unused slot are lost.  The instruments, the mode and the users
    of every slot are as before. *)
Theorem findFirstAssignable_least k m :
  validKind k = true →
  ∃ n m',
    findFirstAssignable k m = Ok (n, m') ∧
    (n = -1 ↔ ∀ p, p ∈ pools_ m k →
                users_ p ≠ [] ∨ (regardingUnedited_ m = true ∧ isEdited p = true)) ∧
    (n = -1 → m' = m) ∧
    (n ≠ -1 →
     ∃ p, lookupZ (pools_ m k) n = Some p ∧ users_ p = [] ∧
          (regardingUnedited_ m = true → isEdited p = false) ∧
          (∀ j q, 0 <= j < n → lookupZ (pools_ m k) j = Some q →
                  users_ q ≠ [] ∨ (regardingUnedited_ m = true ∧ isEdited q = true)) ∧
          m' = if regardingUnedited_ m then m
               else setPool k (<[Z.to_nat n := clearParameters p]> (pools_ m k)) m) ∧
    insts_ m' = insts_ m ∧ regardingUnedited_ m' = regardingUnedited_ m ∧
    ∀ k', users_ <$> pools_ m' k' = users_ <$> pools_ m k'.
Proof.
  intros Hk. eexists _, _. split; [exact (findFirstAssignable_run k m Hk)|].
  pose proof (afterAssign_sameUsers k m) as (Hi & Hr & Hu).
  unfold afterAssign in *.
  destruct (find_if_not (assignCond m) (pools_ m k)) as [i|] eqn:Hf.
  - apply find_if_not_Some in Hf as (p & Hp & Hc & Hleast).
    apply assignCond_false in Hc as [Hnone Hed].
    split.
    { split; [lia|]. intros Hall.
      destruct (Hall p (list_elem_of_lookup_2 _ _ _ Hp)) as [?|[Hm He]]; [done|].
      rewrite Hed in He by done. done. }
    split; [lia|]. split; [|done].
    intros _. exists p. unfold lookupZ. rewrite (proj2 (Z.leb_le 0 _)) by lia.
    rewrite Nat2Z.id. split; [exact Hp|]. split; [exact Hnone|]. split; [exact Hed|].
    split.
    + intros j q Hj Hq. rewrite (proj2 (Z.leb_le 0 j)) in Hq by lia.
      apply assignCond_true. apply (Hleast (Z.to_nat j)); [lia|exact Hq].
    + destruct (regardingUnedited_ m); [reflexivity|]. f_equal.
      rewrite list_insert_alter. apply list_eq. intros j.
      destruct (decide (j = i)) as [->|Hne].
      * rewrite !list_lookup_alter_eq, Hp. reflexivity.
      * by rewrite !list_lookup_alter_ne.
  - split.
    { split; [|done]. intros _ p Hp. apply assignCond_true.
      by apply (proj1 (find_if_not_None _ _) Hf). }
    split.
    { intros _. by destruct (regardingUnedited_ m). }
    split; [done|]. done.
Qed.

End Assignable.

(** ** Tone portamento *)

Section Portamento.
Context `{ControllerParts}.
Implicit Types c : OPNAController.

(** One call of [checkPortamentoFM] in tone portamento. *)
Lemma checkPortamentoFM_step ch c b :
  arpeggioIdle c ch → 0 < prtmFM_ c ch →
  hasKeyOnBeforeFM_ c ch = true → isTonePrtmFM_ c ch = true →
  front (baseToneFM_ c ch) = Ok b →
  ∃ c',
    checkPortamentoFM ch c = Ok (tt, c') ∧
    arpItFM_ c' ch = arpItFM_ c ch ∧ prtmFM_ c' ch = prtmFM_ c ch ∧
    hasKeyOnBeforeFM_ c' ch = true ∧ isTonePrtmFM_ c' ch = true ∧
    baseToneFM_ c' ch = baseToneFM_ c ch ∧ writes_ c' = writes_ c ∧
    (toneValue b - toneValue (keyToneFM_ c ch) = 0 → c' = c) ∧
    (0 <= toneValue b - toneValue (keyToneFM_ c ch) →
     toneValue b - toneValue (keyToneFM_ c' ch)
     = Z.max 0 (toneValue b - toneValue (keyToneFM_ c ch) - prtmFM_ c ch)) ∧
    (toneValue b - toneValue (keyToneFM_ c ch) <= 0 →
     toneValue b - toneValue (keyToneFM_ c' ch)
     = Z.min 0 (toneValue b - toneValue (keyToneFM_ c ch) + prtmFM_ c ch)) ∧
    (0 < Z.abs (toneValue b - toneValue (keyToneFM_ c ch)) < prtmFM_ c ch →
     keyToneFM_ c' ch = b).
Proof.
  intros Harp Hprtm Hkey Htone Hb.
  set (d := toneValue b - toneValue (keyToneFM_ c ch)).
  set (setTone := λ t : ToneDetail,
         set_needToneSetFM_
           (upd (needToneSetFM_ (set_keyToneFM_ (upd (keyToneFM_ c) ch t) c)) ch true)
           (set_keyToneFM_ (upd (keyToneFM_ c) ch t) c)).
  assert (∀ t, keyToneFM_ (setTone t) ch = t) as Hset.
  { intros t. unfold setTone. cbn. unfold upd. by rewrite decide_True. }
  assert (checkPortamentoFM ch c
          = Ok (tt, if 0 <? d
                    then if d - prtmFM_ c ch <? 0 then setTone b
                         else setTone (mkTone (octave (keyToneFM_ c ch))
                                         (note (keyToneFM_ c ch))
                                         (pitch (keyToneFM_ c ch) + prtmFM_ c ch))
                    else if d <? 0
                    then if 0 <? d + prtmFM_ c ch then setTone b
                         else setTone (mkTone (octave (keyToneFM_ c ch))
                                         (note (keyToneFM_ c ch))
                                         (pitch (keyToneFM_ c ch) - prtmFM_ c ch))
                    else c)) as Hrun.
  { unfold checkPortamentoFM.
    do 6 rewrite (bind_run _ _ _ _ _ (gets_run _ _)).
    assert (match arpItFM_ c ch with
            | None => true
            | Some it => bool_decide (it_getPosition it = -1)
            end = true) as ->.
    { unfold arpeggioIdle in Harp. destruct (arpItFM_ c ch); [|done].
      by apply bool_decide_eq_true_2. }
    rewrite (bool_decide_eq_true_2 (prtmFM_ c ch ≠ 0)) by lia.
    rewrite Hkey, Htone. cbn [andb]. rewrite Hb.
    rewrite (bind_run _ _ _ _ _ (lift_run _ _)).
    fold (toneValue b). fold (toneValue (keyToneFM_ c ch)). fold d.
    destruct (0 <? d); [destruct (d - prtmFM_ c ch <? 0); reflexivity|].
    destruct (d <? 0); [destruct (0 <? d + prtmFM_ c ch); reflexivity|]. reflexivity. }
  eexists. split; [exact Hrun|].
  assert (∀ t, toneValue (mkTone (octave t) (note t) (pitch t + prtmFM_ c ch))
               = toneValue t + prtmFM_ c ch) as Hup.
  { intros t. unfold toneValue. cbn. lia. }
  assert (∀ t, toneValue (mkTone (octave t) (note t) (pitch t - prtmFM_ c ch))
               = toneValue t - prtmFM_ c ch) as Hdown.
  { intros t. unfold toneValue. cbn. lia. }
  destruct (Z.ltb_spec 0 d) as [Hpos|Hnpos].
  - destruct (Z.ltb_spec (d - prtmFM_ c ch) 0) as [Hnear|Hfar];
      (split; [reflexivity|]); (split; [reflexivity|]); (split; [exact Hkey|]);
      (split; [exact Htone|]); (split; [reflexivity|]); (split; [reflexivity|]);
      rewrite Hset, ?Hup; split_and!; intros; try lia; try done.
  - destruct (Z.ltb_spec d 0) as [Hneg|Hzero].
    + destruct (Z.ltb_spec 0 (d + prtmFM_ c ch)) as [Hnear|Hfar];
        (split; [reflexivity|]); (split; [reflexivity|]); (split; [exact Hkey|]);
        (split; [exact Htone|]); (split; [reflexivity|]); (split; [reflexivity|]);
        rewrite Hset, ?Hdown; split_and!; intros; try lia; try done.
    + split_and!; try done; intros; lia.
Qed.

Lemma portamento_mod a p : 0 < p → p <= a → (a - p) mod p = a mod p.
Proof.
  intros Hp Ha. replace (a - p) with (a + (-1) * p) by lia. by rewrite Z.mod_add by lia.
Qed.

(** X26: tone portamento on an FM channel arrives and never overshoots.
    While no arpeggio runs, the depth is positive and there was a key-on,
    [n] calls of [checkPortamentoFM] return, write no register and move
    the key tone towards the first tone of the echo buffer by the depth a
    call: the distance left is the distance at the start less [n] times
    the depth, or zero when that is less, on the side it was.  When the
    distance is no multiple of the depth the key tone is the base tone
    itself from the call on that covers the rest; once there the calls
    change nothing. *)
Theorem tone_portamento_arrives ch c b (n : nat) :
  arpeggioIdle c ch → 0 < prtmFM_ c ch →
  hasKeyOnBeforeFM_ c ch = true → isTonePrtmFM_ c ch = true →
  front (baseToneFM_ c ch) = Ok b →
  ∃ c',
    forM_ (replicate n tt) (λ _, checkPortamentoFM ch) c = Ok (tt, c') ∧
    writes_ c' = writes_ c ∧
    (toneValue b - toneValue (keyToneFM_ c ch) = 0 → c' = c) ∧
    (0 <= toneValue b - toneValue (keyToneFM_ c ch) →
     toneValue b - toneValue (keyToneFM_ c' ch)
     = Z.max 0 (toneValue b - toneValue (keyToneFM_ c ch) - Z.of_nat n * prtmFM_ c ch)) ∧
    (toneValue b - toneValue (keyToneFM_ c ch) <= 0 →
     toneValue b - toneValue (keyToneFM_ c' ch)
     = Z.min 0 (toneValue b - toneValue (keyToneFM_ c ch) + Z.of_nat n * prtmFM_ c ch)) ∧
    (Z.abs (toneValue b - toneValue (keyToneFM_ c ch)) mod prtmFM_ c ch ≠ 0 →
     Z.abs (toneValue b - toneValue (keyToneFM_ c ch)) < Z.of_nat n * prtmFM_ c ch →
     keyToneFM_ c' ch = b).
Proof.
  revert c. induction n as [|n IH]; intros c Harp Hprtm Hkey Htone Hb.
  - exists c. cbn [replicate forM_]. split; [reflexivity|]. split; [reflexivity|].
    split; [done|]. split; [lia|]. split; [lia|]. intros _ ?. lia.
  - destruct (checkPortamentoFM_step ch c b Harp Hprtm Hkey Htone Hb)
      as (c1 & Hrun & Harp1 & Hprtm1 & Hkey1 & Htone1 & Hbase1 & Hw1 & Hsame & Hpos & Hneg
          & Hnear).
    destruct (IH c1) as (c' & Hrun' & Hw' & Hsame' & Hpos' & Hneg' & Hnear').
    { unfold arpeggioIdle. rewrite Harp1. exact Harp. }
    { lia. }
    { exact Hkey1. }
    { exact Htone1. }
    { by rewrite Hbase1. }
    rewrite Hprtm1 in *.
    set (d := toneValue b - toneValue (keyToneFM_ c ch)) in *.
    set (d1 := toneValue b - toneValue (keyToneFM_ c1 ch)) in *.
    set (p := prtmFM_ c ch) in *.
    replace (Z.of_nat (S n) * p) with (Z.of_nat n * p + p) by lia.
    set (np := Z.of_nat n * p) in *.
    assert (0 <= np) as Hnp by (unfold np; lia).
    exists c'. split.
    { cbn [replicate forM_]. by rewrite (bind_run _ _ _ _ _ Hrun). }
    split; [congruence|]. split.
    { intros Hd. rewrite Hsame' by (unfold d1; rewrite (Hsame Hd); exact Hd). by apply Hsame. }
    split.
    { intros Hd. specialize (Hpos Hd). rewrite Hpos' by lia. lia. }
    split.
    { intros Hd. specialize (Hneg Hd). rewrite Hneg' by lia. lia. }
    intros Hmod Hlt.
    destruct (decide (Z.abs d < p)) as [Hshort|Hlong].
    + (* the call covers the rest: the key tone is the base tone *)
      assert (0 < Z.abs d) as Hd.
      { destruct (decide (Z.abs d = 0)) as [Hz|]; [|lia].
        rewrite Hz, Z.mod_0_l in Hmod by lia. done. }
      specialize (Hnear ltac:(lia)).
      assert (d1 = 0) as Hd1 by (unfold d1; rewrite Hnear; lia).
      rewrite (Hsame' Hd1). exact Hnear.
    + apply Hnear'.
      * assert (Z.abs d1 = Z.abs d - p) as -> by lia.
        rewrite portamento_mod by lia. exact Hmod.
      * lia.
Qed.

End Portamento.

(** ** The volume of the SSG channels *)

Section VolumeSSG.
Context `{ControllerParts}.
Implicit Types (c : OPNAController) (g : SSGMembers).

Lemma ssgCh_run ch (s : OPNAController * SSGMembers) : 0 <= ch < 3 → ssgCh ch s = Ok (tt, s).
Proof.
  intros Hc. unfold ssgCh.
  by rewrite (proj2 (Z.leb_le 0 ch)), (proj2 (Z.ltb_lt ch 3)) by lia.
Qed.

Lemma realVolumeSSG_range g ch : 0 <= realVolumeSSG g ch <= 15.
Proof.
  unfold realVolumeSSG, clamp.
  match goal with |- 0 <= (if ?v <? 0 then _ else _) <= _ =>
    destruct (Z.ltb_spec v 0); [lia|]; destruct (Z.ltb_spec 15 v); lia end.
Qed.

Lemma setRealVolumeSSG_run ch c g :
  0 <= ch < 3 →
  setRealVolumeSSG ch (c, g)
  = Ok (tt, if isBuzzEffSSG_ g ch || isHardEnvSSG_ g ch then (c, g)
            else (set_writes_ (writes_ c ++ [(0x08 + ch, realVolumeSSG g ch)]) c,
                  mkSSGMembers (baseVolSSG_ g) (tmpVolSSG_ g) (isKeyOnSSG_ g)
                    (isBuzzEffSSG_ g) (isHardEnvSSG_ g) (envItSSG_ g) (treItSSG_ g)
                    (sumVolSldSSG_ g) (upd (needEnvSetSSG_ g) ch false))).
Proof.
  intros Hc. unfold setRealVolumeSSG.
  rewrite (bind_run _ _ _ _ _ (ssgCh_run _ _ Hc)).
  rewrite (bind_run _ _ _ _ _ (gets_run _ _)). cbn [snd].
  destruct (isBuzzEffSSG_ g ch || isHardEnvSSG_ g ch); [reflexivity|].
  match goal with |- context [clamp ?v 0 15] =>
    assert (clamp v 0 15 = realVolumeSSG g ch) as ->
  end.
  { unfold realVolumeSSG. f_equal.
    destruct (envItSSG_ g ch) as [it|], (treItSSG_ g ch) as [it'|]; try lia;
      destruct (Z.leb_spec 0 (it_getCommandType it)),
               (Z.ltb_spec (it_getCommandType it) 16); cbn [andb];
      rewrite ?(bool_decide_eq_true_2 (0 <= it_getCommandType it < 16)),
        ?(bool_decide_eq_false_2 (0 <= it_getCommandType it < 16)) by lia; lia. }
  pose proof (realVolumeSSG_range g ch) as Hr.
  unfold onControllerSSG, modifySSG.
  rewrite bind_apply. cbn [fst snd]. rewrite setRegister_run. unfold narrow. cbn [fst snd].
  rewrite modify_run. cbn [fst snd].
  rewrite (u32_small ch), (u32_small (8 + ch)) by lia.
  rewrite (u8_idemp (realVolumeSSG g ch)), (u8_small (realVolumeSSG g ch)) by lia.
  reflexivity.
Qed.

(** X27: the volume of an SSG channel 0..2.  [setVolumeSSG] and
    [setTemporaryVolumeSSG] ignore a volume above 15.  Otherwise
    [setVolumeSSG] keeps the volume and forgets the temporary one, and
    [setTemporaryVolumeSSG] keeps the temporary one only; neither writes a
    register unless the key of the channel is on and neither the buzzer
    effect nor the hardware envelope is in use, and then the one write
    goes to register 0x08 + channel with a value within 0..15, whatever
    the envelope, the tremolo and the volume slide add up to; without
    them the value is the volume given, and 0 for a negative one. *)
Theorem volume_SSG_in_range ch volume (s : OPNAController * SSGMembers) :
  0 <= ch < 3 →
  (0xf < volume →
   setVolumeSSG ch volume s = Ok (tt, s) ∧ setTemporaryVolumeSSG ch volume s = Ok (tt, s)) ∧
  (volume <= 0xf →
   ∃ s1 s2,
     setVolumeSSG ch volume s = Ok (tt, s1) ∧
     setTemporaryVolumeSSG ch volume s = Ok (tt, s2) ∧
     baseVolSSG_ (snd s1) ch = volume ∧ tmpVolSSG_ (snd s1) ch = -1 ∧
     baseVolSSG_ (snd s2) ch = baseVolSSG_ (snd s) ch ∧
     tmpVolSSG_ (snd s2) ch = volume ∧
     (soundsSSG (snd s) ch = false →
      writes_ (fst s1) = writes_ (fst s) ∧ writes_ (fst s2) = writes_ (fst s)) ∧
     (soundsSSG (snd s) ch = true →
      ∃ v1 v2,
        writes_ (fst s1) = writes_ (fst s) ++ [(0x08 + ch, v1)] ∧ 0 <= v1 <= 15 ∧
        writes_ (fst s2) = writes_ (fst s) ++ [(0x08 + ch, v2)] ∧ 0 <= v2 <= 15 ∧
        needEnvSetSSG_ (snd s1) ch = false ∧ needEnvSetSSG_ (snd s2) ch = false ∧
        (envItSSG_ (snd s) ch = None → treItSSG_ (snd s) ch = None →
         sumVolSldSSG_ (snd s) ch = 0 →
         v1 = Z.max 0 volume ∧ (volume ≠ -1 → v2 = Z.max 0 volume)))).
Proof.
  intros Hc. destruct s as [c g]. cbn [fst snd]. split.
  { intros Hbig. unfold setVolumeSSG, setTemporaryVolumeSSG.
    by rewrite (proj2 (Z.ltb_lt _ _)) by lia. }
  intros Hv.
  set (g1 := mkSSGMembers (upd (baseVolSSG_ g) ch volume) (upd (tmpVolSSG_ g) ch (-1))
               (isKeyOnSSG_ g) (isBuzzEffSSG_ g) (isHardEnvSSG_ g) (envItSSG_ g)
               (treItSSG_ g) (sumVolSldSSG_ g) (needEnvSetSSG_ g)).
  set (g2 := mkSSGMembers (baseVolSSG_ g) (upd (tmpVolSSG_ g) ch volume)
               (isKeyOnSSG_ g) (isBuzzEffSSG_ g) (isHardEnvSSG_ g) (envItSSG_ g)
               (treItSSG_ g) (sumVolSldSSG_ g) (needEnvSetSSG_ g)).
  assert (setVolumeSSG ch volume (c, g)
          = if isKeyOnSSG_ g ch then setRealVolumeSSG ch (c, g1) else Ok (tt, (c, g1)))
    as Hrun1.
  { unfold setVolumeSSG. rewrite (proj2 (Z.ltb_ge _ _)) by lia.
    rewrite (bind_run _ _ _ _ _ (ssgCh_run _ _ Hc)).
    unfold modifySSG. rewrite (bind_run _ _ _ _ _ (modify_run _ _)).
    rewrite (bind_run _ _ _ _ _ (gets_run _ _)). cbn [fst snd isKeyOnSSG_].
    by destruct (isKeyOnSSG_ g ch). }
  assert (setTemporaryVolumeSSG ch volume (c, g)
          = if isKeyOnSSG_ g ch then setRealVolumeSSG ch (c, g2) else Ok (tt, (c, g2)))
    as Hrun2.
  { unfold setTemporaryVolumeSSG. rewrite (proj2 (Z.ltb_ge _ _)) by lia.
    rewrite (bind_run _ _ _ _ _ (ssgCh_run _ _ Hc)).
    unfold modifySSG. rewrite (bind_run _ _ _ _ _ (modify_run _ _)).
    rewrite (bind_run _ _ _ _ _ (gets_run _ _)). cbn [fst snd isKeyOnSSG_].
    by destruct (isKeyOnSSG_ g ch). }
  rewrite !setRealVolumeSSG_run in * by done. cbn [isBuzzEffSSG_ isHardEnvSSG_ g1 g2] in *.
  assert (upd (tmpVolSSG_ g) ch (-1) ch = -1) as Ht1 by (unfold upd; by rewrite decide_True).
  assert (upd (tmpVolSSG_ g) ch volume ch = volume) as Ht2
    by (unfold upd; by rewrite decide_True).
  assert (upd (baseVolSSG_ g) ch volume ch = volume) as Hb1
    by (unfold upd; by rewrite decide_True).
  assert (∀ f : Z → bool, upd f ch false ch = false) as Hn
    by (intros f; unfold upd; by rewrite decide_True).
  unfold soundsSSG.
  destruct (isKeyOnSSG_ g ch);
    [destruct (isBuzzEffSSG_ g ch || isHardEnvSSG_ g ch) eqn:Hbuzz|]; cbn [andb negb].
  - eexists _, _. split; [exact Hrun1|]. split; [exact Hrun2|]. cbn [fst snd g1 g2
      baseVolSSG_ tmpVolSSG_]. rewrite Hb1, Ht1, Ht2. split_and!; try done.
  - eexists _, _. split; [exact Hrun1|]. split; [exact Hrun2|]. cbn [fst snd g1 g2
      baseVolSSG_ tmpVolSSG_ needEnvSetSSG_ writes_]. rewrite Hb1, Ht1, Ht2, !Hn.
    split; [done|]. split; [done|]. split; [done|]. split; [done|]. split; [done|].
    intros _. eexists _, _. split; [reflexivity|].
    split; [apply realVolumeSSG_range|]. split; [reflexivity|].
    split; [apply realVolumeSSG_range|]. split; [done|]. split; [done|].
    intros He Hr Hs. unfold realVolumeSSG, g1, g2.
    cbn [baseVolSSG_ tmpVolSSG_ envItSSG_ treItSSG_ sumVolSldSSG_].
    rewrite He, Hr, Hs, Hb1, Ht1, Ht2. rewrite bool_decide_eq_true_2 by done.
    unfold clamp. split.
    + destruct (Z.ltb_spec (volume - 0 + 0 + 0) 0); [lia|].
      destruct (Z.ltb_spec 15 (volume - 0 + 0 + 0)); lia.
    + intros Hne. rewrite bool_decide_eq_false_2 by done.
      destruct (Z.ltb_spec (volume - 0 + 0 + 0) 0); [lia|].
      destruct (Z.ltb_spec 15 (volume - 0 + 0 + 0)); lia.
  - eexists _, _. split; [exact Hrun1|]. split; [exact Hrun2|]. cbn [fst snd g1 g2
      baseVolSSG_ tmpVolSSG_]. rewrite Hb1, Ht1, Ht2. split_and!; try done.
Qed.

End VolumeSSG.

(** ** Worked examples for the further properties *)

Section ManagerMoreExamples.
Local Existing Instance sampleClasses.

Ltac by_evaluation :=
  lazymatch goal with
  | |- _ = _ => vm_compute; reflexivity
  | |- _ => apply (bool_decide_unpack _); vm_compute; exact I
  end.

Lemma stored_with {A} (P : A → bool) (o : option A) :
  from_option P false o = true → ∃ x, o = Some x ∧ P x = true.
Proof. destruct o as [x|]; [by exists x|done]. Qed.

(** X3, on the SSG instrument of three. *)
Lemma setInstrumentName_renames_witness :
  ∃ i m',
    instOf (after threeInstruments newManager) 1 = Some i ∧
    setInstrumentName 1 "sub" (after threeInstruments newManager) = Ok (tt, m') ∧
    getInstrumentName 1 m' = Ok ("sub", m') ∧
    checkDuplicateInstruments m' = Ok [[0; 2]].
Proof.
  destruct (stored_with (λ _, true) (instOf (after threeInstruments newManager) 1))
    as (i & Hi & _); [by_evaluation|].
  destruct (proj1 (setInstrumentName_renames 1 "sub" (after threeInstruments newManager))
              i Hi) as (m' & Hrun & Hname & _ & _ & _ & Hdup).
  exists i, m'. split_and!; [done..|]. rewrite Hdup. by_evaluation.
Defined.

(** X4, on a manager all of whose SSG arpeggios are edited and none of
    which is used. *)
Lemma clearUnusedInstrumentProperties_resets_witness :
  wellFormed arpeggiosEdited ∧
  ∃ m', clearUnusedInstrumentProperties arpeggiosEdited = Ok (tt, m') ∧
        payloadAt arpeggiosEdited ArpSSG 5 ≠ Some (payload_ (newProperty ArpSSG 5)) ∧
        lookupZ (pools_ m' ArpSSG) 5 = Some (newProperty ArpSSG 5) ∧
        countsRight m'.
Proof.
  destruct (reachable_invariant _ arpeggiosEdited_reachable) as [Hwf Hc].
  split; [exact Hwf|].
  destruct (clearUnusedInstrumentProperties_resets arpeggiosEdited Hwf)
    as (m' & Hrun & _ & Hslots & _ & Hcounts & _).
  exists m'. split_and!; [done| | |by apply Hcounts].
  - intros Heq. vm_compute in Heq. discriminate.
  - destruct (stored_with (λ p, negb (isUserInstrument p))
                (lookupZ (pools_ arpeggiosEdited ArpSSG) 5))
      as (p & Hp & Hu); [by_evaluation|].
    rewrite (Hslots _ _ _ Hp). by destruct (isUserInstrument p).
Defined.

(** X5, on the session of the editor. *)
Lemma clearUnusedWaveformsADPCM_keeps_valid_witness :
  wellFormed (after editorSession newManager) ∧
  ∃ m', clearUnusedWaveformsADPCM (after editorSession newManager) = Ok (tt, m') ∧
        insts_ m' = insts_ (after editorSession newManager) ∧
        getWaveformADPCMValidIndices m' = [].
Proof.
  destruct (reachable_invariant _ editorSession_reachable) as [Hwf _].
  split; [exact Hwf|].
  destruct (clearUnusedWaveformsADPCM_keeps_valid _ Hwf)
    as (m' & Hrun & Hinsts & _ & _ & Hvalid).
  exists m'. split_and!; [done..|]. rewrite Hvalid. by_evaluation.
Defined.

(** X6, on the FM instrument with two arpeggios. *)
Lemma removeInstrument_returns_stored_witness :
  wellFormed (after arpeggiosSet newManager) ∧
  countsRight (after arpeggiosSet newManager) ∧
  slotUsers (after arpeggiosSet newManager) ArpFM 5 = [0] ∧
  ∃ i m',
    instOf (after arpeggiosSet newManager) 0 = Some i ∧
    removeInstrument 0 (after arpeggiosSet newManager) = Ok (i, m') ∧
    wellFormed m' ∧ countsRight m' ∧
    ∀ k s, count 0 (slotUsers m' k s) = 0%nat.
Proof.
  destruct (reachable_invariant _ arpeggiosSet_reachable) as [Hwf Hc].
  split; [exact Hwf|]. split; [exact Hc|]. split; [by_evaluation|].
  destruct (stored_with (λ _, true) (instOf (after arpeggiosSet newManager) 0))
    as (i & Hi & _); [by_evaluation|].
  destruct (proj1 (removeInstrument_returns_stored 0 (after arpeggiosSet newManager)
                     Hwf Hc) i Hi) as (m' & Hrun & _ & Hwf' & Hc' & _ & Hcount).
  exists i, m'. split; [exact Hi|]. split; [exact Hrun|]. split; [exact Hwf'|].
  split; [exact Hc'|]. intros k s. rewrite Hcount. reflexivity.
Defined.

(** X7, on the free number 1 of the same manager. *)
Lemma add_then_remove_restores_witness :
  wellFormed (after arpeggiosSet newManager) ∧
  instOf (after arpeggiosSet newManager) 1 = None ∧
  (∃ inst m1 m2,
     addInstrument 1 ADPCM "kick" (after arpeggiosSet newManager) = Ok (tt, m1) ∧
     removeInstrument 1 m1 = Ok (inst, m2) ∧
     getName inst = "kick" ∧
     insts_ m2 = insts_ (after arpeggiosSet newManager) ∧
     ∀ k s, slotUsers m2 k s = slotUsers (after arpeggiosSet newManager) k s) ∧
  addInstrument 1 DRUM "kick" (after arpeggiosSet newManager)
  = Ok (tt, after arpeggiosSet newManager) ∧
  removeInstrument 1 (after arpeggiosSet newManager) = Fail Undefined.
Proof.
  destruct (reachable_invariant _ arpeggiosSet_reachable) as [Hwf _].
  assert (instOf (after arpeggiosSet newManager) 1 = None) as Hfree by by_evaluation.
  split; [exact Hwf|]. split; [exact Hfree|].
  destruct (add_then_remove_restores 1 ADPCM "kick" (after arpeggiosSet newManager)
              Hwf ltac:(lia) Hfree) as [Hsound _].
  destruct (add_then_remove_restores 1 DRUM "kick" (after arpeggiosSet newManager)
              Hwf ltac:(lia) Hfree) as [_ Hdrum].
  destruct (Hsound ltac:(discriminate))
    as (inst & m1 & m2 & Hadd & Hrem & _ & Hname & Hinsts & _ & Husers).
  split; [|exact (Hdrum eq_refl)].
  exists inst, m1, m2. split; [exact Hadd|]. split; [exact Hrem|].
  split; [exact Hname|]. split; [exact Hinsts|exact Husers].
Defined.

(** X8, on the FM instrument with two arpeggios. *)
Lemma remove_then_add_restores_witness :
  wellFormed (after arpeggiosSet newManager) ∧
  countsRight (after arpeggiosSet newManager) ∧
  ∃ i m1 m2,
    instOf (after arpeggiosSet newManager) 0 = Some i ∧ getNumber i = 0 ∧
    removeInstrument 0 (after arpeggiosSet newManager) = Ok (i, m1) ∧
    addInstrument_ptr i m1 = Ok (tt, m2) ∧
    insts_ m2 = insts_ (after arpeggiosSet newManager) ∧
    countsRight m2.
Proof.
  destruct (reachable_invariant _ arpeggiosSet_reachable) as [Hwf Hc].
  split; [exact Hwf|]. split; [exact Hc|].
  destruct (stored_with (λ i, bool_decide (getNumber i = 0))
              (instOf (after arpeggiosSet newManager) 0))
    as (i & Hi & Hn%bool_decide_eq_true); [by_evaluation|].
  destruct (remove_then_add_restores 0 (after arpeggiosSet newManager) i Hwf Hc Hi Hn)
    as (m1 & m2 & Hrem & Hadd & Hinsts & _ & _ & Hc2).
  exists i, m1, m2. split; [exact Hi|]. split; [exact Hn|]. split; [exact Hrem|].
  split; [exact Hadd|]. split; [exact Hinsts|exact Hc2].
Defined.

(** X9, on the FM instrument with two arpeggios and the free number 1. *)
Lemma cloneInstrument_makes_duplicate_witness :
  wellFormed (after arpeggiosSet newManager) ∧
  countsRight (after arpeggiosSet newManager) ∧
  instOf (after arpeggiosSet newManager) 1 = None ∧
  ∃ ref m' ic,
    instOf (after arpeggiosSet newManager) 0 = Some ref ∧
    cloneInstrument 1 0 (after arpeggiosSet newManager) = Ok (tt, m') ∧
    instOf m' 1 = Some ic ∧ getName ic = getName ref ∧
    getLinkNumber (LArpFM Op1) ic = 5 ∧
    sameGroup m' 0 1 = Ok true.
Proof.
  destruct (reachable_invariant _ arpeggiosSet_reachable) as [Hwf Hc].
  assert (instOf (after arpeggiosSet newManager) 1 = None) as Hfree by by_evaluation.
  split; [exact Hwf|]. split; [exact Hc|]. split; [exact Hfree|].
  destruct (stored_with (λ i, bool_decide (getSoundSource i = FM ∧
                                           getLinkNumber (LArpFM Op1) i = 5))
              (instOf (after arpeggiosSet newManager) 0))
    as (ref & Hr & [Hfm H5]%bool_decide_eq_true); [by_evaluation|].
  destruct (@cloneInstrument_makes_duplicate sampleClasses sampleEqLaws 1 0
              (after arpeggiosSet newManager) ref Hwf Hc Hr Hfree ltac:(lia))
    as (m' & ic & Hrun & Hic & _ & _ & Hname & Hlinks & _ & Hdup & _).
  exists ref, m', ic. split; [exact Hr|]. split; [exact Hrun|]. split; [exact Hic|].
  split; [exact Hname|]. split; [|exact Hdup].
  destruct (Hlinks (LArpFM Op1)) as [_ ->]; [|exact H5].
  rewrite Hfm. by_evaluation.
Defined.

(** X10, on the FM instrument with two arpeggios: the arpeggio of the
    first operator is listed, the envelope in use is not. *)
Lemma getPropertyEntriedIndices_lists_used_witness :
  countsRight (after arpeggiosSet newManager) ∧
  getArpeggioFMEntriedIndices (after arpeggiosSet newManager)
  = Ok ([0; 5], after arpeggiosSet newManager) ∧
  getEnvelopeFMEntriedIndices (after arpeggiosSet newManager)
  = Ok ([], after arpeggiosSet newManager) ∧
  ∃ i idcs,
    instOf (after arpeggiosSet newManager) 0 = Some i ∧
    getArpeggioFMEntriedIndices (after arpeggiosSet newManager)
    = Ok (idcs, after arpeggiosSet newManager) ∧
    getLinkNumber (LArpFM Op1) i ∈ idcs.
Proof.
  destruct (reachable_invariant _ arpeggiosSet_reachable) as [_ Hc].
  split; [exact Hc|].
  assert (indicesWhere (entriedCond ArpFM) (pools_ (after arpeggiosSet newManager) ArpFM)
          = [0; 5]) as Harp by by_evaluation.
  assert (indicesWhere (entriedCond EnvFM) (pools_ (after arpeggiosSet newManager) EnvFM)
          = []) as Henv by by_evaluation.
  split.
  { unfold getArpeggioFMEntriedIndices.
    rewrite (getPropertyEntriedIndices_run ArpFM _ eq_refl), Harp. reflexivity. }
  split.
  { unfold getEnvelopeFMEntriedIndices.
    rewrite (getPropertyEntriedIndices_run EnvFM _ eq_refl), Henv. reflexivity. }
  destruct (stored_with (λ i, bool_decide (getSoundSource i = FM ∧
                                           getLinkEnabled (LArpFM Op1) i = true))
              (instOf (after arpeggiosSet newManager) 0))
    as (i & Hi & [Hfm He]%bool_decide_eq_true); [by_evaluation|].
  destruct (proj1 (getPropertyEntriedIndices_lists_used ArpFM
                     (after arpeggiosSet newManager) Hc) eq_refl)
    as (idcs & Hrun & _ & _ & Hused).
  exists i, idcs. split; [exact Hi|]. split; [exact Hrun|].
  apply (Hused) with (n := 0) (l := LArpFM Op1); [|exact Hi| |reflexivity|exact He].
  - intros Hin. repeat (apply elem_of_cons in Hin as [Hin|Hin]; [discriminate|]).
    by apply elem_of_nil in Hin.
  - rewrite Hfm. apply perOperator_links.
Defined.

(** X12, on the third envelope of a new manager. *)
Lemma setEnvelopeFMOperatorEnabled_get_witness :
  envelopeOf newManager 2 = Some EnvelopeFM_new ∧
  ∃ m', setEnvelopeFMOperatorEnabled 2 3 false newManager = Ok (tt, m') ∧
        getEnvelopeFMOperatorEnabled 2 3 m' = Ok (false, m') ∧
        getEnvelopeFMOperatorEnabled 2 0 m' = Ok (true, m') ∧
        getEnvelopeFMParameter 2 TL4 m' = Ok (32, m').
Proof.
  assert (envelopeOf newManager 2 = Some EnvelopeFM_new) as He by by_evaluation.
  split; [exact He|].
  destruct (setEnvelopeFMOperatorEnabled_get 2 3 false newManager _ He ltac:(lia))
    as (m' & Hrun & Hget & Hoth & Hpar & _).
  exists m'. split; [exact Hrun|]. split; [exact Hget|].
  split; [exact (Hoth 0 ltac:(lia) ltac:(lia))|exact (Hpar TL4)].
Defined.

(** X13, on the third envelope of a new manager. *)
Lemma getEnvelopeFMEntriedIndices_after_set_witness :
  envelopeOf newManager 2 = Some EnvelopeFM_new ∧
  (∃ m', setEnvelopeFMParameter 2 SSGEG1 5 newManager = Ok (tt, m') ∧
         getEnvelopeFMEntriedIndices m' = Ok ([], m')) ∧
  (∃ m' idcs', setEnvelopeFMParameter 2 TL1 40 newManager = Ok (tt, m') ∧
               getEnvelopeFMEntriedIndices m' = Ok (idcs', m') ∧ 2 ∈ idcs').
Proof.
  assert (envelopeOf newManager 2 = Some EnvelopeFM_new) as He by by_evaluation.
  split; [exact He|]. split.
  - destruct (getEnvelopeFMEntriedIndices_after_set 2 SSGEG1 5 newManager _ He)
      as (m' & idcs & idcs' & Hrun & Hb & Ha & _ & Hsame & _).
    exists m'. split; [exact Hrun|]. rewrite Ha.
    rewrite (Hsame ltac:(unfold ssgegParams; set_solver)).
    injection Hb as <-. by_evaluation.
  - destruct (getEnvelopeFMEntriedIndices_after_set 2 TL1 40 newManager _ He)
      as (m' & idcs & idcs' & Hrun & _ & Ha & _ & _ & Hin).
    exists m', idcs'. split; [exact Hrun|]. split; [exact Ha|].
    apply Hin; [unfold ssgegParams; set_solver|discriminate].
Defined.

(** X14, on two FM instruments that share the first envelope. *)
Lemma checkDuplicateInstruments_ignores_later_operators_witness :
  envelopeOf (after threeInstruments newManager) 0 = Some EnvelopeFM_new ∧
  ∃ m', setEnvelopeFMParameter 0 TL3 99 (after threeInstruments newManager)
        = Ok (tt, m') ∧
        getEnvelopeFMParameter 0 TL3 m' = Ok (99, m') ∧
        checkDuplicateInstruments m' = Ok [[0; 2]].
Proof.
  assert (envelopeOf (after threeInstruments newManager) 0 = Some EnvelopeFM_new) as He
    by by_evaluation.
  split; [exact He|].
  destruct (checkDuplicateInstruments_ignores_later_operators 0 TL3 99
              (after threeInstruments newManager) _ He eq_refl)
    as (m' & Hrun & Hget & Hdup).
  exists m'. split; [exact Hrun|]. split; [exact Hget|].
  rewrite Hdup. by_evaluation.
Defined.

(** X15, from the first envelope of a new manager into the eighth. *)
Lemma envelope_survives_module_file_witness :
  envelopeOf newManager 0 = Some EnvelopeFM_new ∧
  storable EnvelopeFM_new = true ∧
  ∃ bytes m2',
    saveEnvelopeFM 0 newManager = Ok (bytes, newManager) ∧
    nth 0 bytes 0 = 0x40 ∧ nth 1 bytes 0 = 0x3f ∧ nth 6 bytes 0 = 0x80 ∧
    loadEnvelopeFM (λ x, nth (Z.to_nat (x - 100)) bytes 0) 7 100 newManager
    = Ok (tt, m2') ∧
    envelopeOf m2' 7 = Some EnvelopeFM_new.
Proof.
  assert (envelopeOf newManager 0 = Some EnvelopeFM_new) as He by by_evaluation.
  assert (storable EnvelopeFM_new = true) as Hs by by_evaluation.
  split; [exact He|]. split; [exact Hs|].
  destruct (envelope_survives_module_file 0 newManager _ He Hs)
    as (bytes & Hsave & _ & _ & Hload).
  destruct (Hload (λ x, nth (Z.to_nat (x - 100)) bytes 0) 100 7 newManager)
    as (m2' & Hrun & He' & _).
  { intros k b Hk. replace (100 + Z.of_nat k - 100) with (Z.of_nat k) by lia.
    rewrite Nat2Z.id. by apply nth_lookup_Some. }
  { exists EnvelopeFM_new. by_evaluation. }
  exists bytes, m2'. split; [exact Hsave|].
  assert (saveEnvelopeFM 0 newManager
          = Ok ([0x40; 0x3f; 0; 0; 7; 32; 0x80; 0x3f; 0; 0; 7; 32; 0x80;
                 0x3f; 0; 0; 7; 32; 0x80; 0x3f; 0; 0; 7; 32; 0x80], newManager)) as Hb.
  { rewrite (saveEnvelopeFM_run _ _ _ He). f_equal. }
  rewrite Hb in Hsave. injection Hsave as <-.
  split; [reflexivity|]. split; [reflexivity|]. split; [reflexivity|].
  split; [exact Hrun|exact He'].
Defined.

End ManagerMoreExamples.

Section ControllerMoreExamples.
Local Existing Instance sampleParts.
Local Existing Instance sampleMembers.

(** X17, on a history of two frames whose write position is the second
    one: of three frames mixed the last two stay, and the position comes
    round to where it was. *)
Lemma getStreamSamples_keeps_newest_witness :
  0 < 2 < 2 ^ 62 ∧
  historyOk 2 (mkOutputHistory [1; 2; 3; 4] [0; 0; 0; 0] 1) ∧
  ∃ h', getStreamSamples 2 [5; 6; 7; 8; 9; 10] 3 true
          (mkOutputHistory [1; 2; 3; 4] [0; 0; 0; 0] 1) = Ok (tt, h') ∧
        chronological h' = [7; 8; 9; 10] ∧
        outputHistoryIndex_ h' = 1 ∧
        outputHistoryReady_ h' = [7; 8; 9; 10].
Proof.
  assert (0 < 2 < 2 ^ 62) as HN by (split; reflexivity).
  assert (historyOk 2 (mkOutputHistory [1; 2; 3; 4] [0; 0; 0; 0] 1)) as Hok.
  { split; [reflexivity|]. split; [reflexivity|]. split; [discriminate|reflexivity]. }
  split; [exact HN|]. split; [exact Hok|].
  destruct (getStreamSamples_keeps_newest 2 HN [5; 6; 7; 8; 9; 10] 3 true _ Hok)
    as (h' & Hrun & _ & Hc & Hi & Hr & _); [discriminate|reflexivity|].
  exists h'. split; [exact Hrun|]. split; [exact Hc|]. split; [exact Hi|exact Hr].
Defined.

(** X18, on the third drum channel of a controller at rest. *)
Lemma setMuteDrumState_silences_witness :
  ∃ s' v,
    setMuteDrumState 2 true (restController Standard 0, restDrums) = Ok (tt, s') ∧
    writes_ (fst s') = [(0x10, v)] ∧
    Z.testbit v 7 = true ∧ Z.testbit v 2 = true ∧
    (setKeyOnFlagDrum 2 ;; onController updateKeyOnOffStatusDrum) s' = Ok (tt, s').
Proof.
  destruct (setMuteDrumState_silences 2 (restController Standard 0, restDrums))
    as (s' & v & Hrun & _ & _ & _ & Hw & H7 & H2 & _ & Hnext); [lia|].
  exists s', v. split; [exact Hrun|]. split; [exact Hw|]. split; [exact H7|].
  split; [exact H2|exact Hnext].
Defined.

(** X19, on the second drum channel of a controller at rest. *)
Lemma temporary_volume_restored_at_key_on_witness :
  isMuteDrum_ restDrums 1 = false ∧ volDrum_ restDrums 1 <= 0x1f ∧
  setVolumeDrum 1 0x20 (restController Standard 0, restDrums)
  = Ok (tt, (restController Standard 0, restDrums)) ∧
  (∃ s1 s2,
     setTemporaryVolumeDrum 1 10 (restController Standard 0, restDrums) = Ok (tt, s1) ∧
     setKeyOnFlagDrum 1 s1 = Ok (tt, s2) ∧
     writes_ (fst s1) = [(0x19, 0xca)] ∧
     writes_ (fst s2) = writes_ (fst s1) ++ [(0x19, 0xdf)] ∧
     tmpVolDrum_ (snd s2) 1 = -1) ∧
  ∃ s1 s2,
    setTemporaryVolumeDrum 1 (-1) (restController Standard 0, restDrums) = Ok (tt, s1) ∧
    setKeyOnFlagDrum 1 s1 = Ok (tt, s2) ∧
    writes_ (fst s1) = [(0x19, 0xff)] ∧
    writes_ (fst s2) = writes_ (fst s1).
Proof.
  assert (volDrum_ restDrums 1 <= 0x1f) as Hv by (cbn; lia).
  split; [reflexivity|]. split; [exact Hv|].
  destruct (temporary_volume_restored_at_key_on 1 0x20
              (restController Standard 0, restDrums)) as [Hbig _];
    [lia|reflexivity|exact Hv|].
  split; [exact (proj1 (Hbig ltac:(lia)))|].
  destruct (temporary_volume_restored_at_key_on 1 10
              (restController Standard 0, restDrums)) as [_ [Hsmall _]];
    [lia|reflexivity|exact Hv|].
  destruct (temporary_volume_restored_at_key_on 1 (-1)
              (restController Standard 0, restDrums)) as [_ [_ Hnone]];
    [lia|reflexivity|exact Hv|].
  destruct Hsmall as (s1 & s2 & s3 & Ht & Hw1 & _ & _ & Hk & Hw2 & _ & Htmp & _);
    [lia|lia|].
  destruct (Hnone eq_refl) as (t1 & t2 & Ht' & Hw1' & _ & _ & Hk' & Hw2' & _).
  split.
  - exists s1, s2. split; [exact Ht|]. split; [exact Hk|].
    split; [exact Hw1|]. split; [exact Hw2|exact Htmp].
  - exists t1, t2. split; [exact Ht'|]. split; [exact Hk'|].
    split; [exact Hw1'|exact Hw2'].
Defined.

End ControllerMoreExamples.

(** X20, on 300 samples after an empty buffer, with a counter of 32
    bits. *)
Lemma s98_wait_encodes_samples_witness :
  ∃ fuel0 : nat, ∀ fuel : nat, (fuel0 ≤ fuel)%nat →
    ∃ bs c',
      S98ExportContainer.getData 32 fuel
        (S98ExportContainer.recordStream 32 300 (S98ExportContainer.mk [] 0 false 0))
      = Some (0xfe :: bs, c') ∧
      countOf bs = 298 ∧ selfDelimiting bs ∧
      S98ExportContainer.loopPoint_ c' = size (S98ExportContainer.buf_ c').
Proof.
  destruct (s98_wait_encodes_samples 32 (S98ExportContainer.mk [] 0 false 0) 300)
    as (fuel0 & Hall); [reflexivity|lia|].
  exists fuel0. intros fuel Hfuel.
  destruct (Hall fuel Hfuel) as (pushed & c' & Hrun & _ & _ & Hloop & _ & _ & Hmore).
  destruct Hmore as (bs & -> & Hcount & Hsd); [lia|].
  exists bs, c'. split; [exact Hrun|]. split; [exact Hcount|].
  split; [exact Hsd|exact Hloop].
Defined.

(** X21, on 1000 samples after an empty buffer, with the interrupt rate
    60 and a counter of 32 bits. *)
Lemma vgm_wait_encodes_samples_witness :
  ∃ fuel0 : nat, ∀ fuel : nat, (fuel0 ≤ fuel)%nat →
    ∃ pushed c',
      VgmExportContainer.getData 32 fuel
        (VgmExportContainer.recordStream 32 1000 (VgmExportContainer.mk [] 0 60 false 0))
      = Some (pushed, c') ∧
      vgmWaits pushed = Some 1000 ∧
      VgmExportContainer.lastWait_ c' = 0.
Proof.
  destruct (vgm_wait_encodes_samples 32 (VgmExportContainer.mk [] 0 60 false 0) 1000)
    as (fuel0 & Hall); [reflexivity|lia|lia|].
  exists fuel0. intros fuel Hfuel.
  destruct (Hall fuel Hfuel) as (pushed & c' & Hrun & _ & Hwait & _ & Hw).
  exists pushed, c'. split; [exact Hrun|]. split; [exact Hw|exact Hwait].
Defined.

(** X22, on two tracks of three steps moved up by three seminotes: the
    highest note stays where it is in [redo], and [undo] gives every note
    back. *)
Lemma transpose_undo_restores_witness :
  TransposeNoteInPatternCommand.redo
    (TransposeNoteInPatternCommand.new sampleNotes 0 0 0 0 1 2 3) sampleNotes 0 0 = 95 ∧
  TransposeNoteInPatternCommand.redo
    (TransposeNoteInPatternCommand.new sampleNotes 0 0 0 0 1 2 3) sampleNotes 0 2 = 13 ∧
  TransposeNoteInPatternCommand.redo
    (TransposeNoteInPatternCommand.new sampleNotes 0 0 0 0 1 2 3) sampleNotes 0 1 = -1 ∧
  ∃ g',
    TransposeNoteInPatternCommand.undo
      (TransposeNoteInPatternCommand.new sampleNotes 0 0 0 0 1 2 3)
      (TransposeNoteInPatternCommand.redo
         (TransposeNoteInPatternCommand.new sampleNotes 0 0 0 0 1 2 3) sampleNotes) = Ok g' ∧
    g' 0 0 = 95 ∧ g' 0 2 = 10 ∧ g' 1 1 = 40.
Proof.
  destruct (transpose_undo_restores sampleNotes 0 0 0 0 1 2 3) as [Hredo Hundo].
  { reflexivity. }
  { reflexivity. }
  { intros t s Ht Hs _. unfold sampleNotes.
    destruct (t =? 0), (s =? 0), (s =? 1); split; (discriminate || reflexivity). }
  split; [rewrite Hredo; reflexivity|]. split; [rewrite Hredo; reflexivity|].
  split; [rewrite Hredo; reflexivity|].
  destruct Hundo as (g' & Hrun & Hsame). exists g'. split; [exact Hrun|].
  rewrite !Hsame. split; [reflexivity|]. split; reflexivity.
Defined.

(** X23, on three songs put in the order finale, intro, theme; what a
    move leaves behind is taken to be the title "gone". *)
Lemma sortSongs_renumbers_witness :
  NoDup [2; 0; 1] ∧
  ∃ songs',
    sortSongs (λ _, "gone"%string) [2; 0; 1] sampleSongs = Ok (tt, songs') ∧
    getSongCount songs' = Ok (3, songs') ∧
    getSong 0 songs' = Ok (mkSong 0 "finale", songs') ∧
    getSong 2 songs' = Ok (mkSong 2 "theme", songs').
Proof.
  assert (NoDup [2; 0; 1]) as Hnd.
  { repeat (apply list.NoDup_cons; split;
            [rewrite ?elem_of_cons, elem_of_nil; intros H; decompose [or] H; lia|]).
    apply NoDup_nil_2. }
  split; [exact Hnd|].
  destruct (sortSongs_renumbers string (λ _, "gone"%string) [2; 0; 1] sampleSongs Hnd)
    as (songs' & Hrun & Hcount & _ & Hall).
  { intros n Hn. change (size sampleSongs) with 3.
    rewrite !elem_of_cons, elem_of_nil in Hn. lia. }
  exists songs'. split; [exact Hrun|]. split; [exact Hcount|].
  destruct (Hall 0%nat 2 eq_refl) as (s0 & Hs0 & Hget0).
  destruct (Hall 2%nat 1 eq_refl) as (s2 & Hs2 & Hget2).
  injection Hs0 as <-. injection Hs2 as <-.
  split; [exact Hget0|exact Hget2].
Defined.

(** X24, on a fourth song that is given the number 5. *)
Lemma addSong_keeps_numbers_witness :
  numbered sampleSongs ∧
  ∃ songs',
    addSongNumbered (λ _ title _ _ _ _ _, title) 5 Standard "coda" false 150 0 6 64
      sampleSongs = Ok (tt, songs') ∧
    getSong 5 songs' = Ok (mkSong 5 "coda", songs') ∧
    ¬ numbered songs'.
Proof.
  assert (numbered sampleSongs) as Hnum.
  { intros i s Hi. do 3 (destruct i as [|i]; [injection Hi as <-; reflexivity|]).
    discriminate Hi. }
  split; [exact Hnum|].
  destruct (addSong_keeps_numbers string (λ _ title, title) (λ _ title _ _ _ _ _, title)
              sampleSongs Hnum) as [_ Hadd].
  destruct (Hadd 5 Standard "coda"%string false 150 0 6 64) as [_ Hok].
  destruct Hok as (songs' & Hrun & _ & Hget & Hiff); [lia|].
  exists songs'. split; [exact Hrun|]. split; [exact Hget|].
  intros Hn. apply Hiff in Hn. change (size sampleSongs) with 3 in Hn. lia.
Defined.

Section AssignableExamples.
Local Existing Instance sampleClasses.

(** X25, on the FM envelopes after three instruments were added: the two
    FM instruments have the first two slots. *)
Lemma findFirstAssignable_least_witness :
  validKind EnvFM = true ∧
  ∃ m',
    findFirstAssignable EnvFM (after threeInstruments newManager) = Ok (2, m') ∧
    insts_ m' = insts_ (after threeInstruments newManager) ∧
    ∀ k', users_ <$> pools_ m' k' = users_ <$> pools_ (after threeInstruments newManager) k'.
Proof.
  split; [reflexivity|].
  assert (users_ <$> pools_ (after threeInstruments newManager) EnvFM !! 0%nat = Some [0])
    as H0 by (vm_compute; reflexivity).
  assert (users_ <$> pools_ (after threeInstruments newManager) EnvFM !! 1%nat = Some [2])
    as H1 by (vm_compute; reflexivity).
  assert (users_ <$> pools_ (after threeInstruments newManager) EnvFM !! 2%nat = Some [])
    as H2 by (vm_compute; reflexivity).
  assert (regardingUnedited_ (after threeInstruments newManager) = false) as Hmode
    by (vm_compute; reflexivity).
  destruct (findFirstAssignable_least EnvFM (after threeInstruments newManager) eq_refl)
    as (n & m' & Hrun & Hnone & _ & Hsome & Hi & _ & Hu).
  revert H0 H1 H2 Hmode n m' Hrun Hnone Hsome Hi Hu.
  generalize (after threeInstruments newManager). intros m H0 H1 H2 Hmode n m' Hrun Hnone Hsome Hi Hu.
  apply fmap_Some in H0 as (p0 & Hp0 & Hu0).
  apply fmap_Some in H1 as (p1 & Hp1 & Hu1).
  apply fmap_Some in H2 as (p2 & Hp2 & Hu2).
  symmetry in Hu0, Hu1, Hu2.
  assert (∀ p, p ∈ pools_ m EnvFM →
               users_ p ≠ [] ∨ regardingUnedited_ m = true ∧ isEdited p = true →
               users_ p ≠ []) as Hused.
  { intros p _ [Hin|[Hr _]]; [exact Hin|]. rewrite Hmode in Hr. discriminate Hr. }
  assert (n ≠ -1) as Hn.
  { intros Heq. pose proof (proj1 Hnone Heq) as Hall.
    pose proof (list_elem_of_lookup_2 _ _ _ Hp2) as Hin2.
    apply (Hused p2 Hin2 (Hall p2 Hin2)). exact Hu2. }
  destruct (Hsome Hn) as (p & Hp & Hfree & _ & Hleast & _).
  assert (0 <= n) as Hpos.
  { unfold lookupZ in Hp. destruct (Z.leb_spec 0 n) as [Hle|Hlt]; [exact Hle|discriminate Hp]. }
  unfold lookupZ in Hp. rewrite (proj2 (Z.leb_le 0 n) Hpos) in Hp.
  assert (n = 2) as Hn2.
  { destruct (decide (n = 0)) as [->|Hn0].
    { exfalso. change (Z.to_nat 0) with 0%nat in Hp. rewrite Hp0 in Hp.
      injection Hp as <-. rewrite Hu0 in Hfree. discriminate Hfree. }
    destruct (decide (n = 1)) as [->|Hn1].
    { exfalso. change (Z.to_nat 1) with 1%nat in Hp. rewrite Hp1 in Hp.
      injection Hp as <-. rewrite Hu1 in Hfree. discriminate Hfree. }
    destruct (decide (2 < n)) as [Hbig|Hsmall]; [|lia].
    exfalso.
    assert (lookupZ (pools_ m EnvFM) 2 = Some p2) as Hl2 by exact Hp2.
    pose proof (list_elem_of_lookup_2 _ _ _ Hp2) as Hin2.
    apply (Hused p2 Hin2 (Hleast 2 p2 ltac:(lia) Hl2)). exact Hu2. }
  rewrite Hn2 in Hrun.
  exists m'. split; [exact Hrun|]. split; [exact Hi|exact Hu].
Defined.

End AssignableExamples.

Section ControllerFurtherExamples.
Local Existing Instance sampleParts.
Local Existing Instance sampleMembers.

(** X26, on a glide of three seminotes, 96 units of pitch, with a depth
    of 40: the third call arrives. *)
Lemma tone_portamento_arrives_witness :
  arpeggioIdle glidingController 0 ∧ 0 < prtmFM_ glidingController 0 ∧
  ∃ c',
    forM_ (replicate 3 tt) (λ _, checkPortamentoFM 0) glidingController = Ok (tt, c') ∧
    keyToneFM_ c' 0 = mkTone 4 0 0 ∧
    writes_ c' = [].
Proof.
  assert (arpeggioIdle glidingController 0) as Harp by exact I.
  assert (0 < prtmFM_ glidingController 0) as Hp by reflexivity.
  split; [exact Harp|]. split; [exact Hp|].
  destruct (tone_portamento_arrives 0 glidingController (mkTone 4 0 0) 3
              Harp Hp eq_refl eq_refl eq_refl)
    as (c' & Hrun & Hw & _ & _ & _ & Hat).
  exists c'. split; [exact Hrun|]. split; [|exact Hw].
  apply Hat; [discriminate|reflexivity].
Defined.

(** X27, on the second SSG channel, which sounds: the volume 9. *)
Lemma volume_SSG_in_range_witness :
  ∃ s1,
    setVolumeSSG 1 9 (restController Standard 0, soundingSSG) = Ok (tt, s1) ∧
    writes_ (fst s1) = [(0x09, 9)] ∧
    setVolumeSSG 1 16 (restController Standard 0, soundingSSG)
    = Ok (tt, (restController Standard 0, soundingSSG)).
Proof.
  destruct (volume_SSG_in_range 1 9 (restController Standard 0, soundingSSG))
    as [_ Hin]; [lia|].
  destruct (volume_SSG_in_range 1 16 (restController Standard 0, soundingSSG))
    as [Hout _]; [lia|].
  destruct Hin as (s1 & s2 & Hrun & _ & _ & _ & _ & _ & _ & Hsound); [lia|].
  destruct (Hsound eq_refl) as (v1 & v2 & Hw & _ & _ & _ & _ & _ & Hplain).
  destruct (Hplain eq_refl eq_refl eq_refl) as [-> _].
  exists s1. split; [exact Hrun|]. split; [exact Hw|]. exact (proj1 (Hout ltac:(lia))).
Defined.

End ControllerFurtherExamples.
